(** * A shallow embedding of [dqbf_solver.py]

    The solver object of class [DQBFSolver] is a record; its methods are
    computations in a state-and-exception monad over that record, so that a
    method which raises leaves behind exactly the mutations it had performed
    before raising, as in Python.

    The CDCL engine (PySAT) is a black box: a SAT object is the sequence of
    calls it has received, and its answers come from an [oracle] that may
    depend on that whole sequence.  Python's builtin [int(str)] is likewise a
    parameter.  [logging] calls have no effect on the object and are left
    out; the diagnostic name table and the three diagnostic logs are kept. *)

From stdpp Require Import gmap strings list sorting pretty.

Local Open Scope Z_scope.

(** ** Literals and clauses *)

Definition lit := Z.
Definition clause := list Z.

(** ** Python dictionaries whose iteration order is observed

    [dict] keeps insertion order: assigning to an existing key keeps its
    position, a new key goes last. *)

Module Dict.
Section dict.
Context {K V : Type} `{EqDecision K}.

Definition t := list (K * V).

Definition empty : t := [].

Fixpoint get (d : t) (k : K) : option V :=
  match d with
  | [] => None
  | (k', v) :: d' => if decide (k' = k) then Some v else get d' k
  end.

Definition mem (d : t) (k : K) : bool :=
  match get d k with Some _ => true | None => false end.

Fixpoint set (d : t) (k : K) (v : V) : t :=
  match d with
  | [] => [(k, v)]
  | (k', v') :: d' =>
      if decide (k' = k) then (k, v) :: d' else (k', v') :: set d' k v
  end.

Definition keys (d : t) : list K := d.*1.
Definition values (d : t) : list V := d.*2.
End dict.
Global Arguments t : clear implicits.
End Dict.

(** ** The SAT service

    A solver object is the history of calls made on it plus the answer to
    the last [solve]. *)

Inductive sat_event :=
| AddClause (c : clause)
| Solve (assumptions : list Z).

Inductive sat_answer :=
| Sat (model : list Z)
| Unsat (core : option (list Z)).

Record SAT := mkSAT {
  events : list sat_event;
  status : option sat_answer
}.

Definition sat_oracle := list sat_event → list Z → sat_answer.

Module Sat.
Definition new : SAT := mkSAT [] None.

Definition add_clause (s : SAT) (c : clause) : SAT :=
  mkSAT (events s ++ [AddClause c]) (status s).

Definition bootstrap_with (m : list clause) : SAT :=
  foldl add_clause new m.

Definition solve (oracle : sat_oracle) (s : SAT) (assumptions : list Z)
  : bool * SAT :=
  let r := oracle (events s) assumptions in
  (match r with Sat _ => true | Unsat _ => false end,
   mkSAT (events s ++ [Solve assumptions]) (Some r)).

Definition get_model (s : SAT) : option (list Z) :=
  match status s with Some (Sat m) => Some m | _ => None end.

Definition get_core (s : SAT) : option (list Z) :=
  match status s with Some (Unsat c) => c | _ => None end.

Definition clauses (s : SAT) : list clause :=
  omap (λ ev, match ev with AddClause c => Some c | Solve _ => None end)
       (events s).

Definition queries (s : SAT) : list (list Z) :=
  omap (λ ev, match ev with Solve a => Some a | AddClause _ => None end)
       (events s).
End Sat.

(** ** The fresh-id counter *)

(** Modelled from the spec: the class [Counter] of module [counter], which is
    not among the sources.  Spec 4.1: a single operation returning
    [watermark + 1] and incrementing; construction takes the starting
    watermark. *)
Module Counter.
Definition t := Z.
Definition new (start : Z) : t := start.
Definition increase (c : t) : Z * t := (c + 1, c + 1).
End Counter.

(** ** Exceptions *)

Inductive exn :=
| ValueError
| KeyError
| TypeError
| AssertionError
| RecursionError
| SystemExit (code : Z).

Inductive res (A : Type) :=
| Val (a : A)
| Exc (e : exn).
Global Arguments Val {A} a.
Global Arguments Exc {A} e.

(** ** The solver object *)

Record DQBFSolver := mkSolver {
  name_to_id : gmap string Z;
  id_to_name : gmap Z string;
  dependencies : list (string * list string);
  matrix : list clause;
  universal_vars : list string;
  output_gate_id : Z;
  counter : Counter.t;
  existential_vars : list string;
  universal_var_ids : list Z;
  existential_var_ids : list Z;
  dependencies_by_id : gmap Z (gset Z);
  dependencies_by_id_list : gmap Z (list Z);
  value_vars : Dict.t Z Z;
  no_rule_fired_vars : Dict.t Z Z;
  rule_fire_vars : Dict.t Z Z;
  all_rule_fire_vars : list (Z * Z * string);
  all_no_rule_fired_vars : list (Z * Z * Z);
  all_value_vars : list (Z * Z * Z);
  permanent_assumptions : list Z;
  expansion_vars : gmap (Z * list Z) Z;
  expansion_vars_set : gset Z;
  expansion_variable_assignment : list Z;
  expansion_solver : SAT;
  counterexample_solver : SAT;
  last_counterexample_existentials : option (gset Z);
  last_counterexample_universals : option (gset Z)
}.

(** Attribute assignment [self.f = v], one function per attribute the
    methods assign to. *)

Definition set_id_to_name (v : gmap Z string) (s : DQBFSolver) : DQBFSolver :=
  mkSolver (name_to_id s) v (dependencies s) (matrix s) (universal_vars s)
    (output_gate_id s) (counter s) (existential_vars s) (universal_var_ids s)
    (existential_var_ids s) (dependencies_by_id s) (dependencies_by_id_list s)
    (value_vars s) (no_rule_fired_vars s) (rule_fire_vars s)
    (all_rule_fire_vars s) (all_no_rule_fired_vars s) (all_value_vars s)
    (permanent_assumptions s) (expansion_vars s) (expansion_vars_set s)
    (expansion_variable_assignment s) (expansion_solver s)
    (counterexample_solver s) (last_counterexample_existentials s)
    (last_counterexample_universals s).

Definition set_counter (v : Counter.t) (s : DQBFSolver) : DQBFSolver :=
  mkSolver (name_to_id s) (id_to_name s) (dependencies s) (matrix s)
    (universal_vars s) (output_gate_id s) v (existential_vars s)
    (universal_var_ids s) (existential_var_ids s) (dependencies_by_id s)
    (dependencies_by_id_list s) (value_vars s) (no_rule_fired_vars s)
    (rule_fire_vars s) (all_rule_fire_vars s) (all_no_rule_fired_vars s)
    (all_value_vars s) (permanent_assumptions s) (expansion_vars s)
    (expansion_vars_set s) (expansion_variable_assignment s) (expansion_solver
    s) (counterexample_solver s) (last_counterexample_existentials s)
    (last_counterexample_universals s).

Definition set_value_vars (v : Dict.t Z Z) (s : DQBFSolver) : DQBFSolver :=
  mkSolver (name_to_id s) (id_to_name s) (dependencies s) (matrix s)
    (universal_vars s) (output_gate_id s) (counter s) (existential_vars s)
    (universal_var_ids s) (existential_var_ids s) (dependencies_by_id s)
    (dependencies_by_id_list s) v (no_rule_fired_vars s) (rule_fire_vars s)
    (all_rule_fire_vars s) (all_no_rule_fired_vars s) (all_value_vars s)
    (permanent_assumptions s) (expansion_vars s) (expansion_vars_set s)
    (expansion_variable_assignment s) (expansion_solver s)
    (counterexample_solver s) (last_counterexample_existentials s)
    (last_counterexample_universals s).

Definition set_no_rule_fired_vars (v : Dict.t Z Z) (s : DQBFSolver) : DQBFSolver :=
  mkSolver (name_to_id s) (id_to_name s) (dependencies s) (matrix s)
    (universal_vars s) (output_gate_id s) (counter s) (existential_vars s)
    (universal_var_ids s) (existential_var_ids s) (dependencies_by_id s)
    (dependencies_by_id_list s) (value_vars s) v (rule_fire_vars s)
    (all_rule_fire_vars s) (all_no_rule_fired_vars s) (all_value_vars s)
    (permanent_assumptions s) (expansion_vars s) (expansion_vars_set s)
    (expansion_variable_assignment s) (expansion_solver s)
    (counterexample_solver s) (last_counterexample_existentials s)
    (last_counterexample_universals s).

Definition set_rule_fire_vars (v : Dict.t Z Z) (s : DQBFSolver) : DQBFSolver :=
  mkSolver (name_to_id s) (id_to_name s) (dependencies s) (matrix s)
    (universal_vars s) (output_gate_id s) (counter s) (existential_vars s)
    (universal_var_ids s) (existential_var_ids s) (dependencies_by_id s)
    (dependencies_by_id_list s) (value_vars s) (no_rule_fired_vars s) v
    (all_rule_fire_vars s) (all_no_rule_fired_vars s) (all_value_vars s)
    (permanent_assumptions s) (expansion_vars s) (expansion_vars_set s)
    (expansion_variable_assignment s) (expansion_solver s)
    (counterexample_solver s) (last_counterexample_existentials s)
    (last_counterexample_universals s).

Definition set_all_rule_fire_vars (v : list (Z * Z * string)) (s : DQBFSolver) : DQBFSolver :=
  mkSolver (name_to_id s) (id_to_name s) (dependencies s) (matrix s)
    (universal_vars s) (output_gate_id s) (counter s) (existential_vars s)
    (universal_var_ids s) (existential_var_ids s) (dependencies_by_id s)
    (dependencies_by_id_list s) (value_vars s) (no_rule_fired_vars s)
    (rule_fire_vars s) v (all_no_rule_fired_vars s) (all_value_vars s)
    (permanent_assumptions s) (expansion_vars s) (expansion_vars_set s)
    (expansion_variable_assignment s) (expansion_solver s)
    (counterexample_solver s) (last_counterexample_existentials s)
    (last_counterexample_universals s).

Definition set_all_no_rule_fired_vars (v : list (Z * Z * Z)) (s : DQBFSolver) : DQBFSolver :=
  mkSolver (name_to_id s) (id_to_name s) (dependencies s) (matrix s)
    (universal_vars s) (output_gate_id s) (counter s) (existential_vars s)
    (universal_var_ids s) (existential_var_ids s) (dependencies_by_id s)
    (dependencies_by_id_list s) (value_vars s) (no_rule_fired_vars s)
    (rule_fire_vars s) (all_rule_fire_vars s) v (all_value_vars s)
    (permanent_assumptions s) (expansion_vars s) (expansion_vars_set s)
    (expansion_variable_assignment s) (expansion_solver s)
    (counterexample_solver s) (last_counterexample_existentials s)
    (last_counterexample_universals s).

Definition set_all_value_vars (v : list (Z * Z * Z)) (s : DQBFSolver) : DQBFSolver :=
  mkSolver (name_to_id s) (id_to_name s) (dependencies s) (matrix s)
    (universal_vars s) (output_gate_id s) (counter s) (existential_vars s)
    (universal_var_ids s) (existential_var_ids s) (dependencies_by_id s)
    (dependencies_by_id_list s) (value_vars s) (no_rule_fired_vars s)
    (rule_fire_vars s) (all_rule_fire_vars s) (all_no_rule_fired_vars s) v
    (permanent_assumptions s) (expansion_vars s) (expansion_vars_set s)
    (expansion_variable_assignment s) (expansion_solver s)
    (counterexample_solver s) (last_counterexample_existentials s)
    (last_counterexample_universals s).

Definition set_permanent_assumptions (v : list Z) (s : DQBFSolver) : DQBFSolver :=
  mkSolver (name_to_id s) (id_to_name s) (dependencies s) (matrix s)
    (universal_vars s) (output_gate_id s) (counter s) (existential_vars s)
    (universal_var_ids s) (existential_var_ids s) (dependencies_by_id s)
    (dependencies_by_id_list s) (value_vars s) (no_rule_fired_vars s)
    (rule_fire_vars s) (all_rule_fire_vars s) (all_no_rule_fired_vars s)
    (all_value_vars s) v (expansion_vars s) (expansion_vars_set s)
    (expansion_variable_assignment s) (expansion_solver s)
    (counterexample_solver s) (last_counterexample_existentials s)
    (last_counterexample_universals s).

Definition set_expansion_vars (v : gmap (Z * list Z) Z) (s : DQBFSolver) : DQBFSolver :=
  mkSolver (name_to_id s) (id_to_name s) (dependencies s) (matrix s)
    (universal_vars s) (output_gate_id s) (counter s) (existential_vars s)
    (universal_var_ids s) (existential_var_ids s) (dependencies_by_id s)
    (dependencies_by_id_list s) (value_vars s) (no_rule_fired_vars s)
    (rule_fire_vars s) (all_rule_fire_vars s) (all_no_rule_fired_vars s)
    (all_value_vars s) (permanent_assumptions s) v (expansion_vars_set s)
    (expansion_variable_assignment s) (expansion_solver s)
    (counterexample_solver s) (last_counterexample_existentials s)
    (last_counterexample_universals s).

Definition set_expansion_vars_set (v : gset Z) (s : DQBFSolver) : DQBFSolver :=
  mkSolver (name_to_id s) (id_to_name s) (dependencies s) (matrix s)
    (universal_vars s) (output_gate_id s) (counter s) (existential_vars s)
    (universal_var_ids s) (existential_var_ids s) (dependencies_by_id s)
    (dependencies_by_id_list s) (value_vars s) (no_rule_fired_vars s)
    (rule_fire_vars s) (all_rule_fire_vars s) (all_no_rule_fired_vars s)
    (all_value_vars s) (permanent_assumptions s) (expansion_vars s) v
    (expansion_variable_assignment s) (expansion_solver s)
    (counterexample_solver s) (last_counterexample_existentials s)
    (last_counterexample_universals s).

Definition set_expansion_variable_assignment (v : list Z) (s : DQBFSolver) : DQBFSolver :=
  mkSolver (name_to_id s) (id_to_name s) (dependencies s) (matrix s)
    (universal_vars s) (output_gate_id s) (counter s) (existential_vars s)
    (universal_var_ids s) (existential_var_ids s) (dependencies_by_id s)
    (dependencies_by_id_list s) (value_vars s) (no_rule_fired_vars s)
    (rule_fire_vars s) (all_rule_fire_vars s) (all_no_rule_fired_vars s)
    (all_value_vars s) (permanent_assumptions s) (expansion_vars s)
    (expansion_vars_set s) v (expansion_solver s) (counterexample_solver s)
    (last_counterexample_existentials s) (last_counterexample_universals s).

Definition set_expansion_solver (v : SAT) (s : DQBFSolver) : DQBFSolver :=
  mkSolver (name_to_id s) (id_to_name s) (dependencies s) (matrix s)
    (universal_vars s) (output_gate_id s) (counter s) (existential_vars s)
    (universal_var_ids s) (existential_var_ids s) (dependencies_by_id s)
    (dependencies_by_id_list s) (value_vars s) (no_rule_fired_vars s)
    (rule_fire_vars s) (all_rule_fire_vars s) (all_no_rule_fired_vars s)
    (all_value_vars s) (permanent_assumptions s) (expansion_vars s)
    (expansion_vars_set s) (expansion_variable_assignment s) v
    (counterexample_solver s) (last_counterexample_existentials s)
    (last_counterexample_universals s).

Definition set_counterexample_solver (v : SAT) (s : DQBFSolver) : DQBFSolver :=
  mkSolver (name_to_id s) (id_to_name s) (dependencies s) (matrix s)
    (universal_vars s) (output_gate_id s) (counter s) (existential_vars s)
    (universal_var_ids s) (existential_var_ids s) (dependencies_by_id s)
    (dependencies_by_id_list s) (value_vars s) (no_rule_fired_vars s)
    (rule_fire_vars s) (all_rule_fire_vars s) (all_no_rule_fired_vars s)
    (all_value_vars s) (permanent_assumptions s) (expansion_vars s)
    (expansion_vars_set s) (expansion_variable_assignment s) (expansion_solver
    s) v (last_counterexample_existentials s) (last_counterexample_universals
    s).

Definition set_last_counterexample_existentials (v : option (gset Z)) (s : DQBFSolver) : DQBFSolver :=
  mkSolver (name_to_id s) (id_to_name s) (dependencies s) (matrix s)
    (universal_vars s) (output_gate_id s) (counter s) (existential_vars s)
    (universal_var_ids s) (existential_var_ids s) (dependencies_by_id s)
    (dependencies_by_id_list s) (value_vars s) (no_rule_fired_vars s)
    (rule_fire_vars s) (all_rule_fire_vars s) (all_no_rule_fired_vars s)
    (all_value_vars s) (permanent_assumptions s) (expansion_vars s)
    (expansion_vars_set s) (expansion_variable_assignment s) (expansion_solver
    s) (counterexample_solver s) v (last_counterexample_universals s).

Definition set_last_counterexample_universals (v : option (gset Z)) (s : DQBFSolver) : DQBFSolver :=
  mkSolver (name_to_id s) (id_to_name s) (dependencies s) (matrix s)
    (universal_vars s) (output_gate_id s) (counter s) (existential_vars s)
    (universal_var_ids s) (existential_var_ids s) (dependencies_by_id s)
    (dependencies_by_id_list s) (value_vars s) (no_rule_fired_vars s)
    (rule_fire_vars s) (all_rule_fire_vars s) (all_no_rule_fired_vars s)
    (all_value_vars s) (permanent_assumptions s) (expansion_vars s)
    (expansion_vars_set s) (expansion_variable_assignment s) (expansion_solver
    s) (counterexample_solver s) (last_counterexample_existentials s) v.

(** ** State and exceptions *)

Definition M (S A : Type) : Type := S → res A * S.

Definition ret {S A} (a : A) : M S A := λ s, (Val a, s).

Definition bind {S A B} (m : M S A) (k : A → M S B) : M S B :=
  λ s, match m s with
       | (Val a, s') => k a s'
       | (Exc e, s') => (Exc e, s')
       end.

Definition raise {S A} (e : exn) : M S A := λ s, (Exc e, s).
Definition gets {S A} (f : S → A) : M S A := λ s, (Val (f s), s).
Definition modify {S} (f : S → S) : M S unit := λ s, (Val tt, f s).

Declare Scope py_scope.
Delimit Scope py_scope with py.
Notation "x <- c1 ;; c2" := (bind c1 (λ x, c2))
  (at level 100, c1 at next level, right associativity) : py_scope.
Notation "c1 ;; c2" := (bind c1 (λ _, c2))
  (at level 100, right associativity) : py_scope.
Local Open Scope py_scope.

(** [d[k]] on a lookup result: a missing key raises [KeyError]. *)
Definition subscript {S A} (o : option A) : M S A :=
  match o with Some a => ret a | None => raise KeyError end.

(** [for x in l: body x] *)
Fixpoint for_each {S A} (l : list A) (body : A → M S unit) : M S unit :=
  match l with
  | [] => ret tt
  | x :: l' => body x ;; for_each l' body
  end.

(** ** Python builtins used by the methods *)

(** [sorted(l, key=abs)]; Python's sort is stable. *)
Fixpoint insert_by_abs (x : Z) (l : list Z) : list Z :=
  match l with
  | [] => [x]
  | y :: l' =>
      if bool_decide (Z.abs x ≤ Z.abs y) then x :: y :: l'
      else y :: insert_by_abs x l'
  end.

Definition sorted_by_abs (l : list Z) : list Z := foldr insert_by_abs [] l.

(** [s.split(sep)] for a non-empty [sep]: pieces between the occurrences of
    [sep] found scanning left to right without overlap. *)
Fixpoint split_go (sep : string) (skip : nat) (piece s : string) : list string :=
  match s with
  | EmptyString => [piece]
  | String c s' =>
      match skip with
      | S k => split_go sep k piece s'
      | O =>
          if String.prefix sep s
          then piece :: split_go sep (String.length sep - 1) EmptyString s'
          else split_go sep 0 (piece +:+ String c EmptyString) s'
      end
  end.

Definition py_split (s sep : string) : list string :=
  split_go sep 0 EmptyString s.

(** [str(n)] for an integer. *)
Definition py_str (n : Z) : string := pretty n.

(** [itertools.product([False, True], repeat=n)] *)
Fixpoint product_bools (n : nat) : list (list bool) :=
  match n with
  | O => [[]]
  | S n' =>
      ((λ r, false :: r) <$> product_bools n') ++
      ((λ r, true :: r) <$> product_bools n')
  end.

(** ** Methods of [DQBFSolver] *)

Definition counter_increase : M DQBFSolver Z :=
  λ s, let '(v, c) := Counter.increase (counter s) in (Val v, set_counter c s).

Definition cex_add_clause (c : clause) : M DQBFSolver unit :=
  modify (λ s, set_counterexample_solver
                 (Sat.add_clause (counterexample_solver s) c) s).

Definition set_name (i : Z) (name : string) : M DQBFSolver unit :=
  modify (λ s, set_id_to_name (<[i := name]> (id_to_name s)) s).

Definition format_literals (names : gmap Z string) (literals : list Z) : string :=
  let part lit :=
    let var_id := Z.abs lit in
    let var_name := default ("id" +:+ py_str var_id) (names !! var_id) in
    if bool_decide (0 < lit) then var_name else "~" +:+ var_name in
  "[" +:+ String.concat ", " (part <$> sorted_by_abs literals) +:+ "]".

Definition init_model (existential_var_id : Z) : M DQBFSolver unit :=
  ids <- gets existential_var_ids ;;
  if negb (bool_decide (existential_var_id ∈ ids)) then raise ValueError else
  vv <- gets value_vars ;;
  if Dict.mem vv existential_var_id then ret tt else
  names <- gets id_to_name ;;
  let exist_name :=
    default ("var" +:+ py_str existential_var_id) (names !! existential_var_id) in
  value_var_1 <- counter_increase ;;
  modify (λ s, set_value_vars
                 (Dict.set (value_vars s) existential_var_id value_var_1) s) ;;
  set_name value_var_1 (exist_name +:+ "_value_1") ;;
  modify (λ s, set_all_value_vars
                 (all_value_vars s ++ [(existential_var_id, value_var_1, 1)]) s) ;;
  no_rule_fired_0 <- counter_increase ;;
  modify (λ s, set_no_rule_fired_vars
                 (Dict.set (no_rule_fired_vars s) existential_var_id no_rule_fired_0) s) ;;
  set_name no_rule_fired_0 (exist_name +:+ "_nofired_0") ;;
  modify (λ s, set_all_no_rule_fired_vars
                 (all_no_rule_fired_vars s ++ [(existential_var_id, no_rule_fired_0, 0)]) s) ;;
  fires_var_1 <- counter_increase ;;
  modify (λ s, set_rule_fire_vars
                 (Dict.set (rule_fire_vars s) existential_var_id fires_var_1) s) ;;
  set_name fires_var_1 (exist_name +:+ "_fire_1") ;;
  modify (λ s, set_all_rule_fire_vars
                 (all_rule_fire_vars s ++ [(existential_var_id, fires_var_1, "default")]) s) ;;
  cex_add_clause [no_rule_fired_0] ;;
  cex_add_clause [- no_rule_fired_0; - fires_var_1; - existential_var_id; value_var_1] ;;
  cex_add_clause [- no_rule_fired_0; - fires_var_1; existential_var_id; - value_var_1].

Definition set_default_value (existential_var_id : Z) (value : bool)
  : M DQBFSolver unit :=
  vv <- gets value_vars ;;
  if negb (Dict.mem vv existential_var_id) then raise ValueError else
  current_value_var <- subscript (Dict.get vv existential_var_id) ;;
  modify (λ s, set_value_vars
                 (Dict.set (value_vars s) existential_var_id
                    (if value then current_value_var else - current_value_var)) s).

(** The loop of [add_rule] that renames the first log entry of the rule-fire
    variable now given a premise. *)
Fixpoint update_fire_log (log : list (Z * Z * string))
    (existential_var_id this_rule_fired : Z) (premise_name : string)
  : list (Z * Z * string) :=
  match log with
  | [] => []
  | (eid, fid, pname) :: log' =>
      if bool_decide (eid = existential_var_id) && bool_decide (fid = this_rule_fired)
      then (eid, fid, premise_name) :: log'
      else (eid, fid, pname) :: update_fire_log log' existential_var_id this_rule_fired premise_name
  end.

(** ** The local class [UnionFind] of [detect_equivalent_existentials] *)

Module UnionFind.
Record t := mk {
  parent : Dict.t Z Z;
  rank : Dict.t Z Z
}.

Definition set_parent (x v : Z) (u : t) : t := mk (Dict.set (parent u) x v) (rank u).
Definition set_rank (x v : Z) (u : t) : t := mk (parent u) (Dict.set (rank u) x v).

Definition init (elements : list Z) : t :=
  mk (foldl (λ d elem, Dict.set d elem elem) Dict.empty elements)
     (foldl (λ d elem, Dict.set d elem 0) Dict.empty elements).

(** [limit] is the number of nested calls the interpreter still allows. *)
Fixpoint find (limit : nat) (x : Z) : M t Z :=
  match limit with
  | O => raise RecursionError
  | S limit' =>
      p <- (u <- gets parent ;; subscript (Dict.get u x)) ;;
      (if bool_decide (p ≠ x) then
         p' <- (u <- gets parent ;; subscript (Dict.get u x)) ;;
         r <- find limit' p' ;;
         modify (set_parent x r)
       else ret tt) ;;
      u <- gets parent ;; subscript (Dict.get u x)
  end.

Definition union (limit : nat) (x y : Z) : M t unit :=
  root_x <- find limit x ;;
  root_y <- find limit y ;;
  if bool_decide (root_x = root_y) then ret tt else
  rk <- gets rank ;;
  rank_x <- subscript (Dict.get rk root_x) ;;
  rank_y <- subscript (Dict.get rk root_y) ;;
  if bool_decide (rank_x < rank_y) then modify (set_parent root_x root_y)
  else if bool_decide (rank_x > rank_y) then modify (set_parent root_y root_x)
  else
    modify (set_parent root_y root_x) ;;
    rk' <- gets rank ;;
    r <- subscript (Dict.get rk' root_x) ;;
    modify (set_rank root_x (r + 1)).

Definition same_set (limit : nat) (x y : Z) : M t bool :=
  rx <- find limit x ;;
  ry <- find limit y ;;
  ret (bool_decide (rx = ry)).

Fixpoint get_classes_loop (limit : nat) (elems : list Z)
    (classes : Dict.t Z (list Z)) : M t (Dict.t Z (list Z)) :=
  match elems with
  | [] => ret classes
  | elem :: rest =>
      root <- find limit elem ;;
      let classes1 :=
        if Dict.mem classes root then classes else Dict.set classes root [] in
      get_classes_loop limit rest
        (Dict.set classes1 root (default [] (Dict.get classes1 root) ++ [elem]))
  end.

Definition get_classes (limit : nat) : M t (Dict.t Z (list Z)) :=
  u <- gets parent ;;
  get_classes_loop limit (Dict.keys u) Dict.empty.
End UnionFind.

(** [sorted(d.items())] for a dictionary keyed by integers: keys are
    distinct, so the order of the pairs is the order of their keys. *)
Fixpoint insert_item {V} (x : Z * V) (l : list (Z * V)) : list (Z * V) :=
  match l with
  | [] => [x]
  | y :: l' =>
      if bool_decide (x.1 ≤ y.1) then x :: y :: l' else y :: insert_item x l'
  end.

Definition sorted_items {V} (d : Dict.t Z V) : list (Z * V) :=
  foldr insert_item [] d.

(** The local variables of [detect_equivalent_existentials] next to [self]. *)
Record DetectFrame := mkFrame {
  self : DQBFSolver;
  detection_solver : SAT;
  uf : UnionFind.t
}.

Definition lift_self {A} (m : M DQBFSolver A) : M DetectFrame A :=
  λ f, let '(r, s) := m (self f) in (r, mkFrame s (detection_solver f) (uf f)).

Definition lift_uf {A} (m : M UnionFind.t A) : M DetectFrame A :=
  λ f, let '(r, u) := m (uf f) in (r, mkFrame (self f) (detection_solver f) u).

Definition detection_add_clause (c : clause) : M DetectFrame unit :=
  modify (λ f, mkFrame (self f) (Sat.add_clause (detection_solver f) c) (uf f)).

Section Methods.

(** Python's [int(s)] on a string; [None] stands for [ValueError]. *)
Variable py_int : string → option Z.

(** The CDCL engine behind every SAT object. *)
Variable oracle : sat_oracle.

(** How many nested calls of [UnionFind.find] the interpreter allows
    before [RecursionError]. *)
Variable recursion_limit : nat.

(** Whether [logging.getLogger().isEnabledFor(logging.DEBUG)]. *)
Variable debug_enabled : bool.

Definition add_rule (existential_var_id : Z) (premise : list Z)
    (conclusion : bool) (value_var : option Z) : M DQBFSolver unit :=
  vv <- gets value_vars ;;
  if negb (Dict.mem vv existential_var_id) then raise ValueError else
  nrf <- gets no_rule_fired_vars ;;
  previous_no_rule_fired <- subscript (Dict.get nrf existential_var_id) ;;
  rf <- gets rule_fire_vars ;;
  this_rule_fired <- subscript (Dict.get rf existential_var_id) ;;
  cur <- subscript (Dict.get vv existential_var_id) ;;
  let this_value_var := Z.abs cur in
  names <- gets id_to_name ;;
  let exist_name :=
    default ("var" +:+ py_str existential_var_id) (names !! existential_var_id) in
  let current_fire_name := default "" (names !! Z.abs this_rule_fired) in
  let rule_num :=
    match py_int (default "" (last (py_split current_fire_name "_fire_"))) with
    | Some n => n + 1
    | None => 2
    end in
  next_rule_fired <- counter_increase ;;
  this_no_rule_fired <- counter_increase ;;
  next_value_var <- counter_increase ;;
  modify (λ s, set_rule_fire_vars
                 (Dict.set (rule_fire_vars s) existential_var_id next_rule_fired) s) ;;
  modify (λ s, set_no_rule_fired_vars
                 (Dict.set (no_rule_fired_vars s) existential_var_id this_no_rule_fired) s) ;;
  modify (λ s, set_value_vars
                 (Dict.set (value_vars s) existential_var_id next_value_var) s) ;;
  names' <- gets id_to_name ;;
  let premise_name :=
    match premise with [] => "true" | _ => format_literals names' premise end in
  set_name (Z.abs this_rule_fired)
    (exist_name +:+ "_fire_" +:+ py_str (rule_num - 1) +:+ "_premise_" +:+ premise_name) ;;
  modify (λ s, set_all_rule_fire_vars
                 (update_fire_log (all_rule_fire_vars s) existential_var_id
                    this_rule_fired premise_name) s) ;;
  set_name next_rule_fired (exist_name +:+ "_fire_" +:+ py_str rule_num) ;;
  set_name this_no_rule_fired (exist_name +:+ "_nofired_" +:+ py_str (rule_num - 1)) ;;
  set_name next_value_var (exist_name +:+ "_value_" +:+ py_str rule_num) ;;
  log <- gets all_rule_fire_vars ;;
  let rule_index :=
    Z.of_nat (length (filter (λ x, x.1.1 = existential_var_id) log)) in
  modify (λ s, set_all_rule_fire_vars
                 (all_rule_fire_vars s ++ [(existential_var_id, next_rule_fired, "default")]) s) ;;
  modify (λ s, set_all_no_rule_fired_vars
                 (all_no_rule_fired_vars s ++ [(existential_var_id, this_no_rule_fired, rule_index)]) s) ;;
  modify (λ s, set_all_value_vars
                 (all_value_vars s ++ [(existential_var_id, next_value_var, rule_num)]) s) ;;
  for_each premise (λ lit, cex_add_clause [- this_rule_fired; lit]) ;;
  cex_add_clause ((Z.opp <$> premise) ++ [this_rule_fired]) ;;
  cex_add_clause [- this_no_rule_fired; previous_no_rule_fired] ;;
  cex_add_clause [- this_no_rule_fired; - this_rule_fired] ;;
  cex_add_clause [this_no_rule_fired; - previous_no_rule_fired; this_rule_fired] ;;
  cex_add_clause [- next_rule_fired; - this_no_rule_fired; - existential_var_id; next_value_var] ;;
  cex_add_clause [- next_rule_fired; - this_no_rule_fired; existential_var_id; - next_value_var] ;;
  match value_var with
  | None =>
      let conclusion_lit := if conclusion then this_value_var else - this_value_var in
      modify (λ s, set_permanent_assumptions
                     (permanent_assumptions s ++ [conclusion_lit]) s)
  | Some value_var =>
      cex_add_clause [- this_value_var; value_var] ;;
      cex_add_clause [this_value_var; - value_var]
  end.

Definition get_expansion_variable (existential_var_id : Z) (assignment : list Z)
  : M DQBFSolver Z :=
  ids <- gets existential_var_ids ;;
  if negb (bool_decide (existential_var_id ∈ ids)) then raise ValueError else
  deps <- gets dependencies_by_id ;;
  let dep_set : gset Z := default ∅ (deps !! existential_var_id) in
  let assignment_vars : gset Z := list_to_set (Z.abs <$> assignment) in
  if negb (bool_decide (assignment_vars ⊆ dep_set)) then raise ValueError else
  let assignment_tuple := sorted_by_abs assignment in
  let key := (existential_var_id, assignment_tuple) in
  ev <- gets expansion_vars ;;
  match ev !! key with
  | Some x => ret x
  | None =>
      expansion_var_id <- counter_increase ;;
      names <- gets id_to_name ;;
      match names !! existential_var_id with
      | Some exist_name =>
          let assignment_str :=
            String.concat "_"
              ((λ lit, py_str (Z.abs lit) +:+ "=" +:+
                       (if bool_decide (0 < lit) then "T" else "F"))
                 <$> assignment_tuple) in
          set_name expansion_var_id ("exp_" +:+ exist_name +:+ "_" +:+ assignment_str)
      | None => ret tt
      end ;;
      modify (λ s, set_expansion_vars (<[key := expansion_var_id]> (expansion_vars s)) s) ;;
      add_rule existential_var_id assignment true (Some expansion_var_id) ;;
      modify (λ s, set_expansion_vars_set ({[expansion_var_id]} ∪ expansion_vars_set s) s) ;;
      ret expansion_var_id
  end.

Definition cex_solve (assumptions : list Z) : M DQBFSolver bool :=
  λ s, let '(r, cs) := Sat.solve oracle (counterexample_solver s) assumptions in
       (Val r, set_counterexample_solver cs s).

Definition assumptions_step1 (s : DQBFSolver) : list Z :=
  [- output_gate_id s] ++ permanent_assumptions s ++
  Dict.values (rule_fire_vars s) ++ Dict.values (value_vars s) ++
  expansion_variable_assignment s.

Definition get_counterexample
  : M DQBFSolver (bool * option (list Z * list Z)) :=
  assumptions_step1 <- gets assumptions_step1 ;;
  result <- cex_solve assumptions_step1 ;;
  if negb result then ret (false, None) else
  m <- gets (λ s, Sat.get_model (counterexample_solver s)) ;;
  match m with
  | None => raise TypeError
  | Some model =>
      uids <- gets universal_var_ids ;;
      eids <- gets existential_var_ids ;;
      let counterexample_universals := filter (λ lit, Z.abs lit ∈ uids) model in
      let counterexample_existentials := filter (λ lit, Z.abs lit ∈ eids) model in
      unnegated_output <- gets output_gate_id ;;
      let assumptions :=
        counterexample_universals ++ counterexample_existentials ++ [unnegated_output] in
      result2 <- cex_solve assumptions ;;
      if result2 then raise AssertionError else
      core <- gets (λ s, Sat.get_core (counterexample_solver s)) ;;
      let core := default [] core in
      let existential_core := filter (λ lit, Z.abs lit ∈ eids) core in
      ret (true, Some (existential_core, counterexample_universals))
  end.

(** The loop of [analyze_counterexample]; [expansion_clause] is the local
    list the loop appends to. *)
Fixpoint analyze_loop (existential_literals universal_literals : list Z)
    (expansion_clause : list Z) : M DQBFSolver (list Z) :=
  match existential_literals with
  | [] => ret expansion_clause
  | exist_lit :: rest =>
      let exist_id := Z.abs exist_lit in
      deps <- gets dependencies_by_id ;;
      let assignment :=
        filter (λ lit, Z.abs lit ∈ default (∅ : gset Z) (deps !! exist_id))
               universal_literals in
      expansion_var <- get_expansion_variable exist_id assignment ;;
      if bool_decide (0 < exist_lit) then
        set_default_value exist_id false ;;
        analyze_loop rest universal_literals (expansion_clause ++ [- expansion_var])
      else
        set_default_value exist_id true ;;
        analyze_loop rest universal_literals (expansion_clause ++ [expansion_var])
  end.

Definition analyze_counterexample (existential_literals universal_literals : list Z)
  : M DQBFSolver unit :=
  expansion_clause <- analyze_loop existential_literals universal_literals [] ;;
  modify (λ s, set_expansion_solver
                 (Sat.add_clause (expansion_solver s) expansion_clause) s).

Definition compute_model_functions (universal_literals : list Z)
  : M DQBFSolver (option (list Z)) :=
  s0 <- gets id ;;
  let base :=
    permanent_assumptions s0 ++ Dict.values (rule_fire_vars s0) ++
    Dict.values (value_vars s0) ++ universal_literals in
  let extra exist_id :=
    let dep_set : gset Z := default ∅ (dependencies_by_id s0 !! exist_id) in
    let assignment := filter (λ lit, Z.abs lit ∈ dep_set) universal_literals in
    let key := (exist_id, sorted_by_abs assignment) in
    match expansion_vars s0 !! key with
    | Some exp_var_id =>
        option_list
          (head (filter (λ lit, Z.abs lit = exp_var_id)
                        (expansion_variable_assignment s0)))
    | None => []
    end in
  let assumptions := base ++ concat (extra <$> existential_var_ids s0) in
  result <- cex_solve assumptions ;;
  if negb result then ret None else
  m <- gets (λ s, Sat.get_model (counterexample_solver s)) ;;
  match m with
  | None => raise TypeError
  | Some model =>
      ret (Some (filter (λ lit, Z.abs lit ∈ existential_var_ids s0) model))
  end.

(** Truth value of an [Optional[List[int]]] in a condition. *)
Definition truthy (r : option (list Z)) : bool :=
  match r with Some (_ :: _) => true | _ => false end.

Fixpoint enumerate_loop (tuples : list (list bool)) (all_valid : bool)
  : M DQBFSolver bool :=
  match tuples with
  | [] => ret all_valid
  | assignment_tuple :: rest =>
      uids <- gets universal_var_ids ;;
      let universal_literals :=
        (λ p : Z * bool, if p.2 then p.1 else - p.1) <$> zip uids assignment_tuple in
      result <- compute_model_functions universal_literals ;;
      enumerate_loop rest (if truthy result then all_valid else false)
  end.

Definition _enumerate_and_compute_model_functions : M DQBFSolver bool :=
  uids <- gets universal_var_ids ;;
  let num_universals := length uids in
  match num_universals with
  | O => result <- compute_model_functions [] ;; ret (truthy result)
  | _ => enumerate_loop (product_bools num_universals) true
  end.

Definition exp_solve (assumptions : list Z) : M DQBFSolver bool :=
  λ s, let '(r, es) := Sat.solve oracle (expansion_solver s) assumptions in
       (Val r, set_expansion_solver es s).

(** One pass through the body of [while True] in [solve]: [Some b] when the
    body returns [b], [None] when it falls through to the next pass. *)
Definition solve_iteration : M DQBFSolver (option bool) :=
  r <- get_counterexample ;;
  let has_counterexample := r.1 in
  let counterexample := r.2 in
  if negb has_counterexample then
    (if debug_enabled then
       all_valid <- _enumerate_and_compute_model_functions ;;
       if negb all_valid then raise (SystemExit 1) else ret tt
     else ret tt) ;;
    ret (Some true)
  else
    match counterexample with
    | None => raise TypeError
    | Some (existential_core, universal_assignment) =>
        let current_exist_set : gset Z := list_to_set existential_core in
        let current_univ_set : gset Z := list_to_set universal_assignment in
        last_e <- gets last_counterexample_existentials ;;
        last_u <- gets last_counterexample_universals ;;
        match last_e, last_u with
        | Some le, Some lu =>
            if bool_decide (current_exist_set = le) && bool_decide (current_univ_set = lu)
            then raise (SystemExit 1) else ret tt
        | _, _ => ret tt
        end ;;
        modify (set_last_counterexample_existentials (Some current_exist_set)) ;;
        modify (set_last_counterexample_universals (Some current_univ_set)) ;;
        analyze_counterexample existential_core universal_assignment ;;
        sat <- exp_solve [] ;;
        if negb sat then ret (Some false) else
        m <- gets (λ s, Sat.get_model (expansion_solver s)) ;;
        match m with
        | None => raise TypeError
        | Some model =>
            modify (λ s, set_expansion_variable_assignment
                           (filter (λ lit, Z.abs lit ∈ expansion_vars_set s) model) s) ;;
            ret None
        end
    end.

(** [solve]: at most [fuel] passes through the loop; [None] when the loop
    is still running after them. *)
Fixpoint solve (fuel : nat) : M DQBFSolver (option bool) :=
  match fuel with
  | O => ret None
  | S fuel' =>
      r <- solve_iteration ;;
      match r with
      | Some b => ret (Some b)
      | None => solve fuel'
      end
  end.

Definition detection_solve (assumptions : list Z) : M DetectFrame bool :=
  λ f, let '(r, ds) := Sat.solve oracle (detection_solver f) assumptions in
       (Val r, mkFrame (self f) ds (uf f)).

(** The grouping loop: [by_dep_count] after all existentials. *)
Definition group_by_dep_count (s : DQBFSolver) : Dict.t Z (list Z) :=
  foldl (λ by_dep_count exist_id,
           let dep_count :=
             Z.of_nat (length (default [] (dependencies_by_id_list s !! exist_id))) in
           let d :=
             if Dict.mem by_dep_count dep_count then by_dep_count
             else Dict.set by_dep_count dep_count [] in
           Dict.set d dep_count (default [] (Dict.get d dep_count) ++ [exist_id]))
        Dict.empty (existential_var_ids s).

(** The body of the innermost loop, for the pair [group[i], group[j]]. *)
Definition check_pair (var1_id var2_id : Z) : M DetectFrame unit :=
  same <- lift_uf (UnionFind.same_set recursion_limit var1_id var2_id) ;;
  if same then ret tt else
  dl <- gets (λ f, dependencies_by_id_list (self f)) ;;
  let deps1 := default [] (dl !! var1_id) in
  let deps2 := default [] (dl !! var2_id) in
  assumption_variable <- lift_self counter_increase ;;
  for_each (zip deps1 deps2)
    (λ p, detection_add_clause [- assumption_variable; p.1; - p.2] ;;
          detection_add_clause [- assumption_variable; - p.1; p.2]) ;;
  detection_add_clause [- assumption_variable; var1_id; var2_id] ;;
  detection_add_clause [- assumption_variable; - var1_id; - var2_id] ;;
  g <- gets (λ f, output_gate_id (self f)) ;;
  result <- detection_solve [assumption_variable; g] ;;
  if negb result then lift_uf (UnionFind.union recursion_limit var1_id var2_id)
  else ret tt.

(** [for i in range(len(group)): for j in range(i + 1, len(group))] *)
Fixpoint pairs_loop (group : list Z) : M DetectFrame unit :=
  match group with
  | [] => ret tt
  | var1_id :: rest =>
      for_each rest (λ var2_id, check_pair var1_id var2_id) ;;
      pairs_loop rest
  end.

Definition detect_frame : M DetectFrame (Dict.t Z (list Z)) :=
  by_dep_count <- gets (λ f, group_by_dep_count (self f)) ;;
  for_each (sorted_items by_dep_count) (λ item, pairs_loop item.2) ;;
  lift_uf (UnionFind.get_classes recursion_limit).

Definition detect_equivalent_existentials : M DQBFSolver (Dict.t Z (list Z)) :=
  λ s,
    let frame :=
      mkFrame s (Sat.bootstrap_with (matrix s))
              (UnionFind.init (existential_var_ids s)) in
    let '(r, f) := detect_frame frame in (r, self f).

End Methods.

(** ** The constructor *)

(** [[name_to_id[v] for v in names]] *)
Definition ids_of (name_to_id : gmap string Z) (names : list string)
  : option (list Z) :=
  mapM (λ v, name_to_id !! v) names.

(** The loop that converts [dependencies] to the two id-based maps. *)
Fixpoint convert_dependencies (name_to_id : gmap string Z)
    (items : list (string * list string))
    (by_id : gmap Z (gset Z)) (by_id_list : gmap Z (list Z))
  : option (gmap Z (gset Z) * gmap Z (list Z)) :=
  match items with
  | [] => Some (by_id, by_id_list)
  | (exist_var, deps) :: items' =>
      match name_to_id !! exist_var, ids_of name_to_id deps with
      | Some exist_id, Some dep_ids =>
          convert_dependencies name_to_id items'
            (<[exist_id := list_to_set dep_ids]> by_id)
            (<[exist_id := dep_ids]> by_id_list)
      | _, _ => None
      end
  end.

Definition max_id_seen (name_to_id : gmap string Z) (matrix : list clause) : Z :=
  let max_id := map_fold (λ _ v acc, Z.max acc v) 0 name_to_id in
  foldl (λ acc clause, foldl (λ acc lit, Z.max acc (Z.abs lit)) acc clause)
        max_id matrix.

(** [existential_vars_order] is the order in which Python iterates over
    [set(dependencies.keys())]; it depends on the run. *)
Definition __init__ (name_to_id : gmap string Z) (id_to_name : gmap Z string)
    (dependencies : list (string * list string)) (matrix : list clause)
    (universal_vars : list string) (output_gate_id : Z)
    (counter : option Counter.t) (existential_vars_order : list string)
  : res DQBFSolver :=
  let counter :=
    match counter with
    | None => Counter.new (max_id_seen name_to_id matrix)
    | Some c => c
    end in
  match ids_of name_to_id universal_vars,
        ids_of name_to_id existential_vars_order,
        convert_dependencies name_to_id dependencies ∅ ∅ with
  | Some universal_var_ids, Some existential_var_ids, Some (by_id, by_id_list) =>
      let s :=
        mkSolver name_to_id id_to_name dependencies matrix universal_vars
          output_gate_id counter existential_vars_order universal_var_ids
          existential_var_ids by_id by_id_list Dict.empty Dict.empty Dict.empty
          [] [] [] [] ∅ ∅ [] Sat.new (Sat.bootstrap_with matrix) None None in
      match for_each existential_var_ids init_model s with
      | (Val _, s') => Val s'
      | (Exc e, _) => Exc e
      end
  | _, _, _ => Exc KeyError
  end.

(** ** A reference SAT engine

    Exhaustive search over the variables [1..n] that occur in the clauses
    and assumptions; a model lists one literal per variable in increasing
    order, and the core of an unsatisfiable query is the whole assumption
    list. *)

Fixpoint all_assignments (vars : list Z) : list (list Z) :=
  match vars with
  | [] => [[]]
  | v :: vars' =>
      ((λ r, (- v) :: r) <$> all_assignments vars') ++
      ((λ r, v :: r) <$> all_assignments vars')
  end.

Definition max_var (ls : list Z) : Z := foldr (λ l acc, Z.max (Z.abs l) acc) 0 ls.

Definition holds_in (m : list Z) (c : clause) : bool :=
  existsb (λ l, bool_decide (l ∈ m)) c.

Definition event_clause (ev : sat_event) : option clause :=
  match ev with AddClause c => Some c | Solve _ => None end.

Definition exhaustive_oracle : sat_oracle :=
  λ evs assumptions,
    let cls := omap event_clause evs in
    let n := max_var (assumptions ++ concat cls) in
    let vars := (λ i : nat, Z.of_nat (S i)) <$> seq 0 (Z.to_nat n) in
    match
      List.find (λ m, forallb (holds_in m) cls &&
                      forallb (λ a, bool_decide (a ∈ m)) assumptions)
                (all_assignments vars)
    with
    | Some m => Sat m
    | None => Unsat (Some assumptions)
    end.

(** A reading of [int(s)] for the strings the solver itself produces:
    a non-empty run of ASCII digits. *)
Definition digit_value (c : Ascii.ascii) : option Z :=
  let n := Z.of_N (Ascii.N_of_ascii c) in
  if bool_decide (48 ≤ n ≤ 57) then Some (n - 48) else None.

Fixpoint digits_value (acc : Z) (s : string) : option Z :=
  match s with
  | EmptyString => Some acc
  | String c s' =>
      match digit_value c with
      | Some d => digits_value (10 * acc + d) s'
      | None => None
      end
  end.

Definition int_of_digits (s : string) : option Z :=
  match s with
  | EmptyString => None
  | _ => digits_value 0 s
  end.

(** * Specification-level notions *)

(** [D(e)]: the dependency set the methods read for an id. *)
Definition dep_set_of (s : DQBFSolver) (e : Z) : gset Z :=
  default ∅ (dependencies_by_id s !! e).

(** The restriction of a universal assignment to [D(e)]. *)
Definition restrict_to_deps (s : DQBFSolver) (e : Z) (universal_literals : list Z)
  : list Z :=
  filter (λ lit, Z.abs lit ∈ dep_set_of s e) universal_literals.

(** An existential has decision-list state: all three maps have an entry. *)
Definition initialized (s : DQBFSolver) (e : Z) : Prop :=
  is_Some (Dict.get (value_vars s) e) ∧
  is_Some (Dict.get (no_rule_fired_vars s) e) ∧
  is_Some (Dict.get (rule_fire_vars s) e).

(** The order [sorted(key=abs)] sorts by. *)
Definition abs_le (x y : Z) : Prop := Z.abs x ≤ Z.abs y.

(** The attributes fixed by the constructor. *)
Definition same_formula (s s' : DQBFSolver) : Prop :=
  name_to_id s' = name_to_id s ∧ dependencies s' = dependencies s ∧
  matrix s' = matrix s ∧ universal_vars s' = universal_vars s ∧
  output_gate_id s' = output_gate_id s ∧
  existential_vars s' = existential_vars s ∧
  universal_var_ids s' = universal_var_ids s ∧
  existential_var_ids s' = existential_var_ids s ∧
  dependencies_by_id s' = dependencies_by_id s ∧
  dependencies_by_id_list s' = dependencies_by_id_list s.

(** The expansion side of the object: registry, id set, stored assignment,
    expansion solver and the stall fingerprint. *)
Definition same_expansion_side (s s' : DQBFSolver) : Prop :=
  expansion_vars s' = expansion_vars s ∧
  expansion_vars_set s' = expansion_vars_set s ∧
  expansion_variable_assignment s' = expansion_variable_assignment s ∧
  expansion_solver s' = expansion_solver s ∧
  last_counterexample_existentials s' = last_counterexample_existentials s ∧
  last_counterexample_universals s' = last_counterexample_universals s.

(** The clauses [add_rule] installs, in order: [fire] is the rule-fire
    variable being specialised, [prev] the previous no-rule-fired variable,
    [val] the magnitude of the current value variable and [c] the counter
    before the call. *)
Definition rule_clauses (e : Z) (premise : list Z) (value_var : option Z)
    (fire prev val c : Z) : list clause :=
  ((λ lit, [- fire; lit]) <$> premise) ++
  [ (Z.opp <$> premise) ++ [fire];
    [- (c + 2); prev];
    [- (c + 2); - fire];
    [c + 2; - prev; fire];
    [- (c + 1); - (c + 2); - e; c + 3];
    [- (c + 1); - (c + 2); e; - (c + 3)] ] ++
  match value_var with
  | None => []
  | Some x => [ [- val; x]; [val; - x] ]
  end.

(** Every id with a value variable has the other two handles as well. *)
Definition consistent_maps (s : DQBFSolver) : Prop :=
  ∀ e, is_Some (Dict.get (value_vars s) e) → initialized s e.

(** The clauses [init_model] installs when the counter is [c]. *)
Definition init_clauses (e c : Z) : list clause :=
  [ [c + 2];
    [- (c + 2); - (c + 3); - e; c + 1];
    [- (c + 2); - (c + 3); e; - (c + 1)] ].

(** * Concrete solver objects *)

Definition blank_solver : DQBFSolver :=
  mkSolver ∅ ∅ [] [] [] 0 0 [] [] [] ∅ ∅ [] [] [] [] [] [] [] ∅ ∅ [] Sat.new
           Sat.new None None.

Definition constructed (r : res DQBFSolver) : DQBFSolver :=
  match r with Val s => s | Exc _ => blank_solver end.

(** Scenario 3 of the spec, [∀u ∃e(u). u ↔ e], with [u = 1], [e = 2] and the
    output gate [g = 3] defined by [g ↔ (u ↔ e)]. *)
Module Linear.
Definition name_to_id : gmap string Z := list_to_map [("u", 1); ("e", 2); ("g", 3)].
Definition id_to_name : gmap Z string := list_to_map [(1, "u"); (2, "e"); (3, "g")].
Definition dependencies : list (string * list string) := [("e", ["u"])].
Definition matrix : list clause := [[-3; -1; 2]; [-3; 1; -2]; [3; 1; 2]; [3; -1; -2]].
Definition solver : DQBFSolver :=
  constructed (__init__ name_to_id id_to_name dependencies matrix ["u"] 3 None ["e"]).
End Linear.

(** One existential [e = 3] over two universals [u1 = 1], [u2 = 2], with
    output gate [g = 4] defined by [g ↔ e]. *)
Module TwoDeps.
Definition name_to_id : gmap string Z :=
  list_to_map [("u1", 1); ("u2", 2); ("e", 3); ("g", 4)].
Definition id_to_name : gmap Z string :=
  list_to_map [(1, "u1"); (2, "u2"); (3, "e"); (4, "g")].
Definition dependencies : list (string * list string) := [("e", ["u1"; "u2"])].
Definition matrix : list clause := [[-4; 3]; [4; -3]].
Definition solver : DQBFSolver :=
  constructed (__init__ name_to_id id_to_name dependencies matrix ["u1"; "u2"] 4
                 None ["e"]).
End TwoDeps.

(** An output gate that no clause constrains: empty matrix, [g = 1], no
    quantified variables. *)
Module Unconstrained.
Definition name_to_id : gmap string Z := list_to_map [("g", 1)].
Definition id_to_name : gmap Z string := list_to_map [(1, "g")].
Definition solver : DQBFSolver :=
  constructed (__init__ name_to_id id_to_name [] [] [] 1 None []).
End Unconstrained.


(** The stall test of [solve]: the counterexample equals, as a pair of sets,
    the fingerprint stored by the previous pass. *)
Definition stalled (s : DQBFSolver) (existential_core universal_assignment : list Z)
  : Prop :=
  last_counterexample_existentials s = Some (list_to_set existential_core) ∧
  last_counterexample_universals s = Some (list_to_set universal_assignment).

Global Instance stalled_dec s c u : Decision (stalled s c u).
Proof. unfold stalled. apply _. Defined.

(** Storing the fingerprint of the current counterexample. *)
Definition remember (existential_core universal_assignment : list Z) (s : DQBFSolver)
  : DQBFSolver :=
  set_last_counterexample_universals (Some (list_to_set universal_assignment))
    (set_last_counterexample_existentials (Some (list_to_set existential_core)) s).

(** A matrix that forces the universal [u = 1] and the output gate [g = 3];
    [e = 2] depends on [u]. *)
Module Forced.
Definition name_to_id : gmap string Z := list_to_map [("u", 1); ("e", 2); ("g", 3)].
Definition id_to_name : gmap Z string := list_to_map [(1, "u"); (2, "e"); (3, "g")].
Definition solver : DQBFSolver :=
  constructed (__init__ name_to_id id_to_name [("e", ["u"])] [[1]; [3]] ["u"] 3
                 None ["e"]).
End Forced.

(** ** Equivalence detection *)

(** Only the counter of [self] differs, and it did not go down. *)
Definition only_counter_advanced (s s' : DQBFSolver) : Prop :=
  s' = set_counter (counter s') s ∧ counter s ≤ counter s'.

(** A computation over the detector's frame that touches [self] only through
    the counter. *)
Definition frames_self {A} (m : M DetectFrame A) : Prop :=
  ∀ f, only_counter_advanced (self f) (self (m f).2).

(** The pairs [(group[i], group[j])], [i < j], in loop order. *)
Fixpoint ordered_pairs (group : list Z) : list (Z * Z) :=
  match group with
  | [] => []
  | x :: rest => (pair x <$> rest) ++ ordered_pairs rest
  end.

(** The pairs the detector looks at, in the order it looks at them. *)
Definition candidate_pairs (s : DQBFSolver) : list (Z * Z) :=
  concat ((λ item : Z * list Z, ordered_pairs item.2)
            <$> sorted_items (group_by_dep_count s)).

(** [D_list(e)] as the detector reads it. *)
Definition dep_list_of (s : DQBFSolver) (e : Z) : list Z :=
  default [] (dependencies_by_id_list s !! e).

(** The clauses of spec 4.8 for the pair [(e1, e2)] under the activation
    literal [a]: positionwise equivalence of the dependencies, then
    difference of the two existentials. *)
Definition pair_clauses (a e1 e2 : Z) (deps1 deps2 : list Z) : list clause :=
  concat ((λ p : Z * Z, [ [- a; p.1; - p.2]; [- a; - p.1; p.2] ]) <$> zip deps1 deps2) ++
  [ [- a; e1; e2]; [- a; - e1; - e2] ].

(** The representative of [z] in a parent table: follow [parent] for at most
    [n] lookups until an element that is its own parent. *)
Fixpoint root_in (n : nat) (parent : Dict.t Z Z) (z : Z) : option Z :=
  match n with
  | O => None
  | S n' =>
      match Dict.get parent z with
      | None => None
      | Some q => if decide (q = z) then Some z else root_in n' parent q
      end
  end.

(** Scenario 5 of the spec: two existentials [e1 = 2], [e2 = 3] over the same
    universal [u = 1], output gate [g = 4] defined by [g ↔ (e1 ↔ e2)]. *)
Module Twins.
Definition name_to_id : gmap string Z :=
  list_to_map [("u", 1); ("e1", 2); ("e2", 3); ("g", 4)].
Definition id_to_name : gmap Z string :=
  list_to_map [(1, "u"); (2, "e1"); (3, "e2"); (4, "g")].
Definition dependencies : list (string * list string) := [("e1", ["u"]); ("e2", ["u"])].
Definition matrix : list clause := [[-4; -2; 3]; [-4; 2; -3]; [4; 2; 3]; [4; -2; -3]].
Definition solver : DQBFSolver :=
  constructed (__init__ name_to_id id_to_name dependencies matrix ["u"] 4 None
                 ["e1"; "e2"]).
End Twins.

(** * Progress of the driver loop *)

(** ** The contract of the SAT service (spec 4.2 and 6)

    On SAT the model is an assignment, one literal per variable, that
    satisfies every clause added so far and every assumption and covers every
    variable up to any that occurs in a clause; on UNSAT the core is a subset
    of the assumptions. *)
Definition sat_contract (oracle : sat_oracle) : Prop :=
  (∀ evs assumptions m, oracle evs assumptions = Sat m →
     NoDup (Z.abs <$> m) ∧ (0 ∉ m) ∧
     (∀ c, AddClause c ∈ evs → ∃ l, l ∈ c ∧ l ∈ m) ∧
     (∀ l, l ∈ assumptions → l ∈ m) ∧
     (∀ v c l, AddClause c ∈ evs → l ∈ c → 1 ≤ v ≤ Z.abs l → v ∈ m ∨ - v ∈ m)) ∧
  (∀ evs assumptions core, oracle evs assumptions = Unsat (Some core) →
     ∀ l, l ∈ core → l ∈ assumptions).

(** A set of literals that never holds a literal and its negation. *)
Definition consistent (M : list Z) : Prop := ∀ l, l ∈ M → - l ∉ M.

(** [M] is consistent and satisfies every clause of the counterexample
    solver. *)
Definition good_model (s : DQBFSolver) (M : list Z) : Prop :=
  consistent M ∧
  ∀ c, AddClause c ∈ events (counterexample_solver s) → ∃ l, l ∈ c ∧ l ∈ M.

(** Some literal of [k] is false in [M]. *)
Definition conflicts (k M : list Z) : Prop := ∃ l, l ∈ k ∧ - l ∈ M.

(** A full assignment to the universals: one literal per variable, only
    universals, every universal. *)
Definition total_assignment (s : DQBFSolver) (univ : list Z) : Prop :=
  NoDup (Z.abs <$> univ) ∧
  (∀ l, l ∈ univ → Z.abs l ∈ universal_var_ids s) ∧
  (∀ u, u ∈ universal_var_ids s → u ∈ univ ∨ - u ∈ univ).

(** The registry key of [e] under a universal assignment. *)
Definition key_of (s : DQBFSolver) (e : Z) (univ : list Z) : Z * list Z :=
  (e, sorted_by_abs (restrict_to_deps s e univ)).

(** Every expansion variable stands for its existential under its defining
    assignment: in any model of the counterexample solver that makes the key
    true and every other key of the same existential false, the existential
    and the expansion variable agree. *)
Definition registry_inv (s : DQBFSolver) : Prop :=
  ∀ e k x, expansion_vars s !! (e, k) = Some x →
    0 < x ∧ x ∈ expansion_vars_set s ∧
    (∃ univ, total_assignment s univ ∧ k = sorted_by_abs (restrict_to_deps s e univ)) ∧
    ∀ M, good_model s M → (∀ l, l ∈ k → l ∈ M) →
      (∀ k' x', expansion_vars s !! (e, k') = Some x' → k' ≠ k → conflicts k' M) →
      (e ∈ M ↔ x ∈ M).

(** The trailing default of every decision list: when the current fire and
    no-rule-fired variables hold, the existential equals the current value
    variable; and the no-rule-fired variable holds whenever every rule's
    premise is false. *)
Definition decision_list_inv (s : DQBFSolver) : Prop :=
  ∀ e v n f,
    Dict.get (value_vars s) e = Some v →
    Dict.get (no_rule_fired_vars s) e = Some n →
    Dict.get (rule_fire_vars s) e = Some f →
    ∀ M, good_model s M →
      (n ∈ M → f ∈ M → (e ∈ M ↔ Z.abs v ∈ M)) ∧
      ((∀ k' x', expansion_vars s !! (e, k') = Some x' → conflicts k' M) → n ∈ M).

(** Every universal id is positive and below a variable of some clause of
    the counterexample solver, so every model assigns it. *)
Definition universals_known (s : DQBFSolver) : Prop :=
  ∀ u, u ∈ universal_var_ids s →
    1 ≤ u ∧
    ∃ c l, AddClause c ∈ events (counterexample_solver s) ∧ l ∈ c ∧ u ≤ Z.abs l.

Definition solver_inv (s : DQBFSolver) : Prop :=
  0 ≤ counter s ∧
  (∀ e, e ∈ existential_var_ids s → initialized s e) ∧
  (Z.abs (output_gate_id s) ∉ existential_var_ids s) ∧
  (existential_var_ids s ≠ [] → universals_known s) ∧
  registry_inv s ∧ decision_list_inv s ∧
  (∀ B lit, AddClause B ∈ events (expansion_solver s) → lit ∈ B →
     Z.abs lit ∈ expansion_vars_set s).

(** The blocking clause of a past counterexample is in the expansion solver:
    each of its literals is the expansion variable of a core literal, with
    the opposite sign. *)
Definition blocked (s : DQBFSolver) (core univ : list Z) : Prop :=
  ∃ B, AddClause B ∈ events (expansion_solver s) ∧
    ∀ lit, lit ∈ B →
      ∃ ℓ x, ℓ ∈ core ∧ expansion_vars s !! key_of s (Z.abs ℓ) univ = Some x ∧
             lit = if bool_decide (0 < ℓ) then - x else x.

Definition history_inv (s : DQBFSolver) (H : list (list Z * list Z)) : Prop :=
  ∀ core univ, (core, univ) ∈ H → blocked s core univ ∧ NoDup (Z.abs <$> univ).

(** The stored expansion assignment satisfies every clause of the expansion
    solver. *)
Definition assignment_inv (s : DQBFSolver) : Prop :=
  ∀ B, AddClause B ∈ events (expansion_solver s) →
    ∃ lit, lit ∈ B ∧ lit ∈ expansion_variable_assignment s.

Definition run_inv (s : DQBFSolver) (H : list (list Z * list Z)) : Prop :=
  solver_inv s ∧ history_inv s H ∧ assignment_inv s.

(** Two counterexamples are the same when their cores and their universal
    assignments are equal as sets, the comparison [solve] itself makes. *)
Definition same_counterexample (cx cx' : list Z * list Z) : Prop :=
  list_to_set cx.1 =@{gset Z} list_to_set cx'.1 ∧
  list_to_set cx.2 =@{gset Z} list_to_set cx'.2.

Definition no_repeats (tr : list (list Z * list Z)) : Prop :=
  ∀ i j cx cx', (i < j)%nat → tr !! i = Some cx → tr !! j = Some cx' →
    ¬ same_counterexample cx cx'.

(** The counterexamples [get_counterexample] returns during the first [fuel]
    passes of [solve], in order. *)
Fixpoint counterexamples (py_int : string → option Z) (oracle : sat_oracle)
    (debug_enabled : bool) (fuel : nat) (s : DQBFSolver)
  : list (list Z * list Z) :=
  match fuel with
  | O => []
  | S fuel' =>
      match get_counterexample oracle s with
      | (Val (true, Some cx), _) =>
          cx :: match solve_iteration py_int oracle debug_enabled s with
                | (Val None, s') =>
                    counterexamples py_int oracle debug_enabled fuel' s'
                | _ => []
                end
      | _ => []
      end
  end.

(** The watermark the counter starts from. *)
Definition counter_start (name_to_id : gmap string Z) (matrix : list clause)
    (counter : option Counter.t) : Z :=
  match counter with
  | None => Counter.new (max_id_seen name_to_id matrix)
  | Some c => c
  end.

(** The state of the constructor's loop over the existentials: no expansion
    variable yet, an empty expansion solver, decision lists in order, and a
    clause above the starting watermark [c0] once an existential has been
    initialized. *)
Definition init_inv (c0 : Z) (s : DQBFSolver) : Prop :=
  c0 ≤ counter s ∧ consistent_maps s ∧
  expansion_vars s = ∅ ∧ events (expansion_solver s) = [] ∧
  decision_list_inv s ∧
  (∀ e, initialized s e →
     ∃ c l, AddClause c ∈ events (counterexample_solver s) ∧ l ∈ c ∧ c0 < Z.abs l).

(** * Further notions *)

(** A solver object as the constructor has it before its last loop: the
    formula of scenario 3 with no decision list yet. *)
Module Bare.
Definition solver : DQBFSolver :=
  mkSolver Linear.name_to_id Linear.id_to_name Linear.dependencies Linear.matrix
    ["u"] 3 3 ["e"] [1] [2] {[2 := {[1]}]} {[2 := [1]]} Dict.empty Dict.empty
    Dict.empty [] [] [] [] ∅ ∅ [] Sat.new (Sat.bootstrap_with Linear.matrix)
    None None.
End Bare.

(** A decidable form of [good_model]. *)
Definition good_modelb (s : DQBFSolver) (M : list Z) : bool :=
  forallb (λ l, negb (bool_decide (- l ∈ M))) M &&
  forallb (holds_in M) (Sat.clauses (counterexample_solver s)).

(** The registry of expansion variables is in order: every registered id has
    been handed out by the counter, is in the id set, and belongs to one key
    only. *)
Definition registry_fresh (s : DQBFSolver) : Prop :=
  ∀ k x, expansion_vars s !! k = Some x →
    x ≤ counter s ∧ x ∈ expansion_vars_set s ∧
    ∀ k', expansion_vars s !! k' = Some x → k' = k.

(** What the driver loop and the methods it calls may do to the object:
    the formula and the permanent assumptions stay, the counter does not go
    down, both solvers only receive further calls, the registry and the id
    set only gain entries, and the three decision-list maps keep their
    keys. *)
Definition grows (s s' : DQBFSolver) : Prop :=
  same_formula s s' ∧
  permanent_assumptions s' = permanent_assumptions s ∧
  counter s ≤ counter s' ∧
  events (counterexample_solver s) `prefix_of` events (counterexample_solver s') ∧
  events (expansion_solver s) `prefix_of` events (expansion_solver s') ∧
  expansion_vars s ⊆ expansion_vars s' ∧
  expansion_vars_set s ⊆ expansion_vars_set s' ∧
  Dict.keys (value_vars s') = Dict.keys (value_vars s) ∧
  Dict.keys (no_rule_fired_vars s') = Dict.keys (no_rule_fired_vars s) ∧
  Dict.keys (rule_fire_vars s') = Dict.keys (rule_fire_vars s).

(** The exceptions a refinement can raise. *)
Definition lookup_error (e : exn) : Prop := e = ValueError ∨ e = KeyError.

(** The expansion literals [compute_model_functions] adds to its
    assumptions: for each existential whose key under the universal
    assignment is registered, the first literal of that expansion variable
    in the stored assignment, if there is one. *)
Definition relevant_expansion_literals (s : DQBFSolver) (universal_literals : list Z)
  : list Z :=
  concat ((λ exist_id,
             match expansion_vars s !! key_of s exist_id universal_literals with
             | Some exp_var_id =>
                 option_list (head (filter (λ lit, Z.abs lit = exp_var_id)
                                           (expansion_variable_assignment s)))
             | None => []
             end) <$> existential_var_ids s).

(** The assumptions of the query of [compute_model_functions]. *)
Definition model_function_assumptions (s : DQBFSolver) (universal_literals : list Z)
  : list Z :=
  permanent_assumptions s ++ Dict.values (rule_fire_vars s) ++
  Dict.values (value_vars s) ++ universal_literals ++
  relevant_expansion_literals s universal_literals.

(** The number of universal assignments the model-function check visits. *)
Definition enumerated_assignments (s : DQBFSolver) : nat :=
  match length (universal_var_ids s) with
  | O => 1
  | n => 2 ^ n
  end.

(** A formula without quantified variables whose matrix forces the output
    gate [g = 1]. *)
Module Closed.
Definition name_to_id : gmap string Z := list_to_map [("g", 1)].
Definition id_to_name : gmap Z string := list_to_map [(1, "g")].
Definition solver : DQBFSolver :=
  constructed (__init__ name_to_id id_to_name [] [[1]] [] 1 None []).
End Closed.

(** ** Termination of the driver loop *)

(** The literals over a list of variable ids. *)
Definition literals_over (ids : list Z) : list Z := ids ++ (Z.opp <$> ids).

(** Which literals over the existential ids are in the core, and which
    literals over the universal ids are in the universal assignment. *)
Definition fingerprint_of (s : DQBFSolver) (cx : list Z * list Z) : list bool :=
  ((λ l, bool_decide (l ∈ cx.1)) <$> literals_over (existential_var_ids s)) ++
  ((λ l, bool_decide (l ∈ cx.2)) <$> literals_over (universal_var_ids s)).

(** A bound on the number of different counterexamples: [4^(|E| + |U|)]. *)
Definition pass_bound (s : DQBFSolver) : nat :=
  2 ^ (2 * (length (existential_var_ids s) + length (universal_var_ids s))).

(** ** Union-find *)

(** [r] is the representative of [z]: following [parent] from [z] ends in
    [r], which is its own parent. *)
Definition representative (u : UnionFind.t) (z r : Z) : Prop :=
  ∃ n, root_in n (UnionFind.parent u) z = Some r.

(** Appending [e] to the list stored under [k], creating the list when the
    key is new: the grouping step of [get_classes] and of the grouping by
    dependency count. *)
Definition group_add (d : Dict.t Z (list Z)) (k e : Z) : Dict.t Z (list Z) :=
  let d1 := if Dict.mem d k then d else Dict.set d k [] in
  Dict.set d1 k (default [] (Dict.get d1 k) ++ [e]).

(** ** The constructor *)


(** A formula without quantified variables whose matrix refutes the output
    gate [g = 1]. *)
Module Refuted.
Definition name_to_id : gmap string Z := list_to_map [("g", 1)].
Definition id_to_name : gmap Z string := list_to_map [(1, "g")].
Definition solver : DQBFSolver :=
  constructed (__init__ name_to_id id_to_name [] [[-1]] [] 1 None []).
End Refuted.

(** ** Truth of the formula *)

(** The literal that gives variable [v] the truth value [b]. *)
Definition lit_of (b : bool) (v : Z) : Z := if b then v else - v.

(** [f] is a winning family of Skolem functions: [f e k] is the value of
    the existential [e] when the universals [e] depends on are assigned as
    in [k].  Under every full universal assignment some consistent set of
    literals satisfies the matrix, contains the assignment and the output
    gate, and gives every existential the value [f] computes. *)
Definition winning (s : DQBFSolver) (f : Z → list Z → bool) : Prop :=
  ∀ univ, total_assignment s univ →
    ∃ M0, consistent M0 ∧
      (∀ c, c ∈ matrix s → ∃ l, l ∈ c ∧ l ∈ M0) ∧
      (∀ l, l ∈ univ → l ∈ M0) ∧
      output_gate_id s ∈ M0 ∧
      ∀ e, e ∈ existential_var_ids s →
        lit_of (f e (sorted_by_abs (restrict_to_deps s e univ))) e ∈ M0.

Definition dqbf_true (s : DQBFSolver) : Prop := ∃ f, winning s f.

(** The contract of the SAT service on UNSAT, the part on the core: no
    consistent set of literals satisfies the clauses added so far together
    with the core.  No core stands for the empty core, as in
    [get_counterexample]. *)
Definition sat_refutes (oracle : sat_oracle) : Prop :=
  ∀ evs assumptions core M, oracle evs assumptions = Unsat core →
    consistent M →
    (∀ c, AddClause c ∈ evs → ∃ l, l ∈ c ∧ l ∈ M) →
    ¬ ∀ l, l ∈ default [] core → l ∈ M.

(** The ids of the formula are at most [c0], the watermark the counter
    starts from, and the universal ids are positive. *)
Definition ids_below (s : DQBFSolver) (c0 : Z) : Prop :=
  (∀ c l, c ∈ matrix s → l ∈ c → Z.abs l ≤ c0) ∧
  (∀ u, u ∈ universal_var_ids s → 1 ≤ u ≤ c0) ∧
  (∀ e, e ∈ existential_var_ids s → Z.abs e ≤ c0) ∧
  Z.abs (output_gate_id s) ≤ c0.

(** A model of the matrix over the ids up to [c0] that assigns every
    universal and every existential. *)
Definition base_model (s : DQBFSolver) (c0 : Z) (M0 : list Z) : Prop :=
  consistent M0 ∧ (∀ l, l ∈ M0 → Z.abs l ≤ c0) ∧
  (∀ c, c ∈ matrix s → ∃ l, l ∈ c ∧ l ∈ M0) ∧
  (∀ u, u ∈ universal_var_ids s → u ∈ M0 ∨ - u ∈ M0) ∧
  (∀ e, e ∈ existential_var_ids s → e ∈ M0 ∨ - e ∈ M0).

(** The matrix defines its gates: every assignment to the universals and
    the existentials extends to a model of the matrix over the ids up to
    [c0] that assigns the output gate. *)
Definition matrix_total (s : DQBFSolver) (c0 : Z) : Prop :=
  ∀ univ (ev : Z → bool), total_assignment s univ →
    ∃ M0, base_model s c0 M0 ∧ (∀ l, l ∈ univ → l ∈ M0) ∧
      (∀ e, e ∈ existential_var_ids s → lit_of (ev e) e ∈ M0) ∧
      (output_gate_id s ∈ M0 ∨ - output_gate_id s ∈ M0).

(** Decidable forms of [base_model] and, by enumeration of the assignments
    to the universals, to the existentials and to the ids up to [c0], of
    [matrix_total]. *)
Definition base_modelb (s : DQBFSolver) (c0 : Z) (M0 : list Z) : bool :=
  bool_decide (NoDup (Z.abs <$> M0)) && bool_decide (0 ∉ M0) &&
  forallb (λ l, bool_decide (Z.abs l ≤ c0)) M0 &&
  forallb (holds_in M0) (matrix s) &&
  forallb (λ u, bool_decide (u ∈ M0) || bool_decide (- u ∈ M0)) (universal_var_ids s) &&
  forallb (λ e, bool_decide (e ∈ M0) || bool_decide (- e ∈ M0)) (existential_var_ids s).

Definition matrix_totalb (s : DQBFSolver) (c0 : Z) : bool :=
  let ids := (λ i : nat, Z.of_nat (S i)) <$> seq 0 (Z.to_nat c0) in
  forallb (λ au,
    forallb (λ ae,
      existsb (λ M0,
        base_modelb s c0 M0 &&
        forallb (λ l, bool_decide (l ∈ M0)) au &&
        forallb (λ l, bool_decide (l ∈ M0)) ae &&
        (bool_decide (output_gate_id s ∈ M0) || bool_decide (- output_gate_id s ∈ M0)))
        (all_assignments ids))
      (all_assignments (existential_var_ids s)))
    (all_assignments (universal_var_ids s)).

(** The matrix defines its output gate: two models of the matrix, the
    second holding every literal the first has over the universals and the
    existentials, do not disagree on the output gate. *)
Definition matrix_functional (s : DQBFSolver) : Prop :=
  ∀ M1 M2, consistent M1 → consistent M2 →
    (∀ c, c ∈ matrix s → ∃ l, l ∈ c ∧ l ∈ M1) →
    (∀ c, c ∈ matrix s → ∃ l, l ∈ c ∧ l ∈ M2) →
    (∀ l, l ∈ M1 →
       Z.abs l ∈ universal_var_ids s ∨ Z.abs l ∈ existential_var_ids s → l ∈ M2) →
    - output_gate_id s ∈ M1 → output_gate_id s ∉ M2.

(** A decidable form, by enumeration of the pairs of assignments to the ids
    up to [c0]. *)
Definition matrix_functionalb (s : DQBFSolver) (c0 : Z) : bool :=
  let ids := (λ i : nat, Z.of_nat (S i)) <$> seq 0 (Z.to_nat c0) in
  forallb (λ A1,
    forallb (λ A2,
      negb (forallb (holds_in A1) (matrix s) && forallb (holds_in A2) (matrix s) &&
            forallb (λ l, negb (bool_decide (Z.abs l ∈ universal_var_ids s ∨
                                             Z.abs l ∈ existential_var_ids s))
                          || bool_decide (l ∈ A2)) A1 &&
            bool_decide (- output_gate_id s ∈ A1) &&
            bool_decide (output_gate_id s ∈ A2)))
      (all_assignments ids))
    (all_assignments ids).

(** The counterexample solver holds the matrix. *)
Definition matrix_loaded (s : DQBFSolver) : Prop :=
  ∀ c, c ∈ matrix s → AddClause c ∈ events (counterexample_solver s).

(** The stored fingerprint, if there is one, is that of a counterexample
    of the history. *)
Definition stall_inv (s : DQBFSolver) (H : list (list Z * list Z)) : Prop :=
  ∀ le lu, last_counterexample_existentials s = Some le →
    last_counterexample_universals s = Some lu →
    ∃ cx, cx ∈ H ∧ list_to_set cx.1 = le ∧ list_to_set cx.2 = lu.

(** Some rule of [e] has a premise that holds in [M0]. *)
Definition fired (s : DQBFSolver) (e : Z) (M0 : list Z) : Prop :=
  ∃ k x, expansion_vars s !! (e, k) = Some x ∧ ∀ l, l ∈ k → l ∈ M0.

(** The decision lists constrain nothing but their own variables: a model
    of the matrix extends to a model of the counterexample solver under any
    choice [fv] for the current rule-fire variables, [vt] for the current
    value variables and [kt] for the expansion variables, provided the
    choice agrees with the model on an existential wherever a rule or an
    assumed default determines it.  In the extension a no-rule-fired
    variable holds exactly when no rule has fired. *)
Definition extension_inv (c0 : Z) (s : DQBFSolver) : Prop :=
  ∀ M0 (fv vt : Z → bool) (kt : Z → list Z → bool),
    base_model s c0 M0 →
    (∀ e, e ∈ existential_var_ids s → fv e = true → ¬ fired s e M0 →
       (vt e = true ↔ e ∈ M0)) →
    (∀ e k x, e ∈ existential_var_ids s → expansion_vars s !! (e, k) = Some x →
       (∀ l, l ∈ k → l ∈ M0) → (kt e k = true ↔ e ∈ M0)) →
    ∃ M, consistent M ∧ (∀ l, l ∈ M → Z.abs l ≤ counter s) ∧
      (∀ l, l ∈ M0 → l ∈ M) ∧
      (∀ c, AddClause c ∈ events (counterexample_solver s) → ∃ l, l ∈ c ∧ l ∈ M) ∧
      (∀ e f, Dict.get (rule_fire_vars s) e = Some f → lit_of (fv e) f ∈ M) ∧
      (∀ e v, Dict.get (value_vars s) e = Some v → lit_of (vt e) (Z.abs v) ∈ M) ∧
      (∀ e n, Dict.get (no_rule_fired_vars s) e = Some n →
         ∃ b : bool, lit_of b n ∈ M ∧ (fired s e M0 → b = false) ∧
                     (¬ fired s e M0 → b = true)) ∧
      (∀ e k x, expansion_vars s !! (e, k) = Some x → lit_of (kt e k) x ∈ M).

(** What refinement keeps of the object besides [solver_inv]. *)
Definition refine_inv (c0 : Z) (s : DQBFSolver) : Prop :=
  c0 ≤ counter s ∧ extension_inv c0 s ∧ registry_fresh s ∧
  permanent_assumptions s = [] ∧
  NoDup (Dict.keys (rule_fire_vars s)) ∧ NoDup (Dict.keys (value_vars s)) ∧
  (∀ x, x ∈ expansion_vars_set s → ∃ key, expansion_vars s !! key = Some x).

(** Every blocking clause holds under the expansion of any winning family:
    it has a literal that gives an expansion variable the value the family
    gives its existential under its key. *)
Definition blocking_sound (s : DQBFSolver) : Prop :=
  ∀ f, winning s f → ∀ B, AddClause B ∈ events (expansion_solver s) →
    ∃ e k x, expansion_vars s !! (e, k) = Some x ∧ lit_of (f e k) x ∈ B.

(** The invariant of the driver loop behind the soundness of its answers. *)
Definition sound_inv (c0 : Z) (s : DQBFSolver) : Prop :=
  refine_inv c0 s ∧
  NoDup (Z.abs <$> expansion_variable_assignment s) ∧
  (∀ l, l ∈ expansion_variable_assignment s → Z.abs l ∈ expansion_vars_set s) ∧
  blocking_sound s.

(** The Skolem functions the object stands for: where the key is
    registered, whether the stored assignment holds the expansion variable
    as a positive literal; elsewhere, whether the current value variable is
    stored with a positive sign, the default. *)
Definition model_function (s : DQBFSolver) (e : Z) (k : list Z) : bool :=
  match expansion_vars s !! (e, k) with
  | Some x => bool_decide (x ∈ expansion_variable_assignment s)
  | None =>
      match Dict.get (value_vars s) e with
      | Some v => bool_decide (0 < v)
      | None => false
      end
  end.

(** [∀u ∃e(). u ↔ e]: the formula of scenario 3 with an existential that
    depends on nothing. *)
Module Blind.
Definition solver : DQBFSolver :=
  constructed (__init__ Linear.name_to_id Linear.id_to_name [("e", [])] Linear.matrix
                 ["u"] 3 None ["e"]).
End Blind.

(** * Properties *)

(** ** The monad *)

Lemma bind_val {S A B} (m : M S A) (k : A → M S B) s a s' :
  m s = (Val a, s') → bind m k s = k a s'.
Proof. unfold bind. by intros ->. Qed.

Lemma bind_exc {S A B} (m : M S A) (k : A → M S B) s e s' :
  m s = (Exc e, s') → bind m k s = (Exc e, s').
Proof. unfold bind. by intros ->. Qed.

Lemma bind_inv_val {S A B} (m : M S A) (k : A → M S B) s b s'' :
  bind m k s = (Val b, s'') →
  ∃ a s', m s = (Val a, s') ∧ k a s' = (Val b, s'').
Proof.
  unfold bind. destruct (m s) as [[a|e] s'] eqn:E; [eauto | discriminate].
Qed.

(** ** Sorting by magnitude *)

Lemma insert_by_abs_perm x l : insert_by_abs x l ≡ₚ x :: l.
Proof.
  induction l as [|y l IH]; simpl; [done|].
  case_bool_decide; [done|]. rewrite IH. apply Permutation_swap.
Qed.

Lemma sorted_by_abs_perm l : sorted_by_abs l ≡ₚ l.
Proof.
  induction l as [|x l IH]; simpl; [done|].
  by rewrite insert_by_abs_perm, IH.
Qed.

Lemma insert_by_abs_sorted x l :
  StronglySorted abs_le l → StronglySorted abs_le (insert_by_abs x l).
Proof.
  induction 1 as [|y l Hl IH Hy]; simpl.
  - repeat constructor.
  - case_bool_decide as Hxy.
    + constructor; [by constructor|]. constructor; [done|].
      eapply Forall_impl; [exact Hy|]. unfold abs_le in *. intros; simpl in *; lia.
    + constructor; [done|]. rewrite insert_by_abs_perm.
      constructor; [unfold abs_le; lia | done].
Qed.

Lemma sorted_by_abs_sorted l : StronglySorted abs_le (sorted_by_abs l).
Proof.
  induction l; simpl; [constructor | by apply insert_by_abs_sorted].
Qed.

Lemma NoDup_fmap_eq {A B} (f : A → B) (l : list A) x y :
  NoDup (f <$> l) → x ∈ l → y ∈ l → f x = f y → x = y.
Proof.
  induction l as [|z l IH]; simpl; [by intros _ ?%elem_of_nil|].
  rewrite NoDup_cons. intros [Hz Hl] Hx Hy Hf.
  apply elem_of_cons in Hx as [->|Hx]; apply elem_of_cons in Hy as [->|Hy]; auto.
  - exfalso. apply Hz. rewrite Hf. by apply list_elem_of_fmap_2.
  - exfalso. apply Hz. rewrite <- Hf. by apply list_elem_of_fmap_2.
Qed.

(** Sorting is canonical on assignments: permutations of a list with one
    literal per variable sort to the same tuple. *)
Lemma sorted_by_abs_canonical a a' :
  NoDup (Z.abs <$> a) → a' ≡ₚ a → sorted_by_abs a' = sorted_by_abs a.
Proof.
  intros Hnd Hp.
  apply (StronglySorted_unique_strong abs_le); try apply sorted_by_abs_sorted.
  - intros x1 x2 H1 H2 H12 H21.
    rewrite sorted_by_abs_perm in H1, H2. rewrite Hp in H1.
    apply (NoDup_fmap_eq Z.abs a); [done..|]. unfold abs_le in *. lia.
  - by rewrite !sorted_by_abs_perm.
Qed.

(** ** Dictionaries *)

Section dict_facts.
Context {K V : Type} `{EqDecision K}.
Implicit Types (d : Dict.t K V) (k : K) (v : V).

Lemma dict_mem_get d k : Dict.mem d k = true ↔ is_Some (Dict.get d k).
Proof.
  unfold Dict.mem. destruct (Dict.get d k); split; intros H; eauto; try done.
Qed.

Lemma dict_mem_false d k : Dict.mem d k = false ↔ Dict.get d k = None.
Proof. unfold Dict.mem. by destruct (Dict.get d k). Qed.

Lemma dict_get_set d k k' v :
  Dict.get (Dict.set d k v) k' = if decide (k = k') then Some v else Dict.get d k'.
Proof.
  induction d as [|[k0 v0] d IH]; simpl.
  - by destruct (decide (k = k')).
  - destruct (decide (k0 = k)) as [->|Hne]; simpl.
    + by destruct (decide (k = k')).
    + rewrite IH. destruct (decide (k0 = k')) as [->|]; [|done].
      by rewrite decide_False.
Qed.

Lemma dict_get_set_eq d k v : Dict.get (Dict.set d k v) k = Some v.
Proof. by rewrite dict_get_set, decide_True. Qed.

Lemma dict_get_set_ne d k k' v :
  k ≠ k' → Dict.get (Dict.set d k v) k' = Dict.get d k'.
Proof. intros. by rewrite dict_get_set, decide_False. Qed.

Lemma dict_get_is_Some_set d k k' v :
  is_Some (Dict.get d k') → is_Some (Dict.get (Dict.set d k v) k').
Proof. rewrite dict_get_set. destruct (decide (k = k')); eauto. Qed.

Lemma dict_get_values d k v : Dict.get d k = Some v → v ∈ Dict.values d.
Proof.
  unfold Dict.values. induction d as [|[k0 v0] d IH]; simpl; [done|].
  destruct (decide (k0 = k)); [intros [= ->]; by left | right; auto].
Qed.

Lemma dict_keys_set d k v :
  is_Some (Dict.get d k) → Dict.keys (Dict.set d k v) = Dict.keys d.
Proof.
  unfold Dict.keys. induction d as [|[k0 v0] d IH]; simpl; [by intros []|].
  destruct (decide (k0 = k)) as [->|]; csimpl; [done|].
  intros. f_equal. by apply IH.
Qed.
End dict_facts.

(** ** The SAT service *)

Lemma foldl_add_clause_events s cs :
  events (foldl Sat.add_clause s cs) = events s ++ (AddClause <$> cs).
Proof.
  revert s. induction cs as [|c cs IH]; intros s; simpl.
  - by rewrite app_nil_r.
  - rewrite IH. simpl. by rewrite <- app_assoc.
Qed.

Lemma foldl_add_clause_status s cs : status (foldl Sat.add_clause s cs) = status s.
Proof. revert s. induction cs as [|c cs IH]; intros s; simpl; [done|]. by rewrite IH. Qed.

Lemma for_each_cex_add_clause {A} (f : A → clause) (l : list A) s :
  for_each l (λ x, cex_add_clause (f x)) s =
  (Val tt, set_counterexample_solver
             (foldl Sat.add_clause (counterexample_solver s) (f <$> l)) s).
Proof.
  revert s. induction l as [|x l IH]; intros s; simpl; [by destruct s|].
  unfold bind at 1. simpl. by rewrite IH.
Qed.

(** ** [set_default_value] *)

Lemma set_default_value_run e v s cur :
  Dict.get (value_vars s) e = Some cur →
  set_default_value e v s =
  (Val tt, set_value_vars (Dict.set (value_vars s) e (if v then cur else - cur)) s).
Proof.
  intros Hcur. cbv [set_default_value bind gets subscript modify ret].
  assert (Dict.mem (value_vars s) e = true) as -> by (apply dict_mem_get; eauto).
  simpl. by rewrite Hcur.
Qed.

Lemma set_default_value_uninitialized e v s :
  Dict.get (value_vars s) e = None → set_default_value e v s = (Exc ValueError, s).
Proof.
  intros Hcur. cbv [set_default_value bind gets raise].
  by assert (Dict.mem (value_vars s) e = false) as -> by by apply dict_mem_false.
Qed.

(** ** [add_rule] *)

Section add_rule_facts.
Context (py_int : string → option Z).

Lemma add_rule_run e premise conclusion value_var s cur prev fire :
  Dict.get (value_vars s) e = Some cur →
  Dict.get (no_rule_fired_vars s) e = Some prev →
  Dict.get (rule_fire_vars s) e = Some fire →
  ∃ s', add_rule py_int e premise conclusion value_var s = (Val tt, s') ∧
    same_formula s s' ∧ same_expansion_side s s' ∧
    counter s' = counter s + 3 ∧
    rule_fire_vars s' = Dict.set (rule_fire_vars s) e (counter s + 1) ∧
    no_rule_fired_vars s' = Dict.set (no_rule_fired_vars s) e (counter s + 2) ∧
    value_vars s' = Dict.set (value_vars s) e (counter s + 3) ∧
    permanent_assumptions s' =
      permanent_assumptions s ++
      match value_var with
      | None => [if conclusion then Z.abs cur else - Z.abs cur]
      | Some _ => []
      end ∧
    events (counterexample_solver s') =
      events (counterexample_solver s) ++
      (AddClause <$> rule_clauses e premise value_var fire prev (Z.abs cur) (counter s)) ∧
    status (counterexample_solver s') = status (counterexample_solver s).
Proof.
  intros Hcur Hprev Hfire.
  unfold add_rule. unfold bind at 1. unfold gets at 1.
  assert (Dict.mem (value_vars s) e = true) as -> by (apply dict_mem_get; eauto).
  cbn [negb].
  cbv [bind gets subscript ret counter_increase Counter.increase modify set_name].
  rewrite Hcur, Hprev, Hfire. cbn.
  rewrite for_each_cex_add_clause.
  destruct value_var as [x|]; cbn.
  all: eexists; split; [reflexivity|].
  all: cbn; rewrite ?foldl_add_clause_events, ?foldl_add_clause_status.
  all: unfold same_formula, same_expansion_side, rule_clauses; cbn.
  all: rewrite ?Z.add_assoc, ?app_nil_r.
  all: replace (counter s + 1 + 1 + 1) with (counter s + 3) by lia.
  all: replace (counter s + 1 + 1) with (counter s + 2) by lia.
  all: repeat split; try done.
  all: rewrite fmap_app, <- !app_assoc; reflexivity.
Qed.
End add_rule_facts.

(** ** [get_expansion_variable] *)

Section expansion_facts.
Context (py_int : string → option Z).

Lemma get_expansion_variable_not_existential e a s :
  e ∉ existential_var_ids s →
  get_expansion_variable py_int e a s = (Exc ValueError, s).
Proof.
  intros He. cbv [get_expansion_variable bind gets].
  by rewrite bool_decide_eq_false_2.
Qed.

Lemma get_expansion_variable_outside e a s lit :
  lit ∈ a → Z.abs lit ∉ dep_set_of s e →
  get_expansion_variable py_int e a s = (Exc ValueError, s).
Proof.
  intros Hlit Hout. cbv [get_expansion_variable bind gets].
  case_bool_decide; [|done]. cbn [negb].
  rewrite bool_decide_eq_false_2; [done|].
  intros Hsub. apply Hout, Hsub, elem_of_list_to_set.
  by apply list_elem_of_fmap_2.
Qed.

Lemma get_expansion_variable_known e a s x :
  e ∈ existential_var_ids s →
  (∀ lit, lit ∈ a → Z.abs lit ∈ dep_set_of s e) →
  expansion_vars s !! (e, sorted_by_abs a) = Some x →
  get_expansion_variable py_int e a s = (Val x, s).
Proof.
  intros He Hin Hx. cbv [get_expansion_variable bind gets].
  rewrite bool_decide_eq_true_2 by done. cbn [negb].
  rewrite bool_decide_eq_true_2.
  - cbn [negb]. by rewrite Hx.
  - intros v [lit [-> Hl]]%elem_of_list_to_set%list_elem_of_fmap. by apply Hin.
Qed.

Lemma get_expansion_variable_fresh e a s cur prev fire :
  e ∈ existential_var_ids s →
  (∀ lit, lit ∈ a → Z.abs lit ∈ dep_set_of s e) →
  expansion_vars s !! (e, sorted_by_abs a) = None →
  Dict.get (value_vars s) e = Some cur →
  Dict.get (no_rule_fired_vars s) e = Some prev →
  Dict.get (rule_fire_vars s) e = Some fire →
  ∃ s', get_expansion_variable py_int e a s = (Val (counter s + 1), s') ∧
    same_formula s s' ∧
    expansion_vars s' = <[(e, sorted_by_abs a) := counter s + 1]> (expansion_vars s) ∧
    expansion_vars_set s' = {[counter s + 1]} ∪ expansion_vars_set s ∧
    expansion_variable_assignment s' = expansion_variable_assignment s ∧
    expansion_solver s' = expansion_solver s ∧
    last_counterexample_existentials s' = last_counterexample_existentials s ∧
    last_counterexample_universals s' = last_counterexample_universals s ∧
    counter s' = counter s + 4 ∧
    rule_fire_vars s' = Dict.set (rule_fire_vars s) e (counter s + 2) ∧
    no_rule_fired_vars s' = Dict.set (no_rule_fired_vars s) e (counter s + 3) ∧
    value_vars s' = Dict.set (value_vars s) e (counter s + 4) ∧
    permanent_assumptions s' = permanent_assumptions s ∧
    events (counterexample_solver s') =
      events (counterexample_solver s) ++
      (AddClause <$> rule_clauses e a (Some (counter s + 1)) fire prev
                       (Z.abs cur) (counter s + 1)) ∧
    status (counterexample_solver s') = status (counterexample_solver s).
Proof.
  intros He Hin Hx Hcur Hprev Hfire.
  unfold get_expansion_variable. unfold bind at 1, gets at 1.
  rewrite bool_decide_eq_true_2 by done. cbn [negb].
  unfold bind at 1, gets at 1.
  rewrite bool_decide_eq_true_2; cycle 1.
  { intros v [lit [-> Hl]]%elem_of_list_to_set%list_elem_of_fmap. by apply Hin. }
  cbn [negb]. unfold bind at 1, gets at 1. rewrite Hx.
  unfold bind at 1. cbn [counter_increase Counter.increase].
  unfold bind at 1, gets at 1.
  set (s1 := set_counter (counter s + 1) s).
  unfold bind at 1.
  set (m := match id_to_name s1 !! e with Some _ => _ | None => _ end).
  assert (∃ n, m s1 = (Val tt, set_id_to_name n s1)) as [n ->].
  { subst m. destruct (id_to_name s1 !! e); [by eexists|].
    exists (id_to_name s1). by destruct s. }
  unfold bind at 1. unfold modify at 1.
  set (s2 := set_expansion_vars _ _).
  destruct (add_rule_run py_int e a true (Some (counter s + 1)) s2 cur prev fire)
    as (s3 & Hrun & Hform & Hexp & Hc & Hrf & Hnrf & Hvv & Hpa & Hev & Hst);
    [done..|].
  rewrite (bind_val _ _ _ _ _ Hrun).
  cbv [bind modify ret]. eexists; split; [reflexivity|].
  destruct Hform as (?&?&?&?&?&?&?&?&?&?), Hexp as (?&?&?&?&?&?).
  cbn. unfold same_formula. cbn in *.
  rewrite app_nil_r in Hpa.
  repeat split; try congruence; try (simplify_eq; lia).
  - rewrite Hrf. f_equal. lia.
  - rewrite Hnrf. f_equal. lia.
  - rewrite Hvv. f_equal. lia.
Qed.
End expansion_facts.

Section expansion_inversion.
Context (py_int : string → option Z).

Lemma add_rule_val_initialized e premise conclusion value_var s r s' :
  add_rule py_int e premise conclusion value_var s = (Val r, s') → initialized s e.
Proof.
  unfold add_rule. unfold bind at 1, gets at 1.
  destruct (Dict.mem (value_vars s) e) eqn:Hm; [|done]. cbn [negb].
  apply dict_mem_get in Hm.
  unfold bind at 1, gets at 1. unfold bind at 1, subscript at 1.
  destruct (Dict.get (no_rule_fired_vars s) e) eqn:Hprev; [|done].
  cbn [ret]. unfold bind at 1, gets at 1. unfold bind at 1, subscript at 1.
  destruct (Dict.get (rule_fire_vars s) e) eqn:Hfire; [|done].
  intros _. repeat split; eauto.
Qed.

(** A successful call either found the key or created it. *)
Lemma get_expansion_variable_val e a s x s' :
  get_expansion_variable py_int e a s = (Val x, s') →
  e ∈ existential_var_ids s ∧
  (∀ lit, lit ∈ a → Z.abs lit ∈ dep_set_of s e) ∧
  ((expansion_vars s !! (e, sorted_by_abs a) = Some x ∧ s' = s) ∨
   (expansion_vars s !! (e, sorted_by_abs a) = None ∧ initialized s e ∧
    x = counter s + 1)).
Proof.
  intros Hrun.
  destruct (decide (e ∈ existential_var_ids s)) as [He|He]; cycle 1.
  { by rewrite get_expansion_variable_not_existential in Hrun. }
  assert (∀ lit, lit ∈ a → Z.abs lit ∈ dep_set_of s e) as Hin.
  { intros lit Hlit. destruct (decide (Z.abs lit ∈ dep_set_of s e)); [done|].
    by rewrite (get_expansion_variable_outside _ _ _ _ lit) in Hrun. }
  split; [done|]. split; [done|].
  destruct (expansion_vars s !! (e, sorted_by_abs a)) as [y|] eqn:Hx.
  { rewrite (get_expansion_variable_known _ _ _ _ y) in Hrun by done.
    left. by simplify_eq. }
  right. split; [done|].
  revert Hrun. unfold get_expansion_variable. unfold bind at 1, gets at 1.
  rewrite bool_decide_eq_true_2 by done. cbn [negb].
  unfold bind at 1, gets at 1.
  rewrite bool_decide_eq_true_2; cycle 1.
  { intros v [lit [-> Hl]]%elem_of_list_to_set%list_elem_of_fmap. by apply Hin. }
  cbn [negb]. unfold bind at 1, gets at 1. rewrite Hx.
  unfold bind at 1. cbn [counter_increase Counter.increase].
  unfold bind at 1, gets at 1.
  set (s1 := set_counter (counter s + 1) s).
  unfold bind at 1.
  set (m := match id_to_name s1 !! e with Some _ => _ | None => _ end).
  assert (∃ n, m s1 = (Val tt, set_id_to_name n s1)) as [n ->].
  { subst m. destruct (id_to_name s1 !! e); [by eexists|].
    exists (id_to_name s1). by destruct s. }
  unfold bind at 1. unfold modify at 1.
  set (s2 := set_expansion_vars _ _).
  unfold bind at 1.
  destruct (add_rule _ _ _ _ _ s2) as [[r|err] s3] eqn:Hadd; [|done].
  apply add_rule_val_initialized in Hadd.
  cbv [bind modify ret]. intros [= <- <-]. split; [|done].
  destruct Hadd as (?&?&?). done.
Qed.
End expansion_inversion.

(** ** [init_model] and the constructor *)

Lemma init_model_not_existential e s :
  e ∉ existential_var_ids s → init_model e s = (Exc ValueError, s).
Proof.
  intros He. cbv [init_model bind gets]. by rewrite bool_decide_eq_false_2.
Qed.

Lemma init_model_again e s :
  e ∈ existential_var_ids s → is_Some (Dict.get (value_vars s) e) →
  init_model e s = (Val tt, s).
Proof.
  intros He Hv. cbv [init_model bind gets].
  rewrite bool_decide_eq_true_2 by done. cbn [negb].
  by rewrite (proj2 (dict_mem_get _ _) Hv).
Qed.

Lemma init_model_fresh e s :
  e ∈ existential_var_ids s → Dict.get (value_vars s) e = None →
  ∃ s', init_model e s = (Val tt, s') ∧
    same_formula s s' ∧ same_expansion_side s s' ∧
    counter s' = counter s + 3 ∧
    value_vars s' = Dict.set (value_vars s) e (counter s + 1) ∧
    no_rule_fired_vars s' = Dict.set (no_rule_fired_vars s) e (counter s + 2) ∧
    rule_fire_vars s' = Dict.set (rule_fire_vars s) e (counter s + 3) ∧
    permanent_assumptions s' = permanent_assumptions s ∧
    events (counterexample_solver s') =
      events (counterexample_solver s) ++ (AddClause <$> init_clauses e (counter s)) ∧
    status (counterexample_solver s') = status (counterexample_solver s).
Proof.
  intros He Hv. unfold init_model. unfold bind at 1, gets at 1.
  rewrite bool_decide_eq_true_2 by done. cbn [negb].
  unfold bind at 1, gets at 1.
  rewrite (proj2 (dict_mem_false _ _) Hv).
  cbv [bind gets subscript ret counter_increase Counter.increase modify set_name
       cex_add_clause].
  cbn. eexists; split; [reflexivity|].
  unfold same_formula, same_expansion_side, init_clauses. cbn.
  replace (counter s + 1 + 1 + 1) with (counter s + 3) by lia.
  replace (counter s + 1 + 1) with (counter s + 2) by lia.
  repeat split; try done.
  by rewrite <- !app_assoc.
Qed.

Lemma same_formula_refl s : same_formula s s.
Proof. by repeat split. Qed.

Lemma same_formula_trans s1 s2 s3 :
  same_formula s1 s2 → same_formula s2 s3 → same_formula s1 s3.
Proof.
  unfold same_formula. intros (?&?&?&?&?&?&?&?&?&?) (?&?&?&?&?&?&?&?&?&?).
  repeat split; congruence.
Qed.

Lemma init_model_initialized e s s' :
  consistent_maps s → init_model e s = (Val tt, s') →
  same_formula s s' ∧ consistent_maps s' ∧ initialized s' e ∧
  (∀ e', initialized s e' → initialized s' e').
Proof.
  intros Hcons Hrun.
  destruct (decide (e ∈ existential_var_ids s)) as [He|He]; cycle 1.
  { by rewrite init_model_not_existential in Hrun. }
  destruct (Dict.get (value_vars s) e) as [v|] eqn:Hv.
  { rewrite init_model_again in Hrun by eauto. simplify_eq.
    split; [apply same_formula_refl|]. split; [done|].
    split; [apply Hcons; eauto | done]. }
  destruct (init_model_fresh e s He Hv)
    as (s1 & Hrun1 & Hf & _ & _ & Hvv & Hnrf & Hrf & _).
  rewrite Hrun1 in Hrun. simplify_eq. split; [done|].
  assert (initialized s' e) as Hinit.
  { unfold initialized. rewrite Hvv, Hnrf, Hrf, !dict_get_set_eq.
    repeat split; eauto. }
  assert (∀ e', initialized s e' → initialized s' e') as Hmono.
  { intros e' (?&?&?). unfold initialized. rewrite Hvv, Hnrf, Hrf.
    repeat split; by apply dict_get_is_Some_set. }
  split; [|by split].
  intros e'. rewrite Hvv, dict_get_set.
  destruct (decide (e = e')) as [<-|Hne]; [done|]. intros H. by apply Hmono, Hcons.
Qed.

Lemma for_each_init_model ids s r s' :
  consistent_maps s → for_each ids init_model s = (Val r, s') →
  same_formula s s' ∧ consistent_maps s' ∧
  (∀ e, e ∈ ids → initialized s' e) ∧
  (∀ e, initialized s e → initialized s' e).
Proof.
  revert s. induction ids as [|e ids IH]; intros s Hcons; simpl.
  - intros [= _ <-]. split; [apply same_formula_refl|].
    split; [done|]. split; [|done]. by intros e ?%elem_of_nil.
  - intros ([] & s1 & Hrun1 & Hrest)%bind_inv_val.
    destruct (init_model_initialized e s s1) as (Hf1 & Hc1 & Hi1 & Hm1); [done..|].
    destruct (IH s1 Hc1 Hrest) as (Hf2 & Hc2 & Hi2 & Hm2).
    split; [by eapply same_formula_trans|]. split; [done|]. split; [|by auto].
    intros e' [->|He']%elem_of_cons; auto.
Qed.

(** ** Refinement *)

Section refinement_facts.
Context (py_int : string → option Z).

Lemma restrict_to_deps_inside s e univ lit :
  lit ∈ restrict_to_deps s e univ → Z.abs lit ∈ dep_set_of s e.
Proof. unfold restrict_to_deps. by intros [? _]%list_elem_of_filter. Qed.

Lemma initialized_set_value s e e' v :
  initialized s e' →
  initialized (set_value_vars (Dict.set (value_vars s) e v) s) e'.
Proof.
  intros (?&?&?). repeat split; cbn; [by apply dict_get_is_Some_set|done..].
Qed.

(** On an initialized existential, with an assignment inside [D(e)], interning
    succeeds and keeps the formula, the expansion solver and the set of
    initialized existentials. *)
Lemma get_expansion_variable_total e a s :
  e ∈ existential_var_ids s →
  (∀ lit, lit ∈ a → Z.abs lit ∈ dep_set_of s e) →
  initialized s e →
  ∃ x s', get_expansion_variable py_int e a s = (Val x, s') ∧
    same_formula s s' ∧ expansion_solver s' = expansion_solver s ∧
    (∀ e', initialized s e' → initialized s' e').
Proof.
  intros He Hin Hi.
  destruct (expansion_vars s !! (e, sorted_by_abs a)) as [x|] eqn:Hx.
  { exists x, s. rewrite (get_expansion_variable_known _ _ _ _ x) by done.
    split; [done|]. split; [apply same_formula_refl|]. done. }
  destruct Hi as ([cur Hcur] & [prev Hprev] & [fire Hfire]).
  destruct (get_expansion_variable_fresh py_int e a s cur prev fire)
    as (s' & Hrun & Hform & _ & _ & _ & Hes & _ & _ & _ & Hrf & Hnrf & Hvv & _);
    [done..|].
  exists (counter s + 1), s'. split; [done|]. split; [done|]. split; [done|].
  intros e' (?&?&?). unfold initialized. rewrite Hvv, Hnrf, Hrf.
  repeat split; by apply dict_get_is_Some_set.
Qed.

End refinement_facts.

(** ** [get_counterexample] *)

Lemma get_counterexample_cases (oracle : sat_oracle) (s : DQBFSolver) :
  let cs := counterexample_solver s in
  let a1 := assumptions_step1 s in
  match oracle (events cs) a1 with
  | Unsat c1 =>
      get_counterexample oracle s =
      (Val (false, None),
       set_counterexample_solver
         (mkSAT (events cs ++ [Solve a1]) (Some (Unsat c1))) s)
  | Sat model =>
      let universal_assignment := filter (λ lit, Z.abs lit ∈ universal_var_ids s) model in
      let existential_assignment :=
        filter (λ lit, Z.abs lit ∈ existential_var_ids s) model in
      let a2 := universal_assignment ++ existential_assignment ++ [output_gate_id s] in
      match oracle (events cs ++ [Solve a1]) a2 with
      | Unsat core =>
          let exist_core :=
            filter (λ lit, Z.abs lit ∈ existential_var_ids s) (default [] core) in
          get_counterexample oracle s =
          (Val (true, Some (exist_core, universal_assignment)),
           set_counterexample_solver
             (mkSAT (events cs ++ [Solve a1; Solve a2]) (Some (Unsat core))) s)
      | Sat m2 =>
          get_counterexample oracle s =
          (Exc AssertionError,
           set_counterexample_solver
             (mkSAT (events cs ++ [Solve a1; Solve a2]) (Some (Sat m2))) s)
      end
  end.
Proof.
  intros cs a1. subst a1. remember (assumptions_step1 s) as a1 eqn:Ha1.
  destruct (oracle (events cs) a1) as [model|c1] eqn:H1.
  - cbv zeta. set (a2 := _ ++ _ ++ [output_gate_id s]).
    destruct (oracle (events cs ++ [Solve a1]) a2) as [m2|core] eqn:H2.
    all: cbv [get_counterexample bind gets cex_solve Sat.solve]; rewrite <- Ha1.
    all: fold cs; rewrite H1; cbn; fold a2; rewrite H2; cbn.
    all: by rewrite <- app_assoc.
  - cbv [get_counterexample bind gets cex_solve Sat.solve]. rewrite <- Ha1.
    fold cs. by rewrite H1.
Qed.

(** ** The driver loop *)

Section driver_facts.
Context (py_int : string → option Z) (oracle : sat_oracle) (debug_enabled : bool).


Lemma solve_iteration_error s e s1 :
  get_counterexample oracle s = (Exc e, s1) → solve_iteration py_int oracle debug_enabled s = (Exc e, s1).
Proof. intros H. unfold solve_iteration. by rewrite (bind_exc _ _ _ _ _ H). Qed.

Lemma solve_iteration_no_counterexample s cx s1 :
  get_counterexample oracle s = (Val (false, cx), s1) →
  solve_iteration py_int oracle debug_enabled s =
  if debug_enabled then
    match _enumerate_and_compute_model_functions oracle s1 with
    | (Val true, s2) => (Val (Some true), s2)
    | (Val false, s2) => (Exc (SystemExit 1), s2)
    | (Exc e, s2) => (Exc e, s2)
    end
  else (Val (Some true), s1).
Proof.
  intros H. unfold solve_iteration. rewrite (bind_val _ _ _ _ _ H).
  cbn [fst negb]. destruct debug_enabled; [|done].
  cbv [bind]. destruct (_enumerate_and_compute_model_functions oracle s1) as [[[]|err] s2]; done.
Qed.

Lemma solve_iteration_stall s core univ s1 :
  get_counterexample oracle s = (Val (true, Some (core, univ)), s1) →
  stalled s1 core univ →
  solve_iteration py_int oracle debug_enabled s = (Exc (SystemExit 1), s1).
Proof.
  intros H [He Hu]. unfold solve_iteration. rewrite (bind_val _ _ _ _ _ H).
  cbn [fst snd negb]. cbv [bind gets]. rewrite He, Hu.
  by rewrite !bool_decide_eq_true_2.
Qed.

Lemma solve_iteration_refine s core univ s1 :
  get_counterexample oracle s = (Val (true, Some (core, univ)), s1) →
  ¬ stalled s1 core univ →
  solve_iteration py_int oracle debug_enabled s =
  match analyze_counterexample py_int core univ (remember core univ s1) with
  | (Exc e, s3) => (Exc e, s3)
  | (Val _, s3) =>
      let es := mkSAT (events (expansion_solver s3) ++ [Solve []])
                      (Some (oracle (events (expansion_solver s3)) [])) in
      match oracle (events (expansion_solver s3)) [] with
      | Unsat _ => (Val (Some false), set_expansion_solver es s3)
      | Sat model =>
          (Val None,
           set_expansion_variable_assignment
             (filter (λ lit, Z.abs lit ∈ expansion_vars_set s3) model)
             (set_expansion_solver es s3))
      end
  end.
Proof.
  intros H Hns. unfold solve_iteration. rewrite (bind_val _ _ _ _ _ H).
  cbn [fst snd negb]. unfold bind at 1, gets at 1. unfold bind at 1, gets at 1.
  unfold bind at 1.
  set (chk := match last_counterexample_existentials s1 with Some _ => _ | None => _ end).
  assert (chk s1 = (Val tt, s1)) as ->.
  { subst chk. unfold stalled in Hns.
    destruct (last_counterexample_existentials s1) as [le|] eqn:He; [|done].
    destruct (last_counterexample_universals s1) as [lu|] eqn:Hu; [|done].
    destruct (decide (list_to_set core = le)) as [<-|];
      destruct (decide (list_to_set univ = lu)) as [<-|];
      rewrite ?bool_decide_eq_true_2, ?bool_decide_eq_false_2 by done;
      rewrite ?andb_false_r; try done.
    by destruct Hns. }
  unfold bind at 1, modify at 1. unfold bind at 1, modify at 1.
  fold (remember core univ s1). unfold bind at 1.
  destruct (analyze_counterexample py_int core univ (remember core univ s1))
    as [[[]|err] s3]; [|done].
  cbv [bind exp_solve Sat.solve gets Sat.get_model].
  by destruct (oracle (events (expansion_solver s3)) []) as [model|c] eqn:Ho.
Qed.
End driver_facts.

Lemma solve_iteration_unpack_none py_int oracle debug_enabled s s1 :
  get_counterexample oracle s = (Val (true, None), s1) →
  solve_iteration py_int oracle debug_enabled s = (Exc TypeError, s1).
Proof. intros H. unfold solve_iteration. by rewrite (bind_val _ _ _ _ _ H). Qed.

Lemma solve_unfold py_int oracle debug_enabled n s :
  solve py_int oracle debug_enabled (S n) s =
  match solve_iteration py_int oracle debug_enabled s with
  | (Val (Some b), s') => (Val (Some b), s')
  | (Val None, s') => solve py_int oracle debug_enabled n s'
  | (Exc e, s') => (Exc e, s')
  end.
Proof.
  cbn [solve]. unfold bind at 1.
  by destruct (solve_iteration py_int oracle debug_enabled s) as [[[b|]|e] s'].
Qed.

(** ** Equivalence detection *)

Lemma for_each_app {S A} (l1 l2 : list A) (body : A → M S unit) s :
  for_each (l1 ++ l2) body s = bind (for_each l1 body) (λ _, for_each l2 body) s.
Proof.
  revert s. induction l1 as [|x l1 IH]; intros s; simpl; [done|].
  unfold bind in *. destruct (body x s) as [[[]|e] s1]; [|done]. apply IH.
Qed.

Lemma for_each_fmap {S A B} (g : A → B) (l : list A) (body : B → M S unit) s :
  for_each (g <$> l) body s = for_each l (λ x, body (g x)) s.
Proof.
  revert s. induction l as [|x l IH]; intros s; simpl; [done|].
  unfold bind. destruct (body (g x) s) as [[[]|e] s1]; [|done]. apply IH.
Qed.

Lemma for_each_ext {S A} (l : list A) (body1 body2 : A → M S unit) s :
  (∀ x s, body1 x s = body2 x s) → for_each l body1 s = for_each l body2 s.
Proof.
  intros Hext. revert s. induction l as [|x l IH]; intros s; simpl; [done|].
  unfold bind. rewrite Hext. destruct (body2 x s) as [[[]|e] s1]; [|done]. apply IH.
Qed.

Lemma only_counter_advanced_refl s : only_counter_advanced s s.
Proof. split; [by destruct s | lia]. Qed.

Lemma only_counter_advanced_trans s1 s2 s3 :
  only_counter_advanced s1 s2 → only_counter_advanced s2 s3 →
  only_counter_advanced s1 s3.
Proof.
  intros [H12 ?] [H23 ?]. split; [|lia].
  rewrite H23 at 1. rewrite H12 at 1. done.
Qed.

Lemma frames_self_ret {A} (a : A) : frames_self (ret a).
Proof. intros f. apply only_counter_advanced_refl. Qed.

Lemma frames_self_bind {A B} (m : M DetectFrame A) (k : A → M DetectFrame B) :
  frames_self m → (∀ a, frames_self (k a)) → frames_self (bind m k).
Proof.
  intros Hm Hk f. unfold bind. specialize (Hm f).
  destruct (m f) as [[a|e] f1]; [|done].
  eapply only_counter_advanced_trans; [exact Hm | apply Hk].
Qed.

Lemma frames_self_for_each {A} (l : list A) (body : A → M DetectFrame unit) :
  (∀ x, frames_self (body x)) → frames_self (for_each l body).
Proof.
  intros Hb. induction l as [|x l IH]; simpl; [apply frames_self_ret|].
  apply frames_self_bind; auto.
Qed.

Lemma frames_self_gets {A} (g : DetectFrame → A) : frames_self (gets g).
Proof. intros f. apply only_counter_advanced_refl. Qed.

Lemma frames_self_lift_uf {A} (m : M UnionFind.t A) : frames_self (lift_uf m).
Proof.
  intros f. unfold lift_uf. destruct (m (uf f)). apply only_counter_advanced_refl.
Qed.

Lemma frames_self_add_clause c : frames_self (detection_add_clause c).
Proof. intros f. apply only_counter_advanced_refl. Qed.

Lemma frames_self_solve oracle a : frames_self (detection_solve oracle a).
Proof. intros f. apply only_counter_advanced_refl. Qed.

Lemma frames_self_counter_increase : frames_self (lift_self counter_increase).
Proof. intros f. split; cbn; [done | lia]. Qed.

Lemma frames_self_check_pair oracle limit v1 v2 :
  frames_self (check_pair oracle limit v1 v2).
Proof.
  unfold check_pair.
  apply frames_self_bind; [apply frames_self_lift_uf|]. intros [].
  { apply frames_self_ret. }
  apply frames_self_bind; [apply frames_self_gets|]. intros dl.
  apply frames_self_bind; [apply frames_self_counter_increase|]. intros a.
  apply frames_self_bind.
  { apply frames_self_for_each. intros p.
    apply frames_self_bind; [apply frames_self_add_clause|]. intros _.
    apply frames_self_add_clause. }
  intros _. apply frames_self_bind; [apply frames_self_add_clause|]. intros _.
  apply frames_self_bind; [apply frames_self_add_clause|]. intros _.
  apply frames_self_bind; [apply frames_self_gets|]. intros g.
  apply frames_self_bind; [apply frames_self_solve|]. intros [].
  - apply frames_self_ret.
  - apply frames_self_lift_uf.
Qed.

Lemma frames_self_pairs_loop oracle limit group :
  frames_self (pairs_loop oracle limit group).
Proof.
  induction group as [|v1 rest IH]; simpl; [apply frames_self_ret|].
  apply frames_self_bind; [|done].
  apply frames_self_for_each. intros v2. apply frames_self_check_pair.
Qed.

Lemma frames_self_detect_frame oracle limit :
  frames_self (detect_frame oracle limit).
Proof.
  unfold detect_frame.
  apply frames_self_bind; [apply frames_self_gets|]. intros groups.
  apply frames_self_bind; [|intros _; apply frames_self_lift_uf].
  apply frames_self_for_each. intros item. apply frames_self_pairs_loop.
Qed.

Lemma dict_elem_of_set {K V} `{EqDecision K} (d : Dict.t K V) k v k' v' :
  (k', v') ∈ Dict.set d k v → (k' = k ∧ v' = v) ∨ (k', v') ∈ d.
Proof.
  induction d as [|[k0 v0] d IH]; simpl.
  - intros [= -> ->]%list_elem_of_singleton. by left.
  - destruct (decide (k0 = k)) as [->|Hne].
    + intros [[= -> ->]|?]%elem_of_cons; [by left | right; by right].
    + intros [[= -> ->]|H]%elem_of_cons; [right; by left|].
      destruct (IH H) as [?|?]; [by left | right; by right].
Qed.

Lemma dict_get_elem_of {K V} `{EqDecision K} (d : Dict.t K V) k v :
  Dict.get d k = Some v → (k, v) ∈ d.
Proof.
  induction d as [|[k0 v0] d IH]; simpl; [done|].
  destruct (decide (k0 = k)) as [->|]; [intros [= ->]; by left | right; auto].
Qed.

Lemma insert_item_perm {V} (x : Z * V) l : insert_item x l ≡ₚ x :: l.
Proof.
  induction l as [|y l IH]; simpl; [done|].
  case_bool_decide; [done|]. rewrite IH. apply Permutation_swap.
Qed.

Lemma sorted_items_perm {V} (d : Dict.t Z V) : sorted_items d ≡ₚ d.
Proof.
  unfold sorted_items. induction d as [|x d IH]; simpl; [done|].
  by rewrite insert_item_perm, IH.
Qed.

Lemma group_by_dep_count_spec s k group e :
  (k, group) ∈ group_by_dep_count s → e ∈ group →
  e ∈ existential_var_ids s ∧ Z.of_nat (length (dep_list_of s e)) = k.
Proof.
  unfold group_by_dep_count.
  assert (∀ ids (d : Dict.t Z (list Z)),
    (∀ k group e, (k, group) ∈ d → e ∈ group →
       e ∈ existential_var_ids s ∧ Z.of_nat (length (dep_list_of s e)) = k) →
    (∀ e, e ∈ ids → e ∈ existential_var_ids s) →
    ∀ k group e,
      (k, group) ∈
        foldl (λ by_dep_count exist_id,
                 let dep_count :=
                   Z.of_nat (length (default [] (dependencies_by_id_list s !! exist_id))) in
                 let d :=
                   if Dict.mem by_dep_count dep_count then by_dep_count
                   else Dict.set by_dep_count dep_count [] in
                 Dict.set d dep_count (default [] (Dict.get d dep_count) ++ [exist_id]))
              d ids →
      e ∈ group →
      e ∈ existential_var_ids s ∧ Z.of_nat (length (dep_list_of s e)) = k) as Hgen.
  { induction ids as [|x ids IH]; intros d Hd Hids k0 g0 e0; simpl; [by apply Hd|].
    apply IH; [|intros; apply Hids; by right].
    intros k1 g1 e1 Hin He1.
    fold (dep_list_of s x) in Hin.
    set (dc := Z.of_nat (length (dep_list_of s x))) in *.
    set (d1 := if Dict.mem d dc then d else Dict.set d dc []) in *.
    assert (∀ k group e, (k, group) ∈ d1 → e ∈ group →
              e ∈ existential_var_ids s ∧ Z.of_nat (length (dep_list_of s e)) = k) as Hd1.
    { subst d1. destruct (Dict.mem d dc); [done|].
      intros k2 g2 e2 [[-> ->]|?]%dict_elem_of_set; [by intros ?%elem_of_nil | eauto]. }
    apply dict_elem_of_set in Hin as [[-> ->]|Hin]; [|eauto].
    apply elem_of_app in He1 as [He1| ->%list_elem_of_singleton].
    - destruct (Dict.get d1 dc) as [g|] eqn:Hg; [|by apply elem_of_nil in He1].
      eapply Hd1; [by apply dict_get_elem_of|done].
    - split; [apply Hids; by left | done]. }
  apply Hgen; [|done]. intros ??? H. by apply elem_of_nil in H.
Qed.

Lemma ordered_pairs_elem group e1 e2 :
  (e1, e2) ∈ ordered_pairs group → e1 ∈ group ∧ e2 ∈ group.
Proof.
  induction group as [|x rest IH]; simpl; [by intros ?%elem_of_nil|].
  intros [[y [[= -> ->] Hy]]%list_elem_of_fmap|H]%elem_of_app.
  - split; [by left | by right].
  - destruct (IH H). split; by right.
Qed.

Lemma elem_of_concat {A} (x : A) (ls : list (list A)) :
  x ∈ concat ls ↔ ∃ l, l ∈ ls ∧ x ∈ l.
Proof.
  induction ls as [|l ls IH]; simpl.
  - split; [by intros ?%elem_of_nil | by intros (? & ?%elem_of_nil & _)].
  - rewrite elem_of_app, IH. split.
    + intros [?|(l' & ? & ?)]; [exists l; split; [by left|done]|].
      exists l'. split; [by right | done].
    + intros (l' & [->|?]%elem_of_cons & ?); [by left | right; eauto].
Qed.

Lemma candidate_pairs_spec s e1 e2 :
  (e1, e2) ∈ candidate_pairs s →
  e1 ∈ existential_var_ids s ∧ e2 ∈ existential_var_ids s ∧
  length (dep_list_of s e1) = length (dep_list_of s e2).
Proof.
  unfold candidate_pairs.
  intros (l & [[k group] [-> Hitem]]%list_elem_of_fmap & Hin)%elem_of_concat.
  rewrite sorted_items_perm in Hitem. cbn in Hin.
  apply ordered_pairs_elem in Hin as [H1 H2].
  destruct (group_by_dep_count_spec s k group e1 Hitem H1) as [? Hk1].
  destruct (group_by_dep_count_spec s k group e2 Hitem H2) as [? Hk2].
  repeat split; try done. lia.
Qed.

Section detection_facts.
Context (oracle : sat_oracle) (limit : nat).

Lemma pairs_loop_ordered_pairs group f :
  pairs_loop oracle limit group f =
  for_each (ordered_pairs group) (λ p, check_pair oracle limit p.1 p.2) f.
Proof.
  revert f. induction group as [|x rest IH]; intros f; simpl; [done|].
  rewrite for_each_app. unfold bind. rewrite for_each_fmap. cbn.
  destruct (for_each rest _ f) as [[[]|e] f1]; [apply IH | done].
Qed.

Lemma detect_frame_candidate_pairs f :
  detect_frame oracle limit f =
  bind (for_each (candidate_pairs (self f)) (λ p, check_pair oracle limit p.1 p.2))
       (λ _, lift_uf (UnionFind.get_classes limit)) f.
Proof.
  assert (∀ items f,
    for_each items (λ item : Z * list Z, pairs_loop oracle limit item.2) f =
    for_each (concat ((λ item : Z * list Z, ordered_pairs item.2) <$> items))
             (λ p, check_pair oracle limit p.1 p.2) f) as Hflat.
  { clear f. induction items as [|item items IH]; intros f; simpl; [done|].
    rewrite for_each_app. unfold bind. rewrite pairs_loop_ordered_pairs.
    destruct (for_each (ordered_pairs item.2) _ f) as [[[]|e] f1]; [apply IH | done]. }
  unfold detect_frame, candidate_pairs, bind, gets. by rewrite Hflat.
Qed.
End detection_facts.

Lemma for_each_detection_add_clauses {A} (g : A → list clause) (l : list A)
    (body : A → M DetectFrame unit) f :
  (∀ x f, body x f =
          (Val tt, mkFrame (self f) (foldl Sat.add_clause (detection_solver f) (g x)) (uf f))) →
  for_each l body f =
  (Val tt, mkFrame (self f)
             (foldl Sat.add_clause (detection_solver f) (concat (g <$> l))) (uf f)).
Proof.
  intros Hbody. revert f. induction l as [|x l IH]; intros f; simpl.
  - by destruct f.
  - unfold bind. rewrite Hbody, IH. cbn. by rewrite foldl_app.
Qed.

Section check_pair_facts.
Context (oracle : sat_oracle) (limit : nat).

Lemma check_pair_outcome v1 v2 f :
  let s := self f in
  let ds := detection_solver f in
  match UnionFind.same_set limit v1 v2 (uf f) with
  | (Exc e, u) => check_pair oracle limit v1 v2 f = (Exc e, mkFrame s ds u)
  | (Val true, u) => check_pair oracle limit v1 v2 f = (Val tt, mkFrame s ds u)
  | (Val false, u) =>
      let a := counter s + 1 in
      let cls := pair_clauses a v1 v2 (dep_list_of s v1) (dep_list_of s v2) in
      let evs := events ds ++ (AddClause <$> cls) in
      let assumptions := [a; output_gate_id s] in
      let answer := oracle evs assumptions in
      let ds' := mkSAT (evs ++ [Solve assumptions]) (Some answer) in
      match answer with
      | Unsat _ =>
          check_pair oracle limit v1 v2 f =
          (let '(r, u') := UnionFind.union limit v1 v2 u in
           (r, mkFrame (set_counter a s) ds' u'))
      | Sat _ =>
          check_pair oracle limit v1 v2 f = (Val tt, mkFrame (set_counter a s) ds' u)
      end
  end.
Proof.
  intros s ds.
  destruct (UnionFind.same_set limit v1 v2 (uf f)) as [[[]|e] u] eqn:Hsame.
  - unfold check_pair, bind at 1, lift_uf at 1. by rewrite Hsame.
  - cbv zeta.
    set (a := counter s + 1).
    set (cls := pair_clauses a v1 v2 (dep_list_of s v1) (dep_list_of s v2)).
    assert (check_pair oracle limit v1 v2 f =
            let evs := events ds ++ (AddClause <$> cls) in
            let answer := oracle evs [a; output_gate_id s] in
            let ds' := mkSAT (evs ++ [Solve [a; output_gate_id s]]) (Some answer) in
            match answer with
            | Unsat _ =>
                (let '(r, u') := UnionFind.union limit v1 v2 u in
                 (r, mkFrame (set_counter a s) ds' u'))
            | Sat _ => (Val tt, mkFrame (set_counter a s) ds' u)
            end) as ->.
    { unfold check_pair. unfold bind at 1, lift_uf at 1. rewrite Hsame.
      unfold bind at 1, gets at 1. cbn [self].
      unfold bind at 1, lift_self at 1. cbn [counter_increase Counter.increase self].
      unfold bind at 1.
      rewrite (for_each_detection_add_clauses
                 (λ p : Z * Z, [ [- a; p.1; - p.2]; [- a; - p.1; p.2] ])); [|done].
      cbn [self detection_solver uf].
      cbv [bind detection_add_clause modify gets detection_solve Sat.solve]. cbn.
      rewrite ?foldl_add_clause_events, ?foldl_add_clause_status.
      fold s ds (dep_list_of s v1) (dep_list_of s v2). fold a.
      match goal with
      | |- context [oracle ?evs _] =>
          replace evs with (events ds ++ (AddClause <$> cls))
      end; cycle 1.
      { subst cls. unfold pair_clauses. rewrite fmap_app, <- !app_assoc. done. }
      destruct (oracle _ _) as [m|c]; cbn; [done|].
      unfold lift_uf. cbn. by destruct (UnionFind.union limit v1 v2 u). }
    cbv zeta. by destruct (oracle _ _).
  - unfold check_pair, bind at 1, lift_uf at 1. by rewrite Hsame.
Qed.
End check_pair_facts.

(** ** The union-find structure *)

Lemma find_step limit x u :
  UnionFind.find (S limit) x u =
  match Dict.get (UnionFind.parent u) x with
  | None => (Exc KeyError, u)
  | Some p =>
      if decide (p = x) then (Val x, u)
      else match UnionFind.find limit p u with
           | (Val r, u1) => (Val r, UnionFind.set_parent x r u1)
           | (Exc e, u1) => (Exc e, u1)
           end
  end.
Proof.
  cbn [UnionFind.find]. unfold bind, gets, subscript, ret, raise, modify. cbn beta.
  destruct (Dict.get (UnionFind.parent u) x) as [p|] eqn:Hp; [|done].
  case_bool_decide as Hne.
  - rewrite decide_False, Hp by done.
    destruct (UnionFind.find limit p u) as [[r|e] u1]; [|done].
    cbn. by rewrite dict_get_set_eq.
  - subst p. rewrite decide_True by done. by rewrite !Hp.
Qed.

Lemma root_in_root n p z r : root_in n p z = Some r → Dict.get p r = Some r.
Proof.
  revert z. induction n as [|n IH]; intros z; simpl; [done|].
  destruct (Dict.get p z) as [q|] eqn:Hq; [|done].
  destruct (decide (q = z)) as [->|]; [by intros [= <-] | apply IH].
Qed.

Lemma root_in_mono n m p z r :
  root_in n p z = Some r → (n ≤ m)%nat → root_in m p z = Some r.
Proof.
  revert m z. induction n as [|n IH]; intros m z; simpl; [done|].
  intros H Hle. destruct m as [|m]; [lia|]. simpl.
  destruct (Dict.get p z) as [q|]; [|done].
  destruct (decide (q = z)); [done|]. apply IH; [done|lia].
Qed.

Lemma root_in_det n m p z r r' :
  root_in n p z = Some r → root_in m p z = Some r' → r = r'.
Proof.
  intros H H'.
  apply (root_in_mono _ (n `max` m)%nat) in H; [|lia].
  apply (root_in_mono _ (n `max` m)%nat) in H'; [|lia]. congruence.
Qed.

Lemma root_in_self n p r : Dict.get p r = Some r → root_in (S n) p r = Some r.
Proof. intros H. simpl. by rewrite H, decide_True. Qed.

(** Path compression: pointing [x] at its own representative changes no
    representative and lengthens no path. *)
Lemma root_in_compress k p x r :
  root_in k p x = Some r →
  ∀ m z r', root_in m p z = Some r' → root_in m (Dict.set p x r) z = Some r'.
Proof.
  intros Hx m. induction m as [|m IH]; intros z r'; simpl; [done|].
  destruct (Dict.get p z) as [q|] eqn:Hq; [|done]. intros Hz.
  rewrite dict_get_set. destruct (decide (x = z)) as [->|Hne].
  - assert (r' = r) as ->.
    { eapply (root_in_det (S m) k); [|exact Hx]. simpl. by rewrite Hq. }
    destruct (decide (r = z)) as [|Hrz]; [by subst|].
    destruct (decide (q = z)) as [->|Hqz]; [by simplify_eq|].
    destruct m as [|m]; [done|].
    simpl. rewrite dict_get_set_ne by done.
    by rewrite (root_in_root _ _ _ _ Hx), decide_True.
  - rewrite Hq. destruct (decide (q = z)); [done|]. by apply IH.
Qed.

(** A successful [find] returns the representative, and only compresses. *)
Lemma find_val limit x u r u' :
  UnionFind.find limit x u = (Val r, u') →
  root_in limit (UnionFind.parent u) x = Some r ∧
  UnionFind.rank u' = UnionFind.rank u ∧
  Dict.get (UnionFind.parent u') x = Some r ∧
  (∀ m z r', root_in m (UnionFind.parent u) z = Some r' →
             root_in m (UnionFind.parent u') z = Some r').
Proof.
  revert x u r u'. induction limit as [|limit IH]; intros x u r u'; [done|].
  rewrite find_step. simpl.
  destruct (Dict.get (UnionFind.parent u) x) as [p|] eqn:Hp; [|done].
  destruct (decide (p = x)) as [->|Hne]; [by intros [= <- <-]|].
  destruct (UnionFind.find limit p u) as [[r0|e] u1] eqn:Hfind; [|done].
  intros [= <- <-]. destruct (IH _ _ _ _ Hfind) as (Hroot & Hrank & _ & Hkeep).
  split; [done|]. split; [done|]. cbn. split; [by rewrite dict_get_set_eq|].
  intros m z r' Hz. apply (root_in_compress (S limit)); [|by apply Hkeep].
  apply Hkeep. simpl. by rewrite Hp, decide_False.
Qed.

(** [find] succeeds when the representative is within the recursion limit. *)
Lemma find_root_in n limit x u r :
  root_in n (UnionFind.parent u) x = Some r → (n ≤ limit)%nat →
  ∃ u', UnionFind.find limit x u = (Val r, u').
Proof.
  revert limit x u. induction n as [|n IH]; intros limit x u; simpl; [done|].
  intros H Hle. destruct limit as [|limit]; [lia|]. rewrite find_step.
  destruct (Dict.get (UnionFind.parent u) x) as [p|]; [|done].
  destruct (decide (p = x)); [simplify_eq; eauto|].
  destruct (IH limit p u) as [u1 ->]; [done|lia|]. eauto.
Qed.

Lemma find_post limit x u r u' :
  UnionFind.find limit x u = (Val r, u') →
  root_in 2 (UnionFind.parent u') x = Some r.
Proof.
  intros H. destruct (find_val _ _ _ _ _ H) as (Hroot & _ & Hx & Hkeep).
  apply Hkeep, root_in_root in Hroot. simpl. rewrite Hx.
  destruct (decide (r = x)); [by subst|]. by rewrite Hroot, decide_True.
Qed.

(** Linking the representative [a] under the representative [b]. *)
Lemma root_in_link p a b m z r :
  Dict.get p a = Some a → Dict.get p b = Some b → a ≠ b →
  root_in m p z = Some r →
  root_in (S m) (Dict.set p a b) z = Some (if decide (r = a) then b else r).
Proof.
  intros Ha Hb Hab. revert z. induction m as [|m IH]; intros z; [done|].
  intros Hz. cbn [root_in] in Hz.
  destruct (Dict.get p z) as [q|] eqn:Hq; [|done].
  change (root_in (S (S m)) (Dict.set p a b) z) with
    (match Dict.get (Dict.set p a b) z with
     | None => None
     | Some q => if decide (q = z) then Some z else root_in (S m) (Dict.set p a b) q
     end).
  rewrite dict_get_set. destruct (decide (a = z)) as [->|Haz].
  - assert (q = z) as -> by congruence. rewrite decide_True in Hz by done.
    simplify_eq. rewrite decide_False, decide_True by done.
    apply root_in_self. by rewrite dict_get_set_ne.
  - rewrite Hq. destruct (decide (q = z)) as [->|Hqz].
    + simplify_eq. by rewrite decide_False.
    + by apply IH.
Qed.

(** The answer of [same_set] does not change when it is asked again. *)
Lemma same_set_stable limit x y u b u' :
  UnionFind.same_set limit x y u = (Val b, u') →
  ∃ u'', UnionFind.same_set limit x y u' = (Val b, u'').
Proof.
  unfold UnionFind.same_set. intros H.
  apply bind_inv_val in H as (rx & u1 & Hx & H).
  apply bind_inv_val in H as (ry & u2 & Hy & H). injection H as <- <-.
  destruct (find_val _ _ _ _ _ Hx) as (Hrx & _ & _ & Hk1).
  destruct (find_val _ _ _ _ _ Hy) as (Hry & _ & _ & Hk2).
  apply Hk1, Hk2 in Hrx. apply Hk2 in Hry.
  destruct (find_root_in _ limit _ _ _ Hrx) as [u3 Hx']; [done|].
  destruct (find_val _ _ _ _ _ Hx') as (_ & _ & _ & Hk3). apply Hk3 in Hry.
  destruct (find_root_in _ limit _ _ _ Hry) as [u4 Hy']; [done|].
  exists u4. by rewrite (bind_val _ _ _ _ _ Hx'), (bind_val _ _ _ _ _ Hy').
Qed.

Lemma same_set_roots n limit x y p r u :
  UnionFind.parent u = p → (n ≤ limit)%nat →
  root_in n p x = Some r → root_in n p y = Some r →
  ∃ u', UnionFind.same_set limit x y u = (Val true, u').
Proof.
  intros <- Hle Hx Hy. unfold UnionFind.same_set.
  destruct (find_root_in _ limit _ _ _ Hx) as [u1 Hx']; [done|].
  destruct (find_val _ _ _ _ _ Hx') as (_ & _ & _ & Hk). apply Hk in Hy.
  destruct (find_root_in _ limit _ _ _ Hy) as [u2 Hy']; [done|].
  exists u2. rewrite (bind_val _ _ _ _ _ Hx'), (bind_val _ _ _ _ _ Hy').
  unfold ret. by rewrite bool_decide_true.
Qed.

(** After a successful [union] the two elements are in one class. *)
Lemma union_same_set limit x y u u' :
  (3 ≤ limit)%nat →
  UnionFind.union limit x y u = (Val tt, u') →
  ∃ u'', UnionFind.same_set limit x y u' = (Val true, u'').
Proof.
  intros Hlimit. unfold UnionFind.union. intros H.
  apply bind_inv_val in H as (rx & u1 & Hx & H).
  apply bind_inv_val in H as (ry & u2 & Hy & H).
  pose proof (find_post _ _ _ _ _ Hx) as Hrx.
  pose proof (find_post _ _ _ _ _ Hy) as Hry.
  destruct (find_val _ _ _ _ _ Hy) as (_ & _ & _ & Hk). apply Hk in Hrx.
  case_bool_decide as Heq.
  { injection H as <-. subst ry.
    by apply (same_set_roots 2 limit x y (UnionFind.parent u2) rx); [|lia|..]. }
  pose proof (root_in_root _ _ _ _ Hrx) as Hrootx.
  pose proof (root_in_root _ _ _ _ Hry) as Hrooty.
  assert (UnionFind.parent u' = Dict.set (UnionFind.parent u2) rx ry ∨
          UnionFind.parent u' = Dict.set (UnionFind.parent u2) ry rx) as [Hp|Hp].
  { revert H. unfold bind, gets, subscript, ret, raise, modify.
    destruct (Dict.get (UnionFind.rank u2) rx) as [rank_x|]; [|done].
    destruct (Dict.get (UnionFind.rank u2) ry) as [rank_y|]; [|done].
    repeat case_bool_decide; cbn.
    - intros [= <-]. by left.
    - intros [= <-]. by right.
    - destruct (Dict.get (UnionFind.rank u2) rx); [|done]. intros [= <-]. by right. }
  - apply (same_set_roots 3 limit x y _ ry u' eq_refl); [lia|..]; rewrite Hp.
    + rewrite (root_in_link _ rx ry 2 x rx); [|done..]. by rewrite decide_True.
    + rewrite (root_in_link _ rx ry 2 y ry); [|done..]. by rewrite decide_False.
  - apply (same_set_roots 3 limit x y _ rx u' eq_refl); [lia|..]; rewrite Hp.
    + rewrite (root_in_link _ ry rx 2 x rx); [|done..]. by rewrite decide_False.
    + rewrite (root_in_link _ ry rx 2 y ry); [|done..]. by rewrite decide_True.
Qed.

(** ** Models and keys *)

Lemma model_consistent (m : list Z) :
  NoDup (Z.abs <$> m) → 0 ∉ m → consistent m.
Proof.
  intros Hnd H0 l Hl Hneg.
  assert (l = - l) as Heq.
  { apply (NoDup_fmap_eq Z.abs m); [done..|]. lia. }
  apply H0. replace 0 with l by lia. done.
Qed.

Lemma NoDup_fmap_NoDup {A B} (f : A → B) (l : list A) : NoDup (f <$> l) → NoDup l.
Proof.
  induction l as [|x l IH]; simpl; [constructor|].
  rewrite !NoDup_cons. intros [Hx Hl]. split; [|auto].
  intros Hin. apply Hx. by apply list_elem_of_fmap_2.
Qed.

Lemma NoDup_fmap_filter {A B} (f : A → B) (P : A → Prop) `{∀ x, Decision (P x)}
    (l : list A) :
  NoDup (f <$> l) → NoDup (f <$> filter P l).
Proof.
  induction l as [|x l IH]; simpl; [done|].
  rewrite NoDup_cons. intros [Hx Hl]. rewrite filter_cons.
  destruct (decide (P x)); [|auto]. csimpl. apply NoDup_cons. split; [|auto].
  intros (y & Hy & [_ Hin]%list_elem_of_filter)%list_elem_of_fmap.
  apply Hx. rewrite Hy. by apply list_elem_of_fmap_2.
Qed.

Lemma restrict_to_deps_elem s e univ l :
  l ∈ restrict_to_deps s e univ ↔ Z.abs l ∈ dep_set_of s e ∧ l ∈ univ.
Proof. unfold restrict_to_deps. by rewrite list_elem_of_filter. Qed.

(** Equal sets of literals, one literal per variable, give the same key. *)
Lemma key_of_same_set s e univ univ' :
  NoDup (Z.abs <$> univ) → NoDup (Z.abs <$> univ') →
  (∀ l, l ∈ univ ↔ l ∈ univ') →
  key_of s e univ = key_of s e univ'.
Proof.
  intros Hnd Hnd' Hsame. unfold key_of. f_equal.
  apply sorted_by_abs_canonical.
  - by apply NoDup_fmap_filter.
  - apply NoDup_Permutation.
    + eapply NoDup_fmap_NoDup, NoDup_fmap_filter, Hnd.
    + eapply NoDup_fmap_NoDup, NoDup_fmap_filter, Hnd'.
    + intros l. rewrite !restrict_to_deps_elem. by rewrite Hsame.
Qed.

(** Two full assignments with different keys for [e] disagree on a
    dependency of [e]. *)
Lemma distinct_keys_conflict s e univ univ' M :
  total_assignment s univ → total_assignment s univ' →
  (∀ l, l ∈ univ → l ∈ M) →
  sorted_by_abs (restrict_to_deps s e univ') ≠ sorted_by_abs (restrict_to_deps s e univ) →
  conflicts (sorted_by_abs (restrict_to_deps s e univ')) M.
Proof.
  intros (Hnd & Hin & Htot) (Hnd' & Hin' & Htot') HM Hne.
  destruct (decide (Exists (λ l, - l ∈ univ) (restrict_to_deps s e univ')))
    as [Hex|Hnex].
  { apply Exists_exists in Hex as (l & Hl & Hneg).
    exists l. split; [by rewrite sorted_by_abs_perm | auto]. }
  exfalso. apply Hne.
  assert (∀ l, l ∈ restrict_to_deps s e univ' → - l ∉ univ) as Hno.
  { intros l Hl Hneg. apply Hnex, Exists_exists. eauto. }
  assert (∀ t l, total_assignment s t → Z.abs l ∈ universal_var_ids s →
                 l ∈ t ∨ - l ∈ t) as Hcover.
  { intros t l (_ & _ & Ht) Hu. destruct (Ht _ Hu) as [H|H].
    - destruct (decide (0 ≤ l)); [left | right];
        [replace l with (Z.abs l) by lia | replace (- l) with (Z.abs l) by lia]; done.
    - destruct (decide (0 ≤ l)); [right | left];
        [replace (- l) with (- Z.abs l) by lia | replace l with (- Z.abs l) by lia]; done. }
  apply sorted_by_abs_canonical.
  - by apply NoDup_fmap_filter.
  - apply NoDup_Permutation.
    + eapply NoDup_fmap_NoDup, NoDup_fmap_filter, Hnd'.
    + eapply NoDup_fmap_NoDup, NoDup_fmap_filter, Hnd.
    + intros l. rewrite !restrict_to_deps_elem. split.
      * intros [Hd Hl]. split; [done|].
        destruct (Hcover univ l) as [?|Hneg]; [done | by apply Hin' | done |].
        exfalso. apply (Hno l); [by apply restrict_to_deps_elem | done].
      * intros [Hd Hl]. split; [done|].
        destruct (Hcover univ' l) as [?|Hneg]; [done | by apply Hin | done |].
        exfalso. apply (Hno (- l)).
        -- apply restrict_to_deps_elem. split; [by rewrite Z.abs_opp | done].
        -- by rewrite Z.opp_involutive.
Qed.

(** ** What the clauses of a rule say *)

Lemma consistent_neg M l : consistent M → l ∈ M → - l ∈ M → False.
Proof. intros HM Hl Hn. by apply (HM l). Qed.

Lemma consistent_neg' M l : consistent M → - l ∈ M → l ∈ M → False.
Proof. intros HM Hn Hl. by apply (HM l). Qed.

(** Membership in, and case analysis on, an explicit list. *)
Ltac in_list :=
  rewrite ?elem_of_app;
  solve [ repeat first [ apply list_elem_of_here | apply list_elem_of_further ]
        | left; in_list | right; in_list ].

Ltac list_cases H :=
  repeat (apply elem_of_cons in H as [->|H]); [..|by apply elem_of_nil in H].

Ltac inconsistent :=
  exfalso;
  match goal with
  | HM : consistent ?M, H1 : ?l ∈ ?M, H2 : - ?l ∈ ?M |- _ =>
      exact (consistent_neg M l HM H1 H2)
  end.

Lemma rule_clauses_semantics M e a x fire prev val c :
  consistent M →
  (∀ cl, cl ∈ rule_clauses e a (Some x) fire prev val c → ∃ l, l ∈ cl ∧ l ∈ M) →
  ((∀ l, l ∈ a → l ∈ M) → fire ∈ M) ∧
  (conflicts a M → fire ∉ M) ∧
  (prev ∈ M → fire ∉ M → c + 2 ∈ M) ∧
  (c + 2 ∈ M → c + 1 ∈ M → (e ∈ M ↔ c + 3 ∈ M)) ∧
  (val ∈ M ↔ x ∈ M).
Proof.
  intros HM Hsat. unfold rule_clauses in Hsat.
  assert (∀ cl, cl ∈ [ (Z.opp <$> a) ++ [fire]; [- (c + 2); prev]; [- (c + 2); - fire];
                       [c + 2; - prev; fire];
                       [- (c + 1); - (c + 2); - e; c + 3];
                       [- (c + 1); - (c + 2); e; - (c + 3)];
                       [- val; x]; [val; - x] ] →
                ∃ l, l ∈ cl ∧ l ∈ M) as Hfix.
  { intros cl Hcl. apply Hsat. rewrite !elem_of_app.
    list_cases Hcl; in_list. }
  split; [|split; [|split; [|split]]].
  - intros Ha. destruct (Hfix ((Z.opp <$> a) ++ [fire])) as (l & Hl & HlM); [in_list|].
    apply elem_of_app in Hl as [(y & -> & Hy)%list_elem_of_fmap| ->%list_elem_of_singleton];
      [|done].
    pose proof (Ha _ Hy). inconsistent.
  - intros (l & Hl & Hneg) Hfire.
    destruct (Hsat [- fire; l]) as (l' & Hl' & Hl'M).
    { rewrite !elem_of_app. left. apply list_elem_of_fmap. eauto. }
    list_cases Hl'; inconsistent.
  - intros Hprev Hfire.
    destruct (Hfix [c + 2; - prev; fire]) as (l & Hl & HlM); [in_list|].
    list_cases Hl; [done| |done]. inconsistent.
  - intros Hn Hf. split.
    + intros He.
      destruct (Hfix [- (c + 1); - (c + 2); - e; c + 3]) as (l & Hl & HlM); [in_list|].
      list_cases Hl; [| | |done]; inconsistent.
    + intros Hv.
      destruct (Hfix [- (c + 1); - (c + 2); e; - (c + 3)]) as (l & Hl & HlM); [in_list|].
      list_cases Hl; [| |done|]; inconsistent.
  - split.
    + intros Hv. destruct (Hfix [- val; x]) as (l & Hl & HlM); [in_list|].
      list_cases Hl; [|done]. inconsistent.
    + intros Hx. destruct (Hfix [val; - x]) as (l & Hl & HlM); [in_list|].
      list_cases Hl; [done|]. inconsistent.
Qed.

Lemma init_clauses_semantics M e c :
  consistent M →
  (∀ cl, cl ∈ init_clauses e c → ∃ l, l ∈ cl ∧ l ∈ M) →
  c + 2 ∈ M ∧ (c + 3 ∈ M → (e ∈ M ↔ c + 1 ∈ M)).
Proof.
  intros HM Hsat. unfold init_clauses in Hsat.
  assert (c + 2 ∈ M) as Hn.
  { destruct (Hsat [c + 2]) as (l & Hl & HlM); [in_list|].
    by apply list_elem_of_singleton in Hl as ->. }
  split; [done|]. intros Hf. split.
  - intros He.
    destruct (Hsat [- (c + 2); - (c + 3); - e; c + 1]) as (l & Hl & HlM); [in_list|].
    list_cases Hl; [| | |done]; inconsistent.
  - intros Hv.
    destruct (Hsat [- (c + 2); - (c + 3); e; - (c + 1)]) as (l & Hl & HlM); [in_list|].
    list_cases Hl; [| |done|]; inconsistent.
Qed.

(** ** Invariants across one interning step *)

Lemma good_model_mono s s' M :
  (∀ c, AddClause c ∈ events (counterexample_solver s) →
        AddClause c ∈ events (counterexample_solver s')) →
  good_model s' M → good_model s M.
Proof. intros Hsub [HM Hsat]. split; [done|]. intros c Hc. apply Hsat, Hsub, Hc. Qed.

Lemma same_formula_dep_set s s' e : same_formula s s' → dep_set_of s' e = dep_set_of s e.
Proof. intros (_&_&_&_&_&_&_&_&Hd&_). unfold dep_set_of. by rewrite Hd. Qed.

Lemma same_formula_restrict s s' e univ :
  same_formula s s' → restrict_to_deps s' e univ = restrict_to_deps s e univ.
Proof.
  intros Hf. unfold restrict_to_deps. by rewrite (same_formula_dep_set s s' e Hf).
Qed.

Lemma same_formula_key s s' e univ : same_formula s s' → key_of s' e univ = key_of s e univ.
Proof. intros Hf. unfold key_of. by rewrite (same_formula_restrict s s'). Qed.

Lemma same_formula_total s s' univ :
  same_formula s s' → total_assignment s univ → total_assignment s' univ.
Proof.
  intros (_&_&_&_&_&_&Hu&_) (?&?&?). unfold total_assignment. by rewrite Hu.
Qed.

Lemma universals_known_mono s s' :
  same_formula s s' →
  (∀ c, AddClause c ∈ events (counterexample_solver s) →
        AddClause c ∈ events (counterexample_solver s')) →
  universals_known s → universals_known s'.
Proof.
  intros (_&_&_&_&_&_&Hu&_) Hsub Hk u Hin. rewrite Hu in Hin.
  destruct (Hk u Hin) as (? & c & l & Hc & Hl & Hle). split; [done|].
  exists c, l. auto.
Qed.

Lemma fresh_rule_inv s s' e univ cur prev fire :
  let a := restrict_to_deps s e univ in
  let c := counter s in
  solver_inv s → total_assignment s univ →
  expansion_vars s !! (e, sorted_by_abs a) = None →
  Dict.get (value_vars s) e = Some cur →
  Dict.get (no_rule_fired_vars s) e = Some prev →
  Dict.get (rule_fire_vars s) e = Some fire →
  same_formula s s' →
  expansion_vars s' = <[(e, sorted_by_abs a) := c + 1]> (expansion_vars s) →
  expansion_vars_set s' = {[c + 1]} ∪ expansion_vars_set s →
  expansion_solver s' = expansion_solver s →
  counter s' = c + 4 →
  rule_fire_vars s' = Dict.set (rule_fire_vars s) e (c + 2) →
  no_rule_fired_vars s' = Dict.set (no_rule_fired_vars s) e (c + 3) →
  value_vars s' = Dict.set (value_vars s) e (c + 4) →
  events (counterexample_solver s') =
    events (counterexample_solver s) ++
    (AddClause <$> rule_clauses e a (Some (c + 1)) fire prev (Z.abs cur) (c + 1)) →
  solver_inv s'.
Proof.
  intros a c (Hc & Hinit & Hg & Hknown & Hreg & Hdl & Hexp) Htot Hfresh Hcur Hprev Hfire
         Hform Hev Hset Hes Hcnt Hrf Hnrf Hvv Hevents.
  assert (∀ cl, AddClause cl ∈ events (counterexample_solver s) →
                AddClause cl ∈ events (counterexample_solver s')) as Hsub.
  { intros cl Hcl. rewrite Hevents, elem_of_app. by left. }
  assert (∀ M, good_model s' M →
               ∀ cl, cl ∈ rule_clauses e a (Some (c + 1)) fire prev (Z.abs cur) (c + 1) →
                     ∃ l, l ∈ cl ∧ l ∈ M) as Hnew.
  { intros M [_ Hsat] cl Hcl. apply Hsat. rewrite Hevents, elem_of_app. right.
    by apply list_elem_of_fmap_2. }
  assert (∀ M, good_model s' M →
            ((∀ l, l ∈ a → l ∈ M) → fire ∈ M) ∧
            (conflicts a M → fire ∉ M) ∧
            (prev ∈ M → fire ∉ M → c + 3 ∈ M) ∧
            (c + 3 ∈ M → c + 2 ∈ M → (e ∈ M ↔ c + 4 ∈ M)) ∧
            (Z.abs cur ∈ M ↔ c + 1 ∈ M)) as Hsem.
  { intros M HM.
    pose proof (rule_clauses_semantics M e a (c + 1) fire prev (Z.abs cur) (c + 1)
                  (proj1 HM) (Hnew M HM)) as H.
    replace (c + 1 + 2) with (c + 3) in H by lia.
    replace (c + 1 + 1) with (c + 2) in H by lia.
    replace (c + 1 + 3) with (c + 4) in H by lia. exact H. }
  assert (∀ k' x', expansion_vars s !! (e, k') = Some x' → k' ≠ sorted_by_abs a) as Hother.
  { intros k' x' Hk' ->. by rewrite Hfresh in Hk'. }
  assert (∀ l, l ∈ sorted_by_abs a ↔ l ∈ a) as Hka.
  { intros l. by rewrite sorted_by_abs_perm. }
  assert (∀ M, conflicts (sorted_by_abs a) M → conflicts a M) as Hconf.
  { intros M (l & Hl & Hn). exists l. split; [by apply Hka | done]. }
  destruct Hform as (Hf1&Hf2&Hf3&Hf4&Hf5&Hf6&Hf7&Hf8&Hf9&Hf10).
  assert (same_formula s s') as Hform by (by repeat split).
  unfold solver_inv. split; [lia|]. split.
  { intros e'. rewrite Hf8. intros He'. destruct (Hinit e' He') as (?&?&?).
    unfold initialized. rewrite Hvv, Hnrf, Hrf.
    repeat split; by apply dict_get_is_Some_set. }
  split; [by rewrite Hf5, Hf8|]. split.
  { rewrite Hf8. intros Hne. by apply (universals_known_mono s s'), Hknown. }
  split; [|split].
  - (* registry *)
    intros e0 k0 x0. rewrite Hev, lookup_insert.
    case_decide as Hkey.
    + intros [= <-]. injection Hkey as <- <-.
      split; [lia|]. split; [rewrite Hset; by apply elem_of_union_l, elem_of_singleton|]. split.
      { exists univ. split; [by apply (same_formula_total s s')|].
        by rewrite (same_formula_restrict s s'). }
      intros M HM HkM Hothers.
      destruct (Hsem M HM) as (Hf_in & _ & _ & _ & Hval).
      destruct (Hdl e cur prev fire Hcur Hprev Hfire M (good_model_mono s s' M Hsub HM))
        as [Hsel Hnone].
      assert (prev ∈ M) as HprevM.
      { apply Hnone. intros k' x' Hk'. apply (Hothers k' x'); [|by eapply Hother].
        rewrite ?Hev, lookup_insert_ne; [done|]. intros [= ?].
        by eapply Hother. }
      assert (fire ∈ M) as HfireM.
      { apply Hf_in. intros l Hl. by apply HkM, Hka. }
      rewrite (Hsel HprevM HfireM). exact Hval.
    + intros Hx0.
      destruct (Hreg e0 k0 x0 Hx0) as (Hpos & Hin & (univ0 & Ht0 & Hk0) & Hsem0).
      split; [done|]. split; [rewrite Hset; by apply elem_of_union_r|]. split.
      { exists univ0. split; [by apply (same_formula_total s s')|].
        by rewrite (same_formula_restrict s s'). }
      intros M HM HkM Hothers. apply Hsem0; [by eapply good_model_mono|done|].
      intros k' x' Hk' Hne. apply (Hothers k' x'); [|done].
      rewrite ?Hev, lookup_insert_ne; [done|]. intros [= <- <-].
      by rewrite Hfresh in Hk'.
  - (* decision lists *)
    intros e0 v n f. rewrite Hvv, Hnrf, Hrf, !dict_get_set.
    destruct (decide (e = e0)) as [<-|Hne].
    + intros [= <-] [= <-] [= <-] M HM.
      destruct (Hsem M HM) as (_ & Hf_out & Hn' & Hsel' & _).
      replace (Z.abs (c + 4)) with (c + 4) by lia.
      split; [exact Hsel'|].
      intros Hall. apply Hn'.
      * destruct (Hdl e cur prev fire Hcur Hprev Hfire M
                    (good_model_mono s s' M Hsub HM)) as [_ Hnone].
        apply Hnone. intros k' x' Hk'. apply (Hall k' x').
        rewrite ?Hev, lookup_insert_ne; [done|]. intros [= ?]. by eapply Hother.
      * apply Hf_out, Hconf, (Hall _ (c + 1)). by rewrite ?Hev, lookup_insert_eq.
    + intros Hv Hn Hf M HM.
      destruct (Hdl e0 v n f Hv Hn Hf M (good_model_mono s s' M Hsub HM))
        as [Hsel Hnone].
      split; [done|]. intros Hall. apply Hnone. intros k' x' Hk'.
      apply (Hall k' x'). rewrite ?Hev, lookup_insert_ne; [done|]. congruence.
  - intros B lit. rewrite Hes, Hset. intros HB Hlit.
    apply elem_of_union_r. by eapply Hexp.
Qed.

Lemma set_default_inv s e (v : bool) cur :
  solver_inv s → Dict.get (value_vars s) e = Some cur →
  solver_inv (set_value_vars (Dict.set (value_vars s) e (if v then cur else - cur)) s).
Proof.
  intros (Hc & Hinit & Hg & Hknown & Hreg & Hdl & Hexp) Hcur.
  split; [exact Hc|]. split.
  { intros e' He'. by apply initialized_set_value, Hinit. }
  split; [exact Hg|]. split; [exact Hknown|]. split; [exact Hreg|]. split; [|exact Hexp].
  intros e0 v0 n f. cbn. rewrite dict_get_set.
  destruct (decide (e = e0)) as [<-|Hne]; [|apply Hdl].
  intros [= <-] Hn Hf M HM.
  destruct (Hdl e cur n f Hcur Hn Hf M HM) as [Hsel Hnone].
  split; [|exact Hnone].
  replace (Z.abs (if v then cur else - cur)) with (Z.abs cur) by (destruct v; lia).
  exact Hsel.
Qed.

Section progress_steps.
Context (py_int : string → option Z).

Lemma intern_step_inv s e univ :
  solver_inv s → e ∈ existential_var_ids s → total_assignment s univ →
  ∃ x s1,
    get_expansion_variable py_int e (restrict_to_deps s e univ) s = (Val x, s1) ∧
    solver_inv s1 ∧ same_formula s s1 ∧
    expansion_vars s1 !! key_of s e univ = Some x ∧
    (∀ key y, expansion_vars s !! key = Some y → expansion_vars s1 !! key = Some y) ∧
    expansion_solver s1 = expansion_solver s.
Proof.
  intros Hinv He Htot.
  destruct (expansion_vars s !! key_of s e univ) as [x|] eqn:Hx.
  { exists x, s.
    rewrite (get_expansion_variable_known _ _ _ _ x);
      [|done|apply restrict_to_deps_inside|done].
    split; [done|]. split; [done|]. split; [apply same_formula_refl|].
    split; [done|]. split; [auto|done]. }
  pose proof Hinv as (Hc & Hinit & _).
  destruct (Hinit e He) as ([cur Hcur] & [prev Hprev] & [fire Hfire]).
  destruct (get_expansion_variable_fresh py_int e (restrict_to_deps s e univ) s
              cur prev fire)
    as (s1 & Hrun & Hform & Hev & Hset & Hea & Hes & _ & _ & Hcnt & Hrf & Hnrf & Hvv
        & _ & Hevents & _);
    [done | apply restrict_to_deps_inside | done..|].
  exists (counter s + 1), s1. split; [done|]. split.
  { eapply (fresh_rule_inv s s1 e univ cur prev fire); eauto. }
  split; [done|]. split; [unfold key_of; by rewrite Hev, lookup_insert_eq|].
  split; [|done].
  intros key y Hy. rewrite Hev, lookup_insert_ne; [done|].
  intros <-. unfold key_of in Hx. by rewrite Hx in Hy.
Qed.

Lemma analyze_loop_inv univ core s B0 :
  solver_inv s →
  (existential_var_ids s ≠ [] → total_assignment s univ) →
  (∀ ℓ, ℓ ∈ core → Z.abs ℓ ∈ existential_var_ids s) →
  ∃ B1 s',
    analyze_loop py_int core univ B0 s = (Val (B0 ++ B1), s') ∧
    solver_inv s' ∧ same_formula s s' ∧
    (∀ key y, expansion_vars s !! key = Some y → expansion_vars s' !! key = Some y) ∧
    expansion_solver s' = expansion_solver s ∧
    (∀ lit, lit ∈ B1 →
       ∃ ℓ x, ℓ ∈ core ∧ expansion_vars s' !! key_of s (Z.abs ℓ) univ = Some x ∧
              lit = if bool_decide (0 < ℓ) then - x else x).
Proof.
  revert s B0. induction core as [|ℓ core IH]; intros s B0 Hinv Htot Hcore.
  { exists [], s. rewrite app_nil_r.
    split; [done|]. split; [done|]. split; [apply same_formula_refl|].
    split; [auto|]. split; [done|].
    intros lit Hl. by apply elem_of_nil in Hl. }
  assert (Z.abs ℓ ∈ existential_var_ids s) as He by (apply Hcore; by left).
  assert (total_assignment s univ) as Htot'.
  { apply Htot. intros Hnil. rewrite Hnil in He. by apply elem_of_nil in He. }
  destruct (intern_step_inv s (Z.abs ℓ) univ Hinv He Htot')
    as (x & s1 & Hx & Hinv1 & Hform1 & Hkey1 & Hmono1 & Hes1).
  pose proof Hinv1 as (_ & Hinit1 & _).
  pose proof Hform1 as (_&_&_&_&_&_&_&Hids1&_).
  destruct (Hinit1 (Z.abs ℓ)) as ([cur Hcur] & _); [by rewrite Hids1|].
  set (lit := if bool_decide (0 < ℓ) then - x else x).
  set (v := negb (bool_decide (0 < ℓ))).
  set (s2 := set_value_vars
               (Dict.set (value_vars s1) (Z.abs ℓ) (if v then cur else - cur)) s1).
  assert (analyze_loop py_int (ℓ :: core) univ B0 s =
          analyze_loop py_int core univ (B0 ++ [lit]) s2) as ->.
  { simpl. unfold bind at 1, gets at 1.
    change (filter _ univ) with (restrict_to_deps s (Z.abs ℓ) univ).
    rewrite (bind_val _ _ _ _ _ Hx). subst lit v s2.
    case_bool_decide; cbn [negb];
      by rewrite (bind_val _ _ _ _ _ (set_default_value_run _ _ _ cur Hcur)). }
  assert (solver_inv s2) as Hinv2 by (by apply set_default_inv).
  assert (same_formula s1 s2) as Hform12 by (by repeat split).
  assert (same_formula s s2) as Hform2 by (by eapply same_formula_trans).
  destruct (IH s2 (B0 ++ [lit]) Hinv2) as (B1 & s' & Hrun & Hinv' & Hform' & Hmono' & Hes' & HB1).
  { intros _. by apply (same_formula_total s s2). }
  { intros ℓ' Hℓ'. destruct Hform2 as (_&_&_&_&_&_&_&Hids2&_). rewrite Hids2.
    apply Hcore. by right. }
  exists (lit :: B1), s'. rewrite <- app_assoc in Hrun. split; [exact Hrun|].
  split; [done|]. split; [by eapply same_formula_trans|]. split.
  { intros key y Hy. apply Hmono'. cbn. by apply Hmono1. }
  split; [by rewrite Hes'|].
  intros lit' [->|Hin]%elem_of_cons.
  - exists ℓ, x. split; [by left|]. split; [|done].
    apply Hmono'. cbn. exact Hkey1.
  - destruct (HB1 lit' Hin) as (ℓ' & x' & Hℓ' & Hk' & ->).
    exists ℓ', x'. split; [by right|]. split; [|done].
    by rewrite <- (same_formula_key s s2).
Qed.
End progress_steps.

(** ** One pass of the loop *)

Lemma solver_inv_transport s s' :
  same_formula s s' → counter s' = counter s →
  value_vars s' = value_vars s → no_rule_fired_vars s' = no_rule_fired_vars s →
  rule_fire_vars s' = rule_fire_vars s →
  expansion_vars s' = expansion_vars s → expansion_vars_set s' = expansion_vars_set s →
  (∀ c, AddClause c ∈ events (counterexample_solver s') ↔
        AddClause c ∈ events (counterexample_solver s)) →
  (∀ B lit, AddClause B ∈ events (expansion_solver s') → lit ∈ B →
     Z.abs lit ∈ expansion_vars_set s') →
  solver_inv s → solver_inv s'.
Proof.
  intros Hform Hcnt Hvv Hnrf Hrf Hev Hset Hcl Hexp'
         (Hc & Hinit & Hg & Hknown & Hreg & Hdl & Hexp).
  assert (∀ M, good_model s' M → good_model s M) as Hgood.
  { intros M. apply good_model_mono. intros c. apply Hcl. }
  pose proof Hform as (Hf1&Hf2&Hf3&Hf4&Hf5&Hf6&Hf7&Hf8&Hf9&Hf10).
  split; [by rewrite Hcnt|]. split.
  { intros e. rewrite Hf8. intros He. destruct (Hinit e He) as (?&?&?).
    unfold initialized. by rewrite Hvv, Hnrf, Hrf. }
  split; [by rewrite Hf5, Hf8|]. split.
  { rewrite Hf8. intros Hne. apply (universals_known_mono s s'); [done| |auto].
    intros c. apply Hcl. }
  split; [|split; [|exact Hexp']].
  - intros e k x. rewrite Hev, Hset. intros Hx.
    destruct (Hreg e k x Hx) as (Hpos & Hin & (univ0 & Ht0 & Hk0) & Hsem0).
    split; [done|]. split; [done|]. split.
    { exists univ0. split; [by apply (same_formula_total s s')|].
      by rewrite (same_formula_restrict s s'). }
    intros M HM. apply Hsem0. by apply Hgood.
  - intros e v n f. rewrite Hvv, Hnrf, Hrf, Hev. intros Hv Hn Hf M HM.
    apply (Hdl e v n f Hv Hn Hf M). by apply Hgood.
Qed.

Section pass_facts.
Context (py_int : string → option Z) (oracle : sat_oracle) (debug_enabled : bool).
Hypothesis contract : sat_contract oracle.

(** What a returned counterexample comes from: a model of the counterexample
    solver that contains the assumptions of the first query. *)
Lemma get_counterexample_model s core univ s1 :
  get_counterexample oracle s = (Val (true, Some (core, univ)), s1) →
  ∃ M evs st,
    NoDup (Z.abs <$> M) ∧ (0 ∉ M) ∧ good_model s M ∧
    (∀ l, l ∈ assumptions_step1 s → l ∈ M) ∧
    (∀ v c l, AddClause c ∈ events (counterexample_solver s) → l ∈ c →
       1 ≤ v ≤ Z.abs l → v ∈ M ∨ - v ∈ M) ∧
    univ = filter (λ lit, Z.abs lit ∈ universal_var_ids s) M ∧
    (∀ ℓ, ℓ ∈ core →
       Z.abs ℓ ∈ existential_var_ids s ∧ (ℓ ∈ M ∨ ℓ = output_gate_id s)) ∧
    s1 = set_counterexample_solver
           (mkSAT (events (counterexample_solver s) ++ evs) st) s ∧
    (∀ c, AddClause c ∉ evs).
Proof.
  intros Hrun. pose proof (get_counterexample_cases oracle s) as H. cbv zeta in H.
  destruct contract as [Hsat Hunsat].
  destruct (oracle (events (counterexample_solver s)) (assumptions_step1 s))
    as [M|c1] eqn:H1; [|by rewrite H in Hrun].
  set (a2 := _ ++ _ ++ [output_gate_id s]) in *.
  destruct (oracle (events (counterexample_solver s) ++ [Solve (assumptions_step1 s)]) a2)
    as [m2|core'] eqn:H2; [by rewrite H in Hrun|].
  rewrite H in Hrun. injection Hrun as <- <- <-.
  destruct (Hsat _ _ _ H1) as (Hnd & H0 & Hcl & Has & Htot).
  exists M, [Solve (assumptions_step1 s); Solve a2], (Some (Unsat core')).
  split; [done|]. split; [done|]. split.
  { split; [by apply model_consistent | done]. }
  split; [done|]. split; [done|]. split; [done|]. split; [|split; [done|]].
  - intros ℓ [Habs Hℓ]%list_elem_of_filter. split; [done|].
    destruct core' as [core'|]; [|by apply elem_of_nil in Hℓ].
    pose proof (Hunsat _ _ _ H2 ℓ Hℓ) as Hin. subst a2.
    rewrite !elem_of_app in Hin.
    destruct Hin as [[_ ?]%list_elem_of_filter|[[_ ?]%list_elem_of_filter|Hg]]; auto.
    right. by apply list_elem_of_singleton in Hg.
  - intros c Hc. repeat (apply elem_of_cons in Hc as [?|Hc]; [done|]).
    by apply elem_of_nil in Hc.
Qed.
End pass_facts.

Lemma model_total_assignment s M :
  universals_known s → NoDup (Z.abs <$> M) →
  (∀ v c l, AddClause c ∈ events (counterexample_solver s) → l ∈ c →
     1 ≤ v ≤ Z.abs l → v ∈ M ∨ - v ∈ M) →
  total_assignment s (filter (λ lit, Z.abs lit ∈ universal_var_ids s) M).
Proof.
  intros Hknown Hnd Htot. split; [by apply NoDup_fmap_filter|]. split.
  - by intros l [? _]%list_elem_of_filter.
  - intros u Hu. destruct (Hknown u Hu) as (Hpos & c & l & Hc & Hl & Hle).
    destruct (Htot u c l Hc Hl) as [H|H]; [lia|left|right];
      apply list_elem_of_filter; (split; [|done]).
    + by replace (Z.abs u) with u by lia.
    + by replace (Z.abs (- u)) with u by lia.
Qed.

Section no_repeat.
Context (py_int : string → option Z) (oracle : sat_oracle) (debug_enabled : bool).
Hypothesis contract : sat_contract oracle.

(** A counterexample returned from a state that satisfies the invariant
    differs from every counterexample refined before. *)
Lemma counterexample_is_new s H core univ s1 :
  run_inv s H →
  get_counterexample oracle s = (Val (true, Some (core, univ)), s1) →
  ∀ h, h ∈ H → ¬ same_counterexample h (core, univ).
Proof.
  intros (Hinv & Hhist & Hassign) Hrun [core0 univ0] Hh [Hcore Huniv]. cbn in *.
  destruct (get_counterexample_model oracle contract s core univ s1 Hrun)
    as (M & evs & st & Hnd & H0 & HM & Has & Htot & -> & HcoreM & _ & _).
  pose proof (proj1 HM) as Hcons.
  destruct Hinv as (Hc & Hinit & Hg & Hknown & Hreg & Hdl & Hexp).
  destruct (Hhist core0 univ0 Hh) as ((B & HB & Hlits) & Hnd0).
  destruct (Hassign B HB) as (lit & HlitB & Hlitσ).
  assert (lit ∈ M) as HlitM.
  { apply Has. unfold assumptions_step1. rewrite !elem_of_app. auto 10. }
  destruct (Hlits lit HlitB) as (ℓ & x & Hℓ0 & Hkey & Hlit).
  assert (ℓ ∈ core) as Hℓ.
  { apply (elem_of_list_to_set (C := gset Z)). rewrite <- Hcore.
    by apply elem_of_list_to_set. }
  destruct (HcoreM ℓ Hℓ) as [He HℓM].
  assert (ℓ ∈ M) as HℓM'.
  { destruct HℓM as [?| ->]; [done|]. by destruct Hg. }
  clear HℓM.
  assert (ℓ ≠ 0) as Hnz by (intros ->; by apply H0).
  set (univ := filter (λ lit, Z.abs lit ∈ universal_var_ids s) M) in *.
  assert (total_assignment s univ) as Huniv_tot.
  { apply model_total_assignment; [|done..]. apply Hknown.
    intros Hnil. rewrite Hnil in He. by apply elem_of_nil in He. }
  assert (∀ l, l ∈ univ0 ↔ l ∈ univ) as Hsame.
  { intros l. rewrite <- !(elem_of_list_to_set (C := gset Z)). by rewrite Huniv. }
  assert (∀ l, l ∈ univ → l ∈ M) as HunivM.
  { intros l. subst univ. by intros [_ ?]%list_elem_of_filter. }
  assert (key_of s (Z.abs ℓ) univ0 = key_of s (Z.abs ℓ) univ) as Hkeys.
  { apply key_of_same_set; [done|apply Huniv_tot|done]. }
  destruct (Hreg (Z.abs ℓ) _ x Hkey) as (Hpos & Hin & _ & Hsem).
  assert (Z.abs ℓ ∈ M ↔ x ∈ M) as Hagree.
  { apply Hsem; [done| |].
    - intros l Hl. rewrite sorted_by_abs_perm in Hl.
      apply restrict_to_deps_elem in Hl as [_ Hl]. by apply HunivM, Hsame.
    - intros k' x' Hk' Hne.
      destruct (Hreg (Z.abs ℓ) k' x' Hk') as (_ & _ & (univ' & Htot' & ->) & _).
      apply (distinct_keys_conflict s (Z.abs ℓ) univ univ' M); [done..|].
      intros Heq. apply Hne. rewrite Heq.
      unfold key_of in Hkeys. by injection Hkeys as <-. }
  case_bool_decide as Hsign; subst lit.
  - replace (Z.abs ℓ) with ℓ in Hagree by lia.
    pose proof (proj1 Hagree HℓM'). inconsistent.
  - pose proof (proj2 Hagree HlitM) as HeM.
    replace ℓ with (- Z.abs ℓ) in HℓM' by lia. inconsistent.
Qed.
End no_repeat.

Section pass_invariant.
Context (py_int : string → option Z) (oracle : sat_oracle) (debug_enabled : bool).
Hypothesis contract : sat_contract oracle.

(** A pass that falls through re-establishes the invariant, with its
    counterexample added to the history. *)
Lemma pass_inv s H core univ s1 s' :
  run_inv s H →
  get_counterexample oracle s = (Val (true, Some (core, univ)), s1) →
  solve_iteration py_int oracle debug_enabled s = (Val None, s') →
  run_inv s' (H ++ [(core, univ)]).
Proof.
  intros (Hinv & Hhist & Hassign) Hcex Hpass.
  destruct (get_counterexample_model oracle contract s core univ s1 Hcex)
    as (M & evs & st & Hnd & H0 & HM & Has & Htot & Huniv & HcoreM & Hs1 & Hevs).
  (* the state after the two queries *)
  assert (solver_inv s1) as Hinv1.
  { apply (solver_inv_transport s s1); subst s1; try done.
    - intros c. cbn. rewrite elem_of_app. split; [|auto].
      intros [?|?]; [done|]. by destruct (Hevs c).
    - apply Hinv. }
  assert (existential_var_ids s1 ≠ [] → total_assignment s1 univ) as Htot1.
  { intros Hne. apply (same_formula_total s s1); [by subst s1|].
    rewrite Huniv. apply model_total_assignment; [|done..].
    destruct Hinv as (_ & _ & _ & Hknown & _). apply Hknown. by subst s1. }
  destruct (decide (stalled s1 core univ)) as [Hst|Hst].
  { by rewrite (solve_iteration_stall _ _ _ _ _ _ _ Hcex Hst) in Hpass. }
  rewrite (solve_iteration_refine _ _ _ _ _ _ _ Hcex Hst) in Hpass.
  set (s2 := remember core univ s1) in *.
  assert (solver_inv s2) as Hinv2 by exact Hinv1.
  destruct (analyze_loop_inv py_int univ core s2 [] Hinv2 Htot1)
    as (B & s3 & Hloop & Hinv3 & Hform3 & Hmono3 & Hes3 & HB).
  { intros ℓ Hℓ. destruct (HcoreM ℓ Hℓ) as [? _]. by subst s1. }
  cbn [app] in Hloop.
  unfold analyze_counterexample in Hpass.
  rewrite (bind_val _ _ _ _ _ Hloop) in Hpass. unfold modify in Hpass.
  set (s4 := set_expansion_solver (Sat.add_clause (expansion_solver s3) B) s3) in *.
  cbv zeta in Hpass.
  destruct (oracle (events (expansion_solver s4)) []) as [model|c] eqn:Ho; [|done].
  injection Hpass as <-.
  destruct contract as [Hsat _].
  destruct (Hsat _ _ _ Ho) as (_ & _ & Hmodel & _).
  (* clauses of the expansion solver *)
  assert (∀ B', AddClause B' ∈ events (expansion_solver s4) ↔
                AddClause B' ∈ events (expansion_solver s) ∨ B' = B) as Hexp4.
  { intros B'. subst s4. cbn. rewrite Hes3. subst s2 s1. cbn.
    rewrite elem_of_app, list_elem_of_singleton. split; (intros [?|?]; [by left|right]);
      congruence. }
  assert (∀ lit, lit ∈ B → Z.abs lit ∈ expansion_vars_set s3) as HBset.
  { intros lit Hlit. destruct (HB lit Hlit) as (ℓ & x & _ & Hkey & ->).
    destruct Hinv3 as (_ & _ & _ & _ & Hreg3 & _).
    destruct (Hreg3 _ _ _ Hkey) as (Hpos & Hin & _).
    case_bool_decide; [replace (Z.abs (- x)) with x by lia
                      | replace (Z.abs x) with x by lia]; done. }
  assert (∀ B' lit, AddClause B' ∈ events (expansion_solver s4) → lit ∈ B' →
                    Z.abs lit ∈ expansion_vars_set s3) as Hexpset.
  { intros B' lit [HB'| ->]%Hexp4 Hlit; [|by apply HBset].
    destruct Hinv3 as (_ & _ & _ & _ & _ & _ & Hexp3).
    apply (Hexp3 B'); [|done]. rewrite Hes3. by subst s2 s1. }
  assert (∀ key y, expansion_vars s !! key = Some y → expansion_vars s3 !! key = Some y)
    as Hmono.
  { intros key y Hy. apply Hmono3. by subst s2 s1. }
  assert (same_formula s s3) as Hform.
  { apply (same_formula_trans s s2); [by subst s2 s1|done]. }
  split; [|split].
  - (* solver_inv *)
    apply (solver_inv_transport s3); try done.
    intros B' lit. cbn. rewrite elem_of_app.
    intros [HB'|HB'] Hlit; [by eapply Hexpset|].
    by apply list_elem_of_singleton in HB'.
  - (* history *)
    intros core' univ' [Hold|Hnew%list_elem_of_singleton]%elem_of_app.
    + destruct (Hhist core' univ' Hold) as ((B' & HB' & Hlits) & Hnd'). split; [|done].
      exists B'. split.
      { cbn. rewrite elem_of_app. left. apply Hexp4. by left. }
      intros lit Hlit. destruct (Hlits lit Hlit) as (ℓ & x & Hℓ & Hkey & ->).
      exists ℓ, x. split; [done|]. split; [|done].
      change (expansion_vars s3 !! key_of s3 (Z.abs ℓ) univ' = Some x).
      rewrite (same_formula_key s s3) by done. by apply Hmono.
    + injection Hnew as -> ->. split; [|rewrite Huniv; by apply NoDup_fmap_filter].
      exists B. split.
      { cbn. rewrite elem_of_app. left. apply Hexp4. by right. }
      intros lit Hlit. destruct (HB lit Hlit) as (ℓ & x & Hℓ & Hkey & ->).
      exists ℓ, x. split; [done|]. split; [|done].
      change (expansion_vars s3 !! key_of s3 (Z.abs ℓ) univ = Some x).
      by rewrite (same_formula_key s2 s3).
  - (* the stored assignment *)
    intros B'. cbn. rewrite elem_of_app.
    intros [HB'|HB']; [|by apply list_elem_of_singleton in HB'].
    destruct (Hmodel B' HB') as (lit & Hlit & Hlitm).
    exists lit. split; [done|]. apply list_elem_of_filter. split; [|done].
    by eapply Hexpset.
Qed.
End pass_invariant.

(** ** The whole run *)

Section run.
Context (py_int : string → option Z) (oracle : sat_oracle) (debug_enabled : bool).
Hypothesis contract : sat_contract oracle.

Lemma counterexamples_new fuel s H :
  run_inv s H →
  (∀ cx, cx ∈ counterexamples py_int oracle debug_enabled fuel s →
     ∀ h, h ∈ H → ¬ same_counterexample h cx) ∧
  no_repeats (counterexamples py_int oracle debug_enabled fuel s).
Proof.
  revert s H. induction fuel as [|fuel IH]; intros s H Hinv; simpl.
  { split; [by intros cx ?%elem_of_nil | by intros i j cx cx' _ ?]. }
  destruct (get_counterexample oracle s) as [[[[] [[core univ]|]]|err] s1] eqn:Hcex;
    try (split; [by intros cx ?%elem_of_nil | by intros i j cx cx' _ ?]).
  pose proof (counterexample_is_new oracle contract s H core univ s1 Hinv Hcex) as Hnew.
  set (rest := match solve_iteration py_int oracle debug_enabled s with
               | (Val None, s') => counterexamples py_int oracle debug_enabled fuel s'
               | _ => []
               end).
  assert ((∀ cx, cx ∈ rest → ∀ h, h ∈ H ++ [(core, univ)] → ¬ same_counterexample h cx) ∧
          no_repeats rest) as [Hrest Hnr].
  { subst rest.
    destruct (solve_iteration py_int oracle debug_enabled s) as [[[b|]|e] s'] eqn:Hpass;
      try (split; [by intros cx ?%elem_of_nil | by intros i j cx cx' _ ?]).
    apply IH. by eapply (pass_inv py_int oracle debug_enabled contract). }
  split.
  - intros cx [->|Hin]%elem_of_cons h Hh; [by apply Hnew|].
    apply (Hrest cx Hin). rewrite elem_of_app. by left.
  - intros i j cx cx' Hlt Hi Hj.
    destruct j as [|j]; [lia|]. cbn in Hj.
    destruct i as [|i]; cbn in Hi.
    + injection Hi as <-. apply (Hrest cx').
      * by eapply list_elem_of_lookup_2.
      * rewrite elem_of_app. right. by left.
    + apply (Hnr i j); [lia|done..].
Qed.
End run.

(** ** The constructed solver satisfies the invariant *)

Lemma init_model_inv c0 e s s' :
  0 ≤ c0 → init_inv c0 s → init_model e s = (Val tt, s') → init_inv c0 s'.
Proof.
  intros Hc0 (Hc & Hcons & Hev & Hes & Hdl & Hcl) Hrun.
  destruct (decide (e ∈ existential_var_ids s)) as [He|He]; cycle 1.
  { by rewrite init_model_not_existential in Hrun. }
  destruct (Dict.get (value_vars s) e) as [v|] eqn:Hv.
  { rewrite init_model_again in Hrun by eauto. by simplify_eq. }
  destruct (init_model_fresh e s He Hv)
    as (s1 & Hrun1 & Hf & Hexp & Hcnt & Hvv & Hnrf & Hrf & _ & Hevents & _).
  rewrite Hrun1 in Hrun. injection Hrun as <-.
  destruct (init_model_initialized e s s1 Hcons Hrun1) as (_ & Hcons1 & Hinit1 & Hmono).
  destruct Hexp as (Hev1 & _ & _ & Hes1 & _).
  assert (∀ cl, AddClause cl ∈ events (counterexample_solver s) →
                AddClause cl ∈ events (counterexample_solver s1)) as Hsub.
  { intros cl Hin. rewrite Hevents, elem_of_app. by left. }
  split; [lia|]. split; [done|]. split; [by rewrite Hev1|]. split; [by rewrite Hes1|].
  split.
  - intros e0 v n f. rewrite Hvv, Hnrf, Hrf, !dict_get_set.
    destruct (decide (e = e0)) as [<-|Hne].
    + intros [= <-] [= <-] [= <-] M HM.
      destruct (init_clauses_semantics M e (counter s) (proj1 HM)) as [Hn Hsel].
      { intros cl Hin. apply (proj2 HM). rewrite Hevents, elem_of_app. right.
        by apply list_elem_of_fmap_2. }
      replace (Z.abs (counter s + 1)) with (counter s + 1) by lia.
      split; [auto|done].
    + intros Hv0 Hn0 Hf0 M HM.
      destruct (Hdl e0 v n f Hv0 Hn0 Hf0 M (good_model_mono s s1 M Hsub HM))
        as [Hsel Hnone].
      split; [done|]. intros Hall. apply Hnone. intros k' x'. by rewrite Hev.
  - intros e0 _. exists [counter s + 2], (counter s + 2). split; [|split; [by left|lia]].
    rewrite Hevents, elem_of_app. right. apply list_elem_of_fmap_2. by left.
Qed.

Lemma for_each_init_model_inv c0 ids s r s' :
  0 ≤ c0 → init_inv c0 s → for_each ids init_model s = (Val r, s') → init_inv c0 s'.
Proof.
  intros Hc0. revert s. induction ids as [|e ids IH]; intros s Hinv; simpl.
  - by intros [= _ <-].
  - intros ([] & s1 & Hrun1 & Hrest)%bind_inv_val.
    eapply IH; [|done]. by eapply init_model_inv.
Qed.

Lemma constructor_run_inv n2i i2n deps mat univs g c order s0 :
  __init__ n2i i2n deps mat univs g c order = Val s0 →
  (∀ u, u ∈ universal_var_ids s0 → 1 ≤ u ≤ counter_start n2i mat c) →
  0 ≤ counter_start n2i mat c →
  Z.abs g ∉ existential_var_ids s0 →
  run_inv s0 [].
Proof.
  unfold __init__. fold (counter_start n2i mat c). intros Hinit Hu Hc0 Hg.
  destruct (ids_of n2i univs) as [uids|]; [|done].
  destruct (ids_of n2i order) as [eids|]; [|done].
  destruct (convert_dependencies n2i deps ∅ ∅) as [[by_id by_list]|]; [|done].
  match type of Hinit with
  | context [for_each _ _ ?s] => set (start := s) in *
  end.
  destruct (for_each eids init_model start) as [[r|err] s1] eqn:Hrun; [|done].
  injection Hinit as ->.
  assert (init_inv (counter_start n2i mat c) start) as Hstart.
  { split; [apply Z.le_refl|]. split; [intros e [v Hv]; by cbn in Hv|].
    split; [done|]. split; [done|]. split.
    - intros e v n f Hv. by cbn in Hv.
    - intros e ([v Hv] & _). by cbn in Hv. }
  pose proof (for_each_init_model_inv _ _ _ _ _ Hc0 Hstart Hrun)
    as (Hc & Hcons & Hev & Hes & Hdl & Hcl).
  destruct (for_each_init_model eids start r s0) as (Hform & _ & Hall & _); [|done|].
  { intros e' [v Hv]. by cbn in Hv. }
  pose proof Hform as (_&_&_&_&Hgate&_&_&Hids&_).
  split; [|split].
  - split; [lia|]. split; [intros e He; apply Hall; by rewrite Hids in He|].
    split; [by rewrite Hgate|]. split; [|split; [|split; [done|]]].
    + intros Hne u Hin. destruct (Hu u Hin) as [Hpos Hle]. split; [done|].
      destruct (existential_var_ids s0) as [|e es] eqn:HE; [done|].
      destruct (Hcl e) as (cl & l & Hin' & Hl & Hlt).
      { apply Hall. cbn in Hids. rewrite <- Hids. by left. }
      exists cl, l. split; [done|]. split; [done|lia].
    + intros e k x. by rewrite Hev, lookup_empty.
    + intros B lit. rewrite Hes. by intros ?%elem_of_nil.
  - by intros core univ ?%elem_of_nil.
  - intros B. rewrite Hes. by intros ?%elem_of_nil.
Qed.

(** ** The reference engine meets the contract *)

Lemma all_assignments_elem vars m :
  m ∈ all_assignments vars → Forall2 (λ l v, l = v ∨ l = - v) m vars.
Proof.
  revert m. induction vars as [|v vars IH]; intros m; simpl.
  - intros ->%list_elem_of_singleton. constructor.
  - intros [(r & -> & Hr)%list_elem_of_fmap|(r & -> & Hr)%list_elem_of_fmap]%elem_of_app;
      constructor; auto.
Qed.

Lemma assignment_shape m vars :
  Forall2 (λ l v, l = v ∨ l = - v) m vars → (∀ v, v ∈ vars → 1 ≤ v) →
  Z.abs <$> m = vars ∧ (0 ∉ m) ∧ (∀ v, v ∈ vars → v ∈ m ∨ - v ∈ m).
Proof.
  induction 1 as [|l v m vars Hlv Hrest IH]; intros Hpos.
  - split; [done|]. split; [by intros ?%elem_of_nil | by intros v ?%elem_of_nil].
  - destruct IH as (Habs & H0 & Hcov); [intros; apply Hpos; by right|].
    assert (1 ≤ v) by (apply Hpos; by left).
    split; [|split].
    + csimpl. rewrite Habs. f_equal. lia.
    + intros [?|?]%elem_of_cons; [lia|done].
    + intros v' [->|Hv']%elem_of_cons.
      * destruct Hlv as [->| ->]; [left|right]; by left.
      * destruct (Hcov v' Hv'); [left|right]; by right.
Qed.

Lemma max_var_ge ls l : l ∈ ls → Z.abs l ≤ max_var ls.
Proof.
  unfold max_var. induction ls as [|x ls IH]; simpl; [by intros ?%elem_of_nil|].
  intros [->|Hl]%elem_of_cons; [lia|]. specialize (IH Hl). lia.
Qed.

Lemma exhaustive_oracle_contract : sat_contract exhaustive_oracle.
Proof.
  split.
  - intros evs assumptions m. unfold exhaustive_oracle.
    set (cls := omap event_clause evs).
    set (n := max_var (assumptions ++ concat cls)).
    set (vars := (λ i : nat, Z.of_nat (S i)) <$> seq 0 (Z.to_nat n)).
    destruct (List.find _ _) as [m'|] eqn:Hfind; [|done]. intros [= ->].
    apply find_some in Hfind as [Hin Hpred].
    apply list_elem_of_In, all_assignments_elem in Hin.
    assert (∀ v, v ∈ vars ↔ 1 ≤ v ≤ n) as Hvars.
    { intros v. subst vars. rewrite list_elem_of_fmap. split.
      - intros (i & -> & Hi%elem_of_seq). lia.
      - intros Hv. exists (Z.to_nat (v - 1)). split; [lia|]. apply elem_of_seq. lia. }
    destruct (assignment_shape m vars Hin) as (Habs & H0 & Hcov).
    { intros v Hv. apply Hvars in Hv. lia. }
    apply andb_prop in Hpred as [Hcl Has].
    rewrite forallb_forall in Hcl, Has.
    assert (∀ c, AddClause c ∈ evs → c ∈ cls) as Hcls.
    { intros c Hc. subst cls. apply list_elem_of_omap. by exists (AddClause c). }
    split; [|split; [done|split; [|split]]].
    + rewrite Habs. subst vars. apply NoDup_fmap_2; [|apply NoDup_seq].
      intros i j ?. lia.
    + intros c Hc. specialize (Hcl c). unfold holds_in in Hcl.
      rewrite existsb_exists in Hcl.
      destruct Hcl as (l & Hl & Hlm); [by apply list_elem_of_In, Hcls|].
      exists l. split; [by apply list_elem_of_In|]. by apply bool_decide_eq_true in Hlm.
    + intros l Hl. apply list_elem_of_In, Has in Hl. by apply bool_decide_eq_true in Hl.
    + intros v c l Hc Hl Hv. apply Hcov, Hvars. split; [lia|].
      transitivity (Z.abs l); [lia|]. apply max_var_ge.
      rewrite elem_of_app. right. apply elem_of_concat. exists c. split; [by apply Hcls|done].
  - intros evs assumptions core. unfold exhaustive_oracle.
    destruct (List.find _ _); [done|]. by intros [= ->].
Qed.

(** ** The stall fingerprint *)

Section fingerprint.
Context (py_int : string → option Z) (oracle : sat_oracle) (debug_enabled : bool).

Lemma get_expansion_variable_fingerprint e a s x s' :
  get_expansion_variable py_int e a s = (Val x, s') →
  last_counterexample_existentials s' = last_counterexample_existentials s ∧
  last_counterexample_universals s' = last_counterexample_universals s.
Proof.
  intros Hrun.
  destruct (get_expansion_variable_val _ _ _ _ _ _ Hrun)
    as (He & Hin & [[_ ->]|(Hx & (Hv & Hp & Hf) & ->)]); [done|].
  destruct Hv as [cur Hv], Hp as [prev Hp], Hf as [fire Hf].
  destruct (get_expansion_variable_fresh py_int e a s cur prev fire)
    as (s1 & Hrun1 & _ & _ & _ & _ & _ & Hle & Hlu & _); [done..|].
  rewrite Hrun in Hrun1. by injection Hrun1 as <-.
Qed.

Lemma set_default_value_fingerprint e v s r s' :
  set_default_value e v s = (Val r, s') →
  last_counterexample_existentials s' = last_counterexample_existentials s ∧
  last_counterexample_universals s' = last_counterexample_universals s.
Proof.
  destruct (Dict.get (value_vars s) e) as [cur|] eqn:Hcur.
  - rewrite (set_default_value_run _ _ _ cur) by done. by intros [= _ <-].
  - by rewrite set_default_value_uninitialized.
Qed.

Lemma analyze_loop_fingerprint core univ B0 s B s' :
  analyze_loop py_int core univ B0 s = (Val B, s') →
  last_counterexample_existentials s' = last_counterexample_existentials s ∧
  last_counterexample_universals s' = last_counterexample_universals s.
Proof.
  revert B0 s. induction core as [|ℓ core IH]; intros B0 s; simpl.
  { by intros [= _ <-]. }
  unfold bind at 1, gets at 1.
  intros (x & s1 & Hx & Hrest)%bind_inv_val.
  apply get_expansion_variable_fingerprint in Hx as [He1 Hu1].
  case_bool_decide.
  all: apply bind_inv_val in Hrest as ([] & s2 & Hdef & Hrest).
  all: apply set_default_value_fingerprint in Hdef as [He2 Hu2].
  all: apply IH in Hrest as [He3 Hu3]; split; congruence.
Qed.

(** A pass that falls through leaves the fingerprint of its counterexample
    behind. *)
Lemma pass_fingerprint s core univ s1 s' :
  get_counterexample oracle s = (Val (true, Some (core, univ)), s1) →
  solve_iteration py_int oracle debug_enabled s = (Val None, s') →
  stalled s' core univ.
Proof.
  intros Hcex Hpass.
  destruct (decide (stalled s1 core univ)) as [Hst|Hst].
  { by rewrite (solve_iteration_stall _ _ _ _ _ _ _ Hcex Hst) in Hpass. }
  rewrite (solve_iteration_refine _ _ _ _ _ _ _ Hcex Hst) in Hpass.
  unfold analyze_counterexample, bind in Hpass.
  destruct (analyze_loop py_int core univ [] (remember core univ s1))
    as [[B|err] s3] eqn:Hloop; [|done].
  apply analyze_loop_fingerprint in Hloop as [He Hu].
  unfold modify in Hpass. cbv zeta in Hpass.
  destruct (oracle _ _); [|done]. injection Hpass as <-.
  split; cbn; [by rewrite He | by rewrite Hu].
Qed.

(** The two queries of [get_counterexample] leave the fingerprint alone. *)
Lemma get_counterexample_fingerprint s r s1 :
  get_counterexample oracle s = (r, s1) →
  last_counterexample_existentials s1 = last_counterexample_existentials s ∧
  last_counterexample_universals s1 = last_counterexample_universals s.
Proof.
  pose proof (get_counterexample_cases oracle s) as H. cbv zeta in H.
  destruct (oracle _ _); [destruct (oracle _ _)|]; rewrite H; by intros [= _ <-].
Qed.

Lemma consecutive_repeat_aborts s cx s1 s' cx' s1' :
  get_counterexample oracle s = (Val (true, Some cx), s1) →
  solve_iteration py_int oracle debug_enabled s = (Val None, s') →
  get_counterexample oracle s' = (Val (true, Some cx'), s1') →
  same_counterexample cx cx' →
  solve_iteration py_int oracle debug_enabled s' = (Exc (SystemExit 1), s1').
Proof.
  destruct cx as [core univ], cx' as [core' univ'].
  intros Hcex Hpass Hcex' [Hc Hu]. cbn in Hc, Hu.
  destruct (pass_fingerprint s core univ s1 s' Hcex Hpass) as [He Hl].
  destruct (get_counterexample_fingerprint s' _ s1' Hcex') as [He' Hl'].
  apply (solve_iteration_stall _ _ _ _ core' univ' _ Hcex').
  split; [by rewrite He', He, Hc | by rewrite Hl', Hl, Hu].
Qed.
End fingerprint.

(** ** The starting watermark *)

Lemma max_id_seen_ge n2i mat :
  0 ≤ max_id_seen n2i mat ∧
  ∀ name u, n2i !! name = Some u → u ≤ max_id_seen n2i mat.
Proof.
  unfold max_id_seen.
  assert (∀ (m : list clause) init,
            init ≤ foldl (λ acc clause, foldl (λ acc lit, Z.max acc (Z.abs lit)) acc clause)
                         init m) as Hmat.
  { induction m as [|cl m IH]; intros init; simpl; [lia|].
    etransitivity; [|apply IH].
    clear. revert init. induction cl as [|l cl IH]; intros init; simpl; [lia|].
    etransitivity; [|apply IH]. lia. }
  set (P := λ (r : Z) (m : gmap string Z), 0 ≤ r ∧ ∀ name u, m !! name = Some u → u ≤ r).
  assert (P (map_fold (λ _ v acc, Z.max acc v) 0 n2i) n2i) as [H0 Hall].
  { apply (map_fold_weak_ind P).
    - split; [lia|]. intros name u. by rewrite lookup_empty.
    - intros i x m r Hi [Hr Hm]. split; [lia|].
      intros name u. rewrite lookup_insert. case_decide.
      + intros [= ->]. lia.
      + intros Hu. specialize (Hm name u Hu). lia. }
  split.
  - etransitivity; [exact H0 | apply Hmat].
  - intros name u Hu. etransitivity; [by eapply Hall | apply Hmat].
Qed.

Lemma constructor_universals n2i i2n deps mat univs g c order s0 :
  __init__ n2i i2n deps mat univs g c order = Val s0 →
  ids_of n2i univs = Some (universal_var_ids s0).
Proof.
  unfold __init__. intros Hinit.
  destruct (ids_of n2i univs) as [uids|]; [|done].
  destruct (ids_of n2i order) as [eids|]; [|done].
  destruct (convert_dependencies n2i deps ∅ ∅) as [[by_id by_list]|]; [|done].
  match type of Hinit with
  | context [for_each _ _ ?s] => set (start := s) in *
  end.
  destruct (for_each eids init_model start) as [[r|err] s1] eqn:Hrun; [|done].
  injection Hinit as ->.
  destruct (for_each_init_model eids start r s0) as (Hform & _); [|done|].
  { intros e' [v Hv]. by cbn in Hv. }
  destruct Hform as (_&_&_&_&_&_&Hu&_). by rewrite Hu.
Qed.

Lemma universals_below_start n2i i2n deps mat univs g c order s0 :
  __init__ n2i i2n deps mat univs g c order = Val s0 →
  (∀ c0, c = Some c0 → 0 ≤ c0 ∧ ∀ u, u ∈ universal_var_ids s0 → u ≤ c0) →
  0 ≤ counter_start n2i mat c ∧
  ∀ u, u ∈ universal_var_ids s0 → u ≤ counter_start n2i mat c.
Proof.
  intros Hinit Hc. destruct c as [c0|]; [by apply Hc|]. cbn.
  destruct (max_id_seen_ge n2i mat) as [H0 Hall]. split; [done|].
  intros u Hu. apply constructor_universals in Hinit.
  apply mapM_Some in Hinit.
  apply list_elem_of_lookup in Hu as [i Hi].
  destruct (Forall2_lookup_r _ _ _ _ _ Hinit Hi) as (name & _ & Hname).
  by eapply Hall.
Qed.

(** * Further properties *)

(** ** Dictionaries and records *)

Lemma dict_set_same {K V} `{EqDecision K} (d : Dict.t K V) k v :
  Dict.get d k = Some v → Dict.set d k v = d.
Proof.
  induction d as [|[k0 v0] d IH]; simpl; [done|].
  destruct (decide (k0 = k)) as [->|]; [by intros [= ->] | intros H; by rewrite IH].
Qed.

Lemma dict_set_set {K V} `{EqDecision K} (d : Dict.t K V) k v w :
  Dict.set (Dict.set d k v) k w = Dict.set d k w.
Proof.
  induction d as [|[k0 v0] d IH]; simpl.
  - by rewrite decide_True.
  - destruct (decide (k0 = k)) as [->|]; simpl.
    + by rewrite decide_True.
    + rewrite decide_False by done. by rewrite IH.
Qed.

Lemma set_value_vars_same s : set_value_vars (value_vars s) s = s.
Proof. by destruct s. Qed.

Lemma set_value_vars_twice d d' s :
  set_value_vars d (set_value_vars d' s) = set_value_vars d s.
Proof. done. Qed.

Lemma elem_of_sat_clauses c cs : c ∈ Sat.clauses cs ↔ AddClause c ∈ events cs.
Proof.
  unfold Sat.clauses. rewrite list_elem_of_omap. split.
  - intros ([c'|a] & Hin & Heq); by simplify_eq.
  - intros Hin. by exists (AddClause c).
Qed.

Lemma good_modelb_sound s M : good_modelb s M = true → good_model s M.
Proof.
  unfold good_modelb. intros [Hc Hs]%andb_true_iff. split.
  - intros l Hl Hneg. rewrite forallb_forall in Hc.
    specialize (Hc l (proj1 (list_elem_of_In _ _) Hl)).
    apply negb_true_iff, bool_decide_eq_false in Hc. done.
  - intros c Hc'. rewrite forallb_forall in Hs.
    apply elem_of_sat_clauses, list_elem_of_In, Hs in Hc'.
    unfold holds_in in Hc'. apply existsb_exists in Hc' as (l & Hl & Hm).
    exists l. split; [by apply list_elem_of_In|]. by apply bool_decide_eq_true in Hm.
Qed.

(** ** [add_rule] *)

Lemma add_rule_uninitialized py_int e premise conclusion value_var s :
  Dict.get (value_vars s) e = None →
  add_rule py_int e premise conclusion value_var s = (Exc ValueError, s).
Proof.
  intros Hv. unfold add_rule. unfold bind at 1, gets at 1.
  by rewrite (proj2 (dict_mem_false _ _) Hv).
Qed.


(** ** What the methods leave alone *)

Lemma grows_refl s : grows s s.
Proof. split; [apply same_formula_refl|]. by repeat split. Qed.

Lemma grows_trans s1 s2 s3 : grows s1 s2 → grows s2 s3 → grows s1 s3.
Proof.
  intros (Hf1 & Hp1 & Hc1 & Hcs1 & Hes1 & Hev1 & Hset1 & Hv1 & Hn1 & Hr1)
         (Hf2 & Hp2 & Hc2 & Hcs2 & Hes2 & Hev2 & Hset2 & Hv2 & Hn2 & Hr2).
  split; [by eapply same_formula_trans|].
  split; [congruence|]. split; [lia|].
  split; [by etransitivity|]. split; [by etransitivity|].
  split; [by etransitivity|]. split; [by etransitivity|].
  split; [congruence|]. split; congruence.
Qed.

Lemma add_rule_missing_handle py_int e premise conclusion value_var s cur :
  Dict.get (value_vars s) e = Some cur →
  Dict.get (no_rule_fired_vars s) e = None ∨ Dict.get (rule_fire_vars s) e = None →
  add_rule py_int e premise conclusion value_var s = (Exc KeyError, s).
Proof.
  intros Hcur Hmiss. unfold add_rule. unfold bind at 1, gets at 1.
  assert (Dict.mem (value_vars s) e = true) as -> by (apply dict_mem_get; eauto).
  cbn [negb]. unfold bind at 1, gets at 1. unfold bind at 1, subscript at 1.
  destruct (Dict.get (no_rule_fired_vars s) e) as [prev|] eqn:Hprev; [|done].
  destruct Hmiss as [[=]|Hfire].
  cbn [ret]. unfold bind at 1, gets at 1. unfold bind at 1, subscript at 1.
  by rewrite Hfire.
Qed.

(** Whatever its outcome, [add_rule] with a [value_var] stays within
    [grows], takes at most three ids, and fails only before its first
    mutation. *)
Lemma add_rule_any py_int e premise conclusion x s r s' :
  add_rule py_int e premise conclusion (Some x) s = (r, s') →
  grows s s' ∧ same_expansion_side s s' ∧ counter s' ≤ counter s + 3 ∧
  (r = Val tt ∨ (s' = s ∧ ∃ err, r = Exc err ∧ lookup_error err)).
Proof.
  intros Hrun.
  destruct (Dict.get (value_vars s) e) as [cur|] eqn:Hcur; cycle 1.
  { rewrite add_rule_uninitialized in Hrun by done. injection Hrun as <- <-.
    split; [apply grows_refl|]. split; [done|]. split; [lia|].
    right. split; [done|]. exists ValueError. split; [done | by left]. }
  destruct (Dict.get (no_rule_fired_vars s) e) as [prev|] eqn:Hprev; cycle 1.
  { rewrite (add_rule_missing_handle _ _ _ _ _ _ cur) in Hrun by auto.
    injection Hrun as <- <-.
    split; [apply grows_refl|]. split; [done|]. split; [lia|].
    right. split; [done|]. exists KeyError. split; [done | by right]. }
  destruct (Dict.get (rule_fire_vars s) e) as [fire|] eqn:Hfire; cycle 1.
  { rewrite (add_rule_missing_handle _ _ _ _ _ _ cur) in Hrun by auto.
    injection Hrun as <- <-.
    split; [apply grows_refl|]. split; [done|]. split; [lia|].
    right. split; [done|]. exists KeyError. split; [done | by right]. }
  destruct (add_rule_run py_int e premise conclusion (Some x) s cur prev fire)
    as (s1 & Hrun1 & Hform & Hexp & Hc & Hrf & Hnrf & Hvv & Hpa & Hev & _); [done..|].
  rewrite Hrun in Hrun1. injection Hrun1 as -> <-.
  split; [|split; [done|split; [lia|by left]]].
  pose proof Hexp as (He1 & He2 & _ & He4 & _).
  split; [done|]. split; [by rewrite Hpa, app_nil_r|]. split; [lia|].
  split; [rewrite Hev; by apply prefix_app_r|]. split; [by rewrite He4|].
  split; [by rewrite He1|]. split; [by rewrite He2|].
  rewrite Hvv, Hnrf, Hrf. split; [|split]; apply dict_keys_set; eauto.
Qed.

Lemma get_expansion_variable_any py_int e a s r s' :
  get_expansion_variable py_int e a s = (r, s') →
  grows s s' ∧ expansion_solver s' = expansion_solver s ∧
  expansion_variable_assignment s' = expansion_variable_assignment s ∧
  counter s' ≤ counter s + 4 ∧
  ((∃ x, r = Val x) ∨ ∃ err, r = Exc err ∧ lookup_error err).
Proof.
  intros Hrun.
  destruct (decide (e ∈ existential_var_ids s)) as [He|He]; cycle 1.
  { rewrite get_expansion_variable_not_existential in Hrun by done.
    injection Hrun as <- <-. split; [apply grows_refl|]. do 2 (split; [done|]).
    split; [lia|]. right. exists ValueError. split; [done | by left]. }
  destruct (decide (Forall (λ lit, Z.abs lit ∈ dep_set_of s e) a)) as [Hin|Hout]; cycle 1.
  { apply not_Forall_Exists in Hout; [|apply _].
    apply Exists_exists in Hout as (lit & Hlit & Hout).
    rewrite (get_expansion_variable_outside _ _ _ _ lit) in Hrun by done.
    injection Hrun as <- <-. split; [apply grows_refl|]. do 2 (split; [done|]).
    split; [lia|]. right. exists ValueError. split; [done | by left]. }
  rewrite Forall_forall in Hin.
  destruct (expansion_vars s !! (e, sorted_by_abs a)) as [x|] eqn:Hx.
  { rewrite (get_expansion_variable_known _ _ _ _ x) in Hrun by done.
    injection Hrun as <- <-. split; [apply grows_refl|]. do 2 (split; [done|]).
    split; [lia|]. left. eauto. }
  revert Hrun. unfold get_expansion_variable. unfold bind at 1, gets at 1.
  rewrite bool_decide_eq_true_2 by done. cbn [negb].
  unfold bind at 1, gets at 1.
  rewrite bool_decide_eq_true_2; cycle 1.
  { intros v [lit [-> Hl]]%elem_of_list_to_set%list_elem_of_fmap. by apply Hin. }
  cbn [negb]. unfold bind at 1, gets at 1. rewrite Hx.
  unfold bind at 1. cbn [counter_increase Counter.increase].
  unfold bind at 1, gets at 1.
  set (s1 := set_counter (counter s + 1) s).
  unfold bind at 1.
  set (m := match id_to_name s1 !! e with Some _ => _ | None => _ end).
  assert (∃ n, m s1 = (Val tt, set_id_to_name n s1)) as [n ->].
  { subst m. destruct (id_to_name s1 !! e); [by eexists|].
    exists (id_to_name s1). by destruct s. }
  unfold bind at 1. unfold modify at 1.
  set (s2 := set_expansion_vars _ _).
  assert (grows s s2) as Hg2.
  { split; [by repeat split|]. split; [done|]. split; [cbn; lia|].
    split; [done|]. split; [done|]. split; [|by repeat split].
    cbn. by apply insert_subseteq. }
  unfold bind at 1.
  destruct (add_rule py_int e a true (Some (counter s + 1)) s2) as [r3 s3] eqn:Hadd.
  destruct (add_rule_any _ _ _ _ _ _ _ _ Hadd)
    as (Hg3 & (He1 & He2 & He3 & He4 & _) & Hc3 & Hcase).
  destruct r3 as [[]|err].
  - cbv [bind modify ret]. intros [= <- <-].
    split; [|split; [cbn; by rewrite He4|split; [cbn; by rewrite He3|
             split; [cbn in *; lia|eauto]]]].
    eapply grows_trans; [exact Hg2|]. eapply grows_trans; [exact Hg3|].
    split; [by repeat split|]. split; [done|]. split; [cbn; lia|].
    split; [done|]. split; [done|]. split; [done|]. split; [|by repeat split].
    cbn. apply union_subseteq_r.
  - intros [= <- <-].
    split; [by eapply grows_trans|]. split; [by rewrite He4|].
    split; [by rewrite He3|]. split; [cbn in *; lia|].
    right. destruct Hcase as [[=]|(_ & err' & [= <-] & Herr)]. eauto.
Qed.

Lemma set_default_value_any e v s r s' :
  set_default_value e v s = (r, s') →
  grows s s' ∧ same_expansion_side s s' ∧ counter s' = counter s ∧
  counterexample_solver s' = counterexample_solver s ∧
  (r = Val tt ∨ r = Exc ValueError).
Proof.
  destruct (Dict.get (value_vars s) e) as [cur|] eqn:Hcur.
  - rewrite (set_default_value_run _ _ _ cur) by done. intros [= <- <-].
    split; [|by repeat split; auto]. split; [by repeat split|].
    split; [done|]. split; [cbn; lia|]. do 4 (split; [done|]).
    split; [|done]. cbn. apply dict_keys_set; eauto.
  - rewrite set_default_value_uninitialized by done. intros [= <- <-].
    split; [apply grows_refl|]. by repeat split; auto.
Qed.

Lemma analyze_loop_any py_int core univ B0 s r s' :
  analyze_loop py_int core univ B0 s = (r, s') →
  grows s s' ∧ expansion_solver s' = expansion_solver s ∧
  expansion_variable_assignment s' = expansion_variable_assignment s ∧
  counter s' ≤ counter s + 4 * Z.of_nat (length core) ∧
  ((∃ B, r = Val B) ∨ ∃ err, r = Exc err ∧ lookup_error err).
Proof.
  revert B0 s. induction core as [|ℓ core IH]; intros B0 s; simpl.
  { intros [= <- <-]. split; [apply grows_refl|]. do 2 (split; [done|]).
    split; [lia|]. left. eauto. }
  unfold bind at 1, gets at 1. unfold bind at 1.
  destruct (get_expansion_variable _ _ _ s) as [rx s1] eqn:Hx.
  destruct (get_expansion_variable_any _ _ _ _ _ _ Hx) as (Hg1 & Hes1 & Ha1 & Hc1 & Hr1).
  destruct rx as [x|err]; cycle 1.
  { intros [= <- <-]. split; [done|]. do 2 (split; [done|]). split; [lia|].
    right. destruct Hr1 as [[? [=]]|(err' & [= <-] & Herr)]. eauto. }
  assert (∀ v B1,
            bind (set_default_value (Z.abs ℓ) v)
                 (λ _, analyze_loop py_int core univ B1) s1 = (r, s') →
            grows s s' ∧ expansion_solver s' = expansion_solver s ∧
            expansion_variable_assignment s' = expansion_variable_assignment s ∧
            counter s' ≤ counter s + 4 * Z.of_nat (S (length core)) ∧
            ((∃ B, r = Val B) ∨ ∃ err, r = Exc err ∧ lookup_error err)) as Hstep.
  { intros v B1. unfold bind.
    destruct (set_default_value (Z.abs ℓ) v s1) as [rd s2] eqn:Hd.
    destruct (set_default_value_any _ _ _ _ _ Hd)
      as (Hg2 & (_ & _ & Ha2 & Hes2 & _) & Hc2 & _ & Hr2).
    destruct rd as [[]|err].
    - intros Hrest. destruct (IH _ _ Hrest) as (Hg3 & Hes3 & Ha3 & Hc3 & Hr3).
      split; [eapply grows_trans; [exact Hg1|]; by eapply grows_trans|].
      split; [congruence|]. split; [congruence|]. split; [lia|done].
    - intros [= <- <-]. split; [by eapply grows_trans|].
      split; [congruence|]. split; [congruence|]. split; [lia|].
      right. destruct Hr2 as [[=]|[= ->]]. exists ValueError. split; [done|by left]. }
  case_bool_decide; apply Hstep.
Qed.

Lemma analyze_counterexample_any py_int core univ s r s' :
  analyze_counterexample py_int core univ s = (r, s') →
  grows s s' ∧
  expansion_variable_assignment s' = expansion_variable_assignment s ∧
  counter s' ≤ counter s + 4 * Z.of_nat (length core) ∧
  ((r = Val tt ∧ ∃ B, length B = length core ∧
      events (expansion_solver s') = events (expansion_solver s) ++ [AddClause B]) ∨
   (expansion_solver s' = expansion_solver s ∧ ∃ err, r = Exc err ∧ lookup_error err)).
Proof.
  unfold analyze_counterexample, bind.
  destruct (analyze_loop py_int core univ [] s) as [rl s1] eqn:Hloop.
  destruct (analyze_loop_any _ _ _ _ _ _ _ Hloop) as (Hg & Hes & Ha & Hc & Hr).
  destruct rl as [B|err].
  - unfold modify. intros [= <- <-].
    assert (length B = length core) as Hlen.
    { clear -Hloop. revert Hloop.
      assert (∀ B0 s0, analyze_loop py_int core univ B0 s0 = (Val B, s1) →
                       length B = (length B0 + length core)%nat) as H; [|by apply H].
      clear s. induction core as [|ℓ core IH]; intros B0 s; simpl.
      { intros [= <- _]. lia. }
      unfold bind at 1, gets at 1.
      intros (x & s2 & _ & Hrest)%bind_inv_val.
      case_bool_decide.
      all: apply bind_inv_val in Hrest as ([] & s3 & _ & Hrest).
      all: apply IH in Hrest; rewrite length_app in Hrest; simpl in Hrest; lia. }
    split; [|split; [done|split; [done|]]].
    + eapply grows_trans; [exact Hg|].
      split; [by repeat split|]. split; [done|]. split; [cbn; lia|].
      split; [done|]. split; [cbn; by apply prefix_app_r|]. by repeat split.
    + left. split; [done|]. exists B. split; [done|]. cbn. by rewrite Hes.
  - intros [= <- <-]. split; [done|]. split; [done|]. split; [done|].
    right. split; [done|]. destruct Hr as [[? [=]]|(err' & [= <-] & Herr)]. eauto.
Qed.

(** ** Queries *)

Lemma sat_clauses_app evs evs' st st' :
  (∀ c, AddClause c ∉ evs') →
  Sat.clauses (mkSAT (evs ++ evs') st) = Sat.clauses (mkSAT evs st').
Proof.
  intros Hno. unfold Sat.clauses. cbn. rewrite omap_app.
  assert (omap (λ ev, match ev with AddClause c => Some c | Solve _ => None end) evs'
          = []) as ->; [|by rewrite app_nil_r].
  induction evs' as [|[c|a] evs' IH]; [done| |].
  - destruct (Hno c). by left.
  - cbn. apply IH. intros c Hc. apply (Hno c). by right.
Qed.

Lemma sat_clauses_solve cs a st :
  Sat.clauses (mkSAT (events cs ++ [Solve a]) st) = Sat.clauses cs.
Proof.
  destruct cs as [evs st0]. apply sat_clauses_app.
  intros c ?%list_elem_of_singleton. done.
Qed.

Lemma sat_queries_solve cs a st :
  Sat.queries (mkSAT (events cs ++ [Solve a]) st) = Sat.queries cs ++ [a].
Proof. unfold Sat.queries. cbn. by rewrite omap_app. Qed.

Lemma sat_clauses_add cs c :
  Sat.clauses (Sat.add_clause cs c) = Sat.clauses cs ++ [c].
Proof. unfold Sat.clauses, Sat.add_clause. cbn. by rewrite omap_app. Qed.

Lemma get_counterexample_any oracle s r s1 :
  get_counterexample oracle s = (r, s1) →
  grows s s1 ∧ expansion_solver s1 = expansion_solver s ∧
  expansion_variable_assignment s1 = expansion_variable_assignment s ∧
  counter s1 = counter s ∧
  (r = Val (false, None) ∨ (∃ cx, r = Val (true, Some cx)) ∨ r = Exc AssertionError).
Proof.
  pose proof (get_counterexample_cases oracle s) as H. cbv zeta in H.
  assert (∀ evs st,
            grows s (set_counterexample_solver
                       (mkSAT (events (counterexample_solver s) ++ evs) st) s)) as Hg.
  { intros evs st. split; [by repeat split|]. split; [done|]. split; [cbn; lia|].
    split; [cbn; by apply prefix_app_r|]. by repeat split. }
  destruct (oracle _ _); [destruct (oracle _ _)|]; rewrite H; intros [= <- <-].
  all: split; [apply Hg|]; do 3 (split; [done|]); eauto.
Qed.

(** ** The model-function check *)

Lemma compute_model_functions_run oracle univ s :
  let cs := counterexample_solver s in
  let a := model_function_assumptions s univ in
  compute_model_functions oracle univ s =
  (Val match oracle (events cs) a with
       | Sat model => Some (filter (λ lit, Z.abs lit ∈ existential_var_ids s) model)
       | Unsat _ => None
       end,
   set_counterexample_solver
     (mkSAT (events cs ++ [Solve a]) (Some (oracle (events cs) a))) s).
Proof.
  intros cs a.
  cbv [compute_model_functions bind gets cex_solve Sat.solve ret]. cbn.
  fold cs.
  match goal with
  | |- context [oracle (events cs) ?a'] => replace a' with a
  end; cycle 1.
  { subst a. unfold model_function_assumptions, relevant_expansion_literals.
    by rewrite <- !app_assoc. }
  by destruct (oracle (events cs) a).
Qed.

Lemma filter_elem_of_nil (f : Z → Z) (m : list Z) :
  filter (λ lit, f lit ∈ ([] : list Z)) m = [].
Proof.
  induction m as [|l m IH]; [done|]. rewrite filter_cons_False; [done|].
  by intros ?%elem_of_nil.
Qed.

Lemma product_bools_length n : length (product_bools n) = (2 ^ n)%nat.
Proof.
  induction n as [|n IH]; [done|]. cbn [product_bools].
  rewrite length_app, !length_fmap, IH. cbn. lia.
Qed.

Lemma enumerate_loop_run oracle tuples all_valid s :
  ∃ b s', enumerate_loop oracle tuples all_valid s = (Val b, s') ∧
    (all_valid = false → b = false) ∧
    (existential_var_ids s = [] → tuples ≠ [] → b = false) ∧
    s' = set_counterexample_solver (counterexample_solver s') s ∧
    events (counterexample_solver s) `prefix_of` events (counterexample_solver s') ∧
    Sat.clauses (counterexample_solver s') = Sat.clauses (counterexample_solver s) ∧
    length (Sat.queries (counterexample_solver s')) =
      (length (Sat.queries (counterexample_solver s)) + length tuples)%nat.
Proof.
  revert all_valid s. induction tuples as [|t tuples IH]; intros all_valid s.
  { exists all_valid, s. cbn. split; [done|]. split; [done|]. split; [done|].
    split; [by destruct s|]. split; [done|]. split; [done|lia]. }
  cbn [enumerate_loop]. unfold bind at 1, gets at 1. unfold bind at 1.
  rewrite compute_model_functions_run. cbv zeta.
  set (ul := _ <$> zip (universal_var_ids s) t).
  set (a := model_function_assumptions s ul).
  set (s1 := set_counterexample_solver _ s).
  set (res := match oracle _ a with Sat _ => _ | Unsat _ => _ end).
  destruct (IH (if truthy res then all_valid else false) s1)
    as (b & s' & Hrun & Hfalse & _ & Hs' & Hpre & Hcl & Hq).
  exists b, s'. split; [exact Hrun|]. split; [|split; [|split; [|split; [|split]]]].
  - intros ->. apply Hfalse. by destruct (truthy res).
  - intros HE _. apply Hfalse.
    assert (truthy res = false) as ->; [|done].
    subst res. destruct (oracle _ a); [|done]. rewrite HE.
    by rewrite filter_elem_of_nil.
  - rewrite Hs'. subst s1. by destruct s.
  - etransitivity; [|exact Hpre]. subst s1. cbn. by apply prefix_app_r.
  - rewrite Hcl. subst s1. cbn [counterexample_solver set_counterexample_solver].
    apply sat_clauses_solve.
  - rewrite Hq. subst s1. cbn [counterexample_solver set_counterexample_solver].
    rewrite sat_queries_solve, length_app. cbn. lia.
Qed.

Lemma enumerate_run oracle s :
  ∃ b s', _enumerate_and_compute_model_functions oracle s = (Val b, s') ∧
    (existential_var_ids s = [] → b = false) ∧
    s' = set_counterexample_solver (counterexample_solver s') s ∧
    events (counterexample_solver s) `prefix_of` events (counterexample_solver s') ∧
    Sat.clauses (counterexample_solver s') = Sat.clauses (counterexample_solver s) ∧
    length (Sat.queries (counterexample_solver s')) =
      (length (Sat.queries (counterexample_solver s)) + enumerated_assignments s)%nat.
Proof.
  unfold _enumerate_and_compute_model_functions, enumerated_assignments.
  unfold bind at 1, gets at 1.
  destruct (length (universal_var_ids s)) as [|n] eqn:Hn.
  - unfold bind. rewrite compute_model_functions_run. cbv zeta. cbn [ret].
    eexists _, _. split; [reflexivity|]. split; [|split; [|split; [|split]]].
    + intros HE. destruct (oracle _ _); [|done]. rewrite HE.
      by rewrite filter_elem_of_nil.
    + cbn. by destruct s.
    + cbn. by apply prefix_app_r.
    + cbn [snd counterexample_solver set_counterexample_solver].
      apply sat_clauses_solve.
    + cbn [snd counterexample_solver set_counterexample_solver].
      rewrite sat_queries_solve, length_app. cbn. lia.
  - destruct (enumerate_loop_run oracle (product_bools (S n)) true s)
      as (b & s' & Hrun & _ & Hfalse & Hs' & Hpre & Hcl & Hq).
    exists b, s'. split; [exact Hrun|]. split; [|split; [done|split; [done|split; [done|]]]].
    + intros HE. apply Hfalse; [done|]. intros Hnil.
      apply (f_equal length) in Hnil. rewrite product_bools_length in Hnil.
      cbn in Hnil. pose proof (Nat.pow_nonzero 2 n). lia.
    + by rewrite Hq, product_bools_length.
Qed.

Lemma grows_counterexample_solver s s' :
  s' = set_counterexample_solver (counterexample_solver s') s →
  events (counterexample_solver s) `prefix_of` events (counterexample_solver s') →
  grows s s'.
Proof.
  intros -> Hpre. split; [by repeat split|]. split; [done|]. split; [cbn; lia|].
  split; [done|]. by repeat split.
Qed.

(** ** The driver loop, whatever the SAT service answers *)

(** The ways a pass of the loop can end. *)
Lemma solve_iteration_any py_int oracle debug_enabled s r s' :
  solve_iteration py_int oracle debug_enabled s = (r, s') →
  grows s s' ∧
  ((∃ b, r = Val (Some b)) ∨ r = Val None ∨ r = Exc AssertionError ∨
   r = Exc (SystemExit 1) ∨ ∃ err, r = Exc err ∧ lookup_error err).
Proof.
  intros Hpass.
  destruct (get_counterexample oracle s) as [rc s1] eqn:Hcex.
  destruct (get_counterexample_any _ _ _ _ Hcex) as (Hg1 & _ & _ & _ & Hrc).
  destruct Hrc as [->|[[[core univ] ->]| ->]].
  - rewrite (solve_iteration_no_counterexample _ _ _ _ _ _ Hcex) in Hpass.
    destruct debug_enabled; cycle 1.
    { injection Hpass as <- <-. split; [done|]. left. by exists true. }
    destruct (enumerate_run oracle s1) as (b & s2 & Hrun & _ & Hs2 & Hpre & _).
    rewrite Hrun in Hpass.
    assert (grows s s2) as Hg2.
    { eapply grows_trans; [exact Hg1|]. by apply grows_counterexample_solver. }
    destruct b; injection Hpass as <- <-; (split; [done|]);
      [left; by exists true | auto].
  - destruct (decide (stalled s1 core univ)) as [Hst|Hst].
    { rewrite (solve_iteration_stall _ _ _ _ _ _ _ Hcex Hst) in Hpass.
      injection Hpass as <- <-. split; [done|]. auto. }
    rewrite (solve_iteration_refine _ _ _ _ _ _ _ Hcex Hst) in Hpass.
    destruct (analyze_counterexample py_int core univ (remember core univ s1))
      as [ra s3] eqn:Han.
    destruct (analyze_counterexample_any _ _ _ _ _ _ Han) as (Hg3 & _ & _ & Hra).
    assert (grows s s3) as Hg.
    { eapply grows_trans; [exact Hg1|]. eapply grows_trans; [|exact Hg3].
      split; [by repeat split|]. split; [done|]. split; [cbn; lia|]. by repeat split. }
    destruct ra as [[]|err]; cycle 1.
    { injection Hpass as <- <-. split; [done|].
      destruct Hra as [[[=] _]|(_ & err' & [= <-] & Herr)].
      do 4 right. by exists err. }
    cbv zeta in Hpass.
    assert (∀ st, grows s (set_expansion_solver
                             (mkSAT (events (expansion_solver s3) ++ [Solve []]) st) s3))
      as Hg4.
    { intros st. eapply grows_trans; [exact Hg|].
      split; [by repeat split|]. split; [done|]. split; [cbn; lia|].
      split; [done|]. split; [cbn; by apply prefix_app_r|]. by repeat split. }
    destruct (oracle (events (expansion_solver s3)) []) as [model|c];
      injection Hpass as <- <-.
    + split; [|auto]. eapply grows_trans; [apply (Hg4 (Some (Sat model)))|].
      split; [by repeat split|]. split; [done|]. split; [cbn; lia|]. by repeat split.
    + split; [apply Hg4|]. left. by exists false.
  - rewrite (solve_iteration_error _ _ _ _ _ _ Hcex) in Hpass.
    injection Hpass as <- <-. split; [done|]. auto.
Qed.

Lemma solve_any py_int oracle debug_enabled fuel s r s' :
  solve py_int oracle debug_enabled fuel s = (r, s') →
  grows s s' ∧
  ((∃ b, r = Val (Some b)) ∨ r = Val None ∨ r = Exc AssertionError ∨
   r = Exc (SystemExit 1) ∨ ∃ err, r = Exc err ∧ lookup_error err).
Proof.
  revert s. induction fuel as [|fuel IH]; intros s.
  { intros [= <- <-]. split; [apply grows_refl|]. auto. }
  rewrite solve_unfold.
  destruct (solve_iteration py_int oracle debug_enabled s) as [rp s1] eqn:Hpass.
  destruct (solve_iteration_any _ _ _ _ _ _ Hpass) as [Hg1 Hr1].
  destruct rp as [[b|]|err].
  - intros [= <- <-]. split; [done|]. left. eauto.
  - intros Hrest. destruct (IH _ Hrest) as [Hg2 Hr2]. split; [|done].
    by eapply grows_trans.
  - intros [= <- <-]. split; [done|].
    destruct Hr1 as [[? [=]]|[[=]|Hr1]]. auto.
Qed.

Lemma relevant_expansion_literals_elem s univ l :
  l ∈ relevant_expansion_literals s univ →
  l ∈ expansion_variable_assignment s ∧
  ∃ e, e ∈ existential_var_ids s ∧
       expansion_vars s !! key_of s e univ = Some (Z.abs l).
Proof.
  unfold relevant_expansion_literals. intros (ls & Hls & Hl)%elem_of_concat.
  apply list_elem_of_fmap in Hls as (e & -> & He).
  destruct (expansion_vars s !! key_of s e univ) as [x|] eqn:Hx;
    [|by apply elem_of_nil in Hl].
  destruct (filter _ _) as [|l0 rest] eqn:Hf; [by apply elem_of_nil in Hl|].
  cbn in Hl. apply list_elem_of_singleton in Hl as ->.
  assert (l0 ∈ filter (λ lit, Z.abs lit = x) (expansion_variable_assignment s)) as Hin
    by (rewrite Hf; by left).
  apply list_elem_of_filter in Hin as [<- Hin]. split; [done|]. eauto.
Qed.

Lemma relevant_expansion_literals_length s univ :
  (length (relevant_expansion_literals s univ) ≤ length (existential_var_ids s))%nat.
Proof.
  unfold relevant_expansion_literals.
  induction (existential_var_ids s) as [|e es IH]; [done|].
  cbn [fmap list_fmap concat]. rewrite length_app. cbn [length].
  destruct (expansion_vars s !! key_of s e univ); [|cbn; lia].
  destruct (head _); cbn; lia.
Qed.

(** ** The driver loop under the contract of the SAT service *)

Section contract_facts.
Context (py_int : string → option Z) (oracle : sat_oracle) (debug_enabled : bool).
Hypothesis contract : sat_contract oracle.

(** From a state that satisfies the invariant, refinement of a returned
    counterexample does not fail. *)
Lemma pass_refinement_succeeds s H core univ s1 :
  run_inv s H →
  get_counterexample oracle s = (Val (true, Some (core, univ)), s1) →
  ∃ s3, analyze_counterexample py_int core univ (remember core univ s1) = (Val tt, s3).
Proof.
  intros (Hinv & Hhist & Hassign) Hcex.
  destruct (get_counterexample_model oracle contract s core univ s1 Hcex)
    as (M & evs & st & Hnd & H0 & HM & Has & Htot & Huniv & HcoreM & Hs1 & Hevs).
  assert (solver_inv s1) as Hinv1.
  { apply (solver_inv_transport s s1); subst s1; try done.
    - intros c. cbn. rewrite elem_of_app. split; [|auto].
      intros [?|?]; [done|]. by destruct (Hevs c).
    - apply Hinv. }
  assert (existential_var_ids s1 ≠ [] → total_assignment s1 univ) as Htot1.
  { intros Hne. apply (same_formula_total s s1); [by subst s1|].
    rewrite Huniv. apply model_total_assignment; [|done..].
    destruct Hinv as (_ & _ & _ & Hknown & _). apply Hknown. by subst s1. }
  set (s2 := remember core univ s1).
  assert (solver_inv s2) as Hinv2 by exact Hinv1.
  destruct (analyze_loop_inv py_int univ core s2 [] Hinv2 Htot1)
    as (B & s3 & Hloop & _).
  { intros ℓ Hℓ. destruct (HcoreM ℓ Hℓ) as [? _]. by subst s1. }
  cbn [app] in Hloop. unfold analyze_counterexample.
  rewrite (bind_val _ _ _ _ _ Hloop). unfold modify. eauto.
Qed.

Lemma solve_iteration_contract s H r s' :
  run_inv s H →
  solve_iteration py_int oracle debug_enabled s = (r, s') →
  (∃ b, r = Val (Some b)) ∨ (r = Val None ∧ ∃ cx, run_inv s' (H ++ [cx])) ∨
  r = Exc AssertionError ∨ r = Exc (SystemExit 1).
Proof.
  intros Hinv Hpass.
  destruct (get_counterexample oracle s) as [rc s1] eqn:Hcex.
  destruct (get_counterexample_any _ _ _ _ Hcex) as (_ & _ & _ & _ & Hrc).
  destruct Hrc as [->|[[[core univ] ->]| ->]].
  - rewrite (solve_iteration_no_counterexample _ _ _ _ _ _ Hcex) in Hpass.
    destruct debug_enabled; cycle 1.
    { injection Hpass as <- <-. left. by exists true. }
    destruct (enumerate_run oracle s1) as (b & s2 & Hrun & _).
    rewrite Hrun in Hpass.
    destruct b; injection Hpass as <- <-; [left; by exists true | auto].
  - destruct (decide (stalled s1 core univ)) as [Hst|Hst].
    { rewrite (solve_iteration_stall _ _ _ _ _ _ _ Hcex Hst) in Hpass.
      injection Hpass as <- <-. auto. }
    pose proof Hpass as Hpass'.
    rewrite (solve_iteration_refine _ _ _ _ _ _ _ Hcex Hst) in Hpass.
    destruct (pass_refinement_succeeds s H core univ s1 Hinv Hcex) as [s3 Han].
    rewrite Han in Hpass. cbv zeta in Hpass.
    destruct (oracle (events (expansion_solver s3)) []) as [model|c];
      injection Hpass as <- <-.
    + right. left. split; [done|]. exists (core, univ).
      by apply (pass_inv py_int oracle debug_enabled contract s H core univ s1).
    + left. by exists false.
  - rewrite (solve_iteration_error _ _ _ _ _ _ Hcex) in Hpass.
    injection Hpass as <- <-. auto.
Qed.

Lemma solve_contract fuel s H r s' :
  run_inv s H →
  solve py_int oracle debug_enabled fuel s = (r, s') →
  (∃ b, r = Val (Some b)) ∨ (r = Val None ∧ ∃ H', run_inv s' H') ∨
  r = Exc AssertionError ∨ r = Exc (SystemExit 1).
Proof.
  revert s H. induction fuel as [|fuel IH]; intros s H Hinv.
  { intros [= <- <-]. right. left. eauto. }
  rewrite solve_unfold.
  destruct (solve_iteration py_int oracle debug_enabled s) as [rp s1] eqn:Hpass.
  destruct (solve_iteration_contract _ _ _ _ Hinv Hpass)
    as [[b ->]|[[-> [cx Hinv1]]|[->| ->]]].
  - intros [= <- <-]. left. eauto.
  - by apply (IH s1 (H ++ [cx])).
  - intros [= <- <-]. auto.
  - intros [= <- <-]. auto.
Qed.
End contract_facts.

(** ** Counting counterexamples *)

Lemma product_bools_complete t : t ∈ product_bools (length t).
Proof.
  induction t as [|b t IH]; [by left|]. cbn [length product_bools].
  rewrite elem_of_app. destruct b; [right|left]; by apply list_elem_of_fmap_2.
Qed.

Lemma fmap_eq_pointwise {A B} (f g : A → B) (l : list A) x :
  f <$> l = g <$> l → x ∈ l → f x = g x.
Proof.
  induction l as [|y l IH]; [by intros _ ?%elem_of_nil|].
  intros [= Hy Hl] [->|Hx]%elem_of_cons; auto.
Qed.

Lemma elem_of_literals_over ids l : Z.abs l ∈ ids → l ∈ literals_over ids.
Proof.
  intros Hl. unfold literals_over. rewrite elem_of_app.
  destruct (decide (0 ≤ l)).
  - left. by replace l with (Z.abs l) by lia.
  - right. apply list_elem_of_fmap. exists (Z.abs l). split; [lia|done].
Qed.

Lemma fingerprint_length s cx :
  length (fingerprint_of s cx) =
  (2 * (length (existential_var_ids s) + length (universal_var_ids s)))%nat.
Proof.
  unfold fingerprint_of, literals_over.
  rewrite !length_app, !length_fmap, !length_app, !length_fmap. lia.
Qed.

(** Counterexamples over the solver's ids with the same fingerprint are the
    same counterexample. *)
Lemma fingerprint_same s cx cx' :
  (∀ l, l ∈ cx.1 ∨ l ∈ cx'.1 → Z.abs l ∈ existential_var_ids s) →
  (∀ l, l ∈ cx.2 ∨ l ∈ cx'.2 → Z.abs l ∈ universal_var_ids s) →
  fingerprint_of s cx = fingerprint_of s cx' → same_counterexample cx cx'.
Proof.
  intros HE HU Heq. unfold fingerprint_of in Heq.
  apply app_inj_1 in Heq as [H1 H2]; [|by rewrite !length_fmap].
  split; apply set_eq; intros l; rewrite !elem_of_list_to_set.
  - split; intros Hl.
    + pose proof (fmap_eq_pointwise _ _ _ l H1
                    (elem_of_literals_over _ _ (HE l (or_introl Hl)))) as Hb.
      cbn beta in Hb. rewrite bool_decide_eq_true_2 in Hb by done.
      symmetry in Hb. by apply bool_decide_eq_true in Hb.
    + pose proof (fmap_eq_pointwise _ _ _ l H1
                    (elem_of_literals_over _ _ (HE l (or_intror Hl)))) as Hb.
      cbn beta in Hb. rewrite (bool_decide_eq_true_2 (l ∈ cx'.1)) in Hb by done.
      by apply bool_decide_eq_true in Hb.
  - split; intros Hl.
    + pose proof (fmap_eq_pointwise _ _ _ l H2
                    (elem_of_literals_over _ _ (HU l (or_introl Hl)))) as Hb.
      cbn beta in Hb. rewrite bool_decide_eq_true_2 in Hb by done.
      symmetry in Hb. by apply bool_decide_eq_true in Hb.
    + pose proof (fmap_eq_pointwise _ _ _ l H2
                    (elem_of_literals_over _ _ (HU l (or_intror Hl)))) as Hb.
      cbn beta in Hb. rewrite (bool_decide_eq_true_2 (l ∈ cx'.2)) in Hb by done.
      by apply bool_decide_eq_true in Hb.
Qed.

(** A list of pairwise different counterexamples over the solver's ids is no
    longer than [pass_bound]. *)
Lemma no_repeats_bounded s tr :
  (∀ cx l, cx ∈ tr → l ∈ cx.1 → Z.abs l ∈ existential_var_ids s) →
  (∀ cx l, cx ∈ tr → l ∈ cx.2 → Z.abs l ∈ universal_var_ids s) →
  no_repeats tr → (length tr ≤ pass_bound s)%nat.
Proof.
  intros HE HU Hnr.
  assert (NoDup (fingerprint_of s <$> tr)) as Hnd.
  { apply NoDup_alt. intros i j fp Hi Hj.
    rewrite list_lookup_fmap in Hi, Hj.
    apply fmap_Some in Hi as (cx & Hi & ->).
    apply fmap_Some in Hj as (cx' & Hj & Heq).
    assert (cx ∈ tr) as Hin by by eapply list_elem_of_lookup_2.
    assert (cx' ∈ tr) as Hin' by by eapply list_elem_of_lookup_2.
    assert (same_counterexample cx cx') as Hsame.
    { apply (fingerprint_same s); [| |done].
      - intros l [Hl|Hl]; eauto.
      - intros l [Hl|Hl]; eauto. }
    destruct (Nat.lt_trichotomy i j) as [Hlt|[->|Hgt]]; [|done|].
    - by destruct (Hnr i j cx cx' Hlt Hi Hj).
    - destruct (Hnr j i cx' cx Hgt Hj Hi). destruct Hsame. by split. }
  rewrite <- (length_fmap (fingerprint_of s)).
  unfold pass_bound. rewrite <- product_bools_length.
  apply submseteq_length, NoDup_submseteq; [done|].
  intros fp (cx & -> & _)%list_elem_of_fmap.
  rewrite <- (fingerprint_length s cx). apply product_bools_complete.
Qed.

Section counting.
Context (py_int : string → option Z) (oracle : sat_oracle) (debug_enabled : bool).

Lemma counterexamples_over_ids fuel s cx :
  cx ∈ counterexamples py_int oracle debug_enabled fuel s →
  (∀ l, l ∈ cx.1 → Z.abs l ∈ existential_var_ids s) ∧
  (∀ l, l ∈ cx.2 → Z.abs l ∈ universal_var_ids s).
Proof.
  revert s. induction fuel as [|fuel IH]; intros s; simpl; [by intros ?%elem_of_nil|].
  destruct (get_counterexample oracle s) as [[[[] [[core univ]|]]|err] s1] eqn:Hcex;
    try by intros ?%elem_of_nil.
  intros [->|Hin]%elem_of_cons.
  - pose proof (get_counterexample_cases oracle s) as H. cbv zeta in H.
    destruct (oracle _ _); [destruct (oracle _ _)|]; rewrite H in Hcex; [done| |done].
    injection Hcex as <- <- _. cbn [fst snd].
    split; intros l [? _]%list_elem_of_filter; done.
  - destruct (solve_iteration py_int oracle debug_enabled s) as [[[b|]|e] s'] eqn:Hpass;
      try by apply elem_of_nil in Hin.
    destruct (solve_iteration_any _ _ _ _ _ _ Hpass) as [((_&_&_&_&_&_&Hu&He&_) & _) _].
    destruct (IH _ Hin) as [H1 H2]. rewrite He in H1. rewrite Hu in H2. done.
Qed.

(** A loop that is still running after [fuel] passes has seen [fuel]
    counterexamples. *)
Lemma solve_running_counterexamples fuel s s' :
  solve py_int oracle debug_enabled fuel s = (Val None, s') →
  length (counterexamples py_int oracle debug_enabled fuel s) = fuel.
Proof.
  revert s. induction fuel as [|fuel IH]; intros s; [done|].
  rewrite solve_unfold. cbn [counterexamples].
  destruct (solve_iteration py_int oracle debug_enabled s) as [[[b|]|e] s1] eqn:Hpass;
    [done| |done].
  intros Hrest.
  destruct (get_counterexample oracle s) as [rc s0] eqn:Hcex.
  destruct (get_counterexample_any _ _ _ _ Hcex) as (_ & _ & _ & _ & Hrc).
  destruct Hrc as [->|[[cx ->]| ->]].
  - rewrite (solve_iteration_no_counterexample _ _ _ _ _ _ Hcex) in Hpass.
    destruct debug_enabled; [|done].
    by destruct (_enumerate_and_compute_model_functions oracle s0) as [[[]|?] ?].
  - cbn [length]. f_equal. by apply IH.
  - by rewrite (solve_iteration_error _ _ _ _ _ _ Hcex) in Hpass.
Qed.

(** Once the loop has ended, more passes change nothing. *)
Lemma solve_ended fuel k s r s' :
  solve py_int oracle debug_enabled fuel s = (r, s') → r ≠ Val None →
  solve py_int oracle debug_enabled (fuel + k) s = (r, s').
Proof.
  revert s. induction fuel as [|fuel IH]; intros s.
  { by intros [= <- <-]. }
  cbn [Nat.add]. rewrite !solve_unfold.
  destruct (solve_iteration py_int oracle debug_enabled s) as [[[b|]|e] s1]; [done| |done].
  apply IH.
Qed.
End counting.

(** ** More on the union-find structure *)

Lemma init_parent_get elements x :
  Dict.get (UnionFind.parent (UnionFind.init elements)) x =
  if decide (x ∈ elements) then Some x else None.
Proof.
  unfold UnionFind.init. cbn [UnionFind.parent].
  assert (∀ d0 : Dict.t Z Z,
            Dict.get (foldl (λ d elem, Dict.set d elem elem) d0 elements) x =
            if decide (x ∈ elements) then Some x else Dict.get d0 x) as H;
    [|by rewrite H].
  induction elements as [|e l IH]; intros d0; simpl.
  { done. }
  rewrite IH, dict_get_set.
  destruct (decide (x ∈ l)) as [Hl|Hl].
  - rewrite decide_True; [done|]. by right.
  - destruct (decide (e = x)) as [->|Hne].
    + rewrite decide_True; [done|]. by left.
    + rewrite decide_False; [done|]. intros [->|?]%elem_of_cons; done.
Qed.

(** Undoing a compression step does not change representatives. *)
Lemma root_in_compress_back k p x r m z r' :
  root_in k p x = Some r →
  root_in m (Dict.set p x r) z = Some r' → ∃ m', root_in m' p z = Some r'.
Proof.
  intros Hx. revert z. induction m as [|m IH]; intros z; simpl; [done|].
  rewrite dict_get_set. destruct (decide (x = z)) as [->|Hne].
  - destruct (decide (r = z)) as [->|Hrz].
    + intros [= <-]. eauto.
    + intros Hr. exists k. rewrite Hx. f_equal.
      destruct m as [|m]; [done|]. simpl in Hr.
      rewrite dict_get_set_ne in Hr by done.
      rewrite (root_in_root _ _ _ _ Hx), decide_True in Hr by done. congruence.
  - destruct (Dict.get p z) as [q|] eqn:Hq; [|done].
    destruct (decide (q = z)) as [->|Hqz].
    + intros [= <-]. exists 1%nat. simpl. by rewrite Hq, decide_True.
    + intros (m' & Hm')%IH. exists (S m'). simpl. by rewrite Hq, decide_False.
Qed.

Lemma find_val_back limit x u r u' m z r' :
  UnionFind.find limit x u = (Val r, u') →
  root_in m (UnionFind.parent u') z = Some r' →
  ∃ m', root_in m' (UnionFind.parent u) z = Some r'.
Proof.
  revert x u r u' m z r'. induction limit as [|limit IH]; intros x u r u' m z r'; [done|].
  rewrite find_step.
  destruct (Dict.get (UnionFind.parent u) x) as [p|] eqn:Hp; [|done].
  destruct (decide (p = x)) as [->|Hne]; [intros [= <- <-]; eauto|].
  destruct (UnionFind.find limit p u) as [[r0|e] u1] eqn:Hfind; [|done].
  intros [= <- <-]. cbn [UnionFind.parent UnionFind.set_parent].
  destruct (find_val _ _ _ _ _ Hfind) as (Hroot & _ & _ & Hkeep).
  assert (root_in (S limit) (UnionFind.parent u1) x = Some r0) as Hx.
  { apply Hkeep. simpl. by rewrite Hp, decide_False. }
  intros (m1 & Hm1)%(root_in_compress_back _ _ _ _ _ _ _ Hx).
  by apply (IH _ _ _ _ _ _ _ Hfind) in Hm1.
Qed.

Lemma representative_find limit x u r u' z r' :
  UnionFind.find limit x u = (Val r, u') →
  representative u' z r' ↔ representative u z r'.
Proof.
  intros Hfind. split.
  - intros [m Hm]. by eapply find_val_back.
  - intros [m Hm]. exists m.
    destruct (find_val _ _ _ _ _ Hfind) as (_ & _ & _ & Hkeep). by apply Hkeep.
Qed.

Lemma representative_unique u z r r' :
  representative u z r → representative u z r' → r = r'.
Proof. intros [n Hn] [m Hm]. by eapply root_in_det. Qed.

Lemma dict_set_new {K V} `{EqDecision K} (d : Dict.t K V) k v :
  Dict.get d k = None → Dict.set d k v = d ++ [(k, v)].
Proof.
  induction d as [|[k0 v0] d IH]; simpl; [done|].
  destruct (decide (k0 = k)); [done|]. intros H. by rewrite IH.
Qed.

Lemma dict_get_None_keys {K V} `{EqDecision K} (d : Dict.t K V) k :
  Dict.get d k = None ↔ k ∉ Dict.keys d.
Proof.
  unfold Dict.keys. induction d as [|[k0 v0] d IH]; simpl.
  - split; [by intros _ ?%elem_of_nil | done].
  - rewrite not_elem_of_cons. destruct (decide (k0 = k)) as [->|Hne].
    + split; [done | by intros []].
    + rewrite IH. split; [intros ?; split; [done|done] | by intros []].
Qed.

Lemma dict_keys_NoDup_set {K V} `{EqDecision K} (d : Dict.t K V) k v :
  NoDup (Dict.keys d) → NoDup (Dict.keys (Dict.set d k v)).
Proof.
  intros Hnd. destruct (Dict.get d k) as [old|] eqn:Hk.
  - rewrite dict_keys_set; eauto.
  - rewrite dict_set_new by done. unfold Dict.keys in *.
    rewrite fmap_app. apply NoDup_app. split; [done|]. split.
    + intros k' Hk' ->%list_elem_of_singleton. by apply dict_get_None_keys in Hk.
    + apply NoDup_singleton.
Qed.

Lemma find_keys limit x u r u' :
  UnionFind.find limit x u = (r, u') →
  Dict.keys (UnionFind.parent u') = Dict.keys (UnionFind.parent u).
Proof.
  revert x u r u'. induction limit as [|limit IH]; intros x u r u'.
  { by intros [= _ <-]. }
  rewrite find_step.
  destruct (Dict.get (UnionFind.parent u) x) as [p|] eqn:Hp; [|by intros [= _ <-]].
  destruct (decide (p = x)); [by intros [= _ <-]|].
  destruct (UnionFind.find limit p u) as [[r0|e] u1] eqn:Hfind.
  - intros [= _ <-]. cbn [UnionFind.parent UnionFind.set_parent].
    pose proof (IH _ _ _ _ Hfind) as Hk. rewrite dict_keys_set; [done|].
    apply not_eq_None_Some. rewrite dict_get_None_keys, Hk, <- dict_get_None_keys.
    by rewrite Hp.
  - intros [= _ <-]. by eapply IH.
Qed.

(** What [union] does to the parent table. *)
Lemma union_parent limit x y u u' :
  UnionFind.union limit x y u = (Val tt, u') →
  ∃ rx ry u2,
    representative u x rx ∧ representative u y ry ∧
    (∀ z r, representative u2 z r ↔ representative u z r) ∧
    Dict.keys (UnionFind.parent u2) = Dict.keys (UnionFind.parent u) ∧
    ((rx = ry ∧ u' = u2) ∨
     (rx ≠ ry ∧
      (UnionFind.parent u' = Dict.set (UnionFind.parent u2) rx ry ∨
       UnionFind.parent u' = Dict.set (UnionFind.parent u2) ry rx))).
Proof.
  unfold UnionFind.union. intros H.
  apply bind_inv_val in H as (rx & u1 & Hx & H).
  apply bind_inv_val in H as (ry & u2 & Hy & H).
  exists rx, ry, u2.
  assert (∀ z r, representative u2 z r ↔ representative u z r) as Hrep.
  { intros z r. rewrite (representative_find _ _ _ _ _ _ _ Hy).
    apply (representative_find _ _ _ _ _ _ _ Hx). }
  split; [|split; [|split; [done|split]]].
  - exists limit. by apply (find_val _ _ _ _ _ Hx).
  - apply (representative_find _ _ _ _ _ _ _ Hx). exists limit.
    by apply (find_val _ _ _ _ _ Hy).
  - rewrite (find_keys _ _ _ _ _ Hy). by rewrite (find_keys _ _ _ _ _ Hx).
  - case_bool_decide as Heq; [left; split; [done|]; by injection H as <-|].
    right. split; [done|]. revert H. unfold bind, gets, subscript, ret, raise, modify.
    destruct (Dict.get (UnionFind.rank u2) rx) as [rank_x|]; [|done].
    destruct (Dict.get (UnionFind.rank u2) ry) as [rank_y|]; [|done].
    repeat case_bool_decide; cbn.
    + intros [= <-]. by left.
    + intros [= <-]. by right.
    + destruct (Dict.get (UnionFind.rank u2) rx); [|done]. intros [= <-]. by right.
Qed.

(** ** Grouping into a dictionary of lists *)

Lemma dict_values_set_snoc {A} (d : Dict.t Z (list A)) k old e :
  Dict.get d k = Some old →
  concat (Dict.values (Dict.set d k (old ++ [e]))) ≡ₚ concat (Dict.values d) ++ [e].
Proof.
  unfold Dict.values. induction d as [|[k0 v0] d IH]; simpl; [done|].
  destruct (decide (k0 = k)) as [->|Hne].
  - intros [= ->]. csimpl. rewrite <- !app_assoc. f_equiv. apply Permutation_app_comm.
  - intros H. csimpl. rewrite IH by done. by rewrite app_assoc.
Qed.

Lemma group_add_spec d k e :
  NoDup (Dict.keys d) →
  NoDup (Dict.keys (group_add d k e)) ∧
  concat (Dict.values (group_add d k e)) ≡ₚ concat (Dict.values d) ++ [e] ∧
  ∀ k' v', (k', v') ∈ group_add d k e →
    (k' = k ∧ ∃ old, v' = old ++ [e] ∧ (old = [] ∨ (k, old) ∈ d)) ∨ (k', v') ∈ d.
Proof.
  intros Hnd. unfold group_add. destruct (Dict.mem d k) eqn:Hmem.
  - apply dict_mem_get in Hmem as [old Hold]. rewrite Hold. cbn [default].
    split; [by apply dict_keys_NoDup_set|]. split; [by apply dict_values_set_snoc|].
    intros k' v' [[-> ->]|?]%dict_elem_of_set; [|by right].
    left. split; [done|]. exists old. split; [done|]. right. by apply dict_get_elem_of.
  - apply dict_mem_false in Hmem. rewrite dict_get_set_eq, dict_set_set. cbn [default app].
    split; [by apply dict_keys_NoDup_set|]. split.
    + rewrite dict_set_new by done. unfold Dict.values.
      rewrite fmap_app, concat_app. done.
    + intros k' v' [[-> ->]|?]%dict_elem_of_set; [|by right].
      left. split; [done|]. exists []. split; [done | by left].
Qed.

(** ** [get_classes] *)

Lemma get_classes_loop_spec limit elems classes u0 u r u' :
  UnionFind.get_classes_loop limit elems classes u = (Val r, u') →
  (∀ z rz, representative u z rz ↔ representative u0 z rz) →
  NoDup (Dict.keys classes) →
  (∀ root members, (root, members) ∈ classes →
     members ≠ [] ∧ ∀ m, m ∈ members → representative u0 m root) →
  NoDup (Dict.keys r) ∧
  concat (Dict.values r) ≡ₚ concat (Dict.values classes) ++ elems ∧
  (∀ root members, (root, members) ∈ r →
     members ≠ [] ∧ ∀ m, m ∈ members → representative u0 m root) ∧
  (∀ z rz, representative u' z rz ↔ representative u0 z rz) ∧
  Dict.keys (UnionFind.parent u') = Dict.keys (UnionFind.parent u).
Proof.
  revert classes u. induction elems as [|elem rest IH]; intros classes u; simpl.
  { intros [= <- <-] Hrep Hnd Hcl. by rewrite app_nil_r. }
  intros (root & u1 & Hfind & Hrest)%bind_inv_val Hrep Hnd Hcl.
  change (Dict.set _ root _) with (group_add classes root elem) in Hrest.
  destruct (group_add_spec classes root elem Hnd) as (Hnd1 & Hperm1 & Hin1).
  assert (representative u0 elem root) as Helem.
  { apply Hrep. exists limit. by apply (find_val _ _ _ _ _ Hfind). }
  destruct (IH _ _ Hrest) as (Hnd2 & Hperm2 & Hcl2 & Hrep2 & Hkeys2); [|done| |].
  { intros z rz. rewrite (representative_find _ _ _ _ _ _ _ Hfind). apply Hrep. }
  { intros k' v' [(-> & old & -> & Hold)|Hold]%Hin1; [|by apply Hcl].
    split; [by destruct old|]. intros m [Hm| ->%list_elem_of_singleton]%elem_of_app;
      [|done].
    destruct Hold as [->|Hold]; [by apply elem_of_nil in Hm|].
    by apply (Hcl root old). }
  split; [done|]. split; [|split; [done|split; [done|]]].
  - rewrite Hperm2, Hperm1. by rewrite <- app_assoc.
  - rewrite Hkeys2. by eapply find_keys.
Qed.

Lemma get_classes_spec limit u classes u' :
  UnionFind.get_classes limit u = (Val classes, u') →
  NoDup (Dict.keys classes) ∧
  concat (Dict.values classes) ≡ₚ Dict.keys (UnionFind.parent u) ∧
  (∀ root members, (root, members) ∈ classes →
     members ≠ [] ∧ ∀ m, m ∈ members → representative u m root) ∧
  (∀ z rz, representative u' z rz ↔ representative u z rz) ∧
  Dict.keys (UnionFind.parent u') = Dict.keys (UnionFind.parent u).
Proof.
  unfold UnionFind.get_classes. unfold bind at 1, gets at 1. intros Hloop.
  apply (get_classes_loop_spec _ _ _ u) in Hloop; [done|done|constructor|].
  by intros root members ?%elem_of_nil.
Qed.

Lemma union_keys limit x y u u' :
  UnionFind.union limit x y u = (Val tt, u') →
  Dict.keys (UnionFind.parent u') = Dict.keys (UnionFind.parent u).
Proof.
  intros Hunion.
  destruct (union_parent _ _ _ _ _ Hunion) as (rx & ry & u2 & Hx & Hy & Hrep & Hk & Hcase).
  assert (∀ r z, representative u z r → is_Some (Dict.get (UnionFind.parent u2) r)) as Hroot.
  { intros r z [n Hn]%Hrep. exists r. by eapply root_in_root. }
  destruct Hcase as [[_ ->]|[_ [-> | ->]]]; [done|..];
    (rewrite dict_keys_set; [done|]); eauto.
Qed.

Lemma init_keys elements :
  NoDup (Dict.keys (UnionFind.parent (UnionFind.init elements))) ∧
  ∀ x, x ∈ Dict.keys (UnionFind.parent (UnionFind.init elements)) ↔ x ∈ elements.
Proof.
  split.
  - unfold UnionFind.init. cbn [UnionFind.parent].
    assert (∀ d0 : Dict.t Z Z, NoDup (Dict.keys d0) →
              NoDup (Dict.keys (foldl (λ d elem, Dict.set d elem elem) d0 elements)))
      as H; [|apply H; constructor].
    induction elements as [|e l IH]; intros d0 Hd0; simpl; [done|].
    by apply IH, dict_keys_NoDup_set.
  - intros x. destruct (decide (x ∈ elements)) as [Hx|Hx].
    + split; [done|]. intros _.
      destruct (decide (x ∈ Dict.keys (UnionFind.parent (UnionFind.init elements))))
        as [|Hn]; [done|].
      apply dict_get_None_keys in Hn. rewrite init_parent_get in Hn.
      by rewrite decide_True in Hn.
    + split; [|done]. intros Hk. exfalso. revert Hk.
      apply dict_get_None_keys. rewrite init_parent_get. by rewrite decide_False.
Qed.

(** ** The detector's pair checks *)

Section detector_facts.
Context (oracle : sat_oracle) (limit : nat).

Lemma same_set_keys x y u r u' :
  UnionFind.same_set limit x y u = (r, u') →
  Dict.keys (UnionFind.parent u') = Dict.keys (UnionFind.parent u).
Proof.
  unfold UnionFind.same_set, bind.
  destruct (UnionFind.find limit x u) as [[rx|e] u1] eqn:Hx; cycle 1.
  { intros [= _ <-]. by eapply find_keys. }
  destruct (UnionFind.find limit y u1) as [[ry|e] u2] eqn:Hy; intros [= _ <-].
  all: rewrite (find_keys _ _ _ _ _ Hy); by eapply find_keys.
Qed.

Lemma check_pair_step v1 v2 f :
  let r := check_pair oracle limit v1 v2 f in
  counter (self f) ≤ counter (self r.2) ≤ counter (self f) + 1 ∧
  (r.1 = Val tt →
   Dict.keys (UnionFind.parent (uf r.2)) = Dict.keys (UnionFind.parent (uf f))).
Proof.
  intros r. subst r.
  pose proof (check_pair_outcome oracle limit v1 v2 f) as H. cbv zeta in H.
  destruct (UnionFind.same_set limit v1 v2 (uf f)) as [[[]|e] u] eqn:Hsame.
  - rewrite H. cbn. split; [lia|]. intros _. by eapply same_set_keys.
  - destruct (oracle _ _) as [m|c]; rewrite H.
    + cbn. split; [lia|]. intros _. by eapply same_set_keys.
    + destruct (UnionFind.union limit v1 v2 u) as [[[]|e] u'] eqn:Hunion; cbn.
      * split; [lia|]. intros _. rewrite (union_keys _ _ _ _ _ Hunion).
        by eapply same_set_keys.
      * split; [lia|done].
  - rewrite H. cbn. split; [lia|done].
Qed.

Lemma for_each_check_pair pairs f :
  let r := for_each pairs (λ p, check_pair oracle limit p.1 p.2) f in
  counter (self f) ≤ counter (self r.2) ≤ counter (self f) + Z.of_nat (length pairs) ∧
  (r.1 = Val tt →
   Dict.keys (UnionFind.parent (uf r.2)) = Dict.keys (UnionFind.parent (uf f))).
Proof.
  revert f. induction pairs as [|p pairs IH]; intros f; cbn [for_each length].
  { cbn. split; [lia|done]. }
  unfold bind.
  destruct (check_pair_step p.1 p.2 f) as [Hc Hk].
  destruct (check_pair oracle limit p.1 p.2 f) as [[[]|e] f1]; cbn [fst snd] in *.
  - destruct (IH f1) as [Hc' Hk']. split; [lia|]. intros Hval.
    rewrite Hk' by done. by apply Hk.
  - split; [lia|done].
Qed.
End detector_facts.

Lemma ordered_pairs_length group :
  (2 * length (ordered_pairs group) + length group = length group * length group)%nat.
Proof.
  induction group as [|x rest IH]; [done|]. cbn [ordered_pairs length].
  rewrite length_app, length_fmap. lia.
Qed.

Lemma concat_ordered_pairs_length (groups : list (list Z)) :
  (2 * length (concat (ordered_pairs <$> groups)) + length (concat groups)
   ≤ length (concat groups) * length (concat groups))%nat.
Proof.
  induction groups as [|g groups IH]; [done|]. cbn [fmap list_fmap concat].
  rewrite !length_app. pose proof (ordered_pairs_length g). nia.
Qed.

Lemma group_by_dep_count_perm s :
  concat (Dict.values (group_by_dep_count s)) ≡ₚ existential_var_ids s.
Proof.
  unfold group_by_dep_count.
  assert (∀ ids (d : Dict.t Z (list Z)), NoDup (Dict.keys d) →
            concat (Dict.values
              (foldl (λ by_dep_count exist_id,
                        group_add by_dep_count
                          (Z.of_nat (length (default [] (dependencies_by_id_list s !! exist_id))))
                          exist_id) d ids))
            ≡ₚ concat (Dict.values d) ++ ids) as H.
  { induction ids as [|e ids IH]; intros d Hd; simpl; [by rewrite app_nil_r|].
    destruct (group_add_spec d
                (Z.of_nat (length (default [] (dependencies_by_id_list s !! e)))) e Hd)
      as (Hnd & Hperm & _).
    rewrite IH by done. rewrite Hperm. by rewrite <- app_assoc. }
  apply (H _ Dict.empty). constructor.
Qed.

Lemma candidate_pairs_length s :
  (2 * length (candidate_pairs s) + length (existential_var_ids s)
   ≤ length (existential_var_ids s) * length (existential_var_ids s))%nat.
Proof.
  unfold candidate_pairs.
  pose proof (concat_ordered_pairs_length (sorted_items (group_by_dep_count s)).*2) as H.
  rewrite <- list_fmap_compose in H.
  assert (length (concat (sorted_items (group_by_dep_count s)).*2) =
          length (existential_var_ids s)) as Hlen.
  { rewrite <- (group_by_dep_count_perm s). unfold Dict.values.
    by rewrite (sorted_items_perm (group_by_dep_count s)). }
  rewrite Hlen in H. exact H.
Qed.

Lemma get_classes_contains_key limit u classes u' root members :
  UnionFind.get_classes limit u = (Val classes, u') →
  (root, members) ∈ classes → root ∈ members.
Proof.
  intros Hrun Hin.
  destruct (get_classes_spec _ _ _ _ Hrun) as (Hnd & Hperm & Hcl & _).
  destruct (Hcl _ _ Hin) as [Hne Hrep].
  destruct members as [|m0 rest] eqn:Hm; [done|]. rewrite <- Hm in *.
  destruct (Hrep m0) as [n Hn]; [rewrite Hm; by left|].
  apply root_in_root in Hn.
  assert (root ∈ concat (Dict.values classes)) as Hroot.
  { rewrite Hperm. destruct (decide (root ∈ Dict.keys (UnionFind.parent u))); [done|].
    apply dict_get_None_keys in n0. congruence. }
  apply elem_of_concat in Hroot as (l & Hl & Hrl).
  apply list_elem_of_fmap in Hl as ([root' members'] & -> & Hin').
  cbn in Hrl. destruct (Hcl _ _ Hin') as [_ Hrep'].
  assert (root' = root) as ->.
  { apply (representative_unique u root); [by apply Hrep'|].
    exists 1%nat. by apply root_in_self. }
  assert ((root, members') = (root, members)) as [= <-]; [|done].
  by apply (NoDup_fmap_eq fst classes).
Qed.

(** ** The constructor *)




(** The loop over new existentials: consecutive triples of ids. *)
Lemma for_each_init_model_fresh ids s s' :
  NoDup ids →
  (∀ e, e ∈ ids → e ∈ existential_var_ids s ∧ Dict.get (value_vars s) e = None) →
  for_each ids init_model s = (Val tt, s') →
  counter s' = counter s + 3 * Z.of_nat (length ids) ∧
  same_formula s s' ∧ same_expansion_side s s' ∧
  permanent_assumptions s' = permanent_assumptions s ∧
  length (Sat.clauses (counterexample_solver s')) =
    (length (Sat.clauses (counterexample_solver s)) + 3 * length ids)%nat ∧
  (∀ cl, cl ∈ Sat.clauses (counterexample_solver s) →
         cl ∈ Sat.clauses (counterexample_solver s')) ∧
  (∀ e, e ∉ ids →
     Dict.get (value_vars s') e = Dict.get (value_vars s) e ∧
     Dict.get (no_rule_fired_vars s') e = Dict.get (no_rule_fired_vars s) e ∧
     Dict.get (rule_fire_vars s') e = Dict.get (rule_fire_vars s) e) ∧
  (∀ (i : nat) e, ids !! i = Some e →
     Dict.get (value_vars s') e = Some (counter s + 3 * Z.of_nat i + 1) ∧
     Dict.get (no_rule_fired_vars s') e = Some (counter s + 3 * Z.of_nat i + 2) ∧
     Dict.get (rule_fire_vars s') e = Some (counter s + 3 * Z.of_nat i + 3) ∧
     ∀ cl, cl ∈ init_clauses e (counter s + 3 * Z.of_nat i) →
           cl ∈ Sat.clauses (counterexample_solver s')).
Proof.
  revert s. induction ids as [|e ids IH]; intros s Hnd Hnew; simpl.
  { intros [= <-]. split; [lia|]. split; [apply same_formula_refl|].
    split; [done|]. split; [done|]. split; [lia|]. split; [done|]. split; [done|].
    by intros i e. }
  apply NoDup_cons in Hnd as [He Hnd].
  destruct (Hnew e) as [Hin Hv]; [by left|].
  destruct (init_model_fresh e s Hin Hv)
    as (s1 & Hrun1 & Hf1 & Hx1 & Hc1 & Hvv1 & Hnrf1 & Hrf1 & Hpa1 & Hev1 & _).
  rewrite (bind_val _ _ _ _ _ Hrun1). intros Hrest.
  assert (Sat.clauses (counterexample_solver s1) =
          Sat.clauses (counterexample_solver s) ++ init_clauses e (counter s)) as Hcl1.
  { unfold Sat.clauses. by rewrite Hev1, omap_app. }
  destruct (IH s1 Hnd) as (Hc & Hf & Hx & Hpa & Hlen & Hsub & Hout & Hidx); [|done|].
  { intros e' He'. destruct (Hnew e') as [Hin' Hv']; [by right|].
    destruct Hf1 as (_&_&_&_&_&_&_&Hi&_). rewrite Hi. split; [done|].
    rewrite Hvv1, dict_get_set_ne; [done|]. by intros ->. }
  split; [rewrite Hc, Hc1; cbn [length]; lia|].
  split; [by eapply same_formula_trans|]. split.
  { destruct Hx1 as (?&?&?&?&?&?), Hx as (?&?&?&?&?&?). repeat split; congruence. }
  split; [congruence|]. split.
  { rewrite Hlen, Hcl1, length_app. cbn. lia. }
  split; [intros cl Hcl; apply Hsub; rewrite Hcl1, elem_of_app; by left|]. split.
  { intros e' [Hne Hnot]%not_elem_of_cons. destruct (Hout e' Hnot) as (-> & -> & ->).
    by rewrite Hvv1, Hnrf1, Hrf1, !dict_get_set_ne. }
  intros [|i] e'; cbn [lookup list_lookup].
  - intros [= <-]. destruct (Hout e He) as (-> & -> & ->).
    rewrite Hvv1, Hnrf1, Hrf1, !dict_get_set_eq.
    replace (counter s + 3 * Z.of_nat 0) with (counter s) by lia.
    do 3 (split; [f_equal; lia|]).
    intros cl Hcl. apply Hsub. rewrite Hcl1, elem_of_app. by right.
  - intros Hi. destruct (Hidx i e' Hi) as (Hv' & Hn' & Hr' & Hcls).
    rewrite Hc1 in Hv', Hn', Hr', Hcls.
    replace (counter s + 3 * Z.of_nat (S i)) with (counter s + 3 + 3 * Z.of_nat i) by lia.
    done.
Qed.

Lemma sat_clauses_bootstrap m : Sat.clauses (Sat.bootstrap_with m) = m.
Proof.
  unfold Sat.clauses, Sat.bootstrap_with. rewrite foldl_add_clause_events. cbn.
  induction m as [|c m IH]; [done|]. csimpl. by rewrite IH.
Qed.

(** * Soundness of the answers of [solve] *)

(** ** Literals *)

Lemma lit_of_abs b v : Z.abs (lit_of b v) = Z.abs v.
Proof. destruct b; cbn; lia. Qed.

Lemma consistent_no_zero M : consistent M → 0 ∉ M.
Proof. intros HM H0. by apply (HM 0). Qed.

(** Literals over fresh variables keep a model consistent. *)
Lemma consistent_app_fresh M N c :
  0 ≤ c → consistent M → (∀ l, l ∈ M → Z.abs l ≤ c) →
  NoDup (Z.abs <$> N) → (∀ l, l ∈ N → c < Z.abs l) →
  consistent (M ++ N).
Proof.
  intros Hc HM Hb Hnd Hfresh l. rewrite !elem_of_app.
  intros [Hl|Hl] [Hn|Hn].
  - by apply (HM l).
  - specialize (Hb _ Hl). specialize (Hfresh _ Hn). lia.
  - specialize (Hb _ Hn). specialize (Hfresh _ Hl). lia.
  - assert (l = - l) as Heq.
    { apply (NoDup_fmap_eq Z.abs N); [done..|]. lia. }
    specialize (Hfresh _ Hl). lia.
Qed.

(** A set of literals that assigns [v] holds the literal it does not
    refute. *)
Lemma decided_literal (M : list Z) v l :
  v ∈ M ∨ - v ∈ M → Z.abs l = v → l ∉ M → - l ∈ M.
Proof.
  intros [Hv|Hv] Habs Hl.
  - destruct (decide (l = v)) as [->|Hne]; [done|].
    by replace (- l) with v by lia.
  - destruct (decide (l = - v)) as [->|Hne]; [done|].
    replace l with v in * by lia. done.
Qed.

Lemma base_model_same_formula s s' c0 M0 :
  same_formula s s' → base_model s c0 M0 → base_model s' c0 M0.
Proof.
  intros (_&_&Hm&_&_&_&Hu&He&_). unfold base_model. by rewrite Hm, Hu, He.
Qed.

(** ** The decision lists are a conservative extension of the matrix *)

Lemma fresh_rule_ext c0 s s' e univ cur prev fire :
  let a := restrict_to_deps s e univ in
  let c := counter s in
  0 ≤ c → c0 ≤ c → e ∈ existential_var_ids s → total_assignment s univ →
  expansion_vars s !! (e, sorted_by_abs a) = None →
  Dict.get (value_vars s) e = Some cur →
  Dict.get (no_rule_fired_vars s) e = Some prev →
  Dict.get (rule_fire_vars s) e = Some fire →
  same_formula s s' →
  expansion_vars s' = <[(e, sorted_by_abs a) := c + 1]> (expansion_vars s) →
  counter s' = c + 4 →
  rule_fire_vars s' = Dict.set (rule_fire_vars s) e (c + 2) →
  no_rule_fired_vars s' = Dict.set (no_rule_fired_vars s) e (c + 3) →
  value_vars s' = Dict.set (value_vars s) e (c + 4) →
  events (counterexample_solver s') =
    events (counterexample_solver s) ++
    (AddClause <$> rule_clauses e a (Some (c + 1)) fire prev (Z.abs cur) (c + 1)) →
  extension_inv c0 s → extension_inv c0 s'.
Proof.
  intros a c Hc Hc0 He Htot Hfresh Hcur Hprev Hfire Hform Hev Hcnt Hrf Hnrf Hvv Hevents
         Hext.
  intros M0 fv' vt' kt' Hbase' Hi Hii.
  pose proof Hform as (_&_&Hf3&_&_&_&Hf7&Hf8&_).
  assert (base_model s c0 M0) as Hbase.
  { unfold base_model in *. by rewrite Hf3, Hf7, Hf8 in Hbase'. }
  pose proof Hbase as (HM0 & Hbound0 & Hmat & Hdecu & Hdece).
  set (k := sorted_by_abs a) in *.
  set (holds := bool_decide (Forall (λ l, l ∈ M0) a)).
  assert (holds = true ↔ ∀ l, l ∈ k → l ∈ M0) as Hholds.
  { subst holds k. rewrite bool_decide_eq_true, Forall_forall.
    split; intros H l Hl; apply H; [by rewrite sorted_by_abs_perm in Hl|
                                    by rewrite sorted_by_abs_perm]. }
  assert (∀ e0, e0 ≠ e → fired s' e0 M0 ↔ fired s e0 M0) as Hfo.
  { intros e0 Hne. unfold fired.
    split; intros (k0 & x0 & Hk0 & Hin); exists k0, x0; (split; [|done]).
    - rewrite Hev, lookup_insert_ne in Hk0; [done|]. intros [= ? _]. congruence.
    - rewrite Hev, lookup_insert_ne; [done|]. intros [= ? _]. congruence. }
  assert (fired s' e M0 ↔ fired s e M0 ∨ holds = true) as Hfe.
  { unfold fired. split.
    - intros (k0 & x0 & Hk0 & Hin). rewrite Hev, lookup_insert in Hk0.
      case_decide as Hkey.
      + right. apply Hholds. by injection Hkey as <-.
      + left. eauto.
    - intros [(k0 & x0 & Hk0 & Hin)|Hh].
      + exists k0, x0. split; [|done]. rewrite Hev, lookup_insert_ne; [done|].
        intros [= <-]. congruence.
      + exists k, (c + 1). split; [by rewrite Hev, lookup_insert_eq | by apply Hholds]. }
  set (fv := λ e0, if decide (e0 = e) then holds else fv' e0).
  set (vt := λ e0, if decide (e0 = e) then kt' e k else vt' e0).
  assert (fv e = holds) as Hfve by (subst fv; cbn; by rewrite decide_True).
  assert (vt e = kt' e k) as Hvte by (subst vt; cbn; by rewrite decide_True).
  destruct (Hext M0 fv vt kt') as (M & HM & Hbound & Hsub & Hsat & HfM & HvM & HnM & HrM).
  { done. }
  { intros e0 He0 Hfv Hnf. subst fv vt. cbn in *. destruct (decide (e0 = e)) as [->|Hne].
    - apply (Hii e k (c + 1)); [by rewrite Hf8|by rewrite Hev, lookup_insert_eq|].
      by apply Hholds.
    - apply Hi; [by rewrite Hf8|done|]. by rewrite Hfo. }
  { intros e0 k0 x0 He0 Hk0 Hin. apply (Hii e0 k0 x0); [by rewrite Hf8| |done].
    rewrite Hev, lookup_insert_ne; [done|]. intros [= <- <-]. congruence. }
  destruct (HnM e prev Hprev) as (b & Hb & Hbf & Hbt).
  set (nb := b && negb holds).
  pose proof (HfM e fire Hfire) as HfireM. rewrite Hfve in HfireM.
  pose proof (HvM e cur Hcur) as HcurM. rewrite Hvte in HcurM.
  set (N := [lit_of (kt' e k) (c + 1); lit_of (fv' e) (c + 2); lit_of nb (c + 3);
             lit_of (vt' e) (c + 4)]).
  assert (∀ l, l ∈ M → l ∈ M ++ N) as HinM by (intros; apply elem_of_app; by left).
  assert (∀ l, l ∈ N → l ∈ M ++ N) as HinN by (intros; apply elem_of_app; by right).
  assert (nb = true → ¬ fired s' e M0) as Hnb.
  { intros [Hb1 Hh1%negb_true_iff]%andb_prop [Hf|Hh]%Hfe.
    - specialize (Hbf Hf). congruence.
    - congruence. }
  exists (M ++ N).
  split; [|split; [|split; [|split; [|split; [|split; [|split]]]]]].
  - apply (consistent_app_fresh M N c); [done..| |].
    + subst N. cbn. rewrite !lit_of_abs, !Z.abs_eq by lia.
      rewrite !NoDup_cons, !not_elem_of_cons.
      repeat split; try lia; try apply not_elem_of_nil. apply NoDup_nil_2.
    + intros l Hl. subst N. list_cases Hl; rewrite lit_of_abs; lia.
  - rewrite Hcnt. intros l [Hl|Hl]%elem_of_app; [specialize (Hbound l Hl); lia|].
    subst N. list_cases Hl; rewrite lit_of_abs; lia.
  - intros l Hl. apply HinM, Hsub, Hl.
  - intros cl. rewrite Hevents, elem_of_app. intros [Hold|Hnew].
    { destruct (Hsat cl Hold) as (l & Hl & HlM). exists l. auto. }
    apply list_elem_of_fmap in Hnew as (cl' & [= <-] & Hcl).
    unfold rule_clauses in Hcl.
    replace (c + 1 + 1) with (c + 2) in Hcl by lia.
    replace (c + 1 + 2) with (c + 3) in Hcl by lia.
    replace (c + 1 + 3) with (c + 4) in Hcl by lia.
    rewrite !elem_of_app in Hcl. destruct Hcl as [Hcl|[Hcl|Hcl]].
    + apply list_elem_of_fmap in Hcl as (lit & -> & Hlit).
      destruct holds eqn:Hh.
      * exists lit. split; [in_list|]. apply HinM, Hsub, Hholds; [done|].
        subst k. by rewrite sorted_by_abs_perm.
      * exists (- fire). split; [in_list|]. by apply HinM.
    + list_cases Hcl.
      * destruct holds eqn:Hh.
        -- exists fire. split; [in_list|]. by apply HinM.
        -- assert (Exists (λ l, l ∉ M0) a) as (l & Hl & HlM0)%Exists_exists.
           { apply not_Forall_Exists; [apply _|].
             by apply bool_decide_eq_false in Hh. }
           exists (- l). split.
           { rewrite elem_of_app. left. by apply list_elem_of_fmap_2. }
           apply HinM, Hsub. apply (decided_literal M0 (Z.abs l)); [|done|done].
           apply Hdecu. destruct Htot as (_ & Hin & _). apply Hin.
           by apply restrict_to_deps_elem in Hl as [_ ?].
      * destruct nb eqn:Hn.
        -- apply andb_prop in Hn as [-> _]. exists prev. split; [in_list|]. by apply HinM.
        -- exists (- (c + 3)). split; [in_list|]. apply HinN. subst N. in_list.
      * destruct nb eqn:Hn.
        -- apply andb_prop in Hn as [_ Hh%negb_true_iff]. rewrite Hh in HfireM.
           exists (- fire). split; [in_list|]. by apply HinM.
        -- exists (- (c + 3)). split; [in_list|]. apply HinN. subst N. in_list.
      * destruct nb eqn:Hn.
        -- exists (c + 3). split; [in_list|]. apply HinN. subst N. in_list.
        -- apply andb_false_iff in Hn as [->|Hh%negb_false_iff].
           ++ exists (- prev). split; [in_list|]. by apply HinM.
           ++ rewrite Hh in HfireM. exists fire. split; [in_list|]. by apply HinM.
      * destruct (fv' e) eqn:Hfv'; cycle 1.
        { exists (- (c + 2)). split; [in_list|]. apply HinN. subst N. in_list. }
        destruct nb eqn:Hn; cycle 1.
        { exists (- (c + 3)). split; [in_list|]. apply HinN. subst N. in_list. }
        pose proof (Hi e (eq_ind_r (λ l, e ∈ l) He Hf8) Hfv' (Hnb eq_refl)) as Hval.
        destruct (vt' e) eqn:Hvt'.
        -- exists (c + 4). split; [in_list|]. apply HinN. subst N. in_list.
        -- exists (- e). split; [in_list|]. apply HinM, Hsub.
           destruct (Hdece e He) as [HeM|HeM]; [|done].
           apply Hval in HeM. done.
      * destruct (fv' e) eqn:Hfv'; cycle 1.
        { exists (- (c + 2)). split; [in_list|]. apply HinN. subst N. in_list. }
        destruct nb eqn:Hn; cycle 1.
        { exists (- (c + 3)). split; [in_list|]. apply HinN. subst N. in_list. }
        pose proof (Hi e (eq_ind_r (λ l, e ∈ l) He Hf8) Hfv' (Hnb eq_refl)) as Hval.
        destruct (vt' e) eqn:Hvt'.
        -- exists e. split; [in_list|]. apply HinM, Hsub. by apply Hval.
        -- exists (- (c + 4)). split; [in_list|]. apply HinN. subst N. in_list.
    + list_cases Hcl.
      * destruct (kt' e k) eqn:Hkt.
        -- exists (c + 1). split; [in_list|]. apply HinN. subst N. in_list.
        -- exists (- Z.abs cur). split; [in_list|]. by apply HinM.
      * destruct (kt' e k) eqn:Hkt.
        -- exists (Z.abs cur). split; [in_list|]. by apply HinM.
        -- exists (- (c + 1)). split; [in_list|]. apply HinN. subst N. in_list.
  - intros e0 f. rewrite Hrf, dict_get_set. destruct (decide (e = e0)) as [<-|Hne].
    + intros [= <-]. apply HinN. subst N. in_list.
    + intros Hf0. apply HinM. specialize (HfM e0 f Hf0). subst fv. cbn in HfM.
      by rewrite decide_False in HfM by done.
  - intros e0 v. rewrite Hvv, dict_get_set. destruct (decide (e = e0)) as [<-|Hne].
    + intros [= <-]. rewrite Z.abs_eq by lia. apply HinN. subst N. in_list.
    + intros Hv0. apply HinM. specialize (HvM e0 v Hv0). subst vt. cbn in HvM.
      by rewrite decide_False in HvM by done.
  - intros e0 n. rewrite Hnrf, dict_get_set. destruct (decide (e = e0)) as [<-|Hne].
    + intros [= <-]. exists nb. split; [apply HinN; subst N; in_list|]. split.
      * intros [Hf|Hh]%Hfe; subst nb; [by rewrite (Hbf Hf)|].
        rewrite Hh. apply andb_false_r.
      * intros Hnf. subst nb. rewrite Hbt; cycle 1.
        { intros Hf. apply Hnf, Hfe. by left. }
        destruct holds eqn:Hh; [|done]. destruct Hnf. apply Hfe. by right.
    + intros Hn0. destruct (HnM e0 n Hn0) as (b0 & Hb0 & Hb0f & Hb0t).
      exists b0. split; [by apply HinM|]. rewrite Hfo by done. done.
  - intros e0 k0 x0. rewrite Hev, lookup_insert. case_decide as Hkey.
    + intros [= <-]. injection Hkey as <- <-. apply HinN. subst N. in_list.
    + intros Hx0. apply HinM. by eapply HrM.
Qed.

Lemma init_model_ext c0 e s s' :
  0 ≤ counter s → c0 ≤ counter s → expansion_vars s = ∅ →
  extension_inv c0 s → init_model e s = (Val tt, s') →
  0 ≤ counter s' ∧ c0 ≤ counter s' ∧ expansion_vars s' = ∅ ∧ extension_inv c0 s'.
Proof.
  intros Hc Hc0 Hempty Hext Hrun.
  destruct (decide (e ∈ existential_var_ids s)) as [He|He]; cycle 1.
  { by rewrite init_model_not_existential in Hrun. }
  destruct (Dict.get (value_vars s) e) as [v|] eqn:Hv.
  { rewrite init_model_again in Hrun by eauto. by simplify_eq. }
  destruct (init_model_fresh e s He Hv)
    as (s1 & Hrun1 & Hform & Hexp & Hcnt & Hvv & Hnrf & Hrf & _ & Hevents & _).
  rewrite Hrun1 in Hrun. injection Hrun as <-.
  destruct Hexp as (Hev1 & _).
  split; [lia|]. split; [lia|]. split; [by rewrite Hev1|].
  intros M0 fv vt kt Hbase' Hi Hii.
  pose proof Hform as (_&_&Hf3&_&_&_&Hf7&Hf8&_).
  assert (base_model s c0 M0) as Hbase.
  { unfold base_model in *. by rewrite Hf3, Hf7, Hf8 in Hbase'. }
  pose proof Hbase as (HM0 & Hbound0 & Hmat & Hdecu & Hdece).
  assert (∀ e0, ¬ fired s e0 M0) as Hnf.
  { intros e0 (k0 & x0 & Hk0 & _). by rewrite Hempty, lookup_empty in Hk0. }
  assert (∀ e0, ¬ fired s1 e0 M0) as Hnf1.
  { intros e0 (k0 & x0 & Hk0 & _). by rewrite Hev1, Hempty, lookup_empty in Hk0. }
  destruct (Hext M0 fv vt kt) as (M & HM & Hbound & Hsub & Hsat & HfM & HvM & HnM & HrM).
  { done. }
  { intros e0 He0 Hfv _. apply Hi; [by rewrite Hf8|done|apply Hnf1]. }
  { intros e0 k0 x0 _ Hk0. by rewrite Hempty, lookup_empty in Hk0. }
  set (c := counter s) in *.
  set (N := [lit_of (vt e) (c + 1); c + 2; lit_of (fv e) (c + 3)]).
  assert (∀ l, l ∈ M → l ∈ M ++ N) as HinM by (intros; apply elem_of_app; by left).
  assert (∀ l, l ∈ N → l ∈ M ++ N) as HinN by (intros; apply elem_of_app; by right).
  exists (M ++ N).
  split; [|split; [|split; [|split; [|split; [|split; [|split]]]]]].
  - apply (consistent_app_fresh M N c); [done..| |].
    + subst N. cbn. rewrite !lit_of_abs, !Z.abs_eq by lia.
      rewrite !NoDup_cons, !not_elem_of_cons.
      repeat split; try lia; try apply not_elem_of_nil. apply NoDup_nil_2.
    + intros l Hl. subst N. list_cases Hl; rewrite ?lit_of_abs; lia.
  - rewrite Hcnt. intros l [Hl|Hl]%elem_of_app; [specialize (Hbound l Hl); lia|].
    subst N. list_cases Hl; rewrite ?lit_of_abs; lia.
  - intros l Hl. apply HinM, Hsub, Hl.
  - intros cl. rewrite Hevents, elem_of_app. intros [Hold|Hnew].
    { destruct (Hsat cl Hold) as (l & Hl & HlM). exists l. auto. }
    apply list_elem_of_fmap in Hnew as (cl' & [= <-] & Hcl).
    unfold init_clauses in Hcl. fold c in Hcl. list_cases Hcl.
    + exists (c + 2). split; [in_list|]. apply HinN. subst N. in_list.
    + destruct (fv e) eqn:Hfv; cycle 1.
      { exists (- (c + 3)). split; [in_list|]. apply HinN. subst N. in_list. }
      pose proof (Hi e (eq_ind_r (λ l, e ∈ l) He Hf8) Hfv (Hnf1 e)) as Hval.
      destruct (vt e) eqn:Hvt.
      * exists (c + 1). split; [in_list|]. apply HinN. subst N. in_list.
      * exists (- e). split; [in_list|]. apply HinM, Hsub.
        destruct (Hdece e He) as [HeM|HeM]; [|done]. by apply Hval in HeM.
    + destruct (fv e) eqn:Hfv; cycle 1.
      { exists (- (c + 3)). split; [in_list|]. apply HinN. subst N. in_list. }
      pose proof (Hi e (eq_ind_r (λ l, e ∈ l) He Hf8) Hfv (Hnf1 e)) as Hval.
      destruct (vt e) eqn:Hvt.
      * exists e. split; [in_list|]. apply HinM, Hsub. by apply Hval.
      * exists (- (c + 1)). split; [in_list|]. apply HinN. subst N. in_list.
  - intros e0 f. rewrite Hrf, dict_get_set. destruct (decide (e = e0)) as [<-|Hne].
    + intros [= <-]. apply HinN. subst N. in_list.
    + intros Hf0. by apply HinM, HfM.
  - intros e0 v. rewrite Hvv, dict_get_set. destruct (decide (e = e0)) as [<-|Hne].
    + intros [= <-]. rewrite Z.abs_eq by lia. apply HinN. subst N. in_list.
    + intros Hv0. by apply HinM, HvM.
  - intros e0 n. rewrite Hnrf, dict_get_set. destruct (decide (e = e0)) as [<-|Hne].
    + intros [= <-]. exists true. split; [apply HinN; subst N; in_list|].
      split; [|done]. intros Hf. by destruct (Hnf1 e).
    + intros Hn0. destruct (HnM e0 n Hn0) as (b0 & Hb0 & _ & Hb0t).
      exists b0. split; [by apply HinM|]. split; [|auto].
      intros Hf. by destruct (Hnf1 e0).
  - intros e0 k0 x0. by rewrite Hev1, Hempty, lookup_empty.
Qed.

Lemma for_each_init_model_ext c0 ids s r s' :
  0 ≤ counter s → c0 ≤ counter s → expansion_vars s = ∅ → extension_inv c0 s →
  for_each ids init_model s = (Val r, s') →
  c0 ≤ counter s' ∧ extension_inv c0 s'.
Proof.
  revert s. induction ids as [|e ids IH]; intros s Hc Hc0 Hempty Hext; simpl.
  - by intros [= _ <-].
  - intros ([] & s1 & Hrun1 & Hrest)%bind_inv_val.
    destruct (init_model_ext c0 e s s1) as (? & ? & ? & ?); [done..|]. by eapply IH.
Qed.

(** Before the constructor's loop the counterexample solver holds the
    matrix and nothing else. *)
Lemma extension_inv_start n2i i2n deps mat univs g c0 order uids eids by_id by_list :
  extension_inv c0
    (mkSolver n2i i2n deps mat univs g c0 order uids eids by_id by_list Dict.empty
       Dict.empty Dict.empty [] [] [] [] ∅ ∅ [] Sat.new (Sat.bootstrap_with mat)
       None None).
Proof.
  intros M0 fv vt kt (HM0 & Hb & Hmat & _) _ _. exists M0. cbn.
  split; [done|]. split; [done|]. split; [done|]. split.
  { intros c Hc. apply Hmat. apply elem_of_sat_clauses in Hc.
    by rewrite sat_clauses_bootstrap in Hc. }
  split; [done|]. split; [done|]. split; [done|].
  intros e k x. by rewrite lookup_empty.
Qed.

Lemma set_default_ext c0 s e (v : bool) cur :
  Dict.get (value_vars s) e = Some cur → extension_inv c0 s →
  extension_inv c0
    (set_value_vars (Dict.set (value_vars s) e (if v then cur else - cur)) s).
Proof.
  intros Hcur Hext M0 fv vt kt Hbase Hi Hii.
  destruct (Hext M0 fv vt kt Hbase Hi Hii)
    as (M & HM & Hbound & Hsub & Hsat & HfM & HvM & HnM & HrM).
  exists M. do 5 (split; [done|]). split; [|by split].
  intros e0 v0. cbn. rewrite dict_get_set.
  destruct (decide (e = e0)) as [<-|Hne]; [|apply HvM].
  intros [= <-].
  replace (Z.abs (if v then cur else - cur)) with (Z.abs cur) by (destruct v; lia).
  by apply HvM.
Qed.

Lemma registry_fresh_insert s s' key :
  registry_fresh s → expansion_vars s !! key = None →
  expansion_vars s' = <[key := counter s + 1]> (expansion_vars s) →
  expansion_vars_set s' = {[counter s + 1]} ∪ expansion_vars_set s →
  counter s + 1 ≤ counter s' →
  registry_fresh s'.
Proof.
  intros Hreg Hnone Hev Hset Hc k y. rewrite Hev, Hset, lookup_insert.
  case_decide as Hk.
  - intros [= <-]. subst k. split; [lia|].
    split; [apply elem_of_union_l; by apply elem_of_singleton|].
    intros k'. rewrite lookup_insert. case_decide; [done|].
    intros Hk'. destruct (Hreg _ _ Hk') as [Hle _]. lia.
  - intros Hy. destruct (Hreg _ _ Hy) as (Hle & Hin' & Hinj).
    split; [lia|]. split; [by apply elem_of_union_r|].
    intros k'. rewrite lookup_insert. case_decide; [intros [= <-]; lia | apply Hinj].
Qed.

Section soundness_steps.
Context (py_int : string → option Z).

Lemma intern_step_ext c0 s e univ x s1 :
  solver_inv s → refine_inv c0 s → e ∈ existential_var_ids s →
  total_assignment s univ →
  get_expansion_variable py_int e (restrict_to_deps s e univ) s = (Val x, s1) →
  refine_inv c0 s1.
Proof.
  intros Hinv (Hc0 & Hext & Hreg & Hpa & Hndf & Hndv & Hset) He Htot Hrun.
  destruct (expansion_vars s !! key_of s e univ) as [x'|] eqn:Hx.
  { rewrite (get_expansion_variable_known _ _ _ _ x') in Hrun;
      [|done|apply restrict_to_deps_inside|done].
    injection Hrun as <- <-. repeat (split; [done|]). done. }
  pose proof Hinv as (Hc & Hinit & _).
  destruct (Hinit e He) as ([cur Hcur] & [prev Hprev] & [fire Hfire]).
  destruct (get_expansion_variable_fresh py_int e (restrict_to_deps s e univ) s
              cur prev fire)
    as (s1' & Hrun' & Hform & Hev & Hsetx & Hea & Hes & _ & _ & Hcnt & Hrf & Hnrf & Hvv
        & Hpa' & Hevents & _);
    [done | apply restrict_to_deps_inside | done..|].
  rewrite Hrun in Hrun'. injection Hrun' as -> <-.
  split; [lia|]. split.
  { eapply (fresh_rule_ext c0 s s1 e univ cur prev fire); eauto. }
  split.
  { apply (registry_fresh_insert s s1 (key_of s e univ)); [done..|lia]. }
  split; [congruence|].
  split; [rewrite Hrf; by apply dict_keys_NoDup_set|].
  split; [rewrite Hvv; by apply dict_keys_NoDup_set|].
  intros x0. rewrite Hsetx, elem_of_union, elem_of_singleton. intros [->|Hin].
  - exists (key_of s e univ). unfold key_of. by rewrite Hev, lookup_insert_eq.
  - destruct (Hset x0 Hin) as [key' Hk']. exists key'.
    rewrite Hev, lookup_insert_ne; [done|]. intros <-. unfold key_of in Hx. congruence.
Qed.

Lemma analyze_loop_ext c0 univ core s B0 B s' :
  solver_inv s → refine_inv c0 s →
  (existential_var_ids s ≠ [] → total_assignment s univ) →
  (∀ ℓ, ℓ ∈ core → Z.abs ℓ ∈ existential_var_ids s) →
  analyze_loop py_int core univ B0 s = (Val B, s') →
  refine_inv c0 s' ∧
  ∃ B1, B = B0 ++ B1 ∧
    ∀ ℓ, ℓ ∈ core →
      ∃ x, expansion_vars s' !! key_of s (Z.abs ℓ) univ = Some x ∧
           (if bool_decide (0 < ℓ) then - x else x) ∈ B1.
Proof.
  revert s B0. induction core as [|ℓ core IH]; intros s B0 Hinv Href Htot Hcore.
  { intros [= <- <-]. split; [done|]. exists []. rewrite app_nil_r. split; [done|].
    by intros ℓ ?%elem_of_nil. }
  assert (Z.abs ℓ ∈ existential_var_ids s) as He by (apply Hcore; by left).
  assert (total_assignment s univ) as Htot'.
  { apply Htot. intros Hnil. rewrite Hnil in He. by apply elem_of_nil in He. }
  destruct (intern_step_inv py_int s (Z.abs ℓ) univ Hinv He Htot')
    as (x & s1 & Hx & Hinv1 & Hform1 & Hkey1 & Hmono1 & Hes1).
  pose proof (intern_step_ext c0 s (Z.abs ℓ) univ x s1 Hinv Href He Htot' Hx) as Href1.
  pose proof Hinv1 as (_ & Hinit1 & _).
  pose proof Hform1 as (_&_&_&_&_&_&_&Hids1&_).
  destruct (Hinit1 (Z.abs ℓ)) as ([cur Hcur] & _); [by rewrite Hids1|].
  set (lit := if bool_decide (0 < ℓ) then - x else x).
  set (v := negb (bool_decide (0 < ℓ))).
  set (s2 := set_value_vars
               (Dict.set (value_vars s1) (Z.abs ℓ) (if v then cur else - cur)) s1).
  assert (analyze_loop py_int (ℓ :: core) univ B0 s =
          analyze_loop py_int core univ (B0 ++ [lit]) s2) as ->.
  { simpl. unfold bind at 1, gets at 1.
    change (filter _ univ) with (restrict_to_deps s (Z.abs ℓ) univ).
    rewrite (bind_val _ _ _ _ _ Hx). subst lit v s2.
    case_bool_decide; cbn [negb];
      by rewrite (bind_val _ _ _ _ _ (set_default_value_run _ _ _ cur Hcur)). }
  assert (solver_inv s2) as Hinv2 by (by apply set_default_inv).
  assert (same_formula s1 s2) as Hform12 by (by repeat split).
  assert (same_formula s s2) as Hform2 by (by eapply same_formula_trans).
  assert (refine_inv c0 s2) as Href2.
  { destruct Href1 as (? & Hext1 & ? & ? & ? & Hndv1 & ?).
    split; [done|]. split; [by apply set_default_ext|]. split; [done|].
    split; [done|]. split; [done|]. split; [|done].
    cbn. by apply dict_keys_NoDup_set. }
  intros Hrun.
  destruct (analyze_loop_any _ _ _ _ _ _ _ Hrun) as ((_&_&_&_&_&Hsub&_) & _).
  destruct (IH s2 (B0 ++ [lit]) Hinv2 Href2) as (Href' & B1 & -> & Hcov); [| |done|].
  { intros _. by apply (same_formula_total s s2). }
  { intros ℓ' Hℓ'. destruct Hform2 as (_&_&_&_&_&_&_&Hids2&_). rewrite Hids2.
    apply Hcore. by right. }
  split; [done|]. exists (lit :: B1). rewrite <- app_assoc. split; [done|].
  intros ℓ' [->|Hℓ']%elem_of_cons.
  - exists x. split; [|by left].
    eapply lookup_weaken; [|exact Hsub]. exact Hkey1.
  - destruct (Hcov ℓ' Hℓ') as (x' & Hx' & Hin). exists x'. split; [|by right].
    by rewrite <- (same_formula_key s s2).
Qed.
End soundness_steps.

(** ** Winning families and models of the matrix *)

Lemma lit_of_mem_iff (M : list Z) b e :
  consistent M → lit_of b e ∈ M → (b = true ↔ e ∈ M).
Proof.
  intros HM Hl. destruct b; cbn in Hl; (split; [done|]); [done|].
  intros He. by destruct (HM e).
Qed.

Lemma dict_values_get {K V} `{EqDecision K} (d : Dict.t K V) v :
  NoDup (Dict.keys d) → v ∈ Dict.values d → ∃ k, Dict.get d k = Some v.
Proof.
  unfold Dict.keys, Dict.values. induction d as [|[k0 v0] d IH]; csimpl.
  - by intros _ ?%elem_of_nil.
  - rewrite NoDup_cons. intros [Hk Hnd] [->|Hin]%elem_of_cons.
    + exists k0. by rewrite decide_True.
    + destruct (IH Hnd Hin) as [k Hk']. exists k. rewrite decide_False; [done|].
      intros ->. apply (dict_get_None_keys d k) in Hk. congruence.
Qed.

Lemma winning_same_formula s s' f : same_formula s s' → winning s f → winning s' f.
Proof.
  intros Hform Hwin univ Htot.
  pose proof Hform as (_&_&Hm&_&Hg&_&Hu&He&_).
  destruct (Hwin univ) as (M0 & HM0 & Hmat & Huniv & HgM & HeM).
  { destruct Htot as (?&?&?). unfold total_assignment. by rewrite <- Hu. }
  exists M0. rewrite Hm, Hg, He. do 4 (split; [done|]).
  intros e Hin. rewrite (same_formula_restrict s s') by done. by apply HeM.
Qed.

(** The model a winning family gives, cut down to the ids of the formula. *)
Lemma winning_base_model s c0 f univ :
  ids_below s c0 → winning s f → total_assignment s univ →
  ∃ M0, base_model s c0 M0 ∧ (∀ l, l ∈ univ → l ∈ M0) ∧ output_gate_id s ∈ M0 ∧
    ∀ e, e ∈ existential_var_ids s →
      lit_of (f e (sorted_by_abs (restrict_to_deps s e univ))) e ∈ M0.
Proof.
  intros (Hbm & Hbu & Hbe & Hbg) Hwin Htot.
  destruct (Hwin univ Htot) as (M & HM & Hmat & Huniv & HgM & HeM).
  pose proof Htot as (Hnd & Hin & Hcov).
  set (M0 := filter (λ l, Z.abs l ≤ c0) M).
  assert (∀ l, l ∈ M0 ↔ Z.abs l ≤ c0 ∧ l ∈ M) as HM0.
  { intros l. subst M0. by rewrite list_elem_of_filter. }
  assert (∀ l, l ∈ univ → l ∈ M0) as Huniv0.
  { intros l Hl. apply HM0. split; [|auto]. destruct (Hbu _ (Hin l Hl)). lia. }
  assert (∀ e, e ∈ existential_var_ids s →
            lit_of (f e (sorted_by_abs (restrict_to_deps s e univ))) e ∈ M0) as HeM0.
  { intros e He. apply HM0. split; [|auto]. rewrite lit_of_abs. auto. }
  exists M0. split; [|split; [done|split; [apply HM0; auto|done]]].
  split; [|split; [|split; [|split]]].
  - intros l [_ Hl]%HM0 [_ Hn]%HM0. by apply (HM l).
  - by intros l [? _]%HM0.
  - intros c Hc. destruct (Hmat c Hc) as (l & Hl & HlM). exists l. split; [done|].
    apply HM0. eauto.
  - intros u Hu. destruct (Hcov u Hu); [left|right]; auto.
  - intros e He. specialize (HeM0 e He).
    destruct (f e _); cbn in HeM0; auto.
Qed.

(** A partial assignment to the universals extends to a full one. *)
Lemma total_extension s univ :
  (∀ u, u ∈ universal_var_ids s → 1 ≤ u) →
  NoDup (Z.abs <$> univ) → (∀ l, l ∈ univ → Z.abs l ∈ universal_var_ids s) →
  ∃ univ', total_assignment s univ' ∧ ∀ l, l ∈ univ → l ∈ univ'.
Proof.
  intros Hpos Hnd Hin.
  set (rest := filter (λ u, (u ∉ univ) ∧ (- u ∉ univ))
                     (remove_dups (universal_var_ids s))).
  assert (∀ u, u ∈ rest ↔ ((u ∉ univ) ∧ (- u ∉ univ)) ∧ u ∈ universal_var_ids s)
    as Hrest.
  { intros u. subst rest. by rewrite list_elem_of_filter, elem_of_remove_dups. }
  exists (univ ++ rest). split; [|intros l Hl; apply elem_of_app; by left].
  split; [|split].
  - rewrite fmap_app. apply NoDup_app. split; [done|]. split.
    + intros x (l & -> & Hl)%list_elem_of_fmap (u & Hx & [[Hu1 Hu2] Hu]%Hrest)%list_elem_of_fmap.
      specialize (Hpos u Hu).
      destruct (decide (l = u)) as [->|Hne]; [done|].
      apply Hu2. by replace (- u) with l by lia.
    + apply NoDup_fmap_2_strong.
      * intros x y [_ Hx]%Hrest [_ Hy]%Hrest.
        pose proof (Hpos x Hx). pose proof (Hpos y Hy). lia.
      * subst rest. apply NoDup_filter, NoDup_remove_dups.
  - intros l [Hl|[_ Hl]%Hrest]%elem_of_app; [auto|].
    specialize (Hpos l Hl). by replace (Z.abs l) with l by lia.
  - intros u Hu. rewrite !elem_of_app.
    destruct (decide (u ∈ univ)); [by left; left|].
    destruct (decide (- u ∈ univ)); [by right; left|].
    left. right. by apply Hrest.
Qed.

Lemma same_formula_sym s s' : same_formula s s' → same_formula s' s.
Proof. unfold same_formula. intros (?&?&?&?&?&?&?&?&?&?). by repeat split. Qed.

Lemma ids_below_same_formula s s' c0 : same_formula s s' → ids_below s c0 → ids_below s' c0.
Proof.
  intros (_&_&Hm&_&Hg&_&Hu&He&_). unfold ids_below. by rewrite Hm, Hg, Hu, He.
Qed.

Lemma matrix_total_same_formula s s' c0 :
  same_formula s s' → matrix_total s c0 → matrix_total s' c0.
Proof.
  intros Hform Htotal univ ev Htot.
  pose proof Hform as (_&_&Hm&_&Hg&_&Hu&He&_).
  destruct (Htotal univ ev) as (M0 & Hbase & Huniv & HeM & HgM).
  { destruct Htot as (?&?&?). unfold total_assignment. by rewrite <- Hu. }
  exists M0. rewrite Hg, He. split; [by apply (base_model_same_formula s s')|done].
Qed.

(** The parts of the object [refine_inv] reads. *)
Lemma refine_inv_transport c0 s s' :
  same_formula s s' → counter s' = counter s →
  value_vars s' = value_vars s → no_rule_fired_vars s' = no_rule_fired_vars s →
  rule_fire_vars s' = rule_fire_vars s →
  expansion_vars s' = expansion_vars s → expansion_vars_set s' = expansion_vars_set s →
  permanent_assumptions s' = permanent_assumptions s →
  (∀ c, AddClause c ∈ events (counterexample_solver s') →
        AddClause c ∈ events (counterexample_solver s)) →
  refine_inv c0 s → refine_inv c0 s'.
Proof.
  intros (_&_&Hm&_&_&_&Hu&He&_) Hcnt Hvv Hnrf Hrf Hev Hset Hpa Hcl
         (Hc0 & Hext & Hreg & Hpa0 & Hndf & Hndv & Hsetreg).
  unfold refine_inv, registry_fresh. rewrite Hcnt, Hpa, Hrf, Hvv, Hset, Hev.
  do 1 (split; [done|]). split; [|done].
  intros M0 fv vt kt Hbase Hi Hii.
  unfold base_model, fired in *. rewrite Hm, Hu, He, Hev in *.
  destruct (Hext M0 fv vt kt Hbase Hi Hii)
    as (M & HM & Hbound & Hsub & Hsat & HfM & HvM & HnM & HrM).
  exists M. rewrite Hcnt, Hrf, Hvv, Hnrf. do 3 (split; [done|]). split; [|done].
  intros c Hc. by apply Hsat, Hcl.
Qed.

Section soundness_pass.
Context (py_int : string → option Z) (oracle : sat_oracle) (debug_enabled : bool).
Hypothesis contract : sat_contract oracle.
Hypothesis refutes : sat_refutes oracle.

(** Some literal of the core goes against any winning family at the
    universal assignment of the counterexample. *)
Lemma core_disagrees c0 s f core univ s1 :
  solver_inv s → refine_inv c0 s → ids_below s c0 → winning s f →
  get_counterexample oracle s = (Val (true, Some (core, univ)), s1) →
  ∃ ℓ, ℓ ∈ core ∧
    bool_decide (0 < ℓ) =
    negb (f (Z.abs ℓ) (sorted_by_abs (restrict_to_deps s (Z.abs ℓ) univ))).
Proof.
  intros Hinv Href Hids Hwin Hrun.
  pose proof (get_counterexample_cases oracle s) as H. cbv zeta in H.
  destruct contract as [Hsat Hunsat].
  destruct (oracle (events (counterexample_solver s)) (assumptions_step1 s))
    as [M|c1] eqn:H1; [|by rewrite H in Hrun].
  set (a2 := _ ++ _ ++ [output_gate_id s]) in *.
  destruct (oracle (events (counterexample_solver s) ++ [Solve (assumptions_step1 s)]) a2)
    as [m2|core'] eqn:H2; [by rewrite H in Hrun|].
  rewrite H in Hrun. injection Hrun as <- <- <-.
  destruct (Hsat _ _ _ H1) as (Hnd & H0 & Hcl & Has & Hcov).
  set (univ := filter (λ lit, Z.abs lit ∈ universal_var_ids s) M) in *.
  set (core := filter (λ lit, Z.abs lit ∈ existential_var_ids s) (default [] core')).
  destruct (decide (Exists (λ ℓ, bool_decide (0 < ℓ) =
              negb (f (Z.abs ℓ) (sorted_by_abs (restrict_to_deps s (Z.abs ℓ) univ))))
              core)) as [Hex|Hnex].
  { by apply Exists_exists in Hex. }
  exfalso.
  apply not_Exists_Forall in Hnex; [|apply _]. rewrite Forall_forall in Hnex.
  assert (∃ univ', total_assignment s univ' ∧ (∀ l, l ∈ univ → l ∈ univ') ∧
                   (existential_var_ids s ≠ [] → univ' = univ))
    as (univ' & Htot & Hsub & Hsame).
  { destruct (existential_var_ids s) as [|e0 es] eqn:HE.
    - destruct (total_extension s univ) as (univ' & ? & ?).
      + intros u Hu. by destruct (proj1 (proj2 Hids) u Hu).
      + by apply NoDup_fmap_filter.
      + by intros l [? _]%list_elem_of_filter.
      + by exists univ'.
    - exists univ. split; [|done]. apply model_total_assignment; [|done..].
      destruct Hinv as (_ & _ & _ & Hknown & _). apply Hknown. by rewrite HE. }
  destruct (winning_base_model s c0 f univ' Hids Hwin Htot)
    as (M0 & Hbase & Huniv & HgM & HeM).
  destruct Href as (Hc0 & Hext & _).
  destruct (Hext M0 (λ _, false) (λ _, false) (λ e _, bool_decide (e ∈ M0)) Hbase)
    as (Mx & HMx & _ & HsubM & HsatM & _).
  { done. }
  { intros e k x _ _ _. apply bool_decide_eq_true. }
  apply (refutes _ _ _ Mx H2 HMx).
  { intros c [Hc|Hc]%elem_of_app; [by apply HsatM|].
    by apply list_elem_of_singleton in Hc. }
  intros l Hl. apply HsubM.
  assert (l ∈ a2) as Hla.
  { destruct core' as [core''|]; [by apply (Hunsat _ _ _ H2)|by apply elem_of_nil in Hl]. }
  subst a2. rewrite !elem_of_app in Hla. destruct Hla as [Hlu|[Hle|Hlg]].
  - by apply Huniv, Hsub.
  - apply list_elem_of_filter in Hle as [HlE HlM].
    assert (l ∈ core) as Hlc by (subst core; by apply list_elem_of_filter).
    assert (existential_var_ids s ≠ []) as Hne.
    { intros Hnil. rewrite Hnil in HlE. by apply elem_of_nil in HlE. }
    specialize (Hnex l Hlc). cbn in Hnex.
    specialize (HeM (Z.abs l) HlE). rewrite (Hsame Hne) in HeM.
    destruct (f (Z.abs l) _) eqn:Hf; cbn in *.
    + case_bool_decide; [|done]. by replace l with (Z.abs l) by lia.
    + case_bool_decide; [done|]. by replace l with (- Z.abs l) by lia.
  - by apply list_elem_of_singleton in Hlg as ->.
Qed.

(** Refinement of a counterexample keeps the invariant, and its blocking
    clause holds under the expansion of any winning family. *)
Lemma refinement_sound c0 s H core univ s1 :
  run_inv s H → sound_inv c0 s → ids_below s c0 →
  get_counterexample oracle s = (Val (true, Some (core, univ)), s1) →
  ∃ s3, analyze_counterexample py_int core univ (remember core univ s1) = (Val tt, s3) ∧
    same_formula s s3 ∧ refine_inv c0 s3 ∧ blocking_sound s3 ∧
    (∀ e k x, expansion_vars s3 !! (e, k) = Some x → 0 < x) ∧
    expansion_vars_set s ⊆ expansion_vars_set s3.
Proof.
  intros (Hinv & Hhist & Hassign) (Href & HndX & HXset & Hblock) Hids Hcex.
  destruct (get_counterexample_model oracle contract s core univ s1 Hcex)
    as (M & evs & st & Hnd & H0 & HM & Has & Htot & Huniv & HcoreM & Hs1 & Hevs).
  assert (solver_inv s1) as Hinv1.
  { apply (solver_inv_transport s s1); subst s1; try done.
    - intros c. cbn. rewrite elem_of_app. split; [|auto].
      intros [?|?]; [done|]. by destruct (Hevs c).
    - apply Hinv. }
  assert (existential_var_ids s1 ≠ [] → total_assignment s1 univ) as Htot1.
  { intros Hne. apply (same_formula_total s s1); [by subst s1|].
    rewrite Huniv. apply model_total_assignment; [|done..].
    destruct Hinv as (_ & _ & _ & Hknown & _). apply Hknown. by subst s1. }
  set (s2 := remember core univ s1).
  assert (solver_inv s2) as Hinv2 by exact Hinv1.
  assert (same_formula s s2) as Hform2 by (by subst s2 s1).
  assert (refine_inv c0 s2) as Href2.
  { apply (refine_inv_transport c0 s s2); subst s2 s1; try done.
    intros c. cbn. rewrite elem_of_app. intros [?|?]; [done|]. by destruct (Hevs c). }
  assert (∀ ℓ, ℓ ∈ core → Z.abs ℓ ∈ existential_var_ids s2) as Hcore2.
  { intros ℓ Hℓ. destruct (HcoreM ℓ Hℓ) as [? _]. by subst s2 s1. }
  destruct (analyze_loop_inv py_int univ core s2 [] Hinv2 Htot1 Hcore2)
    as (B & s3 & Hloop & Hinv3 & Hform3 & Hmono3 & Hes3 & HB).
  cbn [app] in Hloop.
  destruct (analyze_loop_ext py_int c0 univ core s2 [] B s3 Hinv2 Href2 Htot1 Hcore2 Hloop)
    as (Href3 & B1 & HB1 & Hcov).
  cbn [app] in HB1. subst B1.
  destruct (analyze_loop_any _ _ _ _ _ _ _ Hloop) as ((_&_&_&_&_&_&Hsetsub&_) & _).
  exists (set_expansion_solver (Sat.add_clause (expansion_solver s3) B) s3).
  split.
  { unfold analyze_counterexample. by rewrite (bind_val _ _ _ _ _ Hloop). }
  assert (same_formula s s3) as Hform by (by eapply same_formula_trans).
  split; [exact Hform|]. split.
  { by apply (refine_inv_transport c0 s3). }
  split; [|split].
  - intros f Hwin B'. cbn. rewrite elem_of_app, list_elem_of_singleton.
    assert (winning s f) as Hwin0.
    { apply (winning_same_formula s3); [by apply same_formula_sym|exact Hwin]. }
    intros [Hold|Hnew].
    + rewrite Hes3 in Hold.
      assert (expansion_solver s2 = expansion_solver s) as Hes2 by (by subst s2 s1).
      rewrite Hes2 in Hold.
      destruct (Hblock f Hwin0 B' Hold) as (e & k & x & Hx & Hlit).
      exists e, k, x. split; [|done]. apply Hmono3. by subst s2 s1.
    + injection Hnew as ->.
      destruct (core_disagrees c0 s f core univ s1 Hinv Href Hids Hwin0 Hcex)
        as (ℓ & Hℓ & Hdis).
      destruct (Hcov ℓ Hℓ) as (x & Hx & Hin).
      exists (Z.abs ℓ), (sorted_by_abs (restrict_to_deps s (Z.abs ℓ) univ)), x.
      split; [by subst s2 s1|].
      rewrite Hdis in Hin. by destruct (f (Z.abs ℓ) _).
  - intros e k x Hx. destruct Hinv3 as (_&_&_&_&Hreg3&_). by destruct (Hreg3 e k x Hx).
  - by subst s2 s1.
Qed.
End soundness_pass.

Section soundness_answers.
Context (py_int : string → option Z) (oracle : sat_oracle) (debug_enabled : bool).
Hypothesis contract : sat_contract oracle.
Hypothesis refutes : sat_refutes oracle.

(** When the first query finds no counterexample, the decision lists are
    winning Skolem functions. *)
Lemma no_counterexample_sound c0 s c :
  solver_inv s → sound_inv c0 s → matrix_total s c0 →
  oracle (events (counterexample_solver s)) (assumptions_step1 s) = Unsat c →
  winning s (model_function s).
Proof.
  intros Hinv ((Hc0 & Hext & Hreg & Hpa & Hndf & Hndv & Hsetreg) & HndX & HXset & _)
         Htotal Ho univ Htot.
  destruct Hinv as (_ & _ & _ & _ & Hregi & _).
  destruct (Htotal univ
              (λ e, model_function s e (sorted_by_abs (restrict_to_deps s e univ))) Htot)
    as (M0 & Hbase & Huniv & HeM & HgM).
  pose proof Hbase as (HM0 & _).
  exists M0. split; [done|]. split; [apply Hbase|]. split; [done|]. split; [|done].
  destruct HgM as [HgM|HgM]; [done|]. exfalso.
  set (X := expansion_variable_assignment s) in *.
  set (vt := λ e, match Dict.get (value_vars s) e with
                  | Some v => bool_decide (0 < v)
                  | None => false
                  end).
  set (kt := λ e k, match expansion_vars s !! (e, k) with
                    | Some x => bool_decide (x ∈ X)
                    | None => false
                    end).
  destruct (Hext M0 (λ _, true) vt kt Hbase)
    as (M & HM & _ & Hsub & Hsat & HfM & HvM & _ & HrM).
  { intros e He _ Hnf. apply (lit_of_mem_iff M0); [done|].
    specialize (HeM e He). cbn in HeM. unfold model_function in HeM.
    destruct (expansion_vars s !! (e, _)) as [x|] eqn:Hx; [|exact HeM].
    destruct Hnf. exists (sorted_by_abs (restrict_to_deps s e univ)), x.
    split; [exact Hx|]. intros l Hl. apply Huniv.
    rewrite sorted_by_abs_perm in Hl. by apply restrict_to_deps_elem in Hl as [_ ?]. }
  { intros e k x He Hx Hk. apply (lit_of_mem_iff M0); [done|].
    destruct (Hregi e k x Hx) as (_ & _ & (univ0 & Htot0 & Hk0) & _).
    destruct (decide (k = sorted_by_abs (restrict_to_deps s e univ))) as [Heq|Hne].
    - specialize (HeM e He). cbn in HeM. unfold model_function in HeM.
      rewrite <- Heq, Hx in HeM. subst kt. cbn. by rewrite Hx.
    - exfalso.
      destruct (distinct_keys_conflict s e univ univ0 M0 Htot Htot0 Huniv)
        as (l & Hl & Hneg).
      { by rewrite <- Hk0. }
      rewrite <- Hk0 in Hl. by apply (HM0 l (Hk l Hl)). }
  destruct contract as [_ Hunsat].
  apply (refutes _ _ _ M Ho HM Hsat).
  intros l Hl.
  assert (l ∈ assumptions_step1 s) as Hla.
  { destruct c as [core|]; [by apply (Hunsat _ _ _ Ho)|by apply elem_of_nil in Hl]. }
  unfold assumptions_step1 in Hla. rewrite Hpa in Hla. rewrite !elem_of_app in Hla.
  destruct Hla as [Hg|[Hnil|[Hf|[Hv|HX]]]].
  - apply list_elem_of_singleton in Hg as ->. by apply Hsub.
  - by apply elem_of_nil in Hnil.
  - destruct (dict_values_get _ _ Hndf Hf) as [e He]. exact (HfM e l He).
  - destruct (dict_values_get _ _ Hndv Hv) as [e He]. specialize (HvM e l He).
    subst vt. cbn in HvM. rewrite He in HvM.
    case_bool_decide; cbn in HvM.
    + by replace l with (Z.abs l) by lia.
    + by replace l with (- Z.abs l) by lia.
  - destruct (Hsetreg _ (HXset l HX)) as [[e k] Hx].
    pose proof (HrM e k _ Hx) as HxM. subst kt. cbn in HxM. rewrite Hx in HxM.
    destruct (Hregi e k _ Hx) as (Hpos & _).
    case_bool_decide as HinX; cbn in HxM.
    + assert (l = Z.abs l) as ->; [|done].
      apply (NoDup_fmap_eq Z.abs X); [done..|lia].
    + destruct (decide (l = Z.abs l)) as [Heq|Hne]; [by rewrite <- Heq in HinX|].
      by replace l with (- Z.abs l) by lia.
Qed.

(** When the expansion solver is unsatisfiable, no family wins. *)
Lemma expansion_refuted s c :
  registry_fresh s → (∀ e k x, expansion_vars s !! (e, k) = Some x → 0 < x) →
  blocking_sound s →
  oracle (events (expansion_solver s)) [] = Unsat c → ¬ dqbf_true s.
Proof.
  intros Hreg Hpos Hblock Ho [f Hwin].
  set (Xf := (λ p : Z * list Z * Z, lit_of (f p.1.1 p.1.2) p.2)
               <$> map_to_list (expansion_vars s)).
  assert (∀ l, l ∈ Xf ↔
               ∃ e k x, expansion_vars s !! (e, k) = Some x ∧ l = lit_of (f e k) x) as HXf.
  { intros l. subst Xf. rewrite list_elem_of_fmap. split.
    - intros ([[e k] x] & -> & Hin%elem_of_map_to_list). eauto.
    - intros (e & k & x & Hx & ->). exists ((e, k), x). split; [done|].
      by apply elem_of_map_to_list. }
  destruct contract as [_ Hunsat].
  apply (refutes _ _ _ Xf Ho).
  - intros l (e & k & x & Hx & ->)%HXf (e' & k' & x' & Hx' & Heq)%HXf.
    pose proof (Hpos _ _ _ Hx). pose proof (Hpos _ _ _ Hx').
    assert (x' = x) as ->.
    { apply (f_equal Z.abs) in Heq. rewrite Z.abs_opp, !lit_of_abs in Heq. lia. }
    destruct (Hreg _ _ Hx) as (_ & _ & Hinj). specialize (Hinj _ Hx').
    injection Hinj as -> ->. destruct (f e k); cbn in Heq; lia.
  - intros B HB. destruct (Hblock f Hwin B HB) as (e & k & x & Hx & Hlit).
    exists (lit_of (f e k) x). split; [done|]. apply HXf. eauto.
  - intros l Hl. destruct c as [core|]; [|by apply elem_of_nil in Hl].
    pose proof (Hunsat _ _ _ Ho l Hl) as Hn. by apply elem_of_nil in Hn.
Qed.

(** The outcome of one pass of the loop. *)
Lemma pass_sound c0 s H r s' :
  run_inv s H → sound_inv c0 s → ids_below s c0 →
  solve_iteration py_int oracle debug_enabled s = (r, s') →
  (r = Val (Some false) → ¬ dqbf_true s) ∧
  (r = Val (Some true) → matrix_total s c0 → winning s (model_function s')) ∧
  (r = Val None →
     ∃ cx, run_inv s' (H ++ [cx]) ∧ sound_inv c0 s' ∧ same_formula s s' ∧
           stall_inv s' (H ++ [cx])).
Proof.
  intros Hrinv Hsound Hids Hpass.
  destruct (get_counterexample oracle s) as [rc s1] eqn:Hcex.
  destruct (get_counterexample_any _ _ _ _ Hcex) as (_ & _ & _ & _ & Hrc).
  destruct Hrc as [->|[[[core univ] ->]| ->]].
  - pose proof (get_counterexample_cases oracle s) as Hc. cbv zeta in Hc.
    pose proof Hcex as Hcex'.
    destruct (oracle (events (counterexample_solver s)) (assumptions_step1 s))
      as [M|c] eqn:Ho.
    { match type of Hc with
      | match ?o with _ => _ end => destruct o
      end; rewrite Hc in Hcex'; discriminate. }
    rewrite Hc in Hcex'. injection Hcex' as <-.
    assert (matrix_total s c0 → winning s (model_function s)) as Hw.
    { intros Ht. apply (no_counterexample_sound c0 s c); [apply Hrinv|done..]. }
    rewrite (solve_iteration_no_counterexample _ _ _ _ _ _ Hcex) in Hpass.
    destruct debug_enabled; cycle 1.
    { injection Hpass as <- <-. split; [done|]. split; [|done]. intros _ Ht.
      exact (Hw Ht). }
    match type of Hpass with
    | context [_enumerate_and_compute_model_functions oracle ?s1] =>
        destruct (enumerate_run oracle s1) as (b & s2 & Hrun & _ & Hs2 & _)
    end.
    rewrite Hrun in Hpass. destruct b; injection Hpass as <- <-.
    + split; [done|]. split; [|done]. intros _ Ht. rewrite Hs2. exact (Hw Ht).
    + by repeat split.
  - destruct (decide (stalled s1 core univ)) as [Hst|Hst].
    { rewrite (solve_iteration_stall _ _ _ _ _ _ _ Hcex Hst) in Hpass.
      injection Hpass as <- <-. by repeat split. }
    pose proof Hpass as Hpass'.
    rewrite (solve_iteration_refine _ _ _ _ _ _ _ Hcex Hst) in Hpass.
    destruct (refinement_sound py_int oracle contract refutes c0 s H core univ s1
                Hrinv Hsound Hids Hcex)
      as (s3 & Han & Hform & Href3 & Hblock3 & Hpos3 & Hsetsub).
    rewrite Han in Hpass. cbv zeta in Hpass.
    destruct (oracle (events (expansion_solver s3)) []) as [model|c] eqn:Ho;
      injection Hpass as <- <-.
    + split; [done|]. split; [done|]. intros _. exists (core, univ).
      split; [by apply (pass_inv py_int oracle debug_enabled contract s H core univ s1)|].
      split; [|split; [exact Hform|]]; cycle 1.
      { intros le lu Hle Hlu. exists (core, univ).
        split; [apply elem_of_app; right; by left|].
        destruct (pass_fingerprint py_int oracle debug_enabled s core univ s1 _ Hcex Hpass')
          as [He Hu].
        cbn. split; congruence. }
      split; [by apply (refine_inv_transport c0 s3)|].
      destruct contract as [Hsat _].
      destruct (Hsat _ _ _ Ho) as (Hndm & _).
      split; [cbn; by apply NoDup_fmap_filter|]. split.
      * intros l. cbn. by intros [? _]%list_elem_of_filter.
      * intros f Hwin B. cbn. rewrite elem_of_app. intros [HB|HB].
        -- by apply (Hblock3 f Hwin B).
        -- by apply list_elem_of_singleton in HB.
    + split; [|by split]. intros _ Htrue.
      apply (expansion_refuted s3 c); [apply Href3|done..|].
      destruct Htrue as [f Hwin]. exists f. by apply (winning_same_formula s s3).
  - rewrite (solve_iteration_error _ _ _ _ _ _ Hcex) in Hpass.
    injection Hpass as <- <-. by repeat split.
Qed.

End soundness_answers.

(** ** The constructed solver *)

Lemma init_model_side e s s' :
  init_model e s = (Val tt, s') →
  same_expansion_side s s' ∧ permanent_assumptions s' = permanent_assumptions s ∧
  (NoDup (Dict.keys (rule_fire_vars s)) → NoDup (Dict.keys (rule_fire_vars s'))) ∧
  (NoDup (Dict.keys (value_vars s)) → NoDup (Dict.keys (value_vars s'))) ∧
  (∀ c, AddClause c ∈ events (counterexample_solver s) →
        AddClause c ∈ events (counterexample_solver s')).
Proof.
  intros Hrun.
  destruct (decide (e ∈ existential_var_ids s)) as [He|He]; cycle 1.
  { by rewrite init_model_not_existential in Hrun. }
  destruct (Dict.get (value_vars s) e) as [v|] eqn:Hv.
  { rewrite init_model_again in Hrun by eauto. simplify_eq. by repeat split. }
  destruct (init_model_fresh e s He Hv)
    as (s1 & Hrun1 & _ & Hexp & _ & Hvv & _ & Hrf & Hpa & Hevents & _).
  rewrite Hrun1 in Hrun. injection Hrun as <-.
  split; [done|]. split; [done|]. rewrite Hvv, Hrf.
  split; [apply dict_keys_NoDup_set|]. split; [apply dict_keys_NoDup_set|].
  intros c Hc. rewrite Hevents, elem_of_app. by left.
Qed.

Lemma for_each_init_model_side ids s r s' :
  for_each ids init_model s = (Val r, s') →
  same_expansion_side s s' ∧ permanent_assumptions s' = permanent_assumptions s ∧
  (NoDup (Dict.keys (rule_fire_vars s)) → NoDup (Dict.keys (rule_fire_vars s'))) ∧
  (NoDup (Dict.keys (value_vars s)) → NoDup (Dict.keys (value_vars s'))) ∧
  (∀ c, AddClause c ∈ events (counterexample_solver s) →
        AddClause c ∈ events (counterexample_solver s')).
Proof.
  revert s. induction ids as [|e ids IH]; intros s; simpl.
  - intros [= _ <-]. by repeat split.
  - intros ([] & s1 & Hrun1 & Hrest)%bind_inv_val.
    destruct (init_model_side e s s1 Hrun1) as ((?&?&?&?&?&?) & ? & ? & ? & ?).
    destruct (IH s1 Hrest) as ((?&?&?&?&?&?) & ? & ? & ? & ?).
    split; [repeat split; congruence|]. split; [congruence|]. repeat split; auto.
Qed.

Lemma constructor_sound_inv n2i i2n deps mat univs g c order s0 :
  __init__ n2i i2n deps mat univs g c order = Val s0 →
  0 ≤ counter_start n2i mat c →
  sound_inv (counter_start n2i mat c) s0.
Proof.
  unfold __init__. fold (counter_start n2i mat c). intros Hinit Hc0.
  destruct (ids_of n2i univs) as [uids|]; [|done].
  destruct (ids_of n2i order) as [eids|]; [|done].
  destruct (convert_dependencies n2i deps ∅ ∅) as [[by_id by_list]|]; [|done].
  match type of Hinit with
  | context [for_each _ _ ?s] => set (start := s) in *
  end.
  destruct (for_each eids init_model start) as [[r|err] s1] eqn:Hrun; [|done].
  injection Hinit as ->.
  destruct (for_each_init_model_ext (counter_start n2i mat c) eids start r s0)
    as [Hc Hext]; [done|apply Z.le_refl|done|apply extension_inv_start|done|].
  destruct (for_each_init_model_side eids start r s0 Hrun)
    as ((Hev & Hset & HX & Hes & _) & Hpa & Hndf & Hndv & _).
  split; [|split; [|split]].
  - split; [done|]. split; [done|]. split.
    { intros k x. rewrite Hev. cbn. by rewrite lookup_empty. }
    split; [by rewrite Hpa|].
    split; [apply Hndf, NoDup_nil_2|]. split; [apply Hndv, NoDup_nil_2|].
    intros x. rewrite Hset. cbn. by intros ?%elem_of_empty.
  - rewrite HX. cbn. apply NoDup_nil_2.
  - intros l. rewrite HX. cbn. by intros ?%elem_of_nil.
  - intros f _ B. rewrite Hes. cbn. by intros ?%elem_of_nil.
Qed.

(** ** The reference engine refutes with its core *)

Lemma all_assignments_complete vars (M : list Z) :
  ((λ v, if bool_decide (v ∈ M) then v else - v) <$> vars) ∈ all_assignments vars.
Proof.
  induction vars as [|v vars IH]; csimpl; [by left|].
  rewrite elem_of_app. case_bool_decide; [right|left]; by apply list_elem_of_fmap_2.
Qed.

Lemma exhaustive_oracle_refutes : sat_refutes exhaustive_oracle.
Proof.
  intros evs assumptions core M. unfold exhaustive_oracle.
  set (cls := omap event_clause evs).
  set (n := max_var (assumptions ++ concat cls)).
  set (vars := (λ i : nat, Z.of_nat (S i)) <$> seq 0 (Z.to_nat n)).
  destruct (List.find _ _) as [m'|] eqn:Hfind; [done|].
  intros [= <-] HM Hsat Hcore. cbn in Hcore.
  set (m := (λ v, if bool_decide (v ∈ M) then v else - v) <$> vars).
  assert (∀ v, v ∈ vars ↔ 1 ≤ v ≤ n) as Hvars.
  { intros v. subst vars. rewrite list_elem_of_fmap. split.
    - intros (i & -> & Hi%elem_of_seq). lia.
    - intros Hv. exists (Z.to_nat (v - 1)). split; [lia|]. apply elem_of_seq. lia. }
  assert (∀ l, l ∈ M → Z.abs l ≤ n → l ∈ m) as Hin.
  { intros l Hl Hle. pose proof (consistent_no_zero M HM) as H0.
    assert (l ≠ 0) as Hnz by (by intros ->).
    subst m. apply list_elem_of_fmap. destruct (decide (0 < l)).
    - exists l. rewrite bool_decide_eq_true_2 by done. split; [done|].
      apply Hvars. lia.
    - exists (- l). rewrite bool_decide_eq_false_2 by (by apply HM).
      split; [lia|]. apply Hvars. lia. }
  pose proof (find_none _ _ Hfind m
                (proj1 (list_elem_of_In _ _) (all_assignments_complete vars M))) as Hnone.
  cbv beta in Hnone.
  assert (forallb (holds_in m) cls && forallb (λ a, bool_decide (a ∈ m)) assumptions
          = true) as Htrue; [|exact (eq_true_false_abs _ Htrue Hnone)].
  apply andb_true_intro. split; apply forallb_forall.
  - intros c Hc%list_elem_of_In. unfold holds_in. apply existsb_exists.
    assert (AddClause c ∈ evs) as Hev.
    { subst cls. apply list_elem_of_omap in Hc as ([c'|a] & Hin' & Heq); by simplify_eq/=. }
    destruct (Hsat c Hev) as (l & Hl & HlM). exists l.
    split; [by apply list_elem_of_In|]. apply bool_decide_eq_true, Hin; [done|].
    apply max_var_ge. rewrite elem_of_app. right. apply elem_of_concat. eauto.
  - intros a Ha%list_elem_of_In. apply bool_decide_eq_true, Hin; [by apply Hcore|].
    apply max_var_ge. rewrite elem_of_app. by left.
Qed.

(** ** Checking a matrix by enumeration *)

Lemma base_modelb_sound s c0 M0 : base_modelb s c0 M0 = true → base_model s c0 M0.
Proof.
  unfold base_modelb. rewrite !andb_true_iff, !forallb_forall.
  intros [[[[[Hnd%bool_decide_eq_true H0%bool_decide_eq_true] Hb] Hm] Hu] He].
  split; [by apply model_consistent|]. split; [|split; [|split]].
  - intros l Hl%list_elem_of_In. by apply (bool_decide_eq_true (Z.abs l ≤ c0)), Hb.
  - intros c Hc%list_elem_of_In. specialize (Hm c Hc). unfold holds_in in Hm.
    apply existsb_exists in Hm as (l & Hl%list_elem_of_In & HlM%bool_decide_eq_true).
    eauto.
  - intros u Hin%list_elem_of_In. specialize (Hu u Hin).
    apply orb_true_iff in Hu as [?%bool_decide_eq_true|?%bool_decide_eq_true]; auto.
  - intros e Hin%list_elem_of_In. specialize (He e Hin).
    apply orb_true_iff in He as [?%bool_decide_eq_true|?%bool_decide_eq_true]; auto.
Qed.

Lemma all_assignments_lit_of vars (ev : Z → bool) :
  ((λ e, lit_of (ev e) e) <$> vars) ∈ all_assignments vars.
Proof.
  induction vars as [|v vars IH]; csimpl; [by left|].
  rewrite elem_of_app. destruct (ev v); [right|left]; by apply list_elem_of_fmap_2.
Qed.

Lemma matrix_totalb_sound s c0 :
  (∀ u, u ∈ universal_var_ids s → u ≠ 0) →
  matrix_totalb s c0 = true → matrix_total s c0.
Proof.
  intros Hnz Hcheck univ ev (Hnd & Hin & Hcov).
  unfold matrix_totalb in Hcheck. cbv zeta in Hcheck.
  rewrite forallb_forall in Hcheck.
  specialize (Hcheck _ (proj1 (list_elem_of_In _ _)
                          (all_assignments_complete (universal_var_ids s) univ))).
  rewrite forallb_forall in Hcheck.
  specialize (Hcheck _ (proj1 (list_elem_of_In _ _)
                          (all_assignments_lit_of (existential_var_ids s) ev))).
  apply existsb_exists in Hcheck as (M0 & _ & Hok).
  rewrite !andb_true_iff, !forallb_forall in Hok.
  destruct Hok as [[[Hbase Hu] He] Hg].
  exists M0. split; [by apply base_modelb_sound|]. split; [|split].
  - intros l Hl. set (u := Z.abs l). pose proof (Hin l Hl) as Hu_in. fold u in Hu_in.
    apply (bool_decide_eq_true (l ∈ M0)), Hu, list_elem_of_In, list_elem_of_fmap.
    exists u. split; [|done].
    destruct (decide (u ∈ univ)) as [Hu_univ|Hu_univ];
      [rewrite bool_decide_eq_true_2 by done | rewrite bool_decide_eq_false_2 by done].
    + destruct (decide (l = u)) as [|Hne]; [done|].
      assert (l = u); [|done]. apply (NoDup_fmap_eq Z.abs univ); [done..|]. subst u. lia.
    + destruct (decide (l = u)) as [Heq|Hne]; [by rewrite Heq in Hl|]. subst u. lia.
  - intros e He_in.
    apply (bool_decide_eq_true (lit_of (ev e) e ∈ M0)), He, list_elem_of_In.
    by apply (list_elem_of_fmap_2 (λ e0, lit_of (ev e0) e0)).
  - apply orb_true_iff in Hg as [?%bool_decide_eq_true|?%bool_decide_eq_true]; auto.
Qed.

Lemma matrix_functional_same_formula s s' :
  same_formula s s' → matrix_functional s → matrix_functional s'.
Proof.
  intros (_&_&Hm&_&Hg&_&Hu&He&_). unfold matrix_functional. by rewrite Hm, Hg, Hu, He.
Qed.

Lemma matrix_functionalb_sound s c0 :
  ids_below s c0 → matrix_functionalb s c0 = true → matrix_functional s.
Proof.
  intros (Hbm & _ & _ & Hbg) Hcheck M1 M2 HM1 HM2 Hmat1 Hmat2 Hsame Hg1 Hg2.
  unfold matrix_functionalb in Hcheck. cbv zeta in Hcheck.
  set (ids := (λ i : nat, Z.of_nat (S i)) <$> seq 0 (Z.to_nat c0)) in *.
  assert (∀ v, v ∈ ids ↔ 1 ≤ v ≤ c0) as Hids.
  { intros v. subst ids. rewrite list_elem_of_fmap. split.
    - intros (i & -> & Hi%elem_of_seq). lia.
    - intros Hv. exists (Z.to_nat (v - 1)). split; [lia|]. apply elem_of_seq. lia. }
  set (ch1 := λ v, bool_decide (v ∈ M1) ||
                   (negb (bool_decide (- v ∈ M1)) && bool_decide (v ∈ M2))).
  set (A1 := (λ v, lit_of (ch1 v) v) <$> ids).
  set (A2 := (λ v, lit_of (bool_decide (v ∈ M2)) v) <$> ids).
  pose proof (consistent_no_zero M1 HM1) as H01.
  pose proof (consistent_no_zero M2 HM2) as H02.
  assert (∀ l, l ∈ M1 → Z.abs l ≤ c0 → l ∈ A1) as HA1.
  { intros l Hl Hle. assert (l ≠ 0) as Hnz by (by intros ->).
    subst A1. apply list_elem_of_fmap. destruct (decide (0 < l)).
    - exists l. split; [|apply Hids; lia]. subst ch1. cbn.
      by rewrite (bool_decide_eq_true_2 (l ∈ M1)) by done.
    - exists (- l). split; [|apply Hids; lia]. subst ch1. cbn.
      rewrite (bool_decide_eq_false_2 (- l ∈ M1)) by (by apply HM1).
      rewrite Z.opp_involutive, (bool_decide_eq_true_2 (l ∈ M1)) by done.
      cbn. lia. }
  assert (∀ l, l ∈ M2 → Z.abs l ≤ c0 → l ∈ A2) as HA2.
  { intros l Hl Hle. assert (l ≠ 0) as Hnz by (by intros ->).
    subst A2. apply list_elem_of_fmap. destruct (decide (0 < l)).
    - exists l. split; [|apply Hids; lia].
      by rewrite (bool_decide_eq_true_2 (l ∈ M2)) by done.
    - exists (- l). split; [|apply Hids; lia].
      rewrite (bool_decide_eq_false_2 (- l ∈ M2)) by (by apply HM2). cbn. lia. }
  rewrite forallb_forall in Hcheck.
  specialize (Hcheck A1 (proj1 (list_elem_of_In _ _) (all_assignments_lit_of ids ch1))).
  rewrite forallb_forall in Hcheck.
  specialize (Hcheck A2 (proj1 (list_elem_of_In _ _)
                           (all_assignments_lit_of ids (λ v, bool_decide (v ∈ M2))))).
  apply negb_true_iff in Hcheck.
  assert (Z.abs (- output_gate_id s) ≤ c0) as Hbg' by (rewrite Z.abs_opp; exact Hbg).
  rewrite (bool_decide_eq_true_2 _ (HA1 _ Hg1 Hbg')) in Hcheck.
  rewrite (bool_decide_eq_true_2 _ (HA2 _ Hg2 Hbg)) in Hcheck.
  rewrite !andb_true_r in Hcheck.
  assert (∀ (M A : list Z), (∀ l, l ∈ M → Z.abs l ≤ c0 → l ∈ A) →
            (∀ c, c ∈ matrix s → ∃ l, l ∈ c ∧ l ∈ M) →
            forallb (holds_in A) (matrix s) = true) as Hholds.
  { intros M A HA Hmat. apply forallb_forall. intros c Hc%list_elem_of_In.
    destruct (Hmat c Hc) as (l & Hl & HlM). unfold holds_in. apply existsb_exists.
    exists l. split; [by apply list_elem_of_In|].
    apply bool_decide_eq_true, HA; [done|]. by eapply Hbm. }
  rewrite (Hholds M1 A1 HA1 Hmat1), (Hholds M2 A2 HA2 Hmat2) in Hcheck.
  cbn [andb] in Hcheck.
  assert (forallb (λ l, negb (bool_decide (Z.abs l ∈ universal_var_ids s ∨
                                           Z.abs l ∈ existential_var_ids s))
                        || bool_decide (l ∈ A2)) A1 = true) as Hagree;
    [|congruence].
  apply forallb_forall. intros l Hl%list_elem_of_In.
  destruct (decide (Z.abs l ∈ universal_var_ids s ∨ Z.abs l ∈ existential_var_ids s))
    as [Hinput|Hinput]; [|by rewrite bool_decide_eq_false_2].
  apply orb_true_iff. right. apply bool_decide_eq_true.
  subst A1. apply list_elem_of_fmap in Hl as (v & -> & Hv).
  assert (Z.abs v ≤ c0) as Hvle by (apply Hids in Hv; lia).
  subst ch1. cbn in *.
  destruct (decide (v ∈ M1)) as [Hv1|Hv1].
  { rewrite (bool_decide_eq_true_2 (v ∈ M1)) in * by done. cbn in *.
    apply HA2; auto. }
  rewrite (bool_decide_eq_false_2 (v ∈ M1)) in * by done. cbn [orb] in *.
  destruct (decide (- v ∈ M1)) as [Hn1|Hn1].
  { rewrite (bool_decide_eq_true_2 (- v ∈ M1)) in * by done. cbn in *.
    apply HA2; [by apply Hsame | by rewrite Z.abs_opp]. }
  rewrite (bool_decide_eq_false_2 (- v ∈ M1)) in * by done. cbn [negb andb] in *.
  subst A2. apply list_elem_of_fmap. by exists v.
Qed.

(** ** The driver loop decides the formula *)

(** The constructed solver has no fingerprint yet and holds the matrix. *)
Lemma constructor_stall_inv n2i i2n deps mat univs g c order s0 :
  __init__ n2i i2n deps mat univs g c order = Val s0 →
  stall_inv s0 [] ∧ matrix_loaded s0.
Proof.
  unfold __init__. intros Hinit.
  destruct (ids_of n2i univs) as [uids|]; [|done].
  destruct (ids_of n2i order) as [eids|]; [|done].
  destruct (convert_dependencies n2i deps ∅ ∅) as [[by_id by_list]|]; [|done].
  match type of Hinit with
  | context [for_each _ _ ?s] => set (start := s) in *
  end.
  destruct (for_each eids init_model start) as [[r|err] s1] eqn:Hrun; [|done].
  injection Hinit as ->.
  destruct (for_each_init_model_side eids start r s0 Hrun)
    as ((_ & _ & _ & _ & Hle & _) & _ & _ & _ & Hsub).
  destruct (for_each_init_model eids start r s0) as ((_&_&Hm&_) & _); [|done|].
  { intros e' [v Hv]. by cbn in Hv. }
  split.
  - intros le lu. by rewrite Hle.
  - intros cl. rewrite Hm. cbn. intros Hcl. apply Hsub. cbn.
    apply elem_of_sat_clauses. by rewrite sat_clauses_bootstrap.
Qed.

Lemma matrix_loaded_grows s s' : grows s s' → matrix_loaded s → matrix_loaded s'.
Proof.
  intros ((_&_&Hm&_) & _ & _ & Hpre & _) Hload c. rewrite Hm. intros Hc.
  destruct Hpre as [evs ->]. rewrite elem_of_app. left. by apply Hload.
Qed.

Section decision.
Context (py_int : string → option Z) (oracle : sat_oracle).
Hypothesis contract : sat_contract oracle.

(** With a matrix that defines its output gate the second query of
    [get_counterexample] cannot be satisfiable. *)
Lemma get_counterexample_no_assert s s1 :
  matrix_functional s → matrix_loaded s →
  get_counterexample oracle s ≠ (Exc AssertionError, s1).
Proof.
  intros Hfun Hload Hrun.
  pose proof (get_counterexample_cases oracle s) as H. cbv zeta in H.
  destruct contract as [Hsat _].
  destruct (oracle (events (counterexample_solver s)) (assumptions_step1 s))
    as [M|c1] eqn:H1; [|by rewrite H in Hrun].
  set (a2 := _ ++ _ ++ [output_gate_id s]) in *.
  destruct (oracle (events (counterexample_solver s) ++ [Solve (assumptions_step1 s)]) a2)
    as [m2|core'] eqn:H2; [|by rewrite H in Hrun].
  destruct (Hsat _ _ _ H1) as (Hnd1 & H01 & Hcl1 & Has1 & _).
  destruct (Hsat _ _ _ H2) as (Hnd2 & H02 & Hcl2 & Has2 & _).
  apply (Hfun M m2); [by apply model_consistent..| | | | |].
  - intros c Hc. by apply Hcl1, Hload.
  - intros c Hc. apply Hcl2. rewrite elem_of_app. left. by apply Hload.
  - intros l Hl [Hu|He]; apply Has2; subst a2; rewrite !elem_of_app;
      [left|right; left]; by apply list_elem_of_filter.
  - apply Has1. unfold assumptions_step1. rewrite elem_of_app. left.
    by apply list_elem_of_singleton.
  - apply Has2. subst a2. rewrite !elem_of_app. right. right.
    by apply list_elem_of_singleton.
Qed.

Lemma pass_no_assert s r s' :
  matrix_functional s → matrix_loaded s →
  solve_iteration py_int oracle false s = (r, s') → r ≠ Exc AssertionError.
Proof.
  intros Hfun Hload Hpass ->.
  destruct (get_counterexample oracle s) as [rc s1] eqn:Hcex.
  destruct (get_counterexample_any _ _ _ _ Hcex) as (_ & _ & _ & _ & Hrc).
  destruct Hrc as [->|[[[core univ] ->]| ->]].
  - by rewrite (solve_iteration_no_counterexample _ _ _ _ _ _ Hcex) in Hpass.
  - destruct (decide (stalled s1 core univ)) as [Hst|Hst].
    { by rewrite (solve_iteration_stall _ _ _ _ _ _ _ Hcex Hst) in Hpass. }
    rewrite (solve_iteration_refine _ _ _ _ _ _ _ Hcex Hst) in Hpass.
    destruct (analyze_counterexample py_int core univ (remember core univ s1))
      as [ra s3] eqn:Han.
    destruct (analyze_counterexample_any _ _ _ _ _ _ Han) as (_ & _ & _ & Hra).
    destruct ra as [[]|err].
    + cbv zeta in Hpass. by destruct (oracle (events (expansion_solver s3)) []).
    + injection Hpass as -> _.
      by destruct Hra as [[[=] _]|(_ & err' & [= <-] & [?|?])].
  - by apply (get_counterexample_no_assert s s1 Hfun Hload).
Qed.

(** The stall test does not fire on a counterexample that is new. *)
Lemma pass_no_stall s H r s' :
  run_inv s H → stall_inv s H →
  solve_iteration py_int oracle false s = (r, s') → r ≠ Exc (SystemExit 1).
Proof.
  intros Hinv Hstall Hpass ->.
  destruct (get_counterexample oracle s) as [rc s1] eqn:Hcex.
  destruct (get_counterexample_any _ _ _ _ Hcex) as (_ & _ & _ & _ & Hrc).
  destruct Hrc as [->|[[[core univ] ->]| ->]].
  - by rewrite (solve_iteration_no_counterexample _ _ _ _ _ _ Hcex) in Hpass.
  - assert (¬ stalled s1 core univ) as Hst.
    { intros [He Hu].
      destruct (get_counterexample_fingerprint oracle s _ s1 Hcex) as [He' Hu'].
      rewrite He' in He. rewrite Hu' in Hu.
      destruct (Hstall _ _ He Hu) as (cx & Hcx & Hc1 & Hc2).
      by apply (counterexample_is_new oracle contract s H core univ s1 Hinv Hcex cx Hcx). }
    rewrite (solve_iteration_refine _ _ _ _ _ _ _ Hcex Hst) in Hpass.
    destruct (pass_refinement_succeeds py_int oracle contract s H core univ s1 Hinv Hcex)
      as [s3 Han].
    rewrite Han in Hpass. cbv zeta in Hpass.
    by destruct (oracle (events (expansion_solver s3)) []).
  - by rewrite (solve_iteration_error _ _ _ _ _ _ Hcex) in Hpass.
Qed.

(** A pass that falls through keeps the invariant of the loop and leaves
    the fingerprint of its counterexample. *)
Lemma pass_continues debug_enabled s H s' :
  run_inv s H →
  solve_iteration py_int oracle debug_enabled s = (Val None, s') →
  ∃ cx, run_inv s' (H ++ [cx]) ∧ stall_inv s' (H ++ [cx]).
Proof.
  intros Hinv Hpass.
  destruct (get_counterexample oracle s) as [rc s1] eqn:Hcex.
  destruct (get_counterexample_any _ _ _ _ Hcex) as (_ & _ & _ & _ & Hrc).
  destruct Hrc as [->|[[[core univ] ->]| ->]].
  - rewrite (solve_iteration_no_counterexample _ _ _ _ _ _ Hcex) in Hpass.
    destruct debug_enabled; [|done].
    by destruct (_enumerate_and_compute_model_functions oracle s1) as [[[]|]].
  - exists (core, univ).
    split; [by apply (pass_inv py_int oracle debug_enabled contract s H core univ s1)|].
    intros le lu Hle Hlu. exists (core, univ).
    split; [apply elem_of_app; right; by left|].
    destruct (pass_fingerprint py_int oracle debug_enabled s core univ s1 _ Hcex Hpass)
      as [He Hu].
    cbn. split; congruence.
  - by rewrite (solve_iteration_error _ _ _ _ _ _ Hcex) in Hpass.
Qed.

Hypothesis refutes : sat_refutes oracle.

Lemma pass_decides c0 s H r s' :
  run_inv s H → sound_inv c0 s → ids_below s c0 → matrix_total s c0 →
  matrix_functional s → matrix_loaded s → stall_inv s H →
  solve_iteration py_int oracle false s = (r, s') →
  (r = Val (Some true) ∧ winning s (model_function s')) ∨
  (r = Val (Some false) ∧ ¬ dqbf_true s) ∨
  (r = Val None ∧
   ∃ cx, run_inv s' (H ++ [cx]) ∧ sound_inv c0 s' ∧ same_formula s s' ∧
         stall_inv s' (H ++ [cx]) ∧ matrix_loaded s').
Proof.
  intros Hinv Hsound Hids Htotal Hfun Hload Hstall Hpass.
  destruct (pass_sound py_int oracle false contract refutes c0 s H r s'
              Hinv Hsound Hids Hpass) as (Hfalse & Htrue & Hnone).
  pose proof (pass_no_stall s H r s' Hinv Hstall Hpass) as Hns.
  pose proof (pass_no_assert s r s' Hfun Hload Hpass) as Hna.
  destruct (solve_iteration_any _ _ _ _ _ _ Hpass) as [Hgrows _].
  destruct (solve_iteration_contract py_int oracle false contract s H r s' Hinv Hpass)
    as [[b ->]|[[-> _]|[->| ->]]]; [| |done|done].
  - destruct b; [left|right; left]; auto.
  - right. right. split; [done|].
    destruct (Hnone eq_refl) as (cx & Hinv1 & Hsound1 & Hform & Hstall1).
    exists cx. do 4 (split; [done|]). by apply (matrix_loaded_grows s).
Qed.

Lemma solve_decides c0 fuel s H r s' :
  run_inv s H → sound_inv c0 s → ids_below s c0 → matrix_total s c0 →
  matrix_functional s → matrix_loaded s → stall_inv s H →
  solve py_int oracle false fuel s = (r, s') →
  r = Val None ∨
  (r = Val (Some true) ∧ winning s (model_function s')) ∨
  (r = Val (Some false) ∧ ¬ dqbf_true s).
Proof.
  revert s H. induction fuel as [|fuel IH];
    intros s H Hinv Hsound Hids Htotal Hfun Hload Hstall.
  { intros [= <- <-]. by left. }
  rewrite solve_unfold.
  destruct (solve_iteration py_int oracle false s) as [rp s1] eqn:Hpass.
  destruct (pass_decides c0 s H rp s1 Hinv Hsound Hids Htotal Hfun Hload Hstall Hpass)
    as [[-> Hwin]|[[-> Hno]|[-> (cx & Hinv1 & Hsound1 & Hform & Hstall1 & Hload1)]]].
  - intros [= <- <-]. auto.
  - intros [= <- <-]. auto.
  - intros Hrest.
    destruct (IH s1 (H ++ [cx]) Hinv1 Hsound1) as [->|[[-> Hwin]|[-> Hno]]];
      [by apply (ids_below_same_formula s s1)
      |by apply (matrix_total_same_formula s s1)
      |by apply (matrix_functional_same_formula s s1)
      |done..| | |].
    + by left.
    + right. left. split; [done|].
      apply (winning_same_formula s1 s); [by apply same_formula_sym|done].
    + right. right. split; [done|]. intros [f Hf]. apply Hno. exists f.
      by apply (winning_same_formula s s1).
Qed.
End decision.

(** * The claims *)

(** C1 (the code departs from it).  [set_default_value] does not set the sign
    of the stored value literal from [v] alone: it keeps the stored literal
    when [v] is [True] and negates it when [v] is [False], whatever its sign
    was.  On the freshly constructed solver of scenario 3 the value literal
    of [e = 2] is [4]; after [set_default_value(2, False)] twice it is [4]
    again, a positive literal for the default [False], and a following
    [set_default_value(2, True)] on a negative literal leaves it negative. *)
Theorem set_default_value_sign_depends_on_stored_sign :
  let once := (set_default_value 2 false Linear.solver).2 in
  let twice := (set_default_value 2 false once).2 in
  let then_true := (set_default_value 2 true once).2 in
  Dict.get (value_vars Linear.solver) 2 = Some 4 ∧
  Dict.get (value_vars once) 2 = Some (-4) ∧
  Dict.get (value_vars twice) 2 = Some 4 ∧
  Dict.get (value_vars then_true) 2 = Some (-4).
Proof. by vm_compute. Qed.

(** C5.  Expansion interning is canonical and idempotent.  Let [a] be an
    assignment (one literal per variable) and [a'] a permutation of it.  If
    [get_expansion_variable(e, a)] returns [x] from a state [s], then from
    [s] the call with [a'] returns the same [x], and from the state [s1]
    the first call leaves behind, calls with [a] and with [a'] return [x]
    again and leave [s1] exactly as it is: no id allocated, no rule, no
    clause. *)
Theorem get_expansion_variable_canonical_idempotent
    (py_int : string → option Z) (e : Z) (a a' : list Z) (s s1 : DQBFSolver) (x : Z) :
  NoDup (Z.abs <$> a) → a' ≡ₚ a →
  get_expansion_variable py_int e a s = (Val x, s1) →
  (get_expansion_variable py_int e a' s).1 = Val x ∧
  get_expansion_variable py_int e a s1 = (Val x, s1) ∧
  get_expansion_variable py_int e a' s1 = (Val x, s1).
Proof.
  intros Hnd Hperm Hrun.
  pose proof (sorted_by_abs_canonical a a' Hnd Hperm) as Hkey.
  destruct (get_expansion_variable_val _ _ _ _ _ _ Hrun) as (He & Hin & Hcase).
  assert (∀ lit, lit ∈ a' → Z.abs lit ∈ dep_set_of s e) as Hin'.
  { intros lit Hl. apply Hin. by rewrite <- Hperm. }
  destruct Hcase as [[Hx ->]|(Hx & (Hv & Hp & Hf) & ->)].
  - rewrite (get_expansion_variable_known _ _ a' _ x), (get_expansion_variable_known _ _ a _ x);
      rewrite ?Hkey; done.
  - destruct Hv as [cur Hv], Hp as [prev Hp], Hf as [fire Hf].
    destruct (get_expansion_variable_fresh py_int e a' s cur prev fire)
      as (s1' & Hrun' & _); [rewrite ?Hkey; done..|].
    rewrite Hrun'. split; [done|].
    destruct (get_expansion_variable_fresh py_int e a s cur prev fire)
      as (s1'' & Hrun'' & Hform & Hev & _); [done..|].
    rewrite Hrun in Hrun''. injection Hrun'' as <-.
    destruct Hform as (_&_&_&_&_&_&_&Hids&Hdeps&_).
    assert (dep_set_of s1 e = dep_set_of s e) as Hd by (unfold dep_set_of; by rewrite Hdeps).
    rewrite (get_expansion_variable_known _ _ a' _ (counter s + 1)),
            (get_expansion_variable_known _ _ a _ (counter s + 1));
      rewrite ?Hkey, ?Hev, ?Hids, ?Hd, ?lookup_insert_eq; done.
Qed.

Lemma get_expansion_variable_canonical_idempotent_witness :
  let s := TwoDeps.solver in
  let r := get_expansion_variable int_of_digits 3 [1; -2] s in
  (get_expansion_variable int_of_digits 3 [-2; 1] s).1 = Val 8 ∧
  get_expansion_variable int_of_digits 3 [1; -2] r.2 = (Val 8, r.2) ∧
  get_expansion_variable int_of_digits 3 [-2; 1] r.2 = (Val 8, r.2).
Proof.
  apply (get_expansion_variable_canonical_idempotent int_of_digits 3 [1; -2] [-2; 1]
           TwoDeps.solver).
  - apply (bool_decide_unpack _). vm_compute. exact I.
  - apply Permutation_swap.
  - vm_compute. reflexivity.
Defined.

(** C8.  A call of [get_expansion_variable(e, a)] whose list [a] contains a
    literal with a variable outside [D(e)] raises [ValueError] and leaves the
    object exactly as it was: the counter, the registry, the id set, both
    solvers and every map are those of the state before the call. *)
Theorem get_expansion_variable_outside_dependencies
    (py_int : string → option Z) (e : Z) (a : list Z) (s : DQBFSolver) :
  (∃ lit, lit ∈ a ∧ Z.abs lit ∉ dep_set_of s e) →
  get_expansion_variable py_int e a s = (Exc ValueError, s).
Proof. intros (lit & Hlit & Hout). by eapply get_expansion_variable_outside. Qed.

Lemma get_expansion_variable_outside_dependencies_witness :
  get_expansion_variable int_of_digits 2 [1; -3] Linear.solver =
  (Exc ValueError, Linear.solver).
Proof.
  apply (get_expansion_variable_outside_dependencies int_of_digits 2 [1; -3]
           Linear.solver).
  exists (-3). split.
  - apply (bool_decide_unpack _). vm_compute. exact I.
  - apply (bool_decide_unpack _). vm_compute. exact I.
Defined.

(** C9.  When the constructor returns a solver, every id in
    [existential_var_ids] has an entry in [value_vars], [no_rule_fired_vars]
    and [rule_fire_vars]; so on that solver [set_default_value] and
    [add_rule] for such an id do not take the branch that raises for an
    uninitialized existential: both return normally. *)
Theorem constructor_initializes_existentials
    (n2i : gmap string Z) (i2n : gmap Z string)
    (deps : list (string * list string)) (mat : list clause)
    (univs : list string) (g : Z) (c : option Counter.t) (order : list string)
    (s : DQBFSolver) :
  __init__ n2i i2n deps mat univs g c order = Val s →
  ∀ e, e ∈ existential_var_ids s →
    initialized s e ∧
    (∀ v, ∃ s', set_default_value e v s = (Val tt, s')) ∧
    (∀ py_int premise conclusion value_var,
       ∃ s', add_rule py_int e premise conclusion value_var s = (Val tt, s')).
Proof.
  unfold __init__. intros Hinit e He.
  destruct (ids_of n2i univs) as [uids|]; [|done].
  destruct (ids_of n2i order) as [eids|]; [|done].
  destruct (convert_dependencies n2i deps ∅ ∅) as [[by_id by_list]|]; [|done].
  match type of Hinit with
  | context [for_each _ _ ?s0] => set (start := s0) in *
  end.
  destruct (for_each eids init_model start) as [[r|err] s1] eqn:Hrun; [|done].
  simplify_eq.
  destruct (for_each_init_model eids start r s) as (Hform & _ & Hall & _); [|done|].
  { intros e' [v Hv]. by cbn in Hv. }
  destruct Hform as (_&_&_&_&_&_&_&Hids&_).
  assert (initialized s e) as Hi by (apply Hall; by rewrite Hids in He).
  split; [done|]. destruct Hi as ([cur Hcur] & [prev Hprev] & [fire Hfire]). split.
  - intros v. rewrite (set_default_value_run _ _ _ cur) by done. eauto.
  - intros py_int premise conclusion value_var.
    destruct (add_rule_run py_int e premise conclusion value_var s cur prev fire)
      as (s' & Hs' & _); eauto.
Qed.

Lemma constructor_initializes_existentials_witness :
  initialized Linear.solver 2 ∧
  (∀ v, ∃ s', set_default_value 2 v Linear.solver = (Val tt, s')) ∧
  (∀ py_int premise conclusion value_var,
     ∃ s', add_rule py_int 2 premise conclusion value_var Linear.solver = (Val tt, s')).
Proof.
  apply (constructor_initializes_existentials Linear.name_to_id Linear.id_to_name
           Linear.dependencies Linear.matrix ["u"] 3 None ["e"] Linear.solver).
  - vm_compute. reflexivity.
  - apply (bool_decide_unpack _). vm_compute. exact I.
Defined.

(** C2 (as stated, refuted).  The claim says that whenever the first query
    is satisfiable the method returns a counterexample.  On the solver for
    an unconstrained output gate the first query, under the assumptions
    [[-1]], is satisfiable, and so is the verification query: the method
    raises [AssertionError] and returns nothing. *)
Lemma get_counterexample_returns_counterexample :
  let s := Unconstrained.solver in
  assumptions_step1 s = [-1] ∧
  exhaustive_oracle (events (counterexample_solver s)) [-1] = Sat [-1] ∧
  (get_counterexample exhaustive_oracle s).1 = Exc AssertionError ∧
  ¬ ∃ cex, (get_counterexample exhaustive_oracle s).1 = Val (true, Some cex).
Proof.
  repeat split; try by vm_compute.
  intros [cex Hcex]. vm_compute in Hcex. discriminate.
Qed.

(** C2 (amended).  [get_counterexample] first solves the counterexample
    solver under exactly the negated output gate, the permanent assumptions,
    the current fire variable and the current signed value variable of every
    existential with decision-list state, and the stored expansion-variable
    assignment, in this order.  If that query is UNSAT it returns
    [(False, None)].  Otherwise it solves again under the model's projections
    to the universal and to the existential ids and the output gate; if this
    verification query is UNSAT it returns [(True, (exist_core,
    universal_assignment))], the core filtered to existential ids and the
    model's projection to universal ids; if it is SAT the method raises
    [AssertionError].  The solver receives these queries and nothing else. *)
Theorem get_counterexample_outcome (oracle : sat_oracle) (s : DQBFSolver) :
  let cs := counterexample_solver s in
  let a1 :=
    [- output_gate_id s] ++ permanent_assumptions s ++
    Dict.values (rule_fire_vars s) ++ Dict.values (value_vars s) ++
    expansion_variable_assignment s in
  (∀ e fire value,
     Dict.get (rule_fire_vars s) e = Some fire →
     Dict.get (value_vars s) e = Some value → fire ∈ a1 ∧ value ∈ a1) ∧
  match oracle (events cs) a1 with
  | Unsat c1 =>
      get_counterexample oracle s =
      (Val (false, None),
       set_counterexample_solver
         (mkSAT (events cs ++ [Solve a1]) (Some (Unsat c1))) s)
  | Sat model =>
      let universal_assignment := filter (λ lit, Z.abs lit ∈ universal_var_ids s) model in
      let existential_assignment :=
        filter (λ lit, Z.abs lit ∈ existential_var_ids s) model in
      let a2 := universal_assignment ++ existential_assignment ++ [output_gate_id s] in
      match oracle (events cs ++ [Solve a1]) a2 with
      | Unsat core =>
          let exist_core :=
            filter (λ lit, Z.abs lit ∈ existential_var_ids s) (default [] core) in
          get_counterexample oracle s =
          (Val (true, Some (exist_core, universal_assignment)),
           set_counterexample_solver
             (mkSAT (events cs ++ [Solve a1; Solve a2]) (Some (Unsat core))) s)
      | Sat m2 =>
          get_counterexample oracle s =
          (Exc AssertionError,
           set_counterexample_solver
             (mkSAT (events cs ++ [Solve a1; Solve a2]) (Some (Sat m2))) s)
      end
  end.
Proof.
  intros cs a1. split.
  - intros e fire value Hf%dict_get_values Hv%dict_get_values. subst a1.
    rewrite !elem_of_app. split; auto 10.
  - pose proof (get_counterexample_cases oracle s) as H. cbv zeta in H.
    change (assumptions_step1 s) with a1 in H. fold cs in H.
    destruct (oracle (events cs) a1) as [model|c1]; [|exact H].
    cbv zeta. by destruct (oracle _ _).
Qed.

Lemma get_counterexample_outcome_witness :
  (6 ∈ assumptions_step1 Linear.solver ∧ 4 ∈ assumptions_step1 Linear.solver) ∧
  get_counterexample exhaustive_oracle Linear.solver =
  (Val (true, Some ([2], [-1])), (get_counterexample exhaustive_oracle Linear.solver).2).
Proof.
  pose proof (get_counterexample_outcome exhaustive_oracle Linear.solver) as [Hin H].
  split.
  - apply (Hin 2 6 4); vm_compute; reflexivity.
  - vm_compute in H. vm_compute. exact H.
Defined.



(** C4 (as stated, refuted).  The claim splits every pass of the loop into
    three outcomes.  With DEBUG logging enabled, on the solver whose matrix
    forces a universal, [get_counterexample] reports no counterexample and
    yet the loop does not return [True]: the model-function check exits with
    status 1.  With logging disabled, on the solver for an unconstrained
    output gate the pass neither returns nor stores an expansion assignment:
    the verification assertion fails. *)
Lemma solve_pass_has_three_outcomes :
  (get_counterexample exhaustive_oracle Forced.solver).1 = Val (false, None) ∧
  (solve_iteration int_of_digits exhaustive_oracle true Forced.solver).1
    = Exc (SystemExit 1) ∧
  (solve int_of_digits exhaustive_oracle true 1 Forced.solver).1 ≠ Val (Some true) ∧
  (solve_iteration int_of_digits exhaustive_oracle false Unconstrained.solver).1
    = Exc AssertionError.
Proof. repeat split; by vm_compute. Qed.

(** C4 (amended).  One pass of the driver loop, and the loop around it:
    - if the pass returns [True], [get_counterexample] reported no
      counterexample; with DEBUG logging disabled the converse holds too;
    - the pass returns [False] exactly when [get_counterexample] reported a
      counterexample that is not a stall, refinement completed, and the
      expansion solver's [solve()] was UNSAT;
    - the pass falls through to the next one exactly when refinement
      completed and the expansion solver was SAT, and then the stored
      expansion assignment is that model projected to the expansion ids;
    - the loop returns what the first returning pass returns and carries the
      state of a pass that falls through into the next pass.
    A stall, a failed verification assertion and the DEBUG-mode check are
    the remaining outcomes; they abort. *)
Theorem solve_pass_outcomes
    (py_int : string → option Z) (oracle : sat_oracle) (debug_enabled : bool)
    (s : DQBFSolver) :
  let pass := solve_iteration py_int oracle debug_enabled in
  let refined core univ s1 s3 :=
    get_counterexample oracle s = (Val (true, Some (core, univ)), s1) ∧
    ¬ stalled s1 core univ ∧
    analyze_counterexample py_int core univ (remember core univ s1) = (Val tt, s3) in
  let solved s3 :=
    set_expansion_solver
      (mkSAT (events (expansion_solver s3) ++ [Solve []])
             (Some (oracle (events (expansion_solver s3)) []))) s3 in
  ((pass s).1 = Val (Some true) →
     (get_counterexample oracle s).1 = Val (false, None)) ∧
  (debug_enabled = false →
     ∀ cx, (get_counterexample oracle s).1 = Val (false, cx) →
     (pass s).1 = Val (Some true)) ∧
  (∀ s', pass s = (Val (Some false), s') ↔
     ∃ core univ s1 s3 c,
       refined core univ s1 s3 ∧
       oracle (events (expansion_solver s3)) [] = Unsat c ∧ s' = solved s3) ∧
  (∀ s', pass s = (Val None, s') ↔
     ∃ core univ s1 s3 model,
       refined core univ s1 s3 ∧
       oracle (events (expansion_solver s3)) [] = Sat model ∧
       s' = set_expansion_variable_assignment
              (filter (λ lit, Z.abs lit ∈ expansion_vars_set s3) model) (solved s3)) ∧
  (∀ n, solve py_int oracle debug_enabled (S n) s =
        match pass s with
        | (Val (Some b), s') => (Val (Some b), s')
        | (Val None, s') => solve py_int oracle debug_enabled n s'
        | (Exc e, s') => (Exc e, s')
        end).
Proof.
  intros pass refined solved. subst pass.
  match goal with
  | |- ?A ∧ ?B ∧ ?C ∧ ?D ∧ _ =>
      assert (A ∧ B ∧ C ∧ D) as H4;
        [| destruct H4 as (?&?&?&?); split_and!; try done;
           intros; apply solve_unfold]
  end.
  destruct (get_counterexample oracle s) as [[[b cx]|err] s1] eqn:Hcex; cycle 1.
  { rewrite (solve_iteration_error _ _ _ _ _ _ Hcex).
    repeat split; try done.
    all: intros (?&?&?&?&?&(?&?&?)&?); simplify_eq; congruence. }
  destruct b; cycle 1.
  { (* no counterexample *)
    assert (cx = None) as ->.
    { destruct cx as [cx|]; [|done]. exfalso. revert Hcex.
      pose proof (get_counterexample_cases oracle s) as H. cbv zeta in H.
      destruct (oracle _ _); [destruct (oracle _ _)|]; rewrite H; done. }
    rewrite (solve_iteration_no_counterexample _ _ _ _ _ _ Hcex).
    destruct debug_enabled.
    - destruct (_enumerate_and_compute_model_functions oracle s1) as [[[]|err] s2].
      all: repeat split; try done.
      all: intros (?&?&?&?&?&(?&?&?)&?); simplify_eq; congruence.
    - repeat split; try done.
      all: intros (?&?&?&?&?&(?&?&?)&?); simplify_eq; congruence. }
  destruct cx as [[core univ]|]; cycle 1.
  { rewrite (solve_iteration_unpack_none _ _ _ _ _ Hcex).
    repeat split; try done.
    all: intros (?&?&?&?&?&(?&?&?)&?); simplify_eq; congruence. }
  destruct (decide (stalled s1 core univ)) as [Hst|Hst].
  { rewrite (solve_iteration_stall _ _ _ _ _ _ _ Hcex Hst).
    repeat split; try done.
    all: intros (?&?&?&?&?&(?&?&?)&?); simplify_eq; congruence. }
  rewrite (solve_iteration_refine _ _ _ _ _ _ _ Hcex Hst).
  destruct (analyze_counterexample py_int core univ (remember core univ s1))
    as [[[]|err] s3] eqn:Han; cycle 1.
  { repeat split; try done.
    all: intros (?&?&?&?&?&(?&?&?)&?); simplify_eq; congruence. }
  cbv zeta.
  destruct (oracle (events (expansion_solver s3)) []) as [model|c] eqn:Ho.
  - repeat split; try done.
    + intros (?&?&?&?&?&(?&?&Han')&?&?). simplify_eq.
      rewrite Han in Han'. simplify_eq. congruence.
    + intros [= <-]. exists core, univ, s1, s3, model.
      subst refined solved. cbn beta. by rewrite Ho.
    + intros (?&?&?&?&?&(?&?&Han')&?&?). simplify_eq.
      rewrite Han in Han'. subst solved. simplify_eq. cbn beta.
      rewrite Ho. congruence.
  - repeat split; try done.
    + intros [= <-]. exists core, univ, s1, s3, c.
      subst refined solved. cbn beta. by rewrite Ho.
    + intros (?&?&?&?&?&(?&?&Han')&?&?). simplify_eq.
      rewrite Han in Han'. subst solved. simplify_eq. cbn beta.
      by rewrite Ho.
    + intros (?&?&?&?&?&(?&?&Han')&?&?). simplify_eq.
      rewrite Han in Han'. simplify_eq. congruence.
Qed.

Lemma solve_pass_outcomes_witness :
  (solve_iteration int_of_digits exhaustive_oracle false Forced.solver).1
  = Val (Some true).
Proof.
  pose proof (solve_pass_outcomes int_of_digits exhaustive_oracle false Forced.solver)
    as (_ & H & _).
  apply (H eq_refl None). vm_compute. reflexivity.
Defined.

(** C6.  The equivalence detector is the pair check run, in order, over the
    candidate pairs, followed by reading off the classes.  Every candidate
    pair consists of two existentials whose dependency lists have the same
    length.  For a candidate pair [(e1, e2)] the check first asks the
    union-find structure whether the two are in one class; if so it does
    nothing more.  Otherwise it takes the next id [a] from the counter as
    activation literal, adds to the detection solver the guarded positionwise
    equivalences of the two dependency lists followed by the two guarded
    difference clauses, solves under the assumptions [[a, g]], and calls
    [union(e1, e2)] exactly when the answer is UNSAT.  Asked again on the
    structure a check left behind, [same_set] gives the answer it gave; and
    on the structure a successful [union(e1, e2)] leaves behind, [e1] and
    [e2] are in one class (with room for three nested calls of [find]). *)
Theorem detect_equivalent_existentials_pairs
    (oracle : sat_oracle) (recursion_limit : nat) (s : DQBFSolver) :
  detect_equivalent_existentials oracle recursion_limit s =
    (let '(r, f) :=
       bind (for_each (candidate_pairs s)
               (λ p, check_pair oracle recursion_limit p.1 p.2))
            (λ _, lift_uf (UnionFind.get_classes recursion_limit))
            (mkFrame s (Sat.bootstrap_with (matrix s))
                     (UnionFind.init (existential_var_ids s))) in
     (r, self f)) ∧
  (∀ e1 e2, (e1, e2) ∈ candidate_pairs s →
     e1 ∈ existential_var_ids s ∧ e2 ∈ existential_var_ids s ∧
     length (dep_list_of s e1) = length (dep_list_of s e2)) ∧
  (∀ e1 e2 (f : DetectFrame),
     let ds := detection_solver f in
     match UnionFind.same_set recursion_limit e1 e2 (uf f) with
     | (Exc e, u) =>
         check_pair oracle recursion_limit e1 e2 f = (Exc e, mkFrame (self f) ds u)
     | (Val true, u) =>
         check_pair oracle recursion_limit e1 e2 f = (Val tt, mkFrame (self f) ds u)
     | (Val false, u) =>
         let a := counter (self f) + 1 in
         let cls :=
           pair_clauses a e1 e2 (dep_list_of (self f) e1) (dep_list_of (self f) e2) in
         let evs := events ds ++ (AddClause <$> cls) in
         let assumptions := [a; output_gate_id (self f)] in
         let answer := oracle evs assumptions in
         let ds' := mkSAT (evs ++ [Solve assumptions]) (Some answer) in
         match answer with
         | Unsat _ =>
             check_pair oracle recursion_limit e1 e2 f =
             (let '(r, u') := UnionFind.union recursion_limit e1 e2 u in
              (r, mkFrame (set_counter a (self f)) ds' u'))
         | Sat _ =>
             check_pair oracle recursion_limit e1 e2 f =
             (Val tt, mkFrame (set_counter a (self f)) ds' u)
         end
     end) ∧
  (∀ e1 e2 u b u',
     UnionFind.same_set recursion_limit e1 e2 u = (Val b, u') →
     (UnionFind.same_set recursion_limit e1 e2 u').1 = Val b) ∧
  ((3 ≤ recursion_limit)%nat →
   ∀ e1 e2 u u',
     UnionFind.union recursion_limit e1 e2 u = (Val tt, u') →
     (UnionFind.same_set recursion_limit e1 e2 u').1 = Val true).
Proof.
  split_and!.
  - unfold detect_equivalent_existentials.
    by rewrite detect_frame_candidate_pairs.
  - apply candidate_pairs_spec.
  - intros e1 e2 f. apply check_pair_outcome.
  - intros e1 e2 u b u' Hsame.
    by destruct (same_set_stable _ _ _ _ _ _ Hsame) as [u'' ->].
  - intros Hlimit e1 e2 u u' Hunion.
    by destruct (union_same_set _ _ _ _ _ Hlimit Hunion) as [u'' ->].
Qed.

Lemma detect_equivalent_existentials_pairs_witness :
  candidate_pairs Twins.solver = [(2, 3)] ∧
  length (dep_list_of Twins.solver 2) = length (dep_list_of Twins.solver 3) ∧
  (detect_equivalent_existentials exhaustive_oracle 10 Twins.solver).1 =
  Val [(2, [2; 3])] ∧
  (UnionFind.same_set 10 2 3 (UnionFind.union 10 2 3 (UnionFind.init [2; 3])).2).1 =
  Val true.
Proof.
  pose proof (detect_equivalent_existentials_pairs exhaustive_oracle 10 Twins.solver)
    as (Hrun & Hpairs & _ & _ & Hunion).
  split; [by vm_compute|]. split; [|split].
  - apply (Hpairs 2 3). apply (bool_decide_unpack _). vm_compute. exact I.
  - rewrite Hrun. vm_compute. reflexivity.
  - apply (Hunion ltac:(lia) 2 3 (UnionFind.init [2; 3])). vm_compute. reflexivity.
Defined.

(** C10.  [detect_equivalent_existentials] leaves the solver object as it
    was except for the counter, which does not go down: the counterexample
    solver and the expansion solver (clauses and state), the value,
    no-rule-fired and fire maps, the permanent assumptions and the expansion
    registry are those of the state before the call, whatever the outcome.
    The clauses it adds go to its own solver, created from the matrix. *)
Theorem detect_equivalent_existentials_frame
    (oracle : sat_oracle) (recursion_limit : nat) (s : DQBFSolver) :
  let s' := (detect_equivalent_existentials oracle recursion_limit s).2 in
  s' = set_counter (counter s') s ∧ counter s ≤ counter s' ∧
  counterexample_solver s' = counterexample_solver s ∧
  expansion_solver s' = expansion_solver s ∧
  value_vars s' = value_vars s ∧
  no_rule_fired_vars s' = no_rule_fired_vars s ∧
  rule_fire_vars s' = rule_fire_vars s ∧
  permanent_assumptions s' = permanent_assumptions s ∧
  expansion_vars s' = expansion_vars s ∧
  expansion_vars_set s' = expansion_vars_set s.
Proof.
  intros s'.
  assert (only_counter_advanced s s') as [Heq Hle].
  { subst s'. unfold detect_equivalent_existentials.
    pose proof (frames_self_detect_frame oracle recursion_limit
                  (mkFrame s (Sat.bootstrap_with (matrix s))
                           (UnionFind.init (existential_var_ids s)))) as H.
    cbn [self] in H. by destruct (detect_frame _ _ _). }
  split; [done|]. split; [done|]. rewrite Heq. done.
Qed.

(** C7.  Let the SAT service meet its contract (a model is an assignment
    that satisfies the clauses and the assumptions and covers every known
    variable; a core is a subset of the assumptions), and let the solver be
    constructed from a formula whose universal ids are positive and not above
    a supplied counter, and whose output gate is not an existential
    variable.  Then, however many passes the driver loop makes, no two of
    the counterexamples [get_counterexample] returns have the same
    existential core and the same universal assignment.  And for any SAT
    service and any state: if a pass falls through and the next
    [get_counterexample] returns the same counterexample again, the next
    pass does not continue but exits with status 1. *)
Theorem no_repeated_counterexample
    (py_int : string → option Z) (oracle : sat_oracle) (debug_enabled : bool)
    (n2i : gmap string Z) (i2n : gmap Z string)
    (deps : list (string * list string)) (mat : list clause)
    (univs : list string) (g : Z) (c : option Counter.t) (order : list string)
    (s0 : DQBFSolver) (fuel : nat) :
  sat_contract oracle →
  __init__ n2i i2n deps mat univs g c order = Val s0 →
  (∀ u, u ∈ universal_var_ids s0 → 1 ≤ u) →
  (∀ c0, c = Some c0 → 0 ≤ c0 ∧ ∀ u, u ∈ universal_var_ids s0 → u ≤ c0) →
  Z.abs g ∉ existential_var_ids s0 →
  no_repeats (counterexamples py_int oracle debug_enabled fuel s0) ∧
  (∀ (any_oracle : sat_oracle) s cx s1 s' cx' s1',
     get_counterexample any_oracle s = (Val (true, Some cx), s1) →
     solve_iteration py_int any_oracle debug_enabled s = (Val None, s') →
     get_counterexample any_oracle s' = (Val (true, Some cx'), s1') →
     same_counterexample cx cx' →
     solve_iteration py_int any_oracle debug_enabled s' = (Exc (SystemExit 1), s1')).
Proof.
  intros Hcontract Hinit Hpos Hcounter Hgate. split.
  - destruct (universals_below_start _ _ _ _ _ _ _ _ _ Hinit Hcounter) as [Hc0 Hle].
    assert (run_inv s0 []) as Hinv.
    { eapply constructor_run_inv; [exact Hinit| |done..].
      intros u Hu. split; [by apply Hpos | by apply Hle]. }
    by apply (counterexamples_new py_int oracle debug_enabled Hcontract fuel s0 []).
  - intros any_oracle s cx s1 s' cx' s1'. apply consecutive_repeat_aborts.
Qed.

Lemma no_repeated_counterexample_witness :
  counterexamples int_of_digits exhaustive_oracle false 5 Linear.solver
    = [([2], [-1]); ([-2], [1])] ∧
  no_repeats (counterexamples int_of_digits exhaustive_oracle false 5 Linear.solver).
Proof.
  split; [by vm_compute|].
  refine (proj1 (no_repeated_counterexample int_of_digits exhaustive_oracle false
                   Linear.name_to_id Linear.id_to_name Linear.dependencies
                   Linear.matrix ["u"] 3 None ["e"] Linear.solver 5 _ _ _ _ _)).
  - exact exhaustive_oracle_contract.
  - vm_compute. reflexivity.
  - intros u Hu. apply (bool_decide_unpack _). revert u Hu.
    apply Forall_forall. apply (bool_decide_unpack _). vm_compute. exact I.
  - intros c0 Hc0. discriminate Hc0.
  - apply (bool_decide_unpack _). vm_compute. exact I.
Defined.

(** * Further properties of the code *)

(** ** The decision-list encoder *)

(** X1.  [init_model] guards: for an id that is not in [existential_var_ids]
    it raises [ValueError] and leaves the object as it was; and it is
    idempotent: called again after a successful call it returns without
    allocating an id or adding a clause. *)
Theorem init_model_guards (e : Z) (s : DQBFSolver) :
  (e ∉ existential_var_ids s → init_model e s = (Exc ValueError, s)) ∧
  (∀ s1, init_model e s = (Val tt, s1) → init_model e s1 = (Val tt, s1)).
Proof.
  split; [apply init_model_not_existential|]. intros s1 Hrun.
  destruct (decide (e ∈ existential_var_ids s)) as [He|He]; cycle 1.
  { by rewrite init_model_not_existential in Hrun. }
  destruct (Dict.get (value_vars s) e) as [v|] eqn:Hv.
  { rewrite init_model_again in Hrun by eauto. simplify_eq.
    apply init_model_again; eauto. }
  destruct (init_model_fresh e s He Hv) as (s' & Hrun' & Hform & _ & _ & Hvv & _).
  rewrite Hrun in Hrun'. injection Hrun' as <-.
  destruct Hform as (_&_&_&_&_&_&_&Hids&_).
  apply init_model_again; [by rewrite Hids|]. rewrite Hvv, dict_get_set_eq. eauto.
Qed.

Lemma init_model_guards_witness :
  init_model 7 Bare.solver = (Exc ValueError, Bare.solver) ∧
  init_model 2 Linear.solver = (Val tt, Linear.solver).
Proof.
  destruct (init_model_guards 7 Bare.solver) as [Herr _].
  destruct (init_model_guards 2 Bare.solver) as [_ Hagain].
  split.
  - apply Herr. apply (bool_decide_unpack _). vm_compute. exact I.
  - apply (Hagain Linear.solver). vm_compute. reflexivity.
Defined.

(** X2.  The clauses [init_model] adds for a new existential [e] make its
    decision list a single default: the fresh ids [c+1], [c+2], [c+3] become
    the value, no-rule-fired and fire variables of [e], and every assignment
    that satisfies the clauses of the counterexample solver makes the
    no-rule-fired variable true and, when it makes the fire variable true,
    gives [e] the value of the value variable. *)
Theorem init_model_installs_default (e : Z) (s s' : DQBFSolver) :
  e ∈ existential_var_ids s → Dict.get (value_vars s) e = None →
  init_model e s = (Val tt, s') →
  counter s' = counter s + 3 ∧
  Dict.get (value_vars s') e = Some (counter s + 1) ∧
  Dict.get (no_rule_fired_vars s') e = Some (counter s + 2) ∧
  Dict.get (rule_fire_vars s') e = Some (counter s + 3) ∧
  Sat.clauses (counterexample_solver s') =
    Sat.clauses (counterexample_solver s) ++ init_clauses e (counter s) ∧
  ∀ M, good_model s' M →
    good_model s M ∧ counter s + 2 ∈ M ∧
    (counter s + 3 ∈ M → (e ∈ M ↔ counter s + 1 ∈ M)).
Proof.
  intros He Hv Hrun.
  destruct (init_model_fresh e s He Hv)
    as (s1 & Hrun1 & _ & _ & Hc & Hvv & Hnrf & Hrf & _ & Hev & _).
  rewrite Hrun in Hrun1. injection Hrun1 as <-.
  rewrite Hvv, Hnrf, Hrf, !dict_get_set_eq. do 4 (split; [done|]). split.
  { unfold Sat.clauses. by rewrite Hev, omap_app. }
  intros M HM. split.
  { apply (good_model_mono s s'); [|done]. intros c Hc'.
    rewrite Hev, elem_of_app. by left. }
  apply init_clauses_semantics; [apply HM|].
  intros cl Hcl. apply (proj2 HM). rewrite Hev, elem_of_app. right.
  by apply list_elem_of_fmap_2.
Qed.

Lemma init_model_installs_default_witness :
  let M := [-1; -2; 3; -4; 5; 6] in
  good_model Linear.solver M ∧ 5 ∈ M ∧ (6 ∈ M → (2 ∈ M ↔ 4 ∈ M)).
Proof.
  intros M.
  assert (good_model Linear.solver M) as HM by (apply good_modelb_sound; by vm_compute).
  split; [done|].
  destruct (init_model_installs_default 2 Bare.solver Linear.solver)
    as (_ & _ & _ & _ & _ & Hsem).
  - apply (bool_decide_unpack _). vm_compute. exact I.
  - vm_compute. reflexivity.
  - vm_compute. reflexivity.
  - apply (Hsem M HM).
Defined.

(** X3.  On an initialized existential [set_default_value] touches nothing
    but the entry [value_vars[e]], whose magnitude it keeps; with [True] it
    leaves the object exactly as it was, and with [False] it is an
    involution: a second call restores the object. *)
Theorem set_default_value_only_flips (e : Z) (v : bool) (s : DQBFSolver) (cur : Z) :
  Dict.get (value_vars s) e = Some cur →
  ∃ s' cur',
    set_default_value e v s = (Val tt, s') ∧
    s' = set_value_vars (value_vars s') s ∧
    Dict.keys (value_vars s') = Dict.keys (value_vars s) ∧
    (∀ e', e' ≠ e → Dict.get (value_vars s') e' = Dict.get (value_vars s) e') ∧
    Dict.get (value_vars s') e = Some cur' ∧ Z.abs cur' = Z.abs cur ∧
    (v = true → s' = s) ∧
    (v = false → set_default_value e false s' = (Val tt, s)).
Proof.
  intros Hcur. rewrite (set_default_value_run e v s cur Hcur).
  eexists _, (if v then cur else - cur). split; [done|].
  split; [done|]. split; [apply dict_keys_set; eauto|]. split.
  { intros e' Hne. by apply dict_get_set_ne. }
  split; [apply dict_get_set_eq|]. split; [destruct v; lia|]. split.
  - intros ->. by rewrite dict_set_same, set_value_vars_same.
  - intros ->. rewrite (set_default_value_run e false _ (- cur)).
    + cbn [value_vars set_value_vars].
      rewrite dict_set_set, Z.opp_involutive, dict_set_same by done.
      rewrite set_value_vars_twice. by rewrite set_value_vars_same.
    + apply dict_get_set_eq.
Qed.

Lemma set_default_value_only_flips_witness :
  ∃ s' cur',
    set_default_value 2 false Linear.solver = (Val tt, s') ∧
    s' = set_value_vars (value_vars s') Linear.solver ∧
    Dict.keys (value_vars s') = Dict.keys (value_vars Linear.solver) ∧
    (∀ e', e' ≠ 2 → Dict.get (value_vars s') e' = Dict.get (value_vars Linear.solver) e') ∧
    Dict.get (value_vars s') 2 = Some cur' ∧ Z.abs cur' = Z.abs 4 ∧
    (false = true → s' = Linear.solver) ∧
    (false = false → set_default_value 2 false s' = (Val tt, Linear.solver)).
Proof.
  apply (set_default_value_only_flips 2 false Linear.solver 4).
  vm_compute. reflexivity.
Defined.

(** X4.  An existential without a value variable is rejected by both
    mutators of the decision list: [set_default_value] and [add_rule] raise
    [ValueError] before any mutation, whatever their other arguments. *)
Theorem uninitialized_existential_rejected
    (py_int : string → option Z) (e : Z) (s : DQBFSolver) :
  Dict.get (value_vars s) e = None →
  (∀ v, set_default_value e v s = (Exc ValueError, s)) ∧
  (∀ premise conclusion value_var,
     add_rule py_int e premise conclusion value_var s = (Exc ValueError, s)).
Proof.
  intros Hv. split.
  - intros v. by apply set_default_value_uninitialized.
  - intros premise conclusion value_var. by apply add_rule_uninitialized.
Qed.

Lemma uninitialized_existential_rejected_witness :
  (∀ v, set_default_value 2 v Bare.solver = (Exc ValueError, Bare.solver)) ∧
  (∀ premise conclusion value_var,
     add_rule int_of_digits 2 premise conclusion value_var Bare.solver =
     (Exc ValueError, Bare.solver)).
Proof.
  apply (uninitialized_existential_rejected int_of_digits 2 Bare.solver).
  vm_compute. reflexivity.
Defined.



(** X6.  [add_rule] without a [value_var] fixes the conclusion by an
    assumption instead of clauses: it appends to the permanent assumptions
    the magnitude of the old value variable, positive for conclusion [True]
    and negative for [False], whatever sign the stored literal had; it adds
    [len(premise) + 6] clauses; and the next [get_counterexample] assumes
    that literal. *)
Theorem add_rule_fixes_conclusion
    (py_int : string → option Z) (e : Z) (premise : list Z) (conclusion : bool)
    (s : DQBFSolver) (cur prev fire : Z) :
  Dict.get (value_vars s) e = Some cur →
  Dict.get (no_rule_fired_vars s) e = Some prev →
  Dict.get (rule_fire_vars s) e = Some fire →
  ∃ s', add_rule py_int e premise conclusion None s = (Val tt, s') ∧
    let conclusion_lit := if conclusion then Z.abs cur else - Z.abs cur in
    permanent_assumptions s' = permanent_assumptions s ++ [conclusion_lit] ∧
    conclusion_lit ∈ assumptions_step1 s' ∧
    length (Sat.clauses (counterexample_solver s')) =
      (length (Sat.clauses (counterexample_solver s)) + length premise + 6)%nat.
Proof.
  intros Hcur Hprev Hfire.
  destruct (add_rule_run py_int e premise conclusion None s cur prev fire)
    as (s' & Hrun & _ & _ & _ & _ & _ & _ & Hpa & Hev & _); [done..|].
  exists s'. split; [done|]. cbv zeta. split; [done|]. split.
  - unfold assumptions_step1. rewrite Hpa, !elem_of_app.
    right. left. right. by left.
  - unfold Sat.clauses. rewrite Hev, omap_app, length_app.
    assert (∀ l : list clause,
              omap (λ ev, match ev with AddClause c => Some c | Solve _ => None end)
                   (AddClause <$> l) = l) as ->.
    { induction l as [|c l IH]; [done|]. csimpl. by rewrite IH. }
    unfold rule_clauses. rewrite !length_app, length_fmap. simpl. lia.
Qed.

Lemma add_rule_fixes_conclusion_witness :
  ∃ s', add_rule int_of_digits 2 [1] false None
          (set_default_value 2 false Linear.solver).2 = (Val tt, s') ∧
    permanent_assumptions s' = [-4] ∧ -4 ∈ assumptions_step1 s'.
Proof.
  destruct (add_rule_fixes_conclusion int_of_digits 2 [1] false
              (set_default_value 2 false Linear.solver).2 (-4) 5 6)
    as (s' & Hrun & Hpa & Hin & _); [vm_compute; reflexivity..|].
  exists s'. split; [done|]. split; [exact Hpa | exact Hin].
Defined.

(** ** Expansion interning *)

(** X7.  [get_expansion_variable(e, a)] returns exactly when [e] is an
    existential id, every variable of [a] is in [D(e)], and either the key
    is registered already or [e] has its decision list. *)
Theorem get_expansion_variable_returns_iff
    (py_int : string → option Z) (e : Z) (a : list Z) (s : DQBFSolver) :
  (∃ x s', get_expansion_variable py_int e a s = (Val x, s')) ↔
  e ∈ existential_var_ids s ∧
  (∀ lit, lit ∈ a → Z.abs lit ∈ dep_set_of s e) ∧
  (is_Some (expansion_vars s !! (e, sorted_by_abs a)) ∨ initialized s e).
Proof.
  split.
  - intros (x & s' & Hrun).
    destruct (get_expansion_variable_val _ _ _ _ _ _ Hrun) as (He & Hin & Hcase).
    split; [done|]. split; [done|].
    destruct Hcase as [[Hx _]|(_ & Hi & _)]; [left; eauto | by right].
  - intros (He & Hin & Hcase).
    destruct (expansion_vars s !! (e, sorted_by_abs a)) as [x|] eqn:Hx.
    + exists x, s. by apply get_expansion_variable_known.
    + destruct Hcase as [[? [=]]|Hi].
      destruct (get_expansion_variable_total py_int e a s He Hin Hi)
        as (x & s' & Hrun & _). eauto.
Qed.

Lemma get_expansion_variable_returns_iff_witness :
  ∃ x s', get_expansion_variable int_of_digits 3 [-2; 1] TwoDeps.solver = (Val x, s').
Proof.
  apply (get_expansion_variable_returns_iff int_of_digits 3 [-2; 1] TwoDeps.solver).
  split; [|split].
  - apply (bool_decide_unpack _). vm_compute. exact I.
  - intros lit Hlit. apply (bool_decide_unpack _). revert lit Hlit.
    apply Forall_forall. apply (bool_decide_unpack _). vm_compute. exact I.
  - right. repeat split; vm_compute; eauto.
Defined.

(** X8.  Interning keeps the registry in order.  If every registered id is
    at most the counter, is in [expansion_vars_set] and belongs to one key,
    then after a successful [get_expansion_variable(e, a)] the same holds,
    the key of [(e, a)] is registered with the returned id, earlier entries
    are unchanged, and a later call for a different key returns a different
    id. *)
Theorem get_expansion_variable_keeps_registry
    (py_int : string → option Z) (e : Z) (a : list Z) (s s' : DQBFSolver) (x : Z) :
  registry_fresh s →
  get_expansion_variable py_int e a s = (Val x, s') →
  registry_fresh s' ∧
  expansion_vars s' !! (e, sorted_by_abs a) = Some x ∧
  (∀ k y, expansion_vars s !! k = Some y → expansion_vars s' !! k = Some y) ∧
  (∀ e2 a2 x2 s2,
     get_expansion_variable py_int e2 a2 s' = (Val x2, s2) →
     (e2, sorted_by_abs a2) ≠ (e, sorted_by_abs a) → x2 ≠ x).
Proof.
  intros Hreg Hrun.
  assert (registry_fresh s' ∧
          expansion_vars s' !! (e, sorted_by_abs a) = Some x ∧
          (∀ k y, expansion_vars s !! k = Some y → expansion_vars s' !! k = Some y))
    as (Hreg' & Hx' & Hmono).
  { destruct (get_expansion_variable_val _ _ _ _ _ _ Hrun)
      as (He & Hin & [[Hx ->]|(Hx & (Hv & Hp & Hf) & ->)]); [done|].
    destruct Hv as [cur Hv], Hp as [prev Hp], Hf as [fire Hf].
    destruct (get_expansion_variable_fresh py_int e a s cur prev fire)
      as (s1 & Hrun1 & _ & Hev & Hset & _ & _ & _ & _ & Hc & _); [done..|].
    rewrite Hrun in Hrun1. injection Hrun1 as <-.
    split; [|split].
    - intros k y. rewrite Hev, Hset, Hc, lookup_insert. case_decide as Hk.
      + intros [= <-]. subst k. split; [lia|].
        split; [apply elem_of_union_l; by apply elem_of_singleton|].
        intros k'. rewrite lookup_insert. case_decide; [done|].
        intros Hk'. destruct (Hreg _ _ Hk') as [Hle _]. lia.
      + intros Hy. destruct (Hreg _ _ Hy) as (Hle & Hin' & Hinj).
        split; [lia|]. split; [by apply elem_of_union_r|].
        intros k'. rewrite lookup_insert. case_decide; [intros [= <-]; lia | apply Hinj].
    - by rewrite Hev, lookup_insert_eq.
    - intros k y Hy. rewrite Hev, lookup_insert_ne; [done|]. intros <-. congruence. }
  split; [done|]. split; [done|]. split; [done|].
  intros e2 a2 x2 s2 Hrun2 Hne ->.
  destruct (get_expansion_variable_val _ _ _ _ _ _ Hrun2)
    as (_ & _ & [[Hx2 _]|(_ & _ & ->)]).
  - destruct (Hreg' _ _ Hx') as (_ & _ & Hinj). by apply Hne, Hinj.
  - destruct (Hreg' _ _ Hx') as (Hle & _). lia.
Qed.

Lemma get_expansion_variable_keeps_registry_witness :
  let r := get_expansion_variable int_of_digits 3 [1; -2] TwoDeps.solver in
  registry_fresh r.2 ∧ expansion_vars r.2 !! (3, [1; -2]) = Some 8 ∧
  (get_expansion_variable int_of_digits 3 [1; 2] r.2).1 = Val 12.
Proof.
  intros r.
  destruct (get_expansion_variable_keeps_registry int_of_digits 3 [1; -2]
              TwoDeps.solver r.2 8) as (Hreg & Hx & _).
  - intros k x Hx. vm_compute in Hx. discriminate.
  - vm_compute. reflexivity.
  - split; [exact Hreg|]. split; [exact Hx | vm_compute; reflexivity].
Defined.

(** X9.  A failed interning is not undone.  When [e] is an existential
    without a decision list and the key of [(e, a)] is new, the call raises
    [ValueError] from [add_rule] after the counter has advanced and the key
    has been registered: the registry then holds an id that is in no
    [expansion_vars_set] and has no rule, and a second call with the same
    arguments returns that id. *)
Theorem get_expansion_variable_failure_registers
    (py_int : string → option Z) (e : Z) (a : list Z) (s : DQBFSolver) :
  e ∈ existential_var_ids s →
  (∀ lit, lit ∈ a → Z.abs lit ∈ dep_set_of s e) →
  expansion_vars s !! (e, sorted_by_abs a) = None →
  Dict.get (value_vars s) e = None →
  ∃ s', get_expansion_variable py_int e a s = (Exc ValueError, s') ∧
    counter s' = counter s + 1 ∧
    expansion_vars s' = <[(e, sorted_by_abs a) := counter s + 1]> (expansion_vars s) ∧
    expansion_vars_set s' = expansion_vars_set s ∧
    counterexample_solver s' = counterexample_solver s ∧
    get_expansion_variable py_int e a s' = (Val (counter s + 1), s').
Proof.
  intros He Hin Hx Hv.
  assert (∃ s', get_expansion_variable py_int e a s = (Exc ValueError, s') ∧
            same_formula s s' ∧
            counter s' = counter s + 1 ∧
            expansion_vars s' = <[(e, sorted_by_abs a) := counter s + 1]> (expansion_vars s) ∧
            expansion_vars_set s' = expansion_vars_set s ∧
            counterexample_solver s' = counterexample_solver s)
    as (s' & Hrun & Hform & Hc & Hev & Hset & Hcs).
  { unfold get_expansion_variable. unfold bind at 1, gets at 1.
    rewrite bool_decide_eq_true_2 by done. cbn [negb].
    unfold bind at 1, gets at 1.
    rewrite bool_decide_eq_true_2; cycle 1.
    { intros v [lit [-> Hl]]%elem_of_list_to_set%list_elem_of_fmap. by apply Hin. }
    cbn [negb]. unfold bind at 1, gets at 1. rewrite Hx.
    unfold bind at 1. cbn [counter_increase Counter.increase].
    unfold bind at 1, gets at 1.
    set (s1 := set_counter (counter s + 1) s).
    unfold bind at 1.
    set (m := match id_to_name s1 !! e with Some _ => _ | None => _ end).
    assert (∃ n, m s1 = (Val tt, set_id_to_name n s1)) as [n ->].
    { subst m. destruct (id_to_name s1 !! e); [by eexists|].
      exists (id_to_name s1). by destruct s. }
    unfold bind at 1. unfold modify at 1.
    set (s2 := set_expansion_vars _ _).
    rewrite (bind_exc _ _ _ _ _ (add_rule_uninitialized py_int e a true _ s2 Hv)).
    exists s2. split; [done|]. by repeat split. }
  exists s'. do 5 (split; [done|]).
  destruct Hform as (_&_&_&_&_&_&_&Hids&Hdeps&_).
  apply get_expansion_variable_known.
  - by rewrite Hids.
  - intros lit Hlit. unfold dep_set_of. rewrite Hdeps. by apply Hin.
  - by rewrite Hev, lookup_insert_eq.
Qed.

Lemma get_expansion_variable_failure_registers_witness :
  ∃ s', get_expansion_variable int_of_digits 2 [-1] Bare.solver = (Exc ValueError, s') ∧
    counter s' = 4 ∧
    get_expansion_variable int_of_digits 2 [-1] s' = (Val 4, s').
Proof.
  destruct (get_expansion_variable_failure_registers int_of_digits 2 [-1] Bare.solver)
    as (s' & Hrun & Hc & _ & _ & _ & Hagain).
  - apply (bool_decide_unpack _). vm_compute. exact I.
  - intros lit ->%list_elem_of_singleton.
    apply (bool_decide_unpack _). vm_compute. exact I.
  - vm_compute. reflexivity.
  - vm_compute. reflexivity.
  - exists s'. split; [exact Hrun|]. split; [exact Hc | exact Hagain].
Defined.

(** ** The counterexample query *)

(** X10.  Whatever the SAT service answers, [get_counterexample] changes
    nothing but the counterexample solver, on which it makes one or two
    [solve] calls, the first under [assumptions_step1], and adds no clause;
    and it ends in one of three ways: [(False, None)], [(True, (core,
    universals))], or [AssertionError]. *)
Theorem get_counterexample_only_queries (oracle : sat_oracle) (s : DQBFSolver) :
  let r := get_counterexample oracle s in
  r.2 = set_counterexample_solver (counterexample_solver r.2) s ∧
  Sat.clauses (counterexample_solver r.2) = Sat.clauses (counterexample_solver s) ∧
  (∃ rest, Sat.queries (counterexample_solver r.2) =
             Sat.queries (counterexample_solver s) ++ assumptions_step1 s :: rest ∧
           (length rest ≤ 1)%nat) ∧
  (r.1 = Val (false, None) ∨ (∃ cx, r.1 = Val (true, Some cx)) ∨
   r.1 = Exc AssertionError).
Proof.
  intros r. subst r.
  pose proof (get_counterexample_cases oracle s) as H. cbv zeta in H.
  assert (∀ a st, Sat.clauses (mkSAT (events (counterexample_solver s) ++
                                        [Solve (assumptions_step1 s); Solve a]) st) =
                  Sat.clauses (counterexample_solver s)) as Hcl2.
  { intros a st. destruct (counterexample_solver s) as [evs st0].
    apply sat_clauses_app. intros c Hc.
    repeat (apply elem_of_cons in Hc as [?|Hc]; [done|]). by apply elem_of_nil in Hc. }
  assert (∀ a st, Sat.queries (mkSAT (events (counterexample_solver s) ++
                                        [Solve (assumptions_step1 s); Solve a]) st) =
                  Sat.queries (counterexample_solver s) ++ [assumptions_step1 s; a])
    as Hq2.
  { intros a st. unfold Sat.queries. cbn. by rewrite omap_app. }
  destruct (oracle _ _) as [model|c1]; [destruct (oracle _ _) as [m2|core]|];
    rewrite H; cbn [fst snd counterexample_solver set_counterexample_solver].
  - split; [by destruct s|]. split; [apply Hcl2|]. split; [|auto].
    eexists [_]. split; [apply Hq2 | done].
  - split; [by destruct s|]. split; [apply Hcl2|]. split; [|eauto].
    eexists [_]. split; [apply Hq2 | done].
  - split; [by destruct s|]. split; [apply sat_clauses_solve|]. split; [|auto].
    exists []. split; [apply sat_queries_solve | cbn; lia].
Qed.

(** X11.  Under the contract of the SAT service, a counterexample returned
    by [get_counterexample] comes from a model: an assignment that satisfies
    every clause of the counterexample solver, makes the output gate false,
    makes the current fire variable and the stored value literal of every
    existential true, and contains the stored expansion assignment.  The
    universal assignment is that model restricted to the universal ids;
    every core literal is over an existential id and is the model's literal
    (or the output gate); and when every universal id is a known variable
    the universal assignment is total. *)
Theorem counterexample_comes_from_model
    (oracle : sat_oracle) (s : DQBFSolver) (core univ : list Z) (s1 : DQBFSolver) :
  sat_contract oracle →
  get_counterexample oracle s = (Val (true, Some (core, univ)), s1) →
  ∃ M, good_model s M ∧ NoDup (Z.abs <$> M) ∧
    - output_gate_id s ∈ M ∧
    (∀ e fire value,
       Dict.get (rule_fire_vars s) e = Some fire →
       Dict.get (value_vars s) e = Some value → fire ∈ M ∧ value ∈ M) ∧
    (∀ l, l ∈ expansion_variable_assignment s → l ∈ M) ∧
    univ = filter (λ lit, Z.abs lit ∈ universal_var_ids s) M ∧
    (∀ ℓ, ℓ ∈ core →
       Z.abs ℓ ∈ existential_var_ids s ∧ (ℓ ∈ M ∨ ℓ = output_gate_id s)) ∧
    (universals_known s → total_assignment s univ).
Proof.
  intros Hcontract Hrun.
  destruct (get_counterexample_model oracle Hcontract s core univ s1 Hrun)
    as (M & evs & st & Hnd & H0 & HM & Has & Htot & Huniv & Hcore & _).
  exists M. split; [done|]. split; [done|].
  assert (∀ l, l ∈ assumptions_step1 s → l ∈ M) as Has' by exact Has.
  unfold assumptions_step1 in Has'. setoid_rewrite elem_of_app in Has'.
  split; [apply Has'; left; by left|]. split.
  { intros e fire value Hf%dict_get_values Hv%dict_get_values.
    split; apply Has'; right; rewrite !elem_of_app; auto. }
  split; [intros l Hl; apply Has'; right; rewrite !elem_of_app; auto|].
  split; [done|]. split; [done|].
  intros Hknown. rewrite Huniv. by apply model_total_assignment.
Qed.

Lemma counterexample_comes_from_model_witness :
  ∃ M, good_model Linear.solver M ∧ -3 ∈ M ∧ 6 ∈ M ∧ 4 ∈ M ∧
       [-1] = filter (λ lit, Z.abs lit ∈ universal_var_ids Linear.solver) M.
Proof.
  destruct (counterexample_comes_from_model exhaustive_oracle Linear.solver [2] [-1]
              (get_counterexample exhaustive_oracle Linear.solver).2)
    as (M & HM & _ & Hg & Hdl & _ & Hu & _).
  - exact exhaustive_oracle_contract.
  - vm_compute. reflexivity.
  - exists M. split; [exact HM|]. split; [exact Hg|].
    destruct (Hdl 2 6 4) as [Hf Hv]; [vm_compute; reflexivity..|].
    split; [exact Hf|]. split; [exact Hv | exact Hu].
Defined.

(** ** Refinement *)

(** X12.  [analyze_counterexample] adds its blocking clause only when every
    core literal has been processed.  Whatever it is given, it takes at most
    four ids per core literal and stays within [grows].  If it returns, the
    expansion solver has received exactly one clause, with one literal per
    core literal; if it raises, the exception is [ValueError] or [KeyError]
    and the expansion solver is as before, while the rules installed for
    earlier core literals stay. *)
Theorem analyze_counterexample_outcomes
    (py_int : string → option Z) (core univ : list Z) (s : DQBFSolver) :
  let r := analyze_counterexample py_int core univ s in
  grows s r.2 ∧
  counter r.2 ≤ counter s + 4 * Z.of_nat (length core) ∧
  match r.1 with
  | Val _ =>
      ∃ B, length B = length core ∧
        events (expansion_solver r.2) = events (expansion_solver s) ++ [AddClause B]
  | Exc err =>
      expansion_solver r.2 = expansion_solver s ∧ (err = ValueError ∨ err = KeyError)
  end.
Proof.
  intros r. subst r.
  destruct (analyze_counterexample py_int core univ s) as [r s'] eqn:Hrun.
  destruct (analyze_counterexample_any _ _ _ _ _ _ Hrun) as (Hg & _ & Hc & Hcase).
  cbn [fst snd]. split; [done|]. split; [done|].
  destruct Hcase as [[-> HB]|(Hes & err & -> & Herr)]; [done|].
  split; [done | exact Herr].
Qed.

(** X13.  [compute_model_functions] never raises and adds no clause: it
    makes one query on the counterexample solver, returns [None] exactly
    when that query is UNSAT, and otherwise the model's literals over the
    existential ids.  Its assumptions contain the universal literals it was
    given; of the stored expansion assignment they contain at most one
    literal per existential, each the literal of the expansion variable
    registered for that existential under the given universal assignment. *)
Theorem compute_model_functions_outcome
    (oracle : sat_oracle) (universal_literals : list Z) (s : DQBFSolver) :
  let cs := counterexample_solver s in
  let a := model_function_assumptions s universal_literals in
  compute_model_functions oracle universal_literals s =
    (Val match oracle (events cs) a with
         | Sat model => Some (filter (λ lit, Z.abs lit ∈ existential_var_ids s) model)
         | Unsat _ => None
         end,
     set_counterexample_solver
       (mkSAT (events cs ++ [Solve a]) (Some (oracle (events cs) a))) s) ∧
  (∀ l, l ∈ universal_literals → l ∈ a) ∧
  (length (relevant_expansion_literals s universal_literals)
     ≤ length (existential_var_ids s))%nat ∧
  (∀ l, l ∈ relevant_expansion_literals s universal_literals →
     l ∈ expansion_variable_assignment s ∧
     ∃ e, e ∈ existential_var_ids s ∧
          expansion_vars s !! key_of s e universal_literals = Some (Z.abs l)).
Proof.
  intros cs a. split; [apply compute_model_functions_run|]. split; [|split].
  - intros l Hl. subst a. unfold model_function_assumptions.
    rewrite !elem_of_app. auto.
  - apply relevant_expansion_literals_length.
  - apply relevant_expansion_literals_elem.
Qed.

(** X14.  [_enumerate_and_compute_model_functions] never raises and adds no
    clause: it changes nothing but the counterexample solver, on which it
    makes one query when there is no universal variable and [2^n] queries
    for [n ≥ 1] universals.  When the solver has no existential variable it
    returns [False] whatever the SAT service answers, because the empty
    list of outputs counts as a failure. *)
Theorem model_function_check_outcome (oracle : sat_oracle) (s : DQBFSolver) :
  ∃ b s', _enumerate_and_compute_model_functions oracle s = (Val b, s') ∧
    s' = set_counterexample_solver (counterexample_solver s') s ∧
    Sat.clauses (counterexample_solver s') = Sat.clauses (counterexample_solver s) ∧
    length (Sat.queries (counterexample_solver s')) =
      (length (Sat.queries (counterexample_solver s)) + enumerated_assignments s)%nat ∧
    (existential_var_ids s = [] → b = false).
Proof.
  destruct (enumerate_run oracle s) as (b & s' & Hrun & Hfalse & Hs' & _ & Hcl & Hq).
  exists b, s'. split; [exact Hrun|]. split; [exact Hs'|].
  split; [exact Hcl|]. split; [exact Hq | exact Hfalse].
Qed.

Lemma model_function_check_outcome_witness :
  _enumerate_and_compute_model_functions exhaustive_oracle Closed.solver =
    (Val false, (_enumerate_and_compute_model_functions exhaustive_oracle
                   Closed.solver).2) ∧
  (_enumerate_and_compute_model_functions exhaustive_oracle TwoDeps.solver).1 = Val true ∧
  length (Sat.queries (counterexample_solver
            (_enumerate_and_compute_model_functions exhaustive_oracle TwoDeps.solver).2))
    = 4%nat.
Proof.
  split; [|split; by vm_compute].
  destruct (model_function_check_outcome exhaustive_oracle Closed.solver)
    as (b & s' & Hrun & _ & _ & _ & Hfalse).
  rewrite Hrun. cbn [snd]. f_equal. f_equal. apply Hfalse. vm_compute. reflexivity.
Defined.

(** ** The driver loop *)

(** X15.  With DEBUG logging enabled, [solve] cannot answer SAT for a
    formula without existential variables: when [get_counterexample] reports
    no counterexample, the model-function check fails on the empty output
    list and the loop exits with status 1, where with logging disabled it
    returns [True]. *)
Theorem verbose_solve_without_existentials
    (py_int : string → option Z) (oracle : sat_oracle) (s : DQBFSolver) :
  existential_var_ids s = [] →
  (get_counterexample oracle s).1 = Val (false, None) →
  ∀ n,
    (solve py_int oracle true (S n) s).1 = Exc (SystemExit 1) ∧
    (solve py_int oracle false (S n) s).1 = Val (Some true).
Proof.
  intros HE Hcex n.
  destruct (get_counterexample oracle s) as [r s1] eqn:Hrun. cbn in Hcex. subst r.
  rewrite !solve_unfold.
  rewrite !(solve_iteration_no_counterexample _ _ _ _ _ _ Hrun).
  split; [|done].
  destruct (enumerate_run oracle s1) as (b & s2 & Hen & Hfalse & _).
  rewrite Hen. rewrite Hfalse; [done|].
  destruct (get_counterexample_any _ _ _ _ Hrun) as (((_&_&_&_&_&_&_&Hids&_) & _) & _).
  by rewrite Hids.
Qed.

Lemma verbose_solve_without_existentials_witness :
  (solve int_of_digits exhaustive_oracle true 1 Closed.solver).1 = Exc (SystemExit 1) ∧
  (solve int_of_digits exhaustive_oracle false 1 Closed.solver).1 = Val (Some true).
Proof.
  apply (verbose_solve_without_existentials int_of_digits exhaustive_oracle
           Closed.solver); vm_compute; reflexivity.
Defined.

(** X16.  Whatever the SAT service answers and however many passes it
    makes, [solve] stays within [grows]: it never changes the formula, the
    dependency maps or the permanent assumptions, never lowers the counter,
    never removes a call from either solver's history, never drops or
    changes a registered expansion variable, and never adds or removes a
    decision list.  It ends by returning, by [AssertionError], by exit
    status 1, or by a [ValueError] or [KeyError] of the refinement. *)
Theorem solve_only_grows
    (py_int : string → option Z) (oracle : sat_oracle) (debug_enabled : bool)
    (fuel : nat) (s : DQBFSolver) :
  let r := solve py_int oracle debug_enabled fuel s in
  grows s r.2 ∧
  match r.1 with
  | Val _ => True
  | Exc err =>
      err = AssertionError ∨ err = SystemExit 1 ∨ err = ValueError ∨ err = KeyError
  end.
Proof.
  intros r. subst r.
  destruct (solve py_int oracle debug_enabled fuel s) as [r s'] eqn:Hrun.
  destruct (solve_any _ _ _ _ _ _ _ Hrun) as [Hg Hr]. cbn [fst snd].
  split; [done|]. destruct r as [v|err]; [done|].
  destruct Hr as [[? [=]]|[[=]|[[= ->]|[[= ->]|(err' & [= <-] & [->| ->])]]]]; auto.
Qed.

(** X17.  Let the SAT service meet its contract and let the solver be
    constructed from a formula whose universal ids are positive and not
    above a supplied counter and whose output gate is not an existential.
    Then no pass of [solve] fails inside the refinement: after any number
    of passes the loop has returned, is still running, or has ended by
    [AssertionError] or exit status 1, never by [ValueError], [KeyError] or
    [TypeError].  While it is running, every existential has its decision
    list, every literal of a blocking clause is a registered expansion
    variable, and the stored expansion assignment satisfies every blocking
    clause. *)
Theorem solve_refinement_never_fails
    (py_int : string → option Z) (oracle : sat_oracle) (debug_enabled : bool)
    (n2i : gmap string Z) (i2n : gmap Z string)
    (deps : list (string * list string)) (mat : list clause)
    (univs : list string) (g : Z) (c : option Counter.t) (order : list string)
    (s0 : DQBFSolver) (fuel : nat) :
  sat_contract oracle →
  __init__ n2i i2n deps mat univs g c order = Val s0 →
  (∀ u, u ∈ universal_var_ids s0 → 1 ≤ u) →
  (∀ c0, c = Some c0 → 0 ≤ c0 ∧ ∀ u, u ∈ universal_var_ids s0 → u ≤ c0) →
  Z.abs g ∉ existential_var_ids s0 →
  let r := solve py_int oracle debug_enabled fuel s0 in
  ((∃ b, r.1 = Val (Some b)) ∨ r.1 = Val None ∨ r.1 = Exc AssertionError ∨
   r.1 = Exc (SystemExit 1)) ∧
  (r.1 = Val None →
     (∀ e, e ∈ existential_var_ids r.2 → initialized r.2 e) ∧
     (∀ B, AddClause B ∈ events (expansion_solver r.2) →
        (∃ lit, lit ∈ B ∧ lit ∈ expansion_variable_assignment r.2) ∧
        ∀ lit, lit ∈ B → Z.abs lit ∈ expansion_vars_set r.2)).
Proof.
  intros Hcontract Hinit Hpos Hcounter Hgate r. subst r.
  destruct (universals_below_start _ _ _ _ _ _ _ _ _ Hinit Hcounter) as [Hc0 Hle].
  assert (run_inv s0 []) as Hinv.
  { eapply constructor_run_inv; [exact Hinit| |done..].
    intros u Hu. split; [by apply Hpos | by apply Hle]. }
  destruct (solve py_int oracle debug_enabled fuel s0) as [r s'] eqn:Hrun.
  cbn [fst snd].
  destruct (solve_contract py_int oracle debug_enabled Hcontract fuel s0 [] r s' Hinv Hrun)
    as [[b ->]|[[-> [H' Hinv']]|[->| ->]]].
  { split; [left; by exists b | done]. }
  2,3: by split; [auto|].
  split; [auto|]. intros _.
  destruct Hinv' as ((_ & Hi & _ & _ & _ & _ & Hexp) & _ & Hassign).
  split; [exact Hi|]. intros B HB. split; [by apply Hassign|].
  intros lit Hlit. by apply (Hexp B).
Qed.

Lemma solve_refinement_never_fails_witness :
  let r := solve int_of_digits exhaustive_oracle false 1 Linear.solver in
  r.1 = Val None ∧
  (∀ e, e ∈ existential_var_ids r.2 → initialized r.2 e) ∧
  (∀ B, AddClause B ∈ events (expansion_solver r.2) →
     (∃ lit, lit ∈ B ∧ lit ∈ expansion_variable_assignment r.2) ∧
     ∀ lit, lit ∈ B → Z.abs lit ∈ expansion_vars_set r.2).
Proof.
  intros r.
  assert (r.1 = Val None) as Hr by (vm_compute; reflexivity).
  split; [exact Hr|].
  refine (proj2 (solve_refinement_never_fails int_of_digits exhaustive_oracle false
                   Linear.name_to_id Linear.id_to_name Linear.dependencies
                   Linear.matrix ["u"] 3 None ["e"] Linear.solver 1 _ _ _ _ _) Hr).
  - exact exhaustive_oracle_contract.
  - vm_compute. reflexivity.
  - intros u Hu. apply (bool_decide_unpack _). revert u Hu.
    apply Forall_forall. apply (bool_decide_unpack _). vm_compute. exact I.
  - intros c0 Hc0. discriminate Hc0.
  - apply (bool_decide_unpack _). vm_compute. exact I.
Defined.

(** X18.  [solve] terminates.  Under the same assumptions the loop ends
    within [4^(|E| + |U|) + 1] passes, for [E] the existential and [U] the
    universal ids: there is one outcome, a returned truth value,
    [AssertionError] or exit status 1, that every run of more passes than
    the bound ends with. *)
Theorem solve_terminates
    (py_int : string → option Z) (oracle : sat_oracle) (debug_enabled : bool)
    (n2i : gmap string Z) (i2n : gmap Z string)
    (deps : list (string * list string)) (mat : list clause)
    (univs : list string) (g : Z) (c : option Counter.t) (order : list string)
    (s0 : DQBFSolver) :
  sat_contract oracle →
  __init__ n2i i2n deps mat univs g c order = Val s0 →
  (∀ u, u ∈ universal_var_ids s0 → 1 ≤ u) →
  (∀ c0, c = Some c0 → 0 ≤ c0 ∧ ∀ u, u ∈ universal_var_ids s0 → u ≤ c0) →
  Z.abs g ∉ existential_var_ids s0 →
  ∃ r s',
    ((∃ b, r = Val (Some b)) ∨ r = Exc AssertionError ∨ r = Exc (SystemExit 1)) ∧
    ∀ fuel, (pass_bound s0 < fuel)%nat →
      solve py_int oracle debug_enabled fuel s0 = (r, s').
Proof.
  intros Hcontract Hinit Hpos Hcounter Hgate.
  destruct (universals_below_start _ _ _ _ _ _ _ _ _ Hinit Hcounter) as [Hc0 Hle].
  assert (run_inv s0 []) as Hinv.
  { eapply constructor_run_inv; [exact Hinit| |done..].
    intros u Hu. split; [by apply Hpos | by apply Hle]. }
  set (n := S (pass_bound s0)).
  destruct (solve py_int oracle debug_enabled n s0) as [r s'] eqn:Hrun.
  assert (r ≠ Val None) as Hended.
  { intros ->.
    pose proof (solve_running_counterexamples _ _ _ _ _ _ Hrun) as Hlen.
    destruct (counterexamples_new py_int oracle debug_enabled Hcontract n s0 [] Hinv)
      as [_ Hnr].
    assert (length (counterexamples py_int oracle debug_enabled n s0) ≤ pass_bound s0)%nat
      as Hbound; [|subst n; lia].
    apply no_repeats_bounded; [| |done].
    - intros cx l Hcx. by apply (counterexamples_over_ids _ _ _ _ _ _ Hcx).
    - intros cx l Hcx. by apply (counterexamples_over_ids _ _ _ _ _ _ Hcx). }
  exists r, s'. split.
  - destruct (solve_contract py_int oracle debug_enabled Hcontract n s0 [] r s' Hinv Hrun)
      as [?|[[-> _]|[?|?]]]; auto. done.
  - intros fuel Hfuel. replace fuel with (n + (fuel - n))%nat by (subst n; lia).
    by apply solve_ended.
Qed.

Lemma solve_terminates_witness :
  ∃ r s',
    ((∃ b, r = Val (Some b)) ∨ r = Exc AssertionError ∨ r = Exc (SystemExit 1)) ∧
    ∀ fuel, (pass_bound Linear.solver < fuel)%nat →
      solve int_of_digits exhaustive_oracle false fuel Linear.solver = (r, s').
Proof.
  apply (solve_terminates int_of_digits exhaustive_oracle false
           Linear.name_to_id Linear.id_to_name Linear.dependencies
           Linear.matrix ["u"] 3 None ["e"] Linear.solver).
  - exact exhaustive_oracle_contract.
  - vm_compute. reflexivity.
  - intros u Hu. apply (bool_decide_unpack _). revert u Hu.
    apply Forall_forall. apply (bool_decide_unpack _). vm_compute. exact I.
  - intros c0 Hc0. discriminate Hc0.
  - apply (bool_decide_unpack _). vm_compute. exact I.
Defined.

(** ** The union-find structure of the equivalence detector *)

(** X19.  A new [UnionFind] over a list of elements has singleton classes:
    for an element of the list [find] returns the element itself and
    changes nothing; for any other value it raises [KeyError]; and
    [same_set(x, y)] on two elements is [True] exactly when [x = y]. *)
Theorem union_find_starts_discrete (limit : nat) (elements : list Z) (x y : Z) :
  let u := UnionFind.init elements in
  (x ∉ elements → UnionFind.find (S limit) x u = (Exc KeyError, u)) ∧
  (x ∈ elements → UnionFind.find (S limit) x u = (Val x, u)) ∧
  (x ∈ elements → y ∈ elements →
     UnionFind.same_set (S limit) x y u = (Val (bool_decide (x = y)), u)).
Proof.
  intros u.
  assert (∀ z, z ∈ elements → UnionFind.find (S limit) z u = (Val z, u)) as Hfind.
  { intros z Hz. rewrite find_step. subst u. rewrite init_parent_get.
    by rewrite !decide_True. }
  split; [|split; [by apply Hfind|]].
  - intros Hx. rewrite find_step. subst u. rewrite init_parent_get.
    by rewrite decide_False.
  - intros Hx Hy. unfold UnionFind.same_set.
    rewrite (bind_val _ _ _ _ _ (Hfind x Hx)), (bind_val _ _ _ _ _ (Hfind y Hy)). done.
Qed.

Lemma union_find_starts_discrete_witness :
  UnionFind.find 1 5 (UnionFind.init [2; 3]) = (Exc KeyError, UnionFind.init [2; 3]) ∧
  UnionFind.same_set 1 2 3 (UnionFind.init [2; 3]) = (Val false, UnionFind.init [2; 3]).
Proof.
  destruct (union_find_starts_discrete 0 [2; 3] 5 3) as (Hmiss & _ & _).
  destruct (union_find_starts_discrete 0 [2; 3] 2 3) as (_ & _ & Hsame).
  split.
  - apply Hmiss. apply (bool_decide_unpack _). vm_compute. exact I.
  - apply Hsame; apply (bool_decide_unpack _); vm_compute; exact I.
Defined.

(** X20.  A successful [union(x, y)] merges the classes of [x] and [y] and
    nothing else.  Both had representatives [rx] and [ry]; afterwards every
    element whose representative was [rx] or [ry] has one of the two as its
    representative, the same for all of them, and every other element keeps
    the representative it had. *)
Theorem union_merges_two_classes (limit : nat) (x y : Z) (u u' : UnionFind.t) :
  UnionFind.union limit x y u = (Val tt, u') →
  ∃ rx ry top,
    representative u x rx ∧ representative u y ry ∧ (top = rx ∨ top = ry) ∧
    ∀ z r, representative u z r →
      representative u' z (if decide (r = rx ∨ r = ry) then top else r).
Proof.
  intros Hunion.
  destruct (union_parent _ _ _ _ _ Hunion) as (rx & ry & u2 & Hx & Hy & Hrep & _ & Hcase).
  assert (Dict.get (UnionFind.parent u2) rx = Some rx) as Hrootx.
  { destruct (proj2 (Hrep x rx) Hx) as [n Hn]. by eapply root_in_root. }
  assert (Dict.get (UnionFind.parent u2) ry = Some ry) as Hrooty.
  { destruct (proj2 (Hrep y ry) Hy) as [n Hn]. by eapply root_in_root. }
  destruct Hcase as [[<- ->]|[Hne [Hp|Hp]]].
  - exists rx, rx, rx. split; [done|]. split; [done|]. split; [by left|].
    intros z r Hz. apply Hrep. by destruct (decide (r = rx ∨ r = rx)) as [[->| ->]|].
  - exists rx, ry, ry. split; [done|]. split; [done|]. split; [by right|].
    intros z r [n Hn]%Hrep. exists (S n). rewrite Hp.
    rewrite (root_in_link _ rx ry n z r) by done.
    f_equal. destruct (decide (r = rx)) as [->|].
    + by rewrite decide_True by auto.
    + destruct (decide (r = rx ∨ r = ry)) as [[->| ->]|]; done.
  - exists rx, ry, rx. split; [done|]. split; [done|]. split; [by left|].
    intros z r [n Hn]%Hrep. exists (S n). rewrite Hp.
    rewrite (root_in_link _ ry rx n z r) by done.
    f_equal. destruct (decide (r = ry)) as [->|].
    + by rewrite decide_True by auto.
    + destruct (decide (r = rx ∨ r = ry)) as [[->| ->]|]; done.
Qed.

Lemma union_merges_two_classes_witness :
  ∃ rx ry top,
    representative (UnionFind.init [2; 3; 5]) 2 rx ∧
    representative (UnionFind.init [2; 3; 5]) 3 ry ∧ (top = rx ∨ top = ry) ∧
    ∀ z r, representative (UnionFind.init [2; 3; 5]) z r →
      representative (UnionFind.union 4 2 3 (UnionFind.init [2; 3; 5])).2 z
        (if decide (r = rx ∨ r = ry) then top else r).
Proof.
  apply (union_merges_two_classes 4 2 3 (UnionFind.init [2; 3; 5])).
  vm_compute. reflexivity.
Defined.

(** X21.  The classes [get_classes] returns are a partition of the
    elements by representative: the keys are distinct, every element of the
    structure occurs exactly once among the member lists, every list
    contains its key, and the key of a list is the representative of each of
    its members.  The call compresses paths only. *)
Theorem get_classes_partitions
    (limit : nat) (u u' : UnionFind.t) (classes : Dict.t Z (list Z)) :
  UnionFind.get_classes limit u = (Val classes, u') →
  NoDup (Dict.keys classes) ∧
  concat (Dict.values classes) ≡ₚ Dict.keys (UnionFind.parent u) ∧
  (∀ root members, (root, members) ∈ classes →
     root ∈ members ∧ ∀ m, m ∈ members → representative u m root) ∧
  (∀ z r, representative u' z r ↔ representative u z r).
Proof.
  intros Hrun.
  destruct (get_classes_spec _ _ _ _ Hrun) as (Hnd & Hperm & Hcl & Hrep & _).
  split; [exact Hnd|]. split; [exact Hperm|]. split; [|exact Hrep].
  intros root members Hin. split; [by eapply get_classes_contains_key|].
  by apply Hcl.
Qed.

Lemma get_classes_partitions_witness :
  let u := (UnionFind.union 4 2 3 (UnionFind.init [2; 3; 5])).2 in
  (UnionFind.get_classes 4 u).1 = Val [(2, [2; 3]); (5, [5])] ∧
  concat (Dict.values [(2, [2; 3]); (5, [5])]) ≡ₚ Dict.keys (UnionFind.parent u).
Proof.
  intros u. split; [by vm_compute|].
  destruct (get_classes_partitions 4 u (UnionFind.get_classes 4 u).2
              [(2, [2; 3]); (5, [5])]) as (_ & Hperm & _).
  - vm_compute. reflexivity.
  - exact Hperm.
Defined.

(** ** The equivalence detector *)

(** X22.  When [detect_equivalent_existentials] returns, its classes are a
    partition of the existential ids: the representatives are distinct,
    every existential id occurs in exactly one class and nothing else
    occurs, and every class contains its representative. *)
Theorem detector_partitions_existentials
    (oracle : sat_oracle) (limit : nat) (s s' : DQBFSolver)
    (classes : Dict.t Z (list Z)) :
  detect_equivalent_existentials oracle limit s = (Val classes, s') →
  NoDup (Dict.keys classes) ∧
  NoDup (concat (Dict.values classes)) ∧
  (∀ e, e ∈ concat (Dict.values classes) ↔ e ∈ existential_var_ids s) ∧
  (∀ root members, (root, members) ∈ classes → root ∈ members).
Proof.
  unfold detect_equivalent_existentials. rewrite detect_frame_candidate_pairs.
  set (f0 := mkFrame s _ _). unfold bind.
  destruct (for_each_check_pair oracle limit (candidate_pairs (self f0)) f0) as [_ Hkeys].
  destruct (for_each _ _ f0) as [[[]|e] f1]; [|done]. cbn [fst snd] in Hkeys.
  specialize (Hkeys eq_refl). unfold lift_uf.
  destruct (UnionFind.get_classes limit (uf f1)) as [[cl|e] u'] eqn:Hcl; [|done].
  intros [= -> _].
  destruct (get_classes_spec _ _ _ _ Hcl) as (Hnd & Hperm & _).
  destruct (init_keys (existential_var_ids s)) as [Hnd0 Hel0].
  rewrite Hkeys in Hperm. subst f0. cbn [uf] in Hperm.
  split; [done|]. split; [by rewrite Hperm|]. split.
  - intros e. rewrite Hperm. apply Hel0.
  - intros root members. by eapply get_classes_contains_key.
Qed.

Lemma detector_partitions_existentials_witness :
  (detect_equivalent_existentials exhaustive_oracle 10 Twins.solver).1 =
    Val [(2, [2; 3])] ∧
  (∀ e, e ∈ concat (Dict.values [(2, [2; 3])]) ↔ e ∈ existential_var_ids Twins.solver).
Proof.
  split; [by vm_compute|].
  destruct (detector_partitions_existentials exhaustive_oracle 10 Twins.solver
              (detect_equivalent_existentials exhaustive_oracle 10 Twins.solver).2
              [(2, [2; 3])]) as (_ & _ & Hall & _).
  - vm_compute. reflexivity.
  - exact Hall.
Defined.

(** X23.  The detector takes at most one id per pair of existentials from
    the counter: for [n] existentials the counter advances by at most
    [n(n-1)/2], whatever the outcome; with fewer than two existentials the
    solver object is left exactly as it was. *)
Theorem detector_allocation_bound
    (oracle : sat_oracle) (limit : nat) (s : DQBFSolver) :
  let s' := (detect_equivalent_existentials oracle limit s).2 in
  let n := Z.of_nat (length (existential_var_ids s)) in
  counter s ≤ counter s' ∧
  2 * (counter s' - counter s) + n ≤ n * n ∧
  (n ≤ 1 → s' = s).
Proof.
  intros s' n.
  assert (s' = set_counter (counter s') s ∧
          counter s ≤ counter s' ≤ counter s + Z.of_nat (length (candidate_pairs s)))
    as [Hs' Hc].
  { subst s'. unfold detect_equivalent_existentials.
    set (f0 := mkFrame s _ _).
    pose proof (frames_self_detect_frame oracle limit f0) as [Hframe _].
    rewrite detect_frame_candidate_pairs in *. unfold bind in *.
    destruct (for_each_check_pair oracle limit (candidate_pairs (self f0)) f0) as [Hc _].
    destruct (for_each _ _ f0) as [[[]|e] f1]; cbn [fst snd] in *; [|done].
    unfold lift_uf in *. destruct (UnionFind.get_classes limit (uf f1)). done. }
  pose proof (candidate_pairs_length s) as Hlen.
  split; [lia|]. split; [subst n; nia|].
  intros Hn. rewrite Hs'. assert (counter s' = counter s) as -> by (subst n; nia).
  by destruct s.
Qed.

Lemma detector_allocation_bound_witness :
  (detect_equivalent_existentials exhaustive_oracle 10 Linear.solver).2 = Linear.solver.
Proof.
  apply (detector_allocation_bound exhaustive_oracle 10 Linear.solver).
  vm_compute. discriminate.
Defined.

(** ** The constructor *)



(** X25.  The numbering the constructor produces.  For distinct
    existential ids, with [start] the counter it begins with (the largest id
    in [name_to_id] and the matrix when no counter is supplied), the [i]-th
    existential gets the value, no-rule-fired and fire variables
    [start+3i+1], [start+3i+2], [start+3i+3]; the counter ends at
    [start + 3n]; the counterexample solver holds the matrix and three
    clauses per existential; and the expansion side is empty.  Without a
    supplied counter every id of [name_to_id] is at most [start], so the
    new variables are fresh. *)
Theorem constructor_numbering
    (n2i : gmap string Z) (i2n : gmap Z string)
    (deps : list (string * list string)) (mat : list clause)
    (univs : list string) (g : Z) (c : option Counter.t) (order : list string)
    (s : DQBFSolver) :
  __init__ n2i i2n deps mat univs g c order = Val s →
  NoDup (existential_var_ids s) →
  let start := counter_start n2i mat c in
  counter s = start + 3 * Z.of_nat (length (existential_var_ids s)) ∧
  (∀ (i : nat) e, existential_var_ids s !! i = Some e →
     Dict.get (value_vars s) e = Some (start + 3 * Z.of_nat i + 1) ∧
     Dict.get (no_rule_fired_vars s) e = Some (start + 3 * Z.of_nat i + 2) ∧
     Dict.get (rule_fire_vars s) e = Some (start + 3 * Z.of_nat i + 3) ∧
     ∀ cl, cl ∈ init_clauses e (start + 3 * Z.of_nat i) →
           cl ∈ Sat.clauses (counterexample_solver s)) ∧
  (∀ cl, cl ∈ mat → cl ∈ Sat.clauses (counterexample_solver s)) ∧
  length (Sat.clauses (counterexample_solver s)) =
    (length mat + 3 * length (existential_var_ids s))%nat ∧
  expansion_solver s = Sat.new ∧ expansion_vars s = ∅ ∧
  expansion_variable_assignment s = [] ∧ permanent_assumptions s = [] ∧
  (c = None → ∀ name u, n2i !! name = Some u → u ≤ start).
Proof.
  intros Hinit Hnd start0. subst start0. revert Hinit.
  unfold __init__. fold (counter_start n2i mat c). intros Hinit.
  destruct (ids_of n2i univs) as [uids|]; [|done].
  destruct (ids_of n2i order) as [eids|]; [|done].
  destruct (convert_dependencies n2i deps ∅ ∅) as [[by_id by_list]|]; [|done].
  match type of Hinit with
  | context [for_each _ _ ?s0] => set (start := s0) in *
  end.
  destruct (for_each eids init_model start) as [[[]|err] s1] eqn:Hrun; [|done].
  injection Hinit as ->.
  assert (existential_var_ids s = eids) as Hids.
  { destruct (for_each_init_model eids start tt s) as (Hform & _); [|done|].
    - intros e' [v Hv]. by cbn in Hv.
    - by destruct Hform as (_&_&_&_&_&_&_&->&_). }
  rewrite Hids in *.
  destruct (for_each_init_model_fresh eids start s Hnd)
    as (Hc & _ & Hx & Hpa & Hlen & Hsub & _ & Hidx); [done|done|].
  destruct Hx as (Hev & _ & Has & Hes & _).
  assert (Sat.clauses (counterexample_solver start) = mat) as Hmat
    by apply sat_clauses_bootstrap.
  split; [exact Hc|]. split; [exact Hidx|].
  split; [intros cl Hcl; apply Hsub; by rewrite Hmat|].
  split; [by rewrite Hlen, Hmat|]. do 4 (split; [done|]).
  intros -> name u Hu. cbn. by eapply max_id_seen_ge.
Qed.

Lemma constructor_numbering_witness :
  counter Linear.solver = 3 + 3 * 1 ∧
  Dict.get (value_vars Linear.solver) 2 = Some (3 + 3 * 0 + 1).
Proof.
  destruct (constructor_numbering Linear.name_to_id Linear.id_to_name
              Linear.dependencies Linear.matrix ["u"] 3 None ["e"] Linear.solver)
    as (Hc & Hidx & _).
  - vm_compute. reflexivity.
  - apply (bool_decide_unpack _). vm_compute. exact I.
  - split; [exact Hc|]. by destruct (Hidx 0%nat 2 eq_refl) as (Hv & _).
Defined.

(** X26.  An empty existential core ends the loop with UNSAT.  If
    [get_counterexample] returns a counterexample whose core has no
    existential literal and the stall check does not fire, then, for a SAT
    service that meets its contract, the pass adds the empty blocking
    clause to the expansion solver, allocates nothing, and returns
    [False]. *)
Theorem empty_core_is_unsat
    (py_int : string → option Z) (oracle : sat_oracle) (debug_enabled : bool)
    (s s1 : DQBFSolver) (univ : list Z) :
  sat_contract oracle →
  get_counterexample oracle s = (Val (true, Some ([], univ)), s1) →
  ¬ stalled s [] univ →
  ∃ s', solve_iteration py_int oracle debug_enabled s = (Val (Some false), s') ∧
    Sat.clauses (expansion_solver s') = Sat.clauses (expansion_solver s) ++ [[]] ∧
    counter s' = counter s.
Proof.
  intros [Hsat _] Hcex Hns.
  destruct (get_counterexample_fingerprint oracle s _ s1 Hcex) as [He Hu].
  destruct (get_counterexample_any _ _ _ _ Hcex) as (_ & Hes & _ & Hc & _).
  assert (¬ stalled s1 [] univ) as Hns1.
  { unfold stalled. by rewrite He, Hu. }
  rewrite (solve_iteration_refine _ _ _ _ _ _ _ Hcex Hns1).
  cbv [analyze_counterexample analyze_loop bind ret modify]. cbv zeta.
  set (s3 := set_expansion_solver _ _).
  destruct (oracle (events (expansion_solver s3)) []) as [m|core] eqn:Ho.
  { destruct (Hsat _ _ _ Ho) as (_ & _ & Hcl & _).
    destruct (Hcl []) as (l & Hl & _); [|by apply elem_of_nil in Hl].
    subst s3. cbn. rewrite elem_of_app. right. by left. }
  eexists. split; [reflexivity|]. split.
  - cbn [expansion_solver set_expansion_solver]. rewrite sat_clauses_solve.
    subst s3. cbn [expansion_solver set_expansion_solver].
    rewrite sat_clauses_add. cbn. by rewrite Hes.
  - cbn. exact Hc.
Qed.

Lemma empty_core_is_unsat_witness :
  ∃ s', solve_iteration int_of_digits exhaustive_oracle false Refuted.solver =
          (Val (Some false), s') ∧
    Sat.clauses (expansion_solver s') = [[]].
Proof.
  destruct (empty_core_is_unsat int_of_digits exhaustive_oracle false Refuted.solver
              (get_counterexample exhaustive_oracle Refuted.solver).2 [])
    as (s' & Hrun & Hcl & _).
  - exact exhaustive_oracle_contract.
  - vm_compute. reflexivity.
  - intros [H _]. vm_compute in H. discriminate.
  - exists s'. split; [exact Hrun | exact Hcl].
Defined.

(** ** Soundness of the answers of [solve] *)

(** X27.  An answer [False] of [solve] is right.  Let the SAT service meet
    its contract and return cores that are unsatisfiable together with the
    clauses, and let the ids of the formula be at most the watermark the
    counter starts from.  If [solve] on the constructed solver returns
    [False], the formula is false: no family of Skolem functions, each
    giving an existential its value from the assignment to its
    dependencies, makes the matrix together with the output gate
    satisfiable under every full universal assignment. *)
Theorem solve_false_is_sound
    (py_int : string → option Z) (oracle : sat_oracle) (debug_enabled : bool)
    (n2i : gmap string Z) (i2n : gmap Z string)
    (deps : list (string * list string)) (mat : list clause)
    (univs : list string) (g : Z) (c : option Counter.t) (order : list string)
    (s0 : DQBFSolver) (fuel : nat) (s' : DQBFSolver) :
  sat_contract oracle → sat_refutes oracle →
  __init__ n2i i2n deps mat univs g c order = Val s0 →
  0 ≤ counter_start n2i mat c →
  ids_below s0 (counter_start n2i mat c) →
  Z.abs g ∉ existential_var_ids s0 →
  solve py_int oracle debug_enabled fuel s0 = (Val (Some false), s') →
  ¬ dqbf_true s0.
Proof.
  intros Hcontract Hrefutes Hinit Hc0 Hids Hgate.
  assert (run_inv s0 []) as Hinv.
  { eapply constructor_run_inv; [exact Hinit| |done..]. apply Hids. }
  pose proof (constructor_sound_inv _ _ _ _ _ _ _ _ _ Hinit Hc0) as Hsound.
  clear Hinit Hgate. revert Hinv Hsound Hids.
  generalize (counter_start n2i mat c) as c0.
  generalize ([] : list (list Z * list Z)) as H. revert s0.
  induction fuel as [|fuel IH]; intros s H c0 Hinv Hsound Hids; [by intros [= ?]|].
  rewrite solve_unfold.
  destruct (solve_iteration py_int oracle debug_enabled s) as [rp s1] eqn:Hpass.
  destruct (pass_sound py_int oracle debug_enabled Hcontract Hrefutes c0 s H rp s1
              Hinv Hsound Hids Hpass) as (Hfalse & _ & Hnone).
  destruct rp as [[b|]|err].
  - intros [= -> <-]. by apply Hfalse.
  - destruct (Hnone eq_refl) as (cx & Hinv1 & Hsound1 & Hform & _). intros Hrest [f Hwin].
    apply (IH s1 (H ++ [cx]) c0 Hinv1 Hsound1);
      [by apply (ids_below_same_formula s s1)|done|].
    exists f. by apply (winning_same_formula s s1).
  - by intros [= ].
Qed.

Lemma solve_false_is_sound_witness : ¬ dqbf_true Blind.solver.
Proof.
  apply (solve_false_is_sound int_of_digits exhaustive_oracle false
           Linear.name_to_id Linear.id_to_name [("e", [])] Linear.matrix ["u"] 3 None
           ["e"] Blind.solver 3
           (solve int_of_digits exhaustive_oracle false 3 Blind.solver).2).
  - exact exhaustive_oracle_contract.
  - exact exhaustive_oracle_refutes.
  - vm_compute. reflexivity.
  - apply (bool_decide_unpack _). vm_compute. exact I.
  - split; [|split; [|split]].
    + intros cl l Hcl. revert l. apply Forall_forall. revert cl Hcl.
      apply Forall_forall. apply (bool_decide_unpack _). vm_compute. exact I.
    + apply Forall_forall. apply (bool_decide_unpack _). vm_compute. exact I.
    + apply Forall_forall. apply (bool_decide_unpack _). vm_compute. exact I.
    + apply (bool_decide_unpack _). vm_compute. exact I.
  - apply (bool_decide_unpack _). vm_compute. exact I.
  - assert ((solve int_of_digits exhaustive_oracle false 3 Blind.solver).1
            = Val (Some false)) as Hfst by (vm_compute; reflexivity).
    destruct (solve int_of_digits exhaustive_oracle false 3 Blind.solver) as [r s'].
    cbn in *. by subst r.
Defined.

(** X28.  An answer [True] of [solve] is right, and the object holds the
    Skolem functions.  Under the conditions of X27, let the matrix define
    its gates: every assignment to the universals and existentials extends
    to a model of the matrix that assigns the output gate.  If [solve]
    returns [True], the functions read off the final object win: the value
    of an existential is the stored value of the expansion variable
    registered for the assignment to its dependencies, and the current
    default where none is registered. *)
Theorem solve_true_is_sound
    (py_int : string → option Z) (oracle : sat_oracle) (debug_enabled : bool)
    (n2i : gmap string Z) (i2n : gmap Z string)
    (deps : list (string * list string)) (mat : list clause)
    (univs : list string) (g : Z) (c : option Counter.t) (order : list string)
    (s0 : DQBFSolver) (fuel : nat) (s' : DQBFSolver) :
  sat_contract oracle → sat_refutes oracle →
  __init__ n2i i2n deps mat univs g c order = Val s0 →
  0 ≤ counter_start n2i mat c →
  ids_below s0 (counter_start n2i mat c) →
  matrix_total s0 (counter_start n2i mat c) →
  Z.abs g ∉ existential_var_ids s0 →
  solve py_int oracle debug_enabled fuel s0 = (Val (Some true), s') →
  winning s0 (model_function s').
Proof.
  intros Hcontract Hrefutes Hinit Hc0 Hids Htotal Hgate.
  assert (run_inv s0 []) as Hinv.
  { eapply constructor_run_inv; [exact Hinit| |done..]. apply Hids. }
  pose proof (constructor_sound_inv _ _ _ _ _ _ _ _ _ Hinit Hc0) as Hsound.
  clear Hinit Hgate. revert Hinv Hsound Hids Htotal.
  generalize (counter_start n2i mat c) as c0.
  generalize ([] : list (list Z * list Z)) as H. revert s0.
  induction fuel as [|fuel IH]; intros s H c0 Hinv Hsound Hids Htotal; [by intros [= ?]|].
  rewrite solve_unfold.
  destruct (solve_iteration py_int oracle debug_enabled s) as [rp s1] eqn:Hpass.
  destruct (pass_sound py_int oracle debug_enabled Hcontract Hrefutes c0 s H rp s1
              Hinv Hsound Hids Hpass) as (_ & Htrue & Hnone).
  destruct rp as [[b|]|err].
  - intros [= -> <-]. by apply Htrue.
  - destruct (Hnone eq_refl) as (cx & Hinv1 & Hsound1 & Hform & _). intros Hrest.
    apply (winning_same_formula s1 s); [by apply same_formula_sym|].
    apply (IH s1 (H ++ [cx]) c0 Hinv1 Hsound1); [|by apply (matrix_total_same_formula s s1)|done].
    by apply (ids_below_same_formula s s1).
  - by intros [= ].
Qed.

Lemma solve_true_is_sound_witness :
  winning Linear.solver
    (model_function (solve int_of_digits exhaustive_oracle false 4 Linear.solver).2).
Proof.
  apply (solve_true_is_sound int_of_digits exhaustive_oracle false
           Linear.name_to_id Linear.id_to_name Linear.dependencies Linear.matrix
           ["u"] 3 None ["e"] Linear.solver 4).
  - exact exhaustive_oracle_contract.
  - exact exhaustive_oracle_refutes.
  - vm_compute. reflexivity.
  - apply (bool_decide_unpack _). vm_compute. exact I.
  - split; [|split; [|split]].
    + intros cl l Hcl. revert l. apply Forall_forall. revert cl Hcl.
      apply Forall_forall. apply (bool_decide_unpack _). vm_compute. exact I.
    + apply Forall_forall. apply (bool_decide_unpack _). vm_compute. exact I.
    + apply Forall_forall. apply (bool_decide_unpack _). vm_compute. exact I.
    + apply (bool_decide_unpack _). vm_compute. exact I.
  - apply matrix_totalb_sound.
    + apply Forall_forall. apply (bool_decide_unpack _). vm_compute. exact I.
    + vm_compute. reflexivity.
  - apply (bool_decide_unpack _). vm_compute. exact I.
  - assert ((solve int_of_digits exhaustive_oracle false 4 Linear.solver).1
            = Val (Some true)) as Hfst by (vm_compute; reflexivity).
    destruct (solve int_of_digits exhaustive_oracle false 4 Linear.solver) as [r s'].
    cbn in *. by subst r.
Defined.

(** X29.  The stall exit of [solve] is unreachable.  Under the contract of
    the SAT service and the conditions of C7 on the constructed solver, with
    logging below DEBUG so that the model-function check is skipped, no run
    of [solve] ends with exit status 1: the test for the same counterexample
    twice in a row never holds, because each counterexample differs from
    all earlier ones. *)
Theorem solve_never_stalls
    (py_int : string → option Z) (oracle : sat_oracle)
    (n2i : gmap string Z) (i2n : gmap Z string)
    (deps : list (string * list string)) (mat : list clause)
    (univs : list string) (g : Z) (c : option Counter.t) (order : list string)
    (s0 : DQBFSolver) (fuel : nat) :
  sat_contract oracle →
  __init__ n2i i2n deps mat univs g c order = Val s0 →
  (∀ u, u ∈ universal_var_ids s0 → 1 ≤ u) →
  (∀ c0, c = Some c0 → 0 ≤ c0 ∧ ∀ u, u ∈ universal_var_ids s0 → u ≤ c0) →
  Z.abs g ∉ existential_var_ids s0 →
  (solve py_int oracle false fuel s0).1 ≠ Exc (SystemExit 1).
Proof.
  intros Hcontract Hinit Hpos Hcounter Hgate.
  destruct (universals_below_start _ _ _ _ _ _ _ _ _ Hinit Hcounter) as [Hc0 Hle].
  assert (run_inv s0 []) as Hinv.
  { eapply constructor_run_inv; [exact Hinit| |done..].
    intros u Hu. split; [by apply Hpos | by apply Hle]. }
  destruct (constructor_stall_inv _ _ _ _ _ _ _ _ _ Hinit) as [Hstall _].
  clear Hinit Hpos Hcounter Hgate Hc0 Hle. revert Hinv Hstall.
  generalize ([] : list (list Z * list Z)) as H. revert s0.
  induction fuel as [|fuel IH]; intros s H Hinv Hstall; [done|].
  rewrite solve_unfold.
  destruct (solve_iteration py_int oracle false s) as [rp s1] eqn:Hpass.
  pose proof (pass_no_stall py_int oracle Hcontract s H rp s1 Hinv Hstall Hpass) as Hns.
  destruct rp as [[b|]|err]; [done| |by intros [= ->]].
  destruct (pass_continues py_int oracle Hcontract false s H s1 Hinv Hpass)
    as (cx & Hinv1 & Hstall1).
  by apply (IH s1 (H ++ [cx])).
Qed.

Lemma solve_never_stalls_witness :
  (solve int_of_digits exhaustive_oracle false 2 Linear.solver).1 ≠ Exc (SystemExit 1).
Proof.
  apply (solve_never_stalls int_of_digits exhaustive_oracle
           Linear.name_to_id Linear.id_to_name Linear.dependencies Linear.matrix
           ["u"] 3 None ["e"] Linear.solver 2).
  - exact exhaustive_oracle_contract.
  - vm_compute. reflexivity.
  - intros u Hu. apply (bool_decide_unpack _). revert u Hu.
    apply Forall_forall. apply (bool_decide_unpack _). vm_compute. exact I.
  - intros c0 Hc0. discriminate Hc0.
  - apply (bool_decide_unpack _). vm_compute. exact I.
Defined.

(** X30.  [solve] decides the formula.  Let the SAT service meet its
    contract with cores that are unsatisfiable together with the clauses,
    let the ids of the formula be at most the watermark the counter starts
    from, and let the matrix define its gates: every assignment to the
    universals and existentials extends to a model of the matrix, and two
    models that agree on them agree on the output gate.  With logging below
    DEBUG, [solve] on the constructed solver returns, within
    [4^(|E| + |U|) + 1] passes, a truth value that is [True] exactly when
    the formula is true; when it is [True], the functions read off the
    final object are winning Skolem functions.  No exception is raised. *)
Theorem solve_decides_formula
    (py_int : string → option Z) (oracle : sat_oracle)
    (n2i : gmap string Z) (i2n : gmap Z string)
    (deps : list (string * list string)) (mat : list clause)
    (univs : list string) (g : Z) (c : option Counter.t) (order : list string)
    (s0 : DQBFSolver) :
  sat_contract oracle → sat_refutes oracle →
  __init__ n2i i2n deps mat univs g c order = Val s0 →
  0 ≤ counter_start n2i mat c →
  ids_below s0 (counter_start n2i mat c) →
  matrix_total s0 (counter_start n2i mat c) →
  matrix_functional s0 →
  Z.abs g ∉ existential_var_ids s0 →
  ∃ b s',
    (∀ fuel, (pass_bound s0 < fuel)%nat →
       solve py_int oracle false fuel s0 = (Val (Some b), s')) ∧
    (b = true ↔ dqbf_true s0) ∧
    (b = true → winning s0 (model_function s')).
Proof.
  intros Hcontract Hrefutes Hinit Hc0 Hids Htotal Hfun Hgate.
  assert (run_inv s0 []) as Hinv.
  { eapply constructor_run_inv; [exact Hinit| |done..]. apply Hids. }
  pose proof (constructor_sound_inv _ _ _ _ _ _ _ _ _ Hinit Hc0) as Hsound.
  destruct (constructor_stall_inv _ _ _ _ _ _ _ _ _ Hinit) as [Hstall Hload].
  set (n := S (pass_bound s0)).
  destruct (solve py_int oracle false n s0) as [r s'] eqn:Hrun.
  assert (r ≠ Val None) as Hended.
  { intros ->.
    pose proof (solve_running_counterexamples _ _ _ _ _ _ Hrun) as Hlen.
    destruct (counterexamples_new py_int oracle false Hcontract n s0 [] Hinv) as [_ Hnr].
    assert (length (counterexamples py_int oracle false n s0) ≤ pass_bound s0)%nat
      as Hbound; [|subst n; lia].
    apply no_repeats_bounded; [| |done].
    - intros cx l Hcx. by apply (counterexamples_over_ids _ _ _ _ _ _ Hcx).
    - intros cx l Hcx. by apply (counterexamples_over_ids _ _ _ _ _ _ Hcx). }
  assert (∀ fuel, (pass_bound s0 < fuel)%nat →
            solve py_int oracle false fuel s0 = (r, s')) as Hall.
  { intros fuel Hfuel. replace fuel with (n + (fuel - n))%nat by (subst n; lia).
    by apply solve_ended. }
  destruct (solve_decides py_int oracle Hcontract Hrefutes _ n s0 [] r s'
              Hinv Hsound Hids Htotal Hfun Hload Hstall Hrun)
    as [->|[[-> Hwin]|[-> Hno]]]; [done| |].
  - exists true, s'. split; [done|]. split; [|done].
    split; [intros _; by exists (model_function s')|done].
  - exists false, s'. split; [done|]. split; [|done].
    split; [done|]. intros Ht. by destruct Hno.
Qed.

Lemma solve_decides_formula_witness :
  ∃ b s',
    (∀ fuel, (pass_bound Linear.solver < fuel)%nat →
       solve int_of_digits exhaustive_oracle false fuel Linear.solver
       = (Val (Some b), s')) ∧
    (b = true ↔ dqbf_true Linear.solver) ∧
    (b = true → winning Linear.solver (model_function s')).
Proof.
  apply (solve_decides_formula int_of_digits exhaustive_oracle
           Linear.name_to_id Linear.id_to_name Linear.dependencies Linear.matrix
           ["u"] 3 None ["e"] Linear.solver).
  - exact exhaustive_oracle_contract.
  - exact exhaustive_oracle_refutes.
  - vm_compute. reflexivity.
  - apply (bool_decide_unpack _). vm_compute. exact I.
  - split; [|split; [|split]].
    + intros cl l Hcl. revert l. apply Forall_forall. revert cl Hcl.
      apply Forall_forall. apply (bool_decide_unpack _). vm_compute. exact I.
    + apply Forall_forall. apply (bool_decide_unpack _). vm_compute. exact I.
    + apply Forall_forall. apply (bool_decide_unpack _). vm_compute. exact I.
    + apply (bool_decide_unpack _). vm_compute. exact I.
  - apply matrix_totalb_sound.
    + apply Forall_forall. apply (bool_decide_unpack _). vm_compute. exact I.
    + vm_compute. reflexivity.
  - apply (matrix_functionalb_sound _ 3); [|vm_compute; reflexivity].
    split; [|split; [|split]].
    + intros cl l Hcl. revert l. apply Forall_forall. revert cl Hcl.
      apply Forall_forall. apply (bool_decide_unpack _). vm_compute. exact I.
    + apply Forall_forall. apply (bool_decide_unpack _). vm_compute. exact I.
    + apply Forall_forall. apply (bool_decide_unpack _). vm_compute. exact I.
    + apply (bool_decide_unpack _). vm_compute. exact I.
  - apply (bool_decide_unpack _). vm_compute. exact I.
Defined.
